(** * A request orchestration client: admission, key coordination,
      cancellation and retry

    Shallow embedding of [src/crazy.ts] (createHttpClient and its helpers).

    JavaScript numbers that count things (attempt indices, the in-flight
    counter, statuses, milliseconds of a clock) are integers [Z].  The
    backoff computation is carried out on Numbers as they are, IEEE 754
    binary64 values with the arithmetic of [SpecFloat]; what the host's
    [Math.random] and [Math.pow] return is given from outside.

    The event loop is modelled by explicit state passing.  The mutable
    variables of a client form a record; every synchronous stretch of code
    is a function on that record; and the points where the code is
    suspended ([await fetch], [await sleep], the reactions registered on a
    promise) are stored continuations, resumed by the inputs of the
    environment.  One input stands for one task of the event loop together
    with the microtasks that it queues.  Hooks and the application's own
    reactions on the returned promise are observers: they are taken not to
    call back into the client while such a task runs.

    Hook calls are recorded in a trace, with the call on whose behalf they
    happen, so that properties about how often something happens can be
    stated by counting. *)

From Stdlib Require Import ZArith QArith Qround Qabs Qpower Lia Lqa SpecFloat.
From stdpp Require Import base tactics option list strings gmap.

Local Open Scope string_scope.
Local Open Scope list_scope.
Local Open Scope Z_scope.

(** ** Values that cross the transport boundary *)

(** What a parser resolves with. *)
Inductive Parsed :=
| Json (value : string)
| Text (chars : string)
| Blob (bytes : string).

(** How a read of the body of a response settles.  [res.json()] rejects
    with a SyntaxError when the body is not JSON, and every read rejects
    with a TypeError when the body cannot be read (a stream that fails,
    a body already used). *)
Inductive BodyRead :=
| ReadOk (v : Parsed)
| ReadFails (name message : string).

Record Response := {
  status : Z;
  statusText : string;
  contentType : string;      (* res.headers.get("content-type") || "" *)
  json : BodyRead;           (* how res.json() settles *)
  text : BodyRead;           (* how res.text() settles *)
  blob : BodyRead            (* how res.blob() settles *)
}.

(** [res.ok]: the status is in the range 200..299. *)
Definition ok (res : Response) : bool :=
  (200 <=? status res) && (status res <=? 299).

(** The values the code throws or rejects with. *)
Inductive JsError :=
| DOMException (message name : string)
    (* new DOMException(message, name) *)
| FetchFailed
    (* the TypeError with which fetch rejects when no response exists *)
| HttpError (res : Response)
    (* new Error(`HTTP ${status} ${statusText}`) with .response = res *)
| DropError
    (* new Error("Request dropped due to maxInFlight limit") *)
| UndefinedProperty (prop : string)
    (* the TypeError of reading a property of undefined *)
| OtherError (name message : string)
    (* any other Error object, e.g. one a parser rejects with *)
| JsUndefined.
    (* the value undefined, thrown as such *)

(** [err?.name] *)
Definition errName (e : JsError) : option string :=
  match e with
  | DOMException _ n => Some n
  | FetchFailed => Some "TypeError"
  | HttpError _ => Some "Error"
  | DropError => Some "Error"
  | UndefinedProperty _ => Some "TypeError"
  | OtherError n _ => Some n
  | JsUndefined => None
  end.

(** Truthiness of a thrown value: every object is truthy, undefined is not. *)
Definition truthy (e : JsError) : bool :=
  match e with JsUndefined => false | _ => true end.

(** The four kinds of failure the design distinguishes. *)
Inductive ErrorKind := TransportKind | HttpStatusKind | CancellationKind | AdmissionDropKind.

Definition errKind (e : JsError) : option ErrorKind :=
  match e with
  | DOMException _ n => if String.eqb n "AbortError" then Some CancellationKind else None
  | FetchFailed => Some TransportKind
  | HttpError _ => Some HttpStatusKind
  | DropError => Some AdmissionDropKind
  | _ => None
  end.

(** A settled promise. *)
Inductive Outcome :=
| Fulfilled (v : Parsed)
| Rejected (e : JsError).

(** The promise that a read of the body returns, settled. *)
Definition settled (r : BodyRead) : Outcome :=
  match r with
  | ReadOk v => Fulfilled v
  | ReadFails name message => Rejected (OtherError name message)
  end.

(** What [await fetch(...)] produces. *)
Inductive FetchResult :=
| Responds (res : Response)
| FetchThrows (e : JsError).

(** ** Numbers

    A Number is an IEEE 754 binary64 value: a zero, an infinity, NaN, or a
    finite value [(-1)^s * m * 2^e].  Every operation is the exact one
    followed by a rounding to the nearest Number, ties to even. *)
Definition number : Type := spec_float.

Definition fmul : number -> number -> number := SFmul 53 1024.     (* x * y *)
Definition fadd : number -> number -> number := SFadd 53 1024.     (* x + y *)
Definition fsub : number -> number -> number := SFsub 53 1024.     (* x - y *)
Definition fdiv : number -> number -> number := SFdiv 53 1024.     (* x / y *)

(** The Number of an integer, as an integer literal or a loop counter
    gives it. *)
Definition num (n : Z) : number := binary_normalize 53 1024 n 0 false.

(** The literal [0.2]: the Number nearest to 2/10. *)
Definition twoTenths : number := fdiv (num 2) (num 10).



(** [Math.max(x, y)]: NaN when either is NaN, and [+0] above [-0]. *)
Definition Math_max (x y : number) : number :=
  match SFcompare x y with
  | None => S754_nan
  | Some Lt => y
  | Some Gt => x
  | Some Eq => match x with S754_zero true => y | _ => x end
  end.

(** [Math.round(x)]: the integral Number nearest to [x], the one toward
    plus infinity of two that are equally near; a result of zero keeps
    the sign of [x]; NaN and the infinities are returned as they are.  A
    finite Number with an exponent that is not negative is integral. *)
Definition Math_round (x : number) : number :=
  match x with
  | S754_finite s m e =>
      if 0 <=? e then x
      else match Qfloor (inject_Z (cond_Zopp s (Zpos m)) * 2 ^ e + (1 # 2)) with
           | 0 => S754_zero s
           | n => num n
           end
  | _ => x
  end.

(** What the computation takes from the host's [Math] object:
    [Math.random()], a Number of the interval [0, 1), here the draw of
    one call; and [Math.pow], which ECMAScript leaves to the host as an
    approximation of the power. *)
Record Math := {
  random : number;
  pow : number -> number -> number
}.

(** *** The format, for the properties *)

(** The number of bits of a mantissa. *)
Definition bits (m : Z) : Z := Zdigits2 m.

(** What a rounding returns: never NaN, a zero or an infinity of the sign
    asked for, or a finite Number of the format of that sign whose
    magnitude is below [2^k]. *)
Definition fits (s : bool) (k : Z) (x : number) : Prop :=
  match x with
  | S754_zero s' => s' = s
  | S754_finite s' m e => s' = s /\ bounded 53 1024 m e = true /\ bits (Zpos m) + e <= k
  | S754_infinity s' => s' = s /\ 1024 < k
  | S754_nan => False
  end.

(** [x] is finite and below [2^k] in absolute value. *)
Definition below (k : Z) (x : number) : Prop :=
  match x with
  | S754_zero _ => True
  | S754_finite _ m e => bits (Zpos m) + e <= k
  | S754_infinity _ | S754_nan => False
  end.



(** ** Retry policy and backoff *)

Record RetryPolicy := {
  attempts : Z;
  backoffBaseMs : option number;
  backoffFactor : option number;
  jitterRatio : option number;
  retryOn : option (option Response -> JsError -> bool)
}.

(** [calcBackoffDelay(attemptIndex, p)], with its constants [raw] and
    [jitterAmt].  The attempt index is the counter of the retry loop, an
    integer, and so is [Math.max(0, attemptIndex)]. *)
Definition rawDelay (attemptIndex : Z) (p : RetryPolicy) (math : Math) : number :=
  let base := default (num 150) (backoffBaseMs p) in
  let factor := default (num 2) (backoffFactor p) in
  fmul base (pow math factor (num (Z.max 0 attemptIndex))).

Definition jitterAmt (attemptIndex : Z) (p : RetryPolicy) (math : Math) : number :=
  let jitter := default twoTenths (jitterRatio p) in
  fmul (fmul (rawDelay attemptIndex p math) jitter)
       (fsub (fmul (random math) (num 2)) (num 1)).

Definition calcBackoffDelay (attemptIndex : Z) (p : RetryPolicy) (math : Math) : number :=
  Math_max (num 0)
    (Math_round (fadd (rawDelay attemptIndex p math) (jitterAmt attemptIndex p math))).

(** ** The default parser *)

(** [hay.includes(needle)] *)
Fixpoint includes (needle hay : string) : bool :=
  String.prefix needle hay ||
  match hay with
  | EmptyString => false
  | String _ rest => includes needle rest
  end.

(** [defaultParser(res)] returns the promise of one read of the body,
    chosen by the content type; the promise is given by how it settles. *)
Definition defaultParser (res : Response) : Outcome :=
  let ctype := contentType res in
  if includes "application/json" ctype then settled (json res)
  else if String.prefix "text/" ctype then settled (text res)
  else settled (blob res).

(** ** The retry loop of [runWithRetry] *)

(** [(err as any)?.name === "AbortError"] *)
Definition isAbort (err : JsError) : bool :=
  match errName err with
  | Some n => String.eqb n "AbortError"
  | None => false
  end.

(** The predicate used when the policy has no [retryOn]. *)
Definition defaultShouldRetry (res : option Response) (err : JsError) : bool :=
  if truthy err then true                    (* if (err) return true *)
  else match res with
       | None => true                        (* if (!res) return true *)
       | Some r => bool_decide (status r ∈ [502; 503; 504])
       end.

(** [p?.retryOn ?? default] *)
Definition shouldRetry (p : option RetryPolicy) : option Response -> JsError -> bool :=
  default defaultShouldRetry (p ≫= retryOn).

(** [p?.attempts ?? 1], the bound of the loop. *)
Definition loopBound (p : option RetryPolicy) : Z :=
  default 1 (attempts <$> p).

(** How one iteration of the loop ends once [doOnce()] has settled. *)
Inductive LoopStep :=
| Return (v : Parsed)          (* return await doOnce() *)
| Throw (e : JsError)          (* a throw out of the catch block *)
| Backoff (ms : number).       (* await sleep(ms), then the next iteration *)

(** Iteration [i] of the loop, given how [doOnce()] settled.  In the catch
    block the policy is read as [p!.attempts]: with no policy that read
    is a property access on undefined and throws a TypeError, before
    [shouldRetry] is called. *)
Definition iteration (p : option RetryPolicy) (i : nat) (r : Outcome) (math : Math) : LoopStep :=
  match r with
  | Fulfilled v => Return v
  | Rejected err =>
      if isAbort err then Throw err
      else match p with
           | None => Throw (UndefinedProperty "attempts")
           | Some pol =>
               if (Z.of_nat i <? attempts pol - 1) && shouldRetry p None err
               then Backoff (calcBackoffDelay (Z.of_nat i) pol math)
               else Throw err
           end
  end.

(** A run of the loop against a transport whose [n]-th call settles as
    [doOnce n], on a host whose [Math] object is [math n] at that call. *)
Record RetryRun := {
  result : Outcome;          (* how the promise of runWithRetry settles *)
  attemptsMade : nat;        (* calls of doOnce *)
  sleeps : list number       (* the backoff delays slept, in order *)
}.

Fixpoint retryLoop (fuel : nat) (p : option RetryPolicy)
    (doOnce : nat -> Outcome) (math : nat -> Math)
    (i : nat) (errLast : JsError) (slept : list number) : option RetryRun :=
  if Z.of_nat i <? loopBound p then
    match fuel with
    | O => None
    | S fuel' =>
        match iteration p i (doOnce i) (math i) with
        | Return v => Some {| result := Fulfilled v; attemptsMade := S i; sleeps := slept |}
        | Throw e => Some {| result := Rejected e; attemptsMade := S i; sleeps := slept |}
        | Backoff ms =>
            let err := match doOnce i with Rejected e => e | Fulfilled _ => errLast end in
            retryLoop fuel' p doOnce math (S i) err (slept ++ [ms])
        end
    end
  else Some {| result := Rejected errLast; attemptsMade := i; sleeps := slept |}.

(** [runWithRetry(doOnce, policy)] inside a client whose default policy is
    [configRetry]. *)
Definition runWithRetry (configRetry : option RetryPolicy)
    (doOnce : nat -> Outcome) (policy : option RetryPolicy) (math : nat -> Math)
  : option RetryRun :=
  let p := match policy with Some q => Some q | None => configRetry end in
  retryLoop (Z.to_nat (loopBound p)) p doOnce math 0 JsUndefined [].

(** ** Abort controllers and their signals

    A controller and its signal are one object of a store; an object is
    named by its index in the store. *)

(** The two closures the code registers for the "abort" event. *)
Inductive Listener :=
| OnAbort (target : nat)
    (* onAbort = () => controller.abort()   in combineSignals *)
| ForwardReason (target source : nat).
    (* () => keyController.abort(outerController.signal.reason) *)

Global Instance Listener_eq_dec : EqDecision Listener.
Proof. solve_decision. Defined.

Record AbortSignal := {
  aborted : bool;
  reason : JsError;                 (* undefined until the signal fires *)
  listeners : list Listener         (* in registration order *)
}.

Definition freshSignal : AbortSignal :=
  {| aborted := false; reason := JsUndefined; listeners := [] |}.

(** The reason of [abort()] called without an argument. *)
Definition defaultAbortReason : JsError :=
  DOMException "signal is aborted without reason" "AbortError".

(** [abort(reason)]: an argument that is undefined counts as none. *)
Definition abortArg (r : JsError) : JsError :=
  match r with JsUndefined => defaultAbortReason | _ => r end.

Definition isAborted (sigs : list AbortSignal) (id : nat) : bool :=
  match sigs !! id with Some s => aborted s | None => false end.

Definition reasonOf (sigs : list AbortSignal) (id : nat) : JsError :=
  match sigs !! id with Some s => reason s | None => JsUndefined end.

(** [controller.abort(r)]: nothing happens on a signal that has fired;
    otherwise the signal fires with the reason and its listeners run in
    registration order (each was registered with once: true).  A listener
    aborts a further controller, hence the recursion, bounded by [fuel]. *)
Fixpoint abort (fuel : nat) (sigs : list AbortSignal) (id : nat) (r : JsError)
  : list AbortSignal :=
  match fuel with
  | O => sigs
  | S fuel' =>
      match sigs !! id with
      | None => sigs
      | Some s =>
          if aborted s then sigs
          else
            foldl (fun acc l =>
                     match l with
                     | OnAbort target => abort fuel' acc target defaultAbortReason
                     | ForwardReason target source =>
                         abort fuel' acc target (abortArg (reasonOf acc source))
                     end)
                  (<[id := {| aborted := true; reason := abortArg r; listeners := [] |}]> sigs)
                  (listeners s)
      end
  end.

(** Every nested abort fires a signal that had not fired, so the nesting
    is no deeper than the store is long. *)
Definition abortSignal (sigs : list AbortSignal) (id : nat) (r : JsError)
  : list AbortSignal :=
  abort (S (length sigs)) sigs id r.

(** [s.addEventListener("abort", l, { once: true })]: registering the same
    closure again is ignored. *)
Definition addEventListener (sigs : list AbortSignal) (id : nat) (l : Listener)
  : list AbortSignal :=
  match sigs !! id with
  | None => sigs
  | Some s =>
      if bool_decide (l ∈ listeners s) then sigs
      else <[id := {| aborted := aborted s; reason := reason s;
                      listeners := listeners s ++ [l] |}]> sigs
  end.

(** The loop of [combineSignals] over the remaining inputs, [c] being the
    new controller. *)
Fixpoint combineLoop (sigs : list AbortSignal) (c : nat)
    (inputs : list (option nat)) : list AbortSignal :=
  match inputs with
  | [] => sigs
  | None :: rest => combineLoop sigs c rest               (* if (!s) continue *)
  | Some s :: rest =>
      if isAborted sigs s
      then abortSignal sigs c JsUndefined                 (* controller.abort(); break *)
      else combineLoop (addEventListener sigs s (OnAbort c)) c rest
  end.

(** [combineSignals(signals)]: the store afterwards and the new controller. *)
Definition combineSignals (sigs : list AbortSignal) (inputs : list (option nat))
  : list AbortSignal * nat :=
  let c := length sigs in
  (combineLoop (sigs ++ [freshSignal]) c inputs, c).

(** [new AbortController()] *)
Definition newAbortController (sigs : list AbortSignal) : list AbortSignal * nat :=
  (sigs ++ [freshSignal], length sigs).

(** The signals of the store that have not fired. *)
Fixpoint unfired (sigs : list AbortSignal) : nat :=
  match sigs with
  | [] => 0
  | s :: rest => (if aborted s then 0 else 1) + unfired rest
  end.

(** One step of the dispatch loop of [abort]. *)
Definition dispatch (fuel : nat) (acc : list AbortSignal) (l : Listener) : list AbortSignal :=
  match l with
  | OnAbort target => abort fuel acc target defaultAbortReason
  | ForwardReason target source => abort fuel acc target (abortArg (reasonOf acc source))
  end.

(** ** The client: configuration, per-call options and mutable state *)

Inductive QueueStrategy := fifo | lifo | drop.

Global Instance QueueStrategy_eq_dec : EqDecision QueueStrategy.
Proof. solve_decision. Defined.

Module ClientConfig.
Record t := {
  maxInFlight : option Z;
  queueStrategy : option QueueStrategy;
  defaultTimeoutMs : option Z;
  retry : option RetryPolicy;
  parser : option (Response -> Outcome)
}.
End ClientConfig.

Module RequestOptions.
Record t := {
  signal : option nat;               (* an AbortSignal of the store *)
  timeoutMs : option Z;
  key : option string;
  lastOneWins : bool;
  dedupe : bool;
  retry : option RetryPolicy;
  parser : option (Response -> Outcome)
}.
End RequestOptions.

(** The value kept in [inFlightByKey].  A promise is named by the call
    that created it. *)
Record KeyRecord := {
  controller : nat;
  resultPromise : nat;
  startedAt : Z
}.

(** Where the asynchronous code of a call is suspended. *)
Inductive Cont :=
| NotStarted
    (* task.run() has not been called *)
| AwaitFetch (i : nat) (start : Z) (ctl : nat)
    (* await fetch(...) in doFetch, in iteration i of runWithRetry; start
       is the clock read on entry, ctl the controller whose signal was
       handed to fetch *)
| AwaitSleep (i : nat) (ctl : nat) (errLast : JsError)
    (* await sleep(...) at the end of iteration i *)
| AwaitMicrotask (o : Outcome)
    (* runWithRetry has settled without suspending (its loop was not
       entered); the reactions of its promise are queued *)
| AwaitLeader (leader : nat)
    (* the reactions registered on active.resultPromise *)
| Finished.

(** One invocation of [request]: the variables its closures share. *)
Record Call := {
  url : string;
  options : RequestOptions.t;
  promise : option Outcome;           (* None while pending *)
  timeoutController : nat;
  timer : bool;                       (* the timeout timer is armed *)
  outerController : nat;
  cont : Cont
}.

(** What the trace records: the hook call sites reached (a hook that is
    not configured is simply not called there) and the operations whose
    number the properties count. *)
Inductive Event :=
| onEnqueue (key : option string)
| onStart (key : option string) (url : string)
| onFinish (key : option string) (url : string) (isOk : bool) (st : Z) (durationMs : Z)
| onDrop (key : option string)
| onError (err : JsError) (key : option string)
| taskRun (fromQueue : bool)     (* task.run(), from dequeue or from enqueue *)
| fetchCalled (ctl : nat)        (* the transport call *)
| slept (ms : number)            (* await sleep(ms) *)
| served (leader : nat)          (* attached to the promise of a key record *)
| released                       (* inFlight-- of a finally *)
| dequeueCalled.                 (* dequeue() of a finally *)

(** The mutable state created by [createHttpClient], the calls made so
    far, the store of signals, the clock, and the trace; an entry of the
    trace names the call on whose behalf the event happened. *)
Record Client := {
  inFlight : Z;
  queue : list nat;
  inFlightByKey : gmap string KeyRecord;
  calls : list Call;
  reactions : list (nat * nat);      (* (follower, leader), in registration order *)
  signals : list AbortSignal;
  now : Z;                           (* performance.now() *)
  trace : list (nat * Event)
}.

Definition init : Client :=
  {| inFlight := 0; queue := []; inFlightByKey := ∅; calls := [];
     reactions := []; signals := []; now := 0; trace := [] |}.

Definition withInFlight (n : Z) (s : Client) : Client :=
  {| inFlight := n; queue := queue s; inFlightByKey := inFlightByKey s;
     calls := calls s; reactions := reactions s; signals := signals s;
     now := now s; trace := trace s |}.

Definition withQueue (q : list nat) (s : Client) : Client :=
  {| inFlight := inFlight s; queue := q; inFlightByKey := inFlightByKey s;
     calls := calls s; reactions := reactions s; signals := signals s;
     now := now s; trace := trace s |}.

Definition withByKey (m : gmap string KeyRecord) (s : Client) : Client :=
  {| inFlight := inFlight s; queue := queue s; inFlightByKey := m;
     calls := calls s; reactions := reactions s; signals := signals s;
     now := now s; trace := trace s |}.

Definition withCalls (cs : list Call) (s : Client) : Client :=
  {| inFlight := inFlight s; queue := queue s; inFlightByKey := inFlightByKey s;
     calls := cs; reactions := reactions s; signals := signals s;
     now := now s; trace := trace s |}.

Definition withReactions (rs : list (nat * nat)) (s : Client) : Client :=
  {| inFlight := inFlight s; queue := queue s; inFlightByKey := inFlightByKey s;
     calls := calls s; reactions := rs; signals := signals s;
     now := now s; trace := trace s |}.

Definition withSignals (sigs : list AbortSignal) (s : Client) : Client :=
  {| inFlight := inFlight s; queue := queue s; inFlightByKey := inFlightByKey s;
     calls := calls s; reactions := reactions s; signals := sigs;
     now := now s; trace := trace s |}.

Definition withNow (t : Z) (s : Client) : Client :=
  {| inFlight := inFlight s; queue := queue s; inFlightByKey := inFlightByKey s;
     calls := calls s; reactions := reactions s; signals := signals s;
     now := t; trace := trace s |}.

Definition emit (rid : nat) (e : Event) (s : Client) : Client :=
  {| inFlight := inFlight s; queue := queue s; inFlightByKey := inFlightByKey s;
     calls := calls s; reactions := reactions s; signals := signals s;
     now := now s; trace := trace s ++ [(rid, e)] |}.

Definition setCont (k : Cont) (c : Call) : Call :=
  {| url := url c; options := options c; promise := promise c;
     timeoutController := timeoutController c; timer := timer c;
     outerController := outerController c; cont := k |}.

Definition setTimer (b : bool) (c : Call) : Call :=
  {| url := url c; options := options c; promise := promise c;
     timeoutController := timeoutController c; timer := b;
     outerController := outerController c; cont := cont c |}.

(** [resolveOuter] and [rejectOuter]: a promise settles once, later calls
    of its resolving functions do nothing. *)
Definition settlePromise (o : Outcome) (c : Call) : Call :=
  match promise c with
  | Some _ => c
  | None =>
      {| url := url c; options := options c; promise := Some o;
         timeoutController := timeoutController c; timer := timer c;
         outerController := outerController c; cont := cont c |}
  end.

Definition updCall (rid : nat) (f : Call -> Call) (s : Client) : Client :=
  withCalls (alter f rid (calls s)) s.

(** [key && ...]: the empty string is falsy, so it coordinates nothing. *)
Definition keyOf (o : RequestOptions.t) : option string :=
  match RequestOptions.key o with
  | Some k => if String.eqb k "" then None else Some k
  | None => None
  end.

(** ** The code of [createHttpClient] *)

Section Client.

Variable config : ClientConfig.t.

Definition maxInFlight : Z :=
  Z.max 0 (default 0 (ClientConfig.maxInFlight config)).

Definition strategy : QueueStrategy :=
  default fifo (ClientConfig.queueStrategy config).

Definition parse : Response -> Outcome :=
  default defaultParser (ClientConfig.parser config).

(** [options.retry ?? config.retry], which [runWithRetry] receives as
    [policy] and completes once more with [config.retry]. *)
Definition policyOf (o : RequestOptions.t) : option RetryPolicy :=
  match RequestOptions.retry o with
  | Some q => Some q
  | None => ClientConfig.retry config
  end.

(** [doFetch] up to its await: the start hook, then the transport call. *)
Definition doFetchStart (rid : nat) (c : Call) (ctl : nat) (i : nat) (s : Client) : Client :=
  let start := now s in
  let s := emit rid (onStart (RequestOptions.key (options c)) (url c)) s in
  let s := emit rid (fetchCalled ctl) s in
  updCall rid (setCont (AwaitFetch i start ctl)) s.

(** The head of the loop of [runWithRetry] at iteration [i]: either the
    next attempt, or the [throw errLast] behind the loop. *)
Definition loopHead (rid : nat) (c : Call) (ctl : nat) (i : nat) (errLast : JsError)
    (s : Client) : Client :=
  if Z.of_nat i <? loopBound (policyOf (options c))
  then doFetchStart rid c ctl i s
  else updCall rid (setCont (AwaitMicrotask (Rejected errLast))) s.

(** lastOneWins: abort any previous same-key request. *)
Definition supersede (c : Call) (s : Client) : Client :=
  match keyOf (options c) with
  | Some k =>
      if RequestOptions.lastOneWins (options c) then
        match inFlightByKey s !! k with
        | Some prev =>
            let sigs := abortSignal (signals s) (controller prev)
                          (DOMException "Replaced by newer request" "AbortError") in
            withByKey (delete k (inFlightByKey s)) (withSignals sigs s)
        | None => s
        end
      else s
  | None => s
  end.

(** dedupe: the promise of the record in flight under the same key. *)
Definition dedupeLeader (c : Call) (s : Client) : option nat :=
  match keyOf (options c) with
  | Some k =>
      if RequestOptions.dedupe (options c)
      then resultPromise <$> inFlightByKey s !! k
      else None
  | None => None
  end.

(** The controller used for fetch: with a key, a new key controller that
    the outer one aborts, combined with the outer one. *)
Definition effectiveController (c : Call) (s : Client) : Client * nat :=
  match keyOf (options c) with
  | Some _ =>
      let '(sigs1, kc) := newAbortController (signals s) in
      let sigs2 := addEventListener sigs1 (outerController c)
                     (ForwardReason kc (outerController c)) in
      let '(sigs3, ec) := combineSignals sigs2 [Some (outerController c); Some kc] in
      (withSignals sigs3 s, ec)
  | None => (s, outerController c)
  end.

(** [task.run()] *)
Definition runTask (fromQueue : bool) (rid : nat) (s : Client) : Client :=
  match calls s !! rid with
  | None => s
  | Some c =>
      let s := emit rid (taskRun fromQueue) (withInFlight (inFlight s + 1) s) in
      let s := supersede c s in
      match dedupeLeader c s with
      | Some leader =>
          let s := updCall rid (setCont (AwaitLeader leader)) s in
          emit rid (served leader) (withReactions (reactions s ++ [(rid, leader)]) s)
      | None =>
          let '(s, ec) := effectiveController c s in
          let s := loopHead rid c ec 0 JsUndefined s in
          match keyOf (options c) with
          | Some k =>
              withByKey (<[k := {| controller := ec; resultPromise := rid;
                                   startedAt := now s |}]> (inFlightByKey s)) s
          | None => s
          end
      end
  end.

(** [queue.shift()] and [queue.pop()]: the task taken and the queue left. *)
Definition shift (q : list nat) : option (nat * list nat) :=
  match q with
  | [] => None
  | task :: rest => Some (task, rest)
  end.

Definition pop (q : list nat) : option (nat * list nat) :=
  match reverse q with
  | [] => None
  | task :: rest => Some (task, reverse rest)
  end.

(** [dequeue()] *)
Definition dequeue (s : Client) : Client :=
  if negb (maxInFlight =? 0) && (maxInFlight <=? inFlight s) then s
  else
    match (if decide (strategy = lifo) then pop (queue s) else shift (queue s)) with
    | None => s
    | Some (task, rest) => runTask true task (withQueue rest s)
    end.

(** [enqueue(task)] *)
Definition enqueue (rid : nat) (c : Call) (s : Client) : Client :=
  if (maxInFlight =? 0) || (inFlight s <? maxInFlight) then runTask false rid s
  else if decide (strategy = drop) then
    let s := emit rid (onDrop (RequestOptions.key (options c))) s in
    updCall rid (settlePromise (Rejected DropError)) s
  else
    let s := emit rid (onEnqueue (RequestOptions.key (options c))) s in
    withQueue (queue s ++ [rid]) s.

(** [request(input, init, options)] *)
Definition request (input : string) (o : RequestOptions.t) (s : Client) : Client :=
  let rid := length (calls s) in
  let timeoutMs :=
    match RequestOptions.timeoutMs o with
    | Some t => Some t
    | None => ClientConfig.defaultTimeoutMs config
    end in
  let '(sigs1, tc) := newAbortController (signals s) in
  let armed := match timeoutMs with Some t => 0 <? t | None => false end in
  let '(sigs2, oc) := combineSignals sigs1 [RequestOptions.signal o; Some tc] in
  let c := {| url := input; options := o; promise := None;
              timeoutController := tc; timer := armed;
              outerController := oc; cont := NotStarted |} in
  enqueue rid c (withSignals sigs2 (withCalls (calls s ++ [c]) s)).

(** The reactions of a dedupe follower on the leader's promise: the then
    or the catch hands the leader's outcome to the follower's promise,
    the finally decrements the counter and calls dequeue. *)
Definition followerBody (o : Outcome) (s : Client) (f : nat) : Client :=
  let s := updCall f (fun c => setCont Finished (settlePromise o c)) s in
  let s := emit f released (withInFlight (inFlight s - 1) s) in
  emit f dequeueCalled s.

Definition followerSettle (o : Outcome) (s : Client) (f : nat) : Client :=
  dequeue (followerBody o s f).

(** The then or the catch on the promise of [runWithRetry]: the error
    hook for a rejection, then the call's own promise settles. *)
Definition settleOuter (rid : nat) (c : Call) (o : Outcome) (s : Client) : Client :=
  let s := match o with
           | Fulfilled _ => s
           | Rejected err => emit rid (onError err (RequestOptions.key (options c))) s
           end in
  updCall rid (fun c => setCont Finished (settlePromise o c)) s.

(** The followers whose reactions are registered on the promise of call
    [rid], in registration order; and the registry without them. *)
Definition followersOf (rid : nat) (s : Client) : list nat :=
  (filter (fun fl => fl.2 = rid) (reactions s)).*1.

Definition detach (rid : nat) (s : Client) : Client :=
  withReactions (filter (fun fl => fl.2 <> rid) (reactions s)) s.

(** The finally on the promise of [runWithRetry], up to its call of
    dequeue. *)
Definition finallyBody (rid : nat) (c : Call) (s : Client) : Client :=
  let s := emit rid released (withInFlight (inFlight s - 1) s) in
  let s := updCall rid (setTimer false) s in
  let s := match keyOf (options c) with
           | Some k => withByKey (delete k (inFlightByKey s)) s
           | None => s
           end in
  emit rid dequeueCalled s.

(** The promise of [runWithRetry] has settled with [o]: its reactions
    run, and, since the call's own promise settles there, so do the
    reactions of the followers attached to it.  These are separate
    microtasks of one drain of the microtask queue; the counter
    decrements and the dequeues happen in the order of the event loop, the
    leader's first, then the followers' in registration order, and
    nothing else that they do depends on the order. *)
Definition settle (rid : nat) (c : Call) (o : Outcome) (s : Client) : Client :=
  let followers := followersOf rid s in
  let s := detach rid (settleOuter rid c o s) in
  let s := dequeue (finallyBody rid c s) in
  foldl (followerSettle o) s followers.

(** What fetch delivers to a call whose signal is [ctl]: a fetch whose
    signal has fired rejects with the signal's reason, whatever the
    network did. *)
Definition fetchOutcome (s : Client) (ctl : nat) (r : FetchResult) : FetchResult :=
  if isAborted (signals s) ctl then FetchThrows (reasonOf (signals s) ctl) else r.

(** The rest of [doFetch] after its await: the finish hook, reached with a
    response only, ... *)
Definition doFetchFinish (rid : nat) (c : Call) (start : Z) (actual : FetchResult)
    (s : Client) : Client :=
  match actual with
  | Responds res =>
      let durationMs := now s - start in
      emit rid (onFinish (RequestOptions.key (options c)) (url c)
                         (ok res) (status res) durationMs) s
  | FetchThrows _ => s
  end.

(** ... and how the promise of [doFetch] settles: the error carrying the
    response for a status that is not ok, else as the promise that the
    chosen parser returns.  The body is taken to have arrived with the
    response: that promise settles in the microtasks of the same task. *)
Definition doFetchResult (c : Call) (actual : FetchResult) : Outcome :=
  match actual with
  | Responds res =>
      if ok res
      then default parse (RequestOptions.parser (options c)) res
      else Rejected (HttpError res)
  | FetchThrows e => Rejected e
  end.

(** The fetch of a call settles: the rest of [doFetch], then the iteration
    of the retry loop around it. *)
Definition fetchSettled (rid : nat) (r : FetchResult) (math : Math) (s : Client) : Client :=
  match calls s !! rid with
  | None => s
  | Some c =>
      match cont c with
      | AwaitFetch i start ctl =>
          let actual := fetchOutcome s ctl r in
          let attempt := doFetchResult c actual in
          let s := doFetchFinish rid c start actual s in
          match iteration (policyOf (options c)) i attempt math with
          | Return v => settle rid c (Fulfilled v) s
          | Throw e => settle rid c (Rejected e) s
          | Backoff ms =>
              let errLast := match attempt with Rejected e => e | Fulfilled _ => JsUndefined end in
              updCall rid (setCont (AwaitSleep i ctl errLast)) (emit rid (slept ms) s)
          end
      | _ => s
      end
  end.

(** The backoff timer fires: the loop goes to its next iteration. *)
Definition sleepDone (rid : nat) (s : Client) : Client :=
  match calls s !! rid with
  | None => s
  | Some c =>
      match cont c with
      | AwaitSleep i ctl errLast => loopHead rid c ctl (S i) errLast s
      | _ => s
      end
  end.

(** The queued reactions of a [runWithRetry] that settled at once. *)
Definition microtask (rid : nat) (s : Client) : Client :=
  match calls s !! rid with
  | None => s
  | Some c =>
      match cont c with
      | AwaitMicrotask o => settle rid c o s
      | _ => s
      end
  end.

(** The callback of the timeout timer. *)
Definition timeoutFires (rid : nat) (s : Client) : Client :=
  match calls s !! rid with
  | None => s
  | Some c =>
      if timer c then
        let sigs := abortSignal (signals s) (timeoutController c)
                      (DOMException "Timeout" "AbortError") in
        updCall rid (setTimer false) (withSignals sigs s)
      else s
  end.

(** [cancel()] of the handle returned by [request]. *)
Definition cancel (rid : nat) (s : Client) : Client :=
  match calls s !! rid with
  | None => s
  | Some c =>
      withSignals (abortSignal (signals s) (timeoutController c)
                     (DOMException "Cancelled" "AbortError")) s
  end.

(** What the environment does to a client. *)
Inductive Input :=
| CallRequest (input : string) (o : RequestOptions.t)
| FetchSettles (rid : nat) (r : FetchResult) (math : Math)
| SleepDone (rid : nat)
| Microtask (rid : nat)
| TimeoutFires (rid : nat)
| CancelCalled (rid : nat)
| NewController                                (* the application's new AbortController() *)
| AbortCalled (ctl : nat) (r : JsError)        (* the application's controller.abort(r) *)
| Tick (ms : Z).                               (* time passes *)

Definition step (s : Client) (e : Input) : Client :=
  match e with
  | CallRequest input o => request input o s
  | FetchSettles rid r math => fetchSettled rid r math s
  | SleepDone rid => sleepDone rid s
  | Microtask rid => microtask rid s
  | TimeoutFires rid => timeoutFires rid s
  | CancelCalled rid => cancel rid s
  | NewController => withSignals (newAbortController (signals s)).1 s
  | AbortCalled ctl r => withSignals (abortSignal (signals s) ctl r) s
  | Tick ms => withNow (now s + Z.max 0 ms) s
  end.

Definition run (s : Client) (es : list Input) : Client := foldl step s es.

Inductive reachable : Client -> Prop :=
| reachable_init : reachable init
| reachable_step s e : reachable s -> reachable (step s e).

End Client.

(** ** Reading a client *)

Definition promiseOf (s : Client) (rid : nat) : option Outcome :=
  calls s !! rid ≫= promise.

Definition contOf (s : Client) (rid : nat) : option Cont :=
  cont <$> calls s !! rid.

(** The events of one call, in order. *)
Definition eventsOf (rid : nat) (tr : list (nat * Event)) : list Event :=
  (filter (fun re => re.1 = rid) tr).*2.

Definition isFinish (e : Event) : bool :=
  match e with onFinish _ _ _ _ _ => true | _ => false end.
Definition isFetch (e : Event) : bool :=
  match e with fetchCalled _ => true | _ => false end.
Definition isSlept (e : Event) : bool :=
  match e with slept _ => true | _ => false end.
Definition isServed (e : Event) : bool :=
  match e with served _ => true | _ => false end.
Definition isRun (e : Event) : bool :=
  match e with taskRun _ => true | _ => false end.
Definition isReleased (e : Event) : bool :=
  match e with released => true | _ => false end.
Definition isDequeueCalled (e : Event) : bool :=
  match e with dequeueCalled => true | _ => false end.

(** How many of the events satisfy [p]; how many events of call [rid] in
    the trace do. *)
Definition cnt (p : Event -> bool) (evs : list Event) : nat :=
  length (filter (fun e => p e = true) evs).

Definition count (p : Event -> bool) (rid : nat) (tr : list (nat * Event)) : nat :=
  cnt p (eventsOf rid tr).

(** ** Sample hosts, policies, options and transports *)

(** A [Math.pow] that is exact wherever it is used here: the power of a
    finite Number to an integral Number that is not negative, rounded
    once. *)
Definition integralPower (x y : number) : number :=
  match y with
  | S754_zero _ => num 1
  | S754_finite false m e =>
      let n := Qfloor (inject_Z (Zpos m) * 2 ^ e) in
      match x with
      | S754_finite s mx ex =>
          if Qeq_bool (inject_Z n) (inject_Z (Zpos m) * 2 ^ e)
          then binary_round 53 1024 (s && Z.odd n) (Z.to_pos (Zpos mx ^ n)) (ex * n)
          else S754_nan
      | _ => S754_nan
      end
  | _ => S754_nan
  end.

(** A host whose random source draws one half. *)
Definition host : Math := {| random := fdiv (num 1) (num 2); pow := integralPower |}.

Definition policy150 : RetryPolicy :=
  {| attempts := 3; backoffBaseMs := Some (num 150); backoffFactor := Some (num 2);
     jitterRatio := Some (num 0); retryOn := None |}.

Definition twoAttempts : RetryPolicy :=
  {| attempts := 2; backoffBaseMs := None; backoffFactor := None;
     jitterRatio := Some (num 0); retryOn := None |}.

Definition response (st : Z) : Response :=
  {| status := st; statusText := ""; contentType := "application/json";
     json := ReadOk (Json "{}"); text := ReadOk (Text "{}"); blob := ReadOk (Blob "") |}.

(** A transport that answers 503 twice and then succeeds. *)
Definition failsTwice (n : nat) : Outcome :=
  match n with
  | 0%nat | 1%nat => Rejected (HttpError (response 503))
  | _ => Fulfilled (Json "{}")
  end.

(** A transport that answers 404 once and then succeeds. *)
Definition notFoundOnce (n : nat) : Outcome :=
  match n with
  | 0%nat => Rejected (HttpError (response 404))
  | _ => Fulfilled (Json "{}")
  end.

Definition plainConfig : ClientConfig.t :=
  {| ClientConfig.maxInFlight := None; ClientConfig.queueStrategy := None;
     ClientConfig.defaultTimeoutMs := None; ClientConfig.retry := None;
     ClientConfig.parser := None |}.

Definition noOptions : RequestOptions.t :=
  {| RequestOptions.signal := None; RequestOptions.timeoutMs := None;
     RequestOptions.key := None; RequestOptions.lastOneWins := false;
     RequestOptions.dedupe := false; RequestOptions.retry := None;
     RequestOptions.parser := None |}.

Definition retrying (p : RetryPolicy) : RequestOptions.t :=
  {| RequestOptions.signal := None; RequestOptions.timeoutMs := None;
     RequestOptions.key := None; RequestOptions.lastOneWins := false;
     RequestOptions.dedupe := false; RequestOptions.retry := Some p;
     RequestOptions.parser := None |}.

Definition keyed (k : string) (lastOneWins dedupe : bool) : RequestOptions.t :=
  {| RequestOptions.signal := None; RequestOptions.timeoutMs := None;
     RequestOptions.key := Some k; RequestOptions.lastOneWins := lastOneWins;
     RequestOptions.dedupe := dedupe; RequestOptions.retry := None;
     RequestOptions.parser := None |}.

(** The error with which [doFetch] rejects without reaching a parser. *)
Definition attemptError (r : FetchResult) : option JsError :=
  match r with
  | Responds res => if ok res then None else Some (HttpError res)
  | FetchThrows e => Some e
  end.

(** The signal of a timeout controller whose timer has fired. *)
Definition timedOut : AbortSignal :=
  {| aborted := true; reason := DOMException "Timeout" "AbortError"; listeners := [] |}.

(** ** Invariants of the reachable states *)

(** A call whose task runs its own attempts and has not settled. *)
Definition activeCont (k : Cont) : bool :=
  match k with
  | AwaitFetch _ _ _ | AwaitSleep _ _ _ | AwaitMicrotask _ => true
  | _ => false
  end.

(** How many calls run their own attempts; how many have a transport call
    outstanding. *)
Fixpoint nactive (cs : list Call) : nat :=
  match cs with
  | [] => 0
  | c :: rest => (if activeCont (cont c) then 1 else 0) + nactive rest
  end.

Definition isExecuting (k : Cont) : bool :=
  match k with AwaitFetch _ _ _ => true | _ => false end.

Fixpoint executing (cs : list Call) : nat :=
  match cs with
  | [] => 0
  | c :: rest => (if isExecuting (cont c) then 1 else 0) + executing rest
  end.

(** What the trace holds about one call, by where the call is suspended.
    [fs] are followers whose leader [L] has settled during the current
    event and whose own reactions have not run yet. *)
Definition contOk (L : nat) (fs : list nat) (s : Client) (r : nat) (c : Call)
    (evs : list Event) : Prop :=
  match cont c with
  | NotStarted =>
      cnt isRun evs = 0%nat /\ cnt isFetch evs = 0%nat /\ cnt isSlept evs = 0%nat /\
      cnt isServed evs = 0%nat /\ cnt isReleased evs = 0%nat /\
      cnt isDequeueCalled evs = 0%nat
  | AwaitFetch _ _ _ =>
      promise c = None /\ cnt isRun evs = 1%nat /\ cnt isServed evs = 0%nat /\
      cnt isReleased evs = 0%nat /\ cnt isDequeueCalled evs = 0%nat /\
      (cnt isFinish evs < cnt isFetch evs)%nat
  | AwaitSleep _ _ _ | AwaitMicrotask _ =>
      promise c = None /\ cnt isRun evs = 1%nat /\ cnt isServed evs = 0%nat /\
      cnt isReleased evs = 0%nat /\ cnt isDequeueCalled evs = 0%nat
  | AwaitLeader l =>
      promise c = None /\ cnt isRun evs = 1%nat /\ cnt isFetch evs = 0%nat /\
      cnt isSlept evs = 0%nat /\ cnt isReleased evs = 0%nat /\
      cnt isDequeueCalled evs = 0%nat /\
      (forall A, served A ∈ evs -> A = l) /\
      ((r, l) ∈ reactions s \/ (r ∈ fs /\ l = L))
  | Finished =>
      is_Some (promise c) /\ cnt isRun evs = 1%nat /\ cnt isReleased evs = 1%nat /\
      cnt isDequeueCalled evs = 1%nat /\
      (cnt isServed evs = 0%nat \/ (cnt isFetch evs = 0%nat /\ cnt isSlept evs = 0%nat)) /\
      (forall A, served A ∈ evs ->
                 exists o, promiseOf s A = Some o /\ promise c = Some o)
  end.

Definition callOk (L : nat) (fs : list nat) (s : Client) (r : nat) (c : Call) : Prop :=
  (cnt isFinish (eventsOf r (trace s)) <= cnt isFetch (eventsOf r (trace s)))%nat /\
  contOk L fs s r c (eventsOf r (trace s)).

(** The invariant.  Outside the settlement of a leader, [fs] is empty. *)
Record Inv (config : ClientConfig.t) (L : nat) (o : Outcome) (fs : list nat)
    (s : Client) : Prop := {
  inv_queue : forall r, r ∈ queue s ->
      exists c, calls s !! r = Some c /\ cont c = NotStarted /\ promise c = None;
  inv_queue_nodup : NoDup (queue s);
  inv_counter :
      inFlight s = Z.of_nat (nactive (calls s) + length (reactions s) + length fs);
  inv_capacity : maxInFlight config = 0 \/ inFlight s <= maxInFlight config;
  inv_reactions : forall f l, (f, l) ∈ reactions s ->
      (exists c, calls s !! f = Some c /\ cont c = AwaitLeader l) /\
      (exists c, calls s !! l = Some c /\ activeCont (cont c) = true);
  inv_followers_nodup : NoDup ((reactions s).*1 ++ fs);
  inv_records : forall k rec, inFlightByKey s !! k = Some rec ->
      exists c, calls s !! resultPromise rec = Some c /\
                activeCont (cont c) = true /\ keyOf (options c) = Some k;
  inv_orphans : forall f, f ∈ fs ->
      exists c, calls s !! f = Some c /\ cont c = AwaitLeader L;
  inv_leader : fs <> [] -> promiseOf s L = Some o;
  inv_calls : forall r c, calls s !! r = Some c -> callOk L fs s r c;
  inv_trace : forall r e, (r, e) ∈ trace s -> (r < length (calls s))%nat
}.

(** The rids of the tasks run from the queue, and of the tasks put on the
    queue, in the order of the trace. *)
Definition isRunFromQueue (re : nat * Event) : bool :=
  match re.2 with taskRun true => true | _ => false end.
Definition isEnqueue (re : nat * Event) : bool :=
  match re.2 with onEnqueue _ => true | _ => false end.

Definition dequeuedOrder (tr : list (nat * Event)) : list nat :=
  (filter (fun re => isRunFromQueue re = true) tr).*1.
Definition enqueuedOrder (tr : list (nat * Event)) : list nat :=
  (filter (fun re => isEnqueue re = true) tr).*1.

(** Since [s], only events other than the finish hook were added. *)
Definition noFinishSince (s s' : Client) : Prop :=
  exists evs, trace s' = trace s ++ evs /\ Forall (fun re => isFinish re.2 = false) evs.

(** How many events of the trace, of whatever call, satisfy [p]. *)
Definition total (p : Event -> bool) (tr : list (nat * Event)) : nat :=
  length (filter (fun re => p re.2 = true) tr).

(** ** The queue and the trace, abstractly

    What the admission controller does to the queue, the number of calls
    and the trace, as a sequence of moves: an event that is neither an
    enqueue hook nor a run from the queue is recorded; a call is created;
    a task is pushed on the tail with its enqueue hook; a task is taken
    from the head (ordered strategy) or from the tail (stack strategy)
    and run. *)
Inductive qmove (lifoPop : bool) :
  list nat * nat * list (nat * Event) -> list nat * nat * list (nat * Event) -> Prop :=
| qm_refl x : qmove lifoPop x x
| qm_emit q n tr r e y :
    isRunFromQueue (r, e) = false -> isEnqueue (r, e) = false ->
    qmove lifoPop (q, n, tr ++ [(r, e)]) y -> qmove lifoPop (q, n, tr) y
| qm_grow q n tr y :
    qmove lifoPop (q, S n, tr) y -> qmove lifoPop (q, n, tr) y
| qm_push q n tr r k y :
    (r < n)%nat ->
    qmove lifoPop (q ++ [r], n, tr ++ [(r, onEnqueue k)]) y -> qmove lifoPop (q, n, tr) y
| qm_shift task rest n tr y :
    lifoPop = false ->
    qmove lifoPop (rest, n, tr ++ [(task, taskRun true)]) y ->
    qmove lifoPop (task :: rest, n, tr) y
| qm_pop task rest n tr y :
    lifoPop = true ->
    qmove lifoPop (rest, n, tr ++ [(task, taskRun true)]) y ->
    qmove lifoPop (rest ++ [task], n, tr) y.

Definition abstract (s : Client) : list nat * nat * list (nat * Event) :=
  (queue s, length (calls s), trace s).

(** The tasks run from the queue so far, followed by the tasks waiting,
    are the tasks put on the queue, in that order. *)
Definition ordered (x : list nat * nat * list (nat * Event)) : Prop :=
  dequeuedOrder x.2 ++ x.1.1 = enqueuedOrder x.2.

(** Every task of the queue belongs to a call. *)
Definition queueOk (x : list nat * nat * list (nat * Event)) : Prop :=
  forall r, r ∈ x.1.1 -> (r < x.1.2)%nat.

(** Whether the client takes tasks from the tail of the queue. *)
Definition lifoPop (config : ClientConfig.t) : bool :=
  bool_decide (strategy config = lifo).

(** A client of capacity one, by queue strategy. *)
Definition capacityOne (qs : QueueStrategy) : ClientConfig.t :=
  {| ClientConfig.maxInFlight := Some 1; ClientConfig.queueStrategy := Some qs;
     ClientConfig.defaultTimeoutMs := None; ClientConfig.retry := None;
     ClientConfig.parser := None |}.

(** ** Notions for the further properties *)

(** The policy [runWithRetry] works with: [policy ?? config.retry]. *)
Definition effectivePolicy (configRetry policy : option RetryPolicy) : option RetryPolicy :=
  match policy with Some q => Some q | None => configRetry end.

(** The backoff delays slept before attempts [1 .. k]. *)
Definition backoffs (pol : RetryPolicy) (math : nat -> Math) (k : nat) : list number :=
  map (fun j => calcBackoffDelay (Z.of_nat j) pol (math j)) (seq 0 k).

(** Attempt [i] fails in a way the loop retries: not an abort, and the
    predicate agrees. *)
Definition retried (pol : RetryPolicy) (o : Outcome) : Prop :=
  exists e, o = Rejected e /\ isAbort e = false /\ shouldRetry (Some pol) None e = true.

(** Attempt [k] ends the loop: success, an abort, a failure the predicate
    does not retry, or the last attempt allowed. *)
Definition final (pol : RetryPolicy) (k : nat) (o : Outcome) : Prop :=
  match o with
  | Fulfilled _ => True
  | Rejected e =>
      isAbort e = true \/ shouldRetry (Some pol) None e = false \/
      Z.of_nat k = attempts pol - 1
  end.

(** The controller that a listener aborts. *)
Definition target (l : Listener) : nat :=
  match l with OnAbort t => t | ForwardReason t _ => t end.

Definition listenersOf (sigs : list AbortSignal) (a : nat) : list Listener :=
  match sigs !! a with Some s => listeners s | None => [] end.

(** Some listener of the store aborts [t] with a forwarded reason. *)
Definition forwardTarget (sigs : list AbortSignal) (t : nat) : Prop :=
  exists b src, ForwardReason t src ∈ listenersOf sigs b.

(** What a cascade of aborts does to a store: signals that had fired are
    untouched; signals that have not fired afterwards are untouched; a
    signal that fires loses its listeners, every controller they abort
    has fired afterwards, and its reason is the one given at the [root] of
    the cascade, or the default one, or one that a listener forwarded. *)
Record fires (root : nat -> JsError -> Prop) (sigs sigs' : list AbortSignal) : Prop := {
  fires_length : length sigs' = length sigs;
  fires_fired : forall a s, sigs !! a = Some s -> aborted s = true -> sigs' !! a = Some s;
  fires_unfired : forall a s', sigs' !! a = Some s' -> aborted s' = false -> sigs !! a = Some s';
  fires_new : forall a s s',
      sigs !! a = Some s -> aborted s = false -> sigs' !! a = Some s' -> aborted s' = true ->
      listeners s' = [] /\
      (forall l, l ∈ listeners s -> (target l < length sigs)%nat ->
                 isAborted sigs' (target l) = true) /\
      (root a (reason s') \/ reason s' = defaultAbortReason \/ forwardTarget sigs a)
}.

(** Signal [a] is linked to controller [t]: when [a] fires, [t] has
    fired. *)
Definition linked (sigs : list AbortSignal) (a t : nat) : Prop :=
  isAborted sigs t = true \/
  (isAborted sigs a = false /\ exists l, l ∈ listenersOf sigs a /\ target l = t).

(** The root of the cascade that a listener starts. *)
Definition rootOf (acc : list AbortSignal) (l : Listener) : nat * JsError :=
  match l with
  | OnAbort t => (t, defaultAbortReason)
  | ForwardReason t src => (t, abortArg (reasonOf acc src))
  end.

(** ** The life of one call

    What one event of the loop does to one call, as seen from the call:
    the call's variables before and after, and the events added to the
    trace on its behalf. *)

(** The call of the finish hook in [doFetch], reached with a response. *)
Definition finishEvents (c : Call) (start now : Z) (actual : FetchResult) : list Event :=
  match actual with
  | Responds res =>
      [onFinish (RequestOptions.key (options c)) (url c) (ok res) (status res) (now - start)]
  | FetchThrows _ => []
  end.

(** The call of the error hook in the catch on [runWithRetry]. *)
Definition errorEvents (c : Call) (o : Outcome) : list Event :=
  match o with
  | Fulfilled _ => []
  | Rejected err => [onError err (RequestOptions.key (options c))]
  end.

(** How [runWithRetry] settles when an iteration ends the loop. *)
Definition loopOutcome (st : LoopStep) : option Outcome :=
  match st with
  | Return v => Some (Fulfilled v)
  | Throw e => Some (Rejected e)
  | Backoff _ => None
  end.

(** [errLast = err] in the catch block. *)
Definition lastError (attempt : Outcome) : JsError :=
  match attempt with Rejected e => e | Fulfilled _ => JsUndefined end.

Inductive callStep (config : ClientConfig.t) :
  Call -> list Event -> Call -> list Event -> Prop :=
| cs_enqueued c evs :
    cont c = NotStarted -> promise c = None ->
    callStep config c evs c (evs ++ [onEnqueue (RequestOptions.key (options c))])
| cs_dropped c evs :
    cont c = NotStarted -> promise c = None ->
    callStep config c evs (settlePromise (Rejected DropError) c)
             (evs ++ [onDrop (RequestOptions.key (options c))])
| cs_attempt c evs b start ec :
    cont c = NotStarted -> promise c = None ->
    0 < loopBound (policyOf config (options c)) ->
    callStep config c evs (setCont (AwaitFetch 0 start ec) c)
             (evs ++ [taskRun b; onStart (RequestOptions.key (options c)) (url c);
                      fetchCalled ec])
| cs_noAttempt c evs b :
    cont c = NotStarted -> promise c = None ->
    loopBound (policyOf config (options c)) <= 0 ->
    callStep config c evs (setCont (AwaitMicrotask (Rejected JsUndefined)) c)
             (evs ++ [taskRun b])
| cs_served c evs b leader :
    cont c = NotStarted -> promise c = None ->
    callStep config c evs (setCont (AwaitLeader leader) c) (evs ++ [taskRun b; served leader])
| cs_backoff c evs i start ctl actual math now ms :
    cont c = AwaitFetch i start ctl ->
    iteration (policyOf config (options c)) i (doFetchResult config c actual) math = Backoff ms ->
    callStep config c evs
             (setCont (AwaitSleep i ctl (lastError (doFetchResult config c actual))) c)
             (evs ++ finishEvents c start now actual ++ [slept ms])
| cs_settled c evs i start ctl actual math now o :
    cont c = AwaitFetch i start ctl ->
    loopOutcome (iteration (policyOf config (options c)) i (doFetchResult config c actual) math)
    = Some o ->
    callStep config c evs
             (setTimer false (setCont Finished (settlePromise o c)))
             (evs ++ finishEvents c start now actual ++ errorEvents c o
                  ++ [released; dequeueCalled])
| cs_retry c evs i ctl errLast start :
    cont c = AwaitSleep i ctl errLast ->
    Z.of_nat (S i) < loopBound (policyOf config (options c)) ->
    callStep config c evs (setCont (AwaitFetch (S i) start ctl) c)
             (evs ++ [onStart (RequestOptions.key (options c)) (url c); fetchCalled ctl])
| cs_exhausted c evs i ctl errLast :
    cont c = AwaitSleep i ctl errLast ->
    loopBound (policyOf config (options c)) <= Z.of_nat (S i) ->
    callStep config c evs (setCont (AwaitMicrotask (Rejected errLast)) c) evs
| cs_thrown c evs o :
    cont c = AwaitMicrotask o ->
    callStep config c evs
             (setTimer false (setCont Finished (settlePromise o c)))
             (evs ++ errorEvents c o ++ [released; dequeueCalled])
| cs_followed c evs leader o :
    cont c = AwaitLeader leader ->
    callStep config c evs (setCont Finished (settlePromise o c))
             (evs ++ [released; dequeueCalled])
| cs_timeout c evs :
    timer c = true ->
    callStep config c evs (setTimer false c) evs.

(** The variables of a call and its events, as they can be: those of a
    call just created, or what a step makes of them. *)
Inductive lifeOf (config : ClientConfig.t) : Call -> list Event -> Prop :=
| life_born c : cont c = NotStarted -> promise c = None -> lifeOf config c []
| life_step c evs c' evs' :
    lifeOf config c evs -> callStep config c evs c' evs' -> lifeOf config c' evs'.

Definition lives (config : ClientConfig.t) (s : Client) : Prop :=
  forall r c, calls s !! r = Some c -> lifeOf config c (eventsOf r (trace s)).

Definition isStart (e : Event) : bool :=
  match e with onStart _ _ => true | _ => false end.
Definition isError (e : Event) : bool :=
  match e with onError _ _ => true | _ => false end.
Definition isDrop (e : Event) : bool :=
  match e with onDrop _ => true | _ => false end.
Definition isEnqueued (e : Event) : bool :=
  match e with onEnqueue _ => true | _ => false end.

(** What the events of a call hold about its attempts, by where the call
    is suspended; [bound] is the bound of the retry loop. *)
Definition attemptsOk (bound : Z) (c : Call) (evs : list Event) : Prop :=
  cnt isStart evs = cnt isFetch evs /\
  match cont c with
  | NotStarted | AwaitLeader _ => cnt isFetch evs = 0%nat /\ cnt isSlept evs = 0%nat
  | AwaitFetch i _ _ =>
      cnt isFetch evs = S i /\ cnt isSlept evs = i /\ Z.of_nat i < bound
  | AwaitSleep i _ _ =>
      cnt isFetch evs = S i /\ cnt isSlept evs = S i /\ Z.of_nat (S i) < bound
  | AwaitMicrotask _ =>
      cnt isFetch evs = 0%nat /\ cnt isSlept evs = 0%nat /\ bound <= 0
  | Finished =>
      (cnt isFetch evs = 0%nat /\ cnt isSlept evs = 0%nat) \/
      (cnt isFetch evs = S (cnt isSlept evs) /\ Z.of_nat (cnt isFetch evs) <= bound)
  end.

(** What the events of a call hold about the hooks of its end. *)
Definition endOk (c : Call) (evs : list Event) : Prop :=
  let key := RequestOptions.key (options c) in
  match cont c with
  | NotStarted =>
      cnt isError evs = 0%nat /\ cnt isServed evs = 0%nat /\ cnt isRun evs = 0%nat /\
      cnt isFetch evs = 0%nat /\
      ((promise c = None /\ cnt isDrop evs = 0%nat) \/
       (promise c = Some (Rejected DropError) /\ cnt isDrop evs = 1%nat))
  | AwaitFetch _ _ _ | AwaitSleep _ _ _ | AwaitMicrotask _ =>
      cnt isError evs = 0%nat /\ cnt isServed evs = 0%nat /\ cnt isDrop evs = 0%nat /\
      cnt isRun evs = 1%nat /\ promise c = None
  | AwaitLeader _ =>
      cnt isError evs = 0%nat /\ cnt isServed evs = 1%nat /\ cnt isDrop evs = 0%nat /\
      cnt isRun evs = 1%nat /\ promise c = None
  | Finished =>
      cnt isDrop evs = 0%nat /\ cnt isRun evs = 1%nat /\
      ((cnt isServed evs = 1%nat /\ cnt isError evs = 0%nat /\ is_Some (promise c)) \/
       (cnt isServed evs = 0%nat /\ timer c = false /\
        match promise c with
        | Some (Fulfilled _) => cnt isError evs = 0%nat
        | Some (Rejected e) => cnt isError evs = 1%nat /\ onError e key ∈ evs
        | None => False
        end))
  end /\
  (forall e k, onError e k ∈ evs -> promise c = Some (Rejected e) /\ k = key) /\
  (forall k, onDrop k ∈ evs -> k = key).

(** The options a call was made with. *)
Definition optionsOf (s : Client) (rid : nat) : option RequestOptions.t :=
  options <$> calls s !! rid.

(** ** Who waits

    The calls that have not started are the tasks of the queue, apart
    from the dropped ones; and tasks wait only while the counter is at the
    capacity.  [d] is 1 between the decrement of a finally and its call of
    dequeue, else 0. *)
Record waits (config : ClientConfig.t) (d : Z) (s : Client) : Prop := {
  waits_queued : forall r c,
      calls s !! r = Some c -> cont c = NotStarted -> promise c = None -> r ∈ queue s;
  waits_dropped : forall r c,
      calls s !! r = Some c -> cont c = NotStarted -> promise c <> None ->
      0 < maxInFlight config /\ strategy config = drop;
  waits_full :
      queue s <> [] -> 0 < maxInFlight config /\ maxInFlight config <= inFlight s + d
}.

(** Every listener of the store aborts a controller of the store. *)
Definition wired (sigs : list AbortSignal) : Prop :=
  forall a l, l ∈ listenersOf sigs a -> (target l < length sigs)%nat.

(** What creating controllers and registering listeners on behalf of new
    controllers does to a store: the signals that existed keep their
    state and their listeners, and every listener added aborts a
    controller that did not exist. *)
Record extends (sigs sigs' : list AbortSignal) : Prop := {
  ext_length : (length sigs <= length sigs')%nat;
  ext_old : forall a s, sigs !! a = Some s ->
      exists s', sigs' !! a = Some s' /\ aborted s' = aborted s /\ reason s' = reason s /\
                 forall l, l ∈ listeners s -> l ∈ listeners s';
  ext_new : forall a l, l ∈ listenersOf sigs' a ->
      l ∈ listenersOf sigs a \/ (length sigs <= target l < length sigs')%nat
}.

(** ** How the controllers of a call are wired *)

(** The controller whose signal the transport of a call was given. *)
Definition ctlOf (k : Cont) : option nat :=
  match k with
  | AwaitFetch _ _ ctl => Some ctl
  | AwaitSleep _ ctl _ => Some ctl
  | _ => None
  end.

Record callWired (s : Client) (c : Call) : Prop := {
  cw_timeout : (timeoutController c < outerController c)%nat;
  cw_outer : (outerController c < length (signals s))%nat;
  cw_cancel : linked (signals s) (timeoutController c) (outerController c);
  cw_signal : forall u,
      RequestOptions.signal (options c) = Some u -> (u < timeoutController c)%nat ->
      linked (signals s) u (outerController c);
  cw_plain : ~ forwardTarget (signals s) (outerController c);
  cw_fetch : forall ctl, ctlOf (cont c) = Some ctl ->
      (ctl < length (signals s))%nat /\ ~ forwardTarget (signals s) ctl /\
      (outerController c <= ctl)%nat /\
      (ctl = outerController c \/ linked (signals s) (outerController c) ctl)
}.

Record Wiring (s : Client) : Prop := {
  w_wired : wired (signals s);
  w_calls : forall rid c, calls s !! rid = Some c -> callWired s c;
  w_records : forall k rec c ctl,
      inFlightByKey s !! k = Some rec -> calls s !! resultPromise rec = Some c ->
      ctlOf (cont c) = Some ctl -> controller rec = ctl
}.

(** A call and its events, both untouched. *)
Definition kept (s s' : Client) (r : nat) : Prop :=
  calls s' !! r = calls s !! r /\ eventsOf r (trace s') = eventsOf r (trace s).

(** The three ways in which the code and its caller abort call [rid]: the
    handle's [cancel()], the callback of an armed timeout timer, and an
    abort of the caller's own signal, given in the options. *)
Definition abortsCall (rid : nat) (c : Call) (e : Input) : Prop :=
  e = CancelCalled rid \/
  (e = TimeoutFires rid /\ timer c = true) \/
  (exists u r, e = AbortCalled u r /\ RequestOptions.signal (options c) = Some u /\
               (u < timeoutController c)%nat).

(** A call with a caller's signal and a timeout. *)
Definition guarded (u : nat) (ms : Z) (k : string) : RequestOptions.t :=
  {| RequestOptions.signal := Some u; RequestOptions.timeoutMs := Some ms;
     RequestOptions.key := Some k; RequestOptions.lastOneWins := false;
     RequestOptions.dedupe := false; RequestOptions.retry := None;
     RequestOptions.parser := None |}.

(** The signals that have fired keep their state and their reason. *)
Definition grows (sigs sigs' : list AbortSignal) : Prop :=
  forall a sg, sigs !! a = Some sg -> aborted sg = true ->
    exists sg', sigs' !! a = Some sg' /\ aborted sg' = true /\ reason sg' = reason sg.

(** ** Releases *)

(** The tasks that [m] calls of dequeue in a row take from a queue [q]
    when nothing stops them, in the order in which they are taken, and
    the tasks that they leave waiting: the head first under the ordered
    strategy, the tail first under the stack strategy. *)
Definition taken (lifoPop : bool) (m : nat) (q : list nat) : list nat :=
  take m (if lifoPop then reverse q else q).

Definition waiting (lifoPop : bool) (m : nat) (q : list nat) : list nat :=
  if lifoPop then take (length q - m) q else skipn m q.

(** A client of capacity two, with the ordered strategy. *)
Definition capacityTwo : ClientConfig.t :=
  {| ClientConfig.maxInFlight := Some 2; ClientConfig.queueStrategy := Some fifo;
     ClientConfig.defaultTimeoutMs := None; ClientConfig.retry := None;
     ClientConfig.parser := None |}.

(* ===================================================================== *)
(** * Properties *)
(* ===================================================================== *)

(** ** Numbers *)

Lemma digits2_size (p : positive) : digits2_pos p = Pos.size p.
Proof. induction p; simpl; congruence. Qed.

Lemma bits_pos (p : positive) : bits (Zpos p) = Z.log2 (Zpos p) + 1.
Proof.
  unfold bits. simpl. rewrite digits2_size. destruct p; simpl; lia.
Qed.

Lemma bits_nonneg (m : Z) : 0 <= bits m.
Proof. destruct m; simpl; lia. Qed.

Lemma bits_positive (p : positive) : 1 <= bits (Zpos p).
Proof. simpl. lia. Qed.

Lemma bits_shiftr (m n : Z) : 0 <= m -> 0 <= n -> bits (Z.shiftr m n) = Z.max 0 (bits m - n).
Proof.
  intros Hm Hn. destruct m as [| p |]; [| | lia].
  - rewrite Z.shiftr_0_l. simpl. lia.
  - rewrite bits_pos. destruct (Z.le_gt_cases n (Z.log2 (Zpos p))) as [Hle | Hgt].
    + assert (Hpos : 0 < Z.shiftr (Zpos p) n).
      { rewrite Z.shiftr_div_pow2 by exact Hn.
        apply Z.div_str_pos. split; [apply Z.pow_pos_nonneg; lia |].
        etransitivity; [apply Z.pow_le_mono_r; [lia | exact Hle] |].
        apply Z.log2_spec. lia. }
      destruct (Z.shiftr (Zpos p) n) as [| q |] eqn:Hq; try lia.
      rewrite bits_pos, <- Hq, Z.log2_shiftr by lia.
      lia.
    + rewrite Z.shiftr_eq_0 by lia. change (bits 0) with 0. lia.
Qed.

Lemma bits_le (a b : Z) : 0 <= a <= b -> bits a <= bits b.
Proof.
  intros [Ha Hab]. destruct a as [| p |]; [apply bits_nonneg | | lia].
  destruct b as [| q |]; try lia. rewrite !bits_pos.
  pose proof (Z.log2_le_mono (Zpos p) (Zpos q) Hab). lia.
Qed.

Lemma bits_succ (a : Z) : 0 <= a -> bits (a + 1) <= bits a + 1.
Proof.
  intros Ha. destruct a as [| p |]; [simpl; lia | | lia].
  change (Zpos p + 1) with (Z.succ (Zpos p)).
  destruct (Z.succ (Zpos p)) as [| q |] eqn:Hq; try lia.
  rewrite !bits_pos, <- Hq. pose proof (Z.log2_succ_le (Zpos p)). lia.
Qed.


Lemma bits_iter_xO (p q : positive) : bits (Zpos (Pos.iter xO p q)) = bits (Zpos p) + Zpos q.
Proof.
  induction q as [| q IH] using Pos.peano_ind.
  - simpl. lia.
  - rewrite Pos.iter_succ. change (bits (Zpos (Pos.iter xO p q)~0))
      with (Zpos (Pos.succ (digits2_pos (Pos.iter xO p q)))).
    unfold bits in *. cbn [Zdigits2] in *. lia.
Qed.


(** Shifting a mantissa to the right. *)
Lemma shr_1_m (r : shr_record) : 0 <= shr_m r -> shr_m (shr_1 r) = Z.div2 (shr_m r).
Proof. destruct r as [[| [p | p |] | p] b c]; simpl; intros H; try reflexivity; lia. Qed.

Lemma iter_shr_m (p : positive) (r : shr_record) :
  0 <= shr_m r -> shr_m (SpecFloat.iter_pos shr_1 p r) = Z.shiftr (shr_m r) (Zpos p).
Proof.
  revert r. induction p as [p IH | p IH |]; intros r Hr; simpl SpecFloat.iter_pos.
  - assert (H1 : 0 <= shr_m (shr_1 r)).
    { rewrite shr_1_m, Z.div2_spec by exact Hr. apply Z.shiftr_nonneg, Hr. }
    assert (H2 : 0 <= shr_m (SpecFloat.iter_pos shr_1 p (shr_1 r))).
    { rewrite IH by exact H1. apply Z.shiftr_nonneg, H1. }
    rewrite IH, IH, shr_1_m, Z.div2_spec, !Z.shiftr_shiftr by (assumption || lia).
    f_equal. lia.
  - assert (H2 : 0 <= shr_m (SpecFloat.iter_pos shr_1 p r)).
    { rewrite IH by exact Hr. apply Z.shiftr_nonneg, Hr. }
    rewrite IH, IH, !Z.shiftr_shiftr by (assumption || lia). f_equal. lia.
  - rewrite shr_1_m, Z.div2_spec by exact Hr. reflexivity.
Qed.

Lemma shr_record_of_loc_m (m : Z) (l : location) : shr_m (shr_record_of_loc m l) = m.
Proof. destruct l as [| []]; reflexivity. Qed.

Lemma shr_fexp_m (m e : Z) (l : location) :
  0 <= m ->
  let n := Z.max 0 (fexp 53 1024 (bits m + e) - e) in
  shr_m (shr_fexp 53 1024 m e l).1 = Z.shiftr m n /\ (shr_fexp 53 1024 m e l).2 = e + n.
Proof.
  intros Hm n. unfold shr_fexp, shr. fold (bits m). subst n.
  destruct (fexp 53 1024 (bits m + e) - e) as [| p | p] eqn:Hn; simpl.
  - rewrite shr_record_of_loc_m. split; [reflexivity | lia].
  - rewrite iter_shr_m by (rewrite shr_record_of_loc_m; exact Hm).
    rewrite shr_record_of_loc_m. split; reflexivity.
  - rewrite shr_record_of_loc_m. split; [reflexivity | lia].
Qed.

Lemma round_nearest_even_bounds (m : Z) (l : location) :
  m <= round_nearest_even m l <= m + 1.
Proof. destruct l as [| []]; simpl; try destruct (Z.even m); lia. Qed.

Lemma fexp_eq (e : Z) : fexp 53 1024 e = Z.max (e - 53) (-1074).
Proof. reflexivity. Qed.

Lemma bounded_spec (m : positive) (e : Z) :
  bounded 53 1024 m e = true <-> fexp 53 1024 (bits (Zpos m) + e) = e /\ e <= 971.
Proof.
  unfold bounded, canonical_mantissa. rewrite andb_true_iff, Z.eqb_eq, Z.leb_le. reflexivity.
Qed.

Lemma binary_round_aux_fits (s : bool) (mx : positive) (ex : Z) (lx : location) :
  ex <= fexp 53 1024 (bits (Zpos mx) + ex) ->
  fits s (Z.max (bits (Zpos mx) + ex + 1) (-1073)) (binary_round_aux 53 1024 s (Zpos mx) ex lx).
Proof.
  intros Hpre. unfold binary_round_aux.
  destruct (shr_fexp_m (Zpos mx) ex lx ltac:(lia)) as [Hm1 He1].
  destruct (shr_fexp 53 1024 (Zpos mx) ex lx) as [mrs1 e1]. simpl in Hm1, He1.
  set (m2 := round_nearest_even (shr_m mrs1) (loc_of_shr_record mrs1)).
  assert (Hm1nn : 0 <= shr_m mrs1) by (rewrite Hm1; apply Z.shiftr_nonneg; lia).
  pose proof (round_nearest_even_bounds (shr_m mrs1) (loc_of_shr_record mrs1)) as Hm2.
  fold m2 in Hm2.
  destruct (shr_fexp_m m2 e1 loc_Exact ltac:(lia)) as [Hm3 He3].
  destruct (shr_fexp 53 1024 m2 e1 loc_Exact) as [mrs2 e2]. simpl in Hm3, He3.
  assert (Hd1 : bits (shr_m mrs1)
                = Z.max 0 (bits (Zpos mx) - Z.max 0 (fexp 53 1024 (bits (Zpos mx) + ex) - ex))).
  { rewrite Hm1. apply bits_shiftr; lia. }
  assert (Hd2 : bits (shr_m mrs1) <= bits m2 <= bits (shr_m mrs1) + 1).
  { split; [apply bits_le; lia |].
    etransitivity; [apply (bits_le m2 (shr_m mrs1 + 1)); lia | apply bits_succ, Hm1nn]. }
  assert (Hd3 : bits (shr_m mrs2) = Z.max 0 (bits m2 - Z.max 0 (fexp 53 1024 (bits m2 + e1) - e1))).
  { rewrite Hm3. apply bits_shiftr; lia. }
  pose proof (bits_positive mx) as Hdx.
  rewrite !fexp_eq in *.
  change (Z.pos (digits2_pos mx)) with (bits (Z.pos mx)) in *.
  destruct (shr_m mrs2) as [| m |] eqn:Hm.
  - reflexivity.
  - assert (Hcan : Z.max (bits (Zpos m) + e2 - 53) (-1074) = e2 /\
                   bits (Zpos m) + e2 <= Z.max (bits (Zpos mx) + ex + 1) (-1073)).
    { pose proof (bits_positive m). lia. }
    change (1024 - 53) with 971. destruct (e2 <=? 971) eqn:Hle.
    + apply Z.leb_le in Hle. cbv beta iota delta [fits].
      split; [reflexivity |]. split; [| apply Hcan].
      apply bounded_spec. rewrite fexp_eq. split; [apply Hcan | exact Hle].
    + apply Z.leb_gt in Hle. cbv beta iota delta [fits]. split; [reflexivity |]. lia.
  - assert (0 <= Z.shiftr m2 (Z.max 0 (Z.max (bits m2 + e1 - 53) (-1074) - e1)))
      by (apply Z.shiftr_nonneg; lia).
    lia.
Qed.

Lemma fits_mono (s : bool) (k k' : Z) (x : number) : k <= k' -> fits s k x -> fits s k' x.
Proof. destruct x; simpl; intros Hk H; intuition lia. Qed.


Lemma binary_round_fits (s : bool) (m : positive) (e : Z) :
  fits s (Z.max (bits (Zpos m) + e + 1) (-1073)) (binary_round 53 1024 s m e).
Proof.
  unfold binary_round, shl_align.
  change (Z.pos (digits2_pos m)) with (bits (Z.pos m)).
  destruct (fexp 53 1024 (bits (Z.pos m) + e) - e) as [| q | q] eqn:Hs.
  - apply binary_round_aux_fits. lia.
  - apply binary_round_aux_fits. lia.
  - eapply fits_mono; [| apply binary_round_aux_fits].
    + rewrite bits_iter_xO. lia.
    + rewrite bits_iter_xO.
      replace (bits (Z.pos m) + Z.pos q + fexp 53 1024 (bits (Z.pos m) + e))
        with (bits (Z.pos m) + e) by lia.
      lia.
Qed.

Lemma binary_normalize_fits (z e : Z) :
  fits (z <? 0) (Z.max (bits z + e + 1) (-1073)) (binary_normalize 53 1024 z e false).
Proof.
  destruct z as [| p | p]; simpl binary_normalize.
  - reflexivity.
  - apply binary_round_fits.
  - apply (binary_round_fits true p e).
Qed.










(** ** The value of a Number *)










(** ** Numbers that stay finite *)

Lemma below_mono (k k' : Z) (x : number) : k <= k' -> below k x -> below k' x.
Proof. destruct x; simpl; intros Hk H; try exact H. lia. Qed.

Lemma fits_below (s : bool) (k : Z) (x : number) : fits s k x -> k <= 1024 -> below k x.
Proof. destruct x; simpl; intros H Hk; try exact I; lia. Qed.



Lemma shl_align_bits (m : positive) (e e' : Z) :
  e' <= e -> bits (Zpos (shl_align m e e').1) + e' = bits (Zpos m) + e.
Proof.
  intros He. unfold shl_align. destruct (e' - e) as [| q | q] eqn:Hq; cbn [fst]; try lia.
  rewrite bits_iter_xO. lia.
Qed.

Lemma bits_opp (z : Z) : bits (- z) = bits z.
Proof. destruct z; reflexivity. Qed.

Lemma bits_sum (a b z : Z) :
  0 <= a -> 0 <= b -> Z.abs z <= a + b -> bits z <= Z.max (bits a) (bits b) + 1.
Proof.
  intros Ha Hb Hz.
  assert (Habs : bits z = bits (Z.abs z)).
  { destruct z; reflexivity. }
  rewrite Habs.
  assert (Hmax : bits (2 * Z.max a b) <= bits (Z.max a b) + 1).
  { destruct (Z.max a b) as [| p |] eqn:Hp; [simpl; lia | | lia].
    change (2 * Zpos p) with (Zpos p~0). unfold bits. simpl. lia. }
  etransitivity; [apply (bits_le (Z.abs z) (2 * Z.max a b)); lia |].
  etransitivity; [exact Hmax |].
  destruct (Z.max_spec a b) as [[_ ->] | [_ ->]]; lia.
Qed.

Lemma sum_below (kx ky : Z) (sx sy t : bool) (mx my : positive) (ex ey : Z) :
  bits (Zpos mx) + ex <= kx -> bits (Zpos my) + ey <= ky -> Z.max kx ky + 2 <= 1024 ->
  let ez := Z.min ex ey in
  let z := cond_Zopp sx (Zpos (shl_align mx ex ez).1)
           + cond_Zopp t (cond_Zopp sy (Zpos (shl_align my ey ez).1)) in
  below (Z.max (Z.max kx ky + 2) (-1073)) (binary_normalize 53 1024 z ez false).
Proof.
  intros Bx By Hk ez z.
  pose proof (shl_align_bits mx ex ez ltac:(unfold ez; lia)) as Ha.
  pose proof (shl_align_bits my ey ez ltac:(unfold ez; lia)) as Hb.
  set (a := Zpos (shl_align mx ex ez).1) in *. set (b := Zpos (shl_align my ey ez).1) in *.
  assert (Hz : bits z <= Z.max (bits a) (bits b) + 1).
  { apply bits_sum; [unfold a; lia | unfold b; lia |].
    unfold z. destruct sx, sy, t; simpl; unfold a, b; lia. }
  eapply below_mono; [| eapply fits_below; [apply binary_normalize_fits |]]; lia.
Qed.

Lemma fadd_below (kx ky : Z) (x y : number) :
  below kx x -> below ky y -> Z.max kx ky + 2 <= 1024 ->
  below (Z.max (Z.max kx ky + 2) (-1073)) (fadd x y).
Proof.
  intros Bx By Hk.
  destruct x as [sx | sx | | sx mx ex], y as [sy | sy | | sy my ey];
    try contradiction; cbn [below] in Bx, By.
  - destruct sx, sy; exact I.
  - unfold fadd, SFadd, below. lia.
  - unfold fadd, SFadd, below. lia.
  - pose proof (sum_below kx ky sx sy false mx my ex ey Bx By Hk) as H. exact H.
Qed.




(** ** Backoff *)




Lemma Math_max_nan (x : number) : Math_max x S754_nan = S754_nan.
Proof. destruct x; reflexivity. Qed.




(** ** The retry loop *)

(** The loop always ends: it is entered at most [p?.attempts ?? 1] times. *)
Lemma retryLoop_total (p : option RetryPolicy) (doOnce : nat -> Outcome) (math : nat -> Math)
    (fuel i : nat) (errLast : JsError) (slept : list number) :
  loopBound p <= Z.of_nat (fuel + i) ->
  is_Some (retryLoop fuel p doOnce math i errLast slept).
Proof.
  revert i errLast slept. induction fuel as [| fuel IH]; intros i errLast slept Hb; simpl.
  - destruct (Z.ltb_spec (Z.of_nat i) (loopBound p)); [lia | eauto].
  - destruct (Z.ltb_spec (Z.of_nat i) (loopBound p)); [| eauto].
    destruct (iteration p i (doOnce i) (math i)); eauto.
    apply IH. lia.
Qed.

Lemma runWithRetry_total (configRetry policy : option RetryPolicy)
    (doOnce : nat -> Outcome) (math : nat -> Math) :
  is_Some (runWithRetry configRetry doOnce policy math).
Proof. unfold runWithRetry. apply retryLoop_total. lia. Qed.

Lemma iteration_no_policy (i : nat) (e : JsError) (math : Math) :
  isAbort e = false ->
  iteration None i (Rejected e) math = Throw (UndefinedProperty "attempts").
Proof. intros H. unfold iteration. rewrite H. reflexivity. Qed.

Lemma doFetchResult_error (config : ClientConfig.t) (c : Call) (r : FetchResult) (e : JsError) :
  attemptError r = Some e -> doFetchResult config c r = Rejected e.
Proof.
  destruct r as [res | e']; simpl.
  - destruct (ok res); [discriminate | congruence].
  - congruence.
Qed.

(** C1.  What the code does where the claim fails: with no retry policy
    at either level, a single attempt that fails with an error [e] other
    than an abort rejects the caller's promise with the TypeError of
    reading [attempts] of undefined, not with [e]. *)
Theorem no_policy_failure_is_masked (r : FetchResult) (e : JsError) (math : Math) :
  attemptError r = Some e ->
  isAbort e = false ->
  promiseOf (run plainConfig init [CallRequest "/a" noOptions; FetchSettles 0 r math]) 0
  = Some (Rejected (UndefinedProperty "attempts")) /\
  runWithRetry None (fun _ => Rejected e) None (fun _ => math)
  = Some {| result := Rejected (UndefinedProperty "attempts"); attemptsMade := 1; sleeps := [] |}.
Proof.
  intros Hr He. split.
  - unfold run. simpl foldl.
    set (s1 := request plainConfig "/a" noOptions init).
    vm_compute in s1. subst s1.
    unfold fetchSettled. simpl calls. simpl lookup. cbv iota beta. simpl cont. cbv iota beta.
    change (fetchOutcome _ 1 r) with r.
    rewrite (doFetchResult_error _ _ _ _ Hr).
    simpl options. simpl policyOf. rewrite iteration_no_policy by exact He.
    destruct r; reflexivity.
  - unfold runWithRetry. simpl. rewrite He. reflexivity.
Qed.

Lemma no_policy_failure_is_masked_witness :
  attemptError (Responds (response 404)) = Some (HttpError (response 404)) /\
  isAbort (HttpError (response 404)) = false /\
  promiseOf (run plainConfig init
               [CallRequest "/a" noOptions; FetchSettles 0 (Responds (response 404)) host]) 0
  = Some (Rejected (UndefinedProperty "attempts")) /\
  Rejected (UndefinedProperty "attempts") <> Rejected (HttpError (response 404)) /\
  errKind (HttpError (response 404)) = Some HttpStatusKind /\
  errKind (UndefinedProperty "attempts") = None.
Proof.
  split; [reflexivity |]. split; [reflexivity |].
  split; [| split; [discriminate | split; reflexivity]].
  apply (no_policy_failure_is_masked (Responds (response 404)) (HttpError (response 404))
           host); reflexivity.
Defined.

(** The default predicate as the loop calls it, without a response. *)
Lemma defaultShouldRetry_without_response (err : JsError) :
  defaultShouldRetry None err = true.
Proof. unfold defaultShouldRetry. destruct (truthy err); reflexivity. Qed.

(** The default predicate would look at the status, were it handed the
    response and no error. *)
Lemma defaultShouldRetry_status (res : Response) :
  defaultShouldRetry (Some res) JsUndefined = true <-> status res ∈ [502; 503; 504].
Proof. unfold defaultShouldRetry. simpl. apply bool_decide_eq_true. Qed.

(** C2.  What the code does where the claim fails: under the default
    predicate a failure carrying a response of any status, 404 as much as
    503, is retried while attempts remain, because the loop hands the
    predicate the error and never the response. *)
Theorem default_predicate_retries_any_status
    (pol : RetryPolicy) (res : Response) (i : nat) (math : Math) :
  retryOn pol = None ->
  Z.of_nat i < attempts pol - 1 ->
  shouldRetry (Some pol) None (HttpError res) = true /\
  iteration (Some pol) i (Rejected (HttpError res)) math
  = Backoff (calcBackoffDelay (Z.of_nat i) pol math).
Proof.
  intros Hon Hi.
  assert (Hs : shouldRetry (Some pol) None (HttpError res) = true).
  { unfold shouldRetry. simpl. rewrite Hon. reflexivity. }
  split; [exact Hs |].
  unfold iteration. simpl isAbort. cbv iota.
  rewrite Hs. apply Z.ltb_lt in Hi. rewrite Hi. reflexivity.
Qed.

Lemma default_predicate_retries_any_status_witness :
  retryOn twoAttempts = None /\
  Z.of_nat 0 < attempts twoAttempts - 1 /\
  defaultShouldRetry (Some (response 404)) JsUndefined = false /\
  iteration (Some twoAttempts) 0 (Rejected (HttpError (response 404))) host = Backoff (num 150) /\
  runWithRetry None notFoundOnce (Some twoAttempts) (fun _ => host)
  = Some {| result := Fulfilled (Json "{}"); attemptsMade := 2; sleeps := [num 150] |} /\
  count isFetch 0
    (trace (run plainConfig init
              [CallRequest "/a" (retrying twoAttempts);
               FetchSettles 0 (Responds (response 404)) host;
               SleepDone 0])) = 2%nat.
Proof.
  split; [reflexivity |]. split; [reflexivity |]. split; [reflexivity |]. split.
  - destruct (default_predicate_retries_any_status twoAttempts (response 404) 0 host) as [_ H];
      [reflexivity | reflexivity |].
    rewrite H. reflexivity.
  - split; vm_compute; reflexivity.
Defined.

(** ** Abort controllers *)

Lemma abort_S (fuel : nat) (sigs : list AbortSignal) (id : nat) (r : JsError) :
  abort (S fuel) sigs id r
  = match sigs !! id with
    | None => sigs
    | Some s =>
        if aborted s then sigs
        else foldl (dispatch fuel)
               (<[id := {| aborted := true; reason := abortArg r; listeners := [] |}]> sigs)
               (listeners s)
    end.
Proof. reflexivity. Qed.

Lemma unfired_le_length (sigs : list AbortSignal) : (unfired sigs <= length sigs)%nat.
Proof. induction sigs as [| s sigs IH]; simpl; [lia | destruct (aborted s); lia]. Qed.

Lemma unfired_fire (sigs : list AbortSignal) (id : nat) (s : AbortSignal) (r : JsError) :
  sigs !! id = Some s -> aborted s = false ->
  S (unfired (<[id := {| aborted := true; reason := r; listeners := [] |}]> sigs))
  = unfired sigs.
Proof.
  revert id. induction sigs as [| s0 sigs IH]; intros [| id] Hs Hf; simpl in *; try discriminate.
  - injection Hs as ->. rewrite Hf. reflexivity.
  - change (list_insert id ?x sigs) with (<[id := x]> sigs).
    rewrite <- (IH id Hs Hf). destruct (aborted s0); lia.
Qed.

Lemma abort_unfired (fuel : nat) (sigs : list AbortSignal) (id : nat) (r : JsError) :
  (unfired (abort fuel sigs id r) <= unfired sigs)%nat.
Proof.
  revert sigs id r. induction fuel as [| fuel IH]; intros sigs id r; [simpl; lia |].
  rewrite abort_S. destruct (sigs !! id) as [s |] eqn:Hs; [| lia].
  destruct (aborted s) eqn:Hf; [lia |].
  pose proof (unfired_fire sigs id s (abortArg r) Hs Hf) as Hfire.
  set (st := <[id := _]> sigs) in *.
  assert (H : forall ls acc, (unfired (foldl (dispatch fuel) acc ls) <= unfired acc)%nat).
  { induction ls as [| l ls IHl]; intros acc; simpl; [lia |].
    etransitivity; [apply IHl |]. destruct l; apply IH. }
  specialize (H (listeners s) st). lia.
Qed.

Lemma unfired_pos (sigs : list AbortSignal) (id : nat) (s : AbortSignal) :
  sigs !! id = Some s -> aborted s = false -> (0 < unfired sigs)%nat.
Proof.
  revert id. induction sigs as [| s0 sigs IH]; intros [| id] Hs Hf; simpl in *; try discriminate.
  - injection Hs as ->. rewrite Hf. lia.
  - specialize (IH id Hs Hf). lia.
Qed.

(** The result of [abort] does not depend on the fuel once the fuel covers
    the signals that have not fired. *)
Lemma abort_fuel (fuel fuel' : nat) (sigs : list AbortSignal) (id : nat) (r : JsError) :
  (unfired sigs <= fuel)%nat -> (unfired sigs <= fuel')%nat ->
  abort fuel sigs id r = abort fuel' sigs id r.
Proof.
  revert fuel' sigs id r. induction fuel as [| fuel IH]; intros fuel' sigs id r H1 H2.
  - destruct fuel' as [| fuel']; [reflexivity |]. rewrite abort_S. simpl.
    destruct (sigs !! id) as [s |] eqn:Hs; [| reflexivity].
    destruct (aborted s) eqn:Hf; [reflexivity |].
    pose proof (unfired_pos sigs id s Hs Hf). lia.
  - destruct fuel' as [| fuel'].
    + rewrite abort_S. simpl.
      destruct (sigs !! id) as [s |] eqn:Hs; [| reflexivity].
      destruct (aborted s) eqn:Hf; [reflexivity |].
      pose proof (unfired_pos sigs id s Hs Hf). lia.
    + rewrite !abort_S. destruct (sigs !! id) as [s |] eqn:Hs; [| reflexivity].
      destruct (aborted s) eqn:Hf; [reflexivity |].
      pose proof (unfired_fire sigs id s (abortArg r) Hs Hf) as Hfire.
      set (st := <[id := _]> sigs) in *.
      assert (H : forall ls acc, (unfired acc <= fuel)%nat -> (unfired acc <= fuel')%nat ->
                    foldl (dispatch fuel) acc ls = foldl (dispatch fuel') acc ls).
      { induction ls as [| l ls IHl]; intros acc Ha Ha'; simpl; [reflexivity |].
        assert (Hl : dispatch fuel acc l = dispatch fuel' acc l).
        { destruct l; simpl; apply IH; assumption. }
        rewrite Hl. apply IHl.
        - rewrite <- Hl. destruct l; simpl; (etransitivity; [apply abort_unfired | exact Ha]).
        - destruct l; simpl; (etransitivity; [apply abort_unfired | exact Ha']). }
      apply H; lia.
Qed.

(** The fuel of [abortSignal] is enough: more changes nothing. *)
Lemma abortSignal_fuel (fuel : nat) (sigs : list AbortSignal) (id : nat) (r : JsError) :
  (length sigs <= fuel)%nat -> abort fuel sigs id r = abortSignal sigs id r.
Proof.
  intros H. unfold abortSignal. pose proof (unfired_le_length sigs).
  apply abort_fuel; lia.
Qed.

(** ** Composition of signals *)

Lemma isAborted_addEventListener (st : list AbortSignal) (s x : nat) (l : Listener) :
  isAborted (addEventListener st s l) x = isAborted st x.
Proof.
  unfold addEventListener, isAborted.
  destruct (st !! s) as [sg |] eqn:Hs; [| reflexivity].
  case_bool_decide; [reflexivity |].
  destruct (decide (s = x)) as [-> | Hne].
  - rewrite list_lookup_insert_eq by (eapply lookup_lt_Some; eauto).
    rewrite Hs. reflexivity.
  - rewrite list_lookup_insert_ne by exact Hne. reflexivity.
Qed.

Lemma lookup_addEventListener_ne (st : list AbortSignal) (s c : nat) (l : Listener) :
  s ≠ c -> addEventListener st s l !! c = st !! c.
Proof.
  intros Hne. unfold addEventListener.
  destruct (st !! s) as [sg |]; [| reflexivity].
  case_bool_decide; [reflexivity |].
  apply list_lookup_insert_ne, Hne.
Qed.

Lemma abortSignal_fresh (st : list AbortSignal) (c : nat) (r : JsError) :
  st !! c = Some freshSignal ->
  abortSignal st c r !! c
  = Some {| aborted := true; reason := abortArg r; listeners := [] |}.
Proof.
  intros Hc. unfold abortSignal. simpl. rewrite Hc. simpl.
  apply list_lookup_insert_eq. eapply lookup_lt_Some; eauto.
Qed.

(** A signal fires at most once: aborting a controller whose signal has
    fired changes nothing, the reason included. *)
Lemma abort_fired (fuel : nat) (sigs : list AbortSignal) (id : nat) (r : JsError) :
  isAborted sigs id = true -> abort fuel sigs id r = sigs.
Proof.
  unfold isAborted. intros H. destruct fuel as [| fuel]; [reflexivity |]. simpl.
  destruct (sigs !! id) as [sg |]; [| reflexivity]. rewrite H. reflexivity.
Qed.

Lemma combineLoop_aborted (inputs : list (option nat)) (st : list AbortSignal) (c : nat) :
  st !! c = Some freshSignal ->
  (forall s, Some s ∈ inputs -> s ≠ c) ->
  (exists s, Some s ∈ inputs /\ isAborted st s = true) ->
  combineLoop st c inputs !! c
  = Some {| aborted := true; reason := defaultAbortReason; listeners := [] |}.
Proof.
  revert st. induction inputs as [| [s |] rest IH]; intros st Hc Hne [x [Hx Hab]].
  - inversion Hx.
  - simpl. destruct (isAborted st s) eqn:Hs.
    + apply (abortSignal_fresh st c JsUndefined Hc).
    + apply IH.
      * rewrite lookup_addEventListener_ne; [exact Hc |]. apply Hne. left.
      * intros y Hy. apply Hne. right. exact Hy.
      * exists x. split.
        -- apply elem_of_cons in Hx as [Heq | Hx]; [| exact Hx].
           injection Heq as ->. congruence.
        -- rewrite isAborted_addEventListener. exact Hab.
  - simpl. apply IH; [exact Hc | |].
    + intros y Hy. apply Hne. right. exact Hy.
    + exists x. split; [| exact Hab].
      apply elem_of_cons in Hx as [Heq | Hx]; [discriminate | exact Hx].
Qed.

(** C3.  What the code does where the claim fails: when an input has fired
    at composition time the derived controller fires at once, but with
    the reason of an [abort()] called without argument, whatever the
    reason of the input was. *)
Theorem combineSignals_drops_reason (sigs : list AbortSignal) (inputs : list (option nat)) :
  (forall s, Some s ∈ inputs -> (s < length sigs)%nat) ->
  (exists s, Some s ∈ inputs /\ isAborted sigs s = true) ->
  isAborted (combineSignals sigs inputs).1 (combineSignals sigs inputs).2 = true /\
  reasonOf (combineSignals sigs inputs).1 (combineSignals sigs inputs).2 = defaultAbortReason.
Proof.
  intros Hin [x [Hx Hab]]. unfold combineSignals. simpl.
  assert (H : combineLoop (sigs ++ [freshSignal]) (length sigs) inputs !! length sigs
              = Some {| aborted := true; reason := defaultAbortReason; listeners := [] |}).
  { apply combineLoop_aborted.
    - rewrite lookup_app_r by lia. rewrite Nat.sub_diag. reflexivity.
    - intros s Hs. specialize (Hin s Hs). lia.
    - exists x. split; [exact Hx |].
      unfold isAborted in *. rewrite lookup_app_l by (apply Hin, Hx). exact Hab. }
  unfold isAborted, reasonOf. rewrite H. split; reflexivity.
Qed.

Lemma combineSignals_drops_reason_witness :
  reasonOf [timedOut] 0 = DOMException "Timeout" "AbortError" /\
  reasonOf (combineSignals [timedOut] [None; Some 0%nat]).1
           (combineSignals [timedOut] [None; Some 0%nat]).2
  = DOMException "signal is aborted without reason" "AbortError" /\
  (let composed := combineSignals [freshSignal] [Some 0%nat] in
   let fired := abortSignal composed.1 0 (DOMException "Timeout" "AbortError") in
   reasonOf fired 0 = DOMException "Timeout" "AbortError" /\
   isAborted fired composed.2 = true /\
   reasonOf fired composed.2 = DOMException "signal is aborted without reason" "AbortError").
Proof.
  split; [reflexivity |]. split.
  - apply (combineSignals_drops_reason [timedOut] [None; Some 0%nat]).
    + intros s Hs. apply elem_of_cons in Hs as [Hs | Hs]; [discriminate |].
      apply elem_of_cons in Hs as [Hs | Hs]; [injection Hs as ->; simpl; lia | inversion Hs].
    + exists 0%nat. split; [right; left | reflexivity].
  - vm_compute. repeat split.
Defined.

(** ** Key records *)

(** C4.  What the code does where the claim fails: call 0 and call 1 use
    the key "k" with lastOneWins; call 1 aborts call 0 and installs its
    own record; when call 0 then settles, its finally deletes the record
    of call 1, which is still waiting for its fetch; a third call under
    "k" with lastOneWins therefore finds no record and does not abort
    call 1. *)
Theorem stale_settlement_removes_newer_record :
  let s2 := run plainConfig init
              [CallRequest "/a" (keyed "k" true false); CallRequest "/b" (keyed "k" true false)] in
  let s3 := step plainConfig s2 (FetchSettles 0 (Responds (response 200)) host) in
  let s4 := step plainConfig s3 (CallRequest "/c" (keyed "k" true true)) in
  resultPromise <$> inFlightByKey s2 !! "k" = Some 1%nat /\
  promiseOf s3 0 = Some (Rejected (DOMException "Replaced by newer request" "AbortError")) /\
  contOf s3 1 = Some (AwaitFetch 0 0 7) /\
  promiseOf s3 1 = None /\
  inFlightByKey s3 !! "k" = None /\
  isAborted (signals s4) 7 = false /\
  contOf s4 2 = Some (AwaitFetch 0 0 11).
Proof. vm_compute. repeat split. Qed.

(** ** Counting in traces and in the table of calls *)

Lemma eventsOf_app (r : nat) (tr1 tr2 : list (nat * Event)) :
  eventsOf r (tr1 ++ tr2) = eventsOf r tr1 ++ eventsOf r tr2.
Proof. unfold eventsOf. rewrite filter_app, fmap_app. reflexivity. Qed.

Lemma eventsOf_cons_same (r : nat) (e : Event) (tr : list (nat * Event)) :
  eventsOf r ((r, e) :: tr) = e :: eventsOf r tr.
Proof. unfold eventsOf. rewrite filter_cons_True by reflexivity. reflexivity. Qed.

Lemma eventsOf_cons_other (r r' : nat) (e : Event) (tr : list (nat * Event)) :
  r' <> r -> eventsOf r ((r', e) :: tr) = eventsOf r tr.
Proof. intros H. unfold eventsOf. rewrite filter_cons_False by exact H. reflexivity. Qed.

Lemma eventsOf_nil (r : nat) : eventsOf r [] = [].
Proof. reflexivity. Qed.

Lemma elem_of_eventsOf (r : nat) (e : Event) (tr : list (nat * Event)) :
  e ∈ eventsOf r tr <-> (r, e) ∈ tr.
Proof.
  unfold eventsOf. rewrite list_elem_of_fmap. split.
  - intros [[r' e'] [-> H]]. apply list_elem_of_filter in H as [Hr H]. simpl in *. by subst.
  - intros H. exists (r, e). split; [reflexivity |]. apply list_elem_of_filter. by split.
Qed.

Lemma cnt_app (p : Event -> bool) (l1 l2 : list Event) :
  cnt p (l1 ++ l2) = (cnt p l1 + cnt p l2)%nat.
Proof. unfold cnt. rewrite filter_app, length_app. reflexivity. Qed.

Lemma cnt_cons (p : Event -> bool) (e : Event) (l : list Event) :
  cnt p (e :: l) = ((if p e then 1 else 0) + cnt p l)%nat.
Proof.
  unfold cnt. destruct (p e) eqn:He.
  - rewrite filter_cons_True by exact He. reflexivity.
  - rewrite filter_cons_False by congruence. reflexivity.
Qed.

Lemma cnt_nil (p : Event -> bool) : cnt p [] = 0%nat.
Proof. reflexivity. Qed.

Lemma cnt_pos (p : Event -> bool) (e : Event) (l : list Event) :
  e ∈ l -> p e = true -> (0 < cnt p l)%nat.
Proof.
  intros Hin Hp. induction Hin as [e l | e e' l Hin IH]; rewrite cnt_cons.
  - rewrite Hp. lia.
  - specialize (IH Hp). lia.
Qed.

Lemma not_served (A : nat) (evs : list Event) :
  cnt isServed evs = 0%nat -> served A ∉ evs.
Proof. intros H0 Hin. pose proof (cnt_pos isServed _ _ Hin eq_refl). lia. Qed.

Lemma nactive_app (cs1 cs2 : list Call) :
  nactive (cs1 ++ cs2) = (nactive cs1 + nactive cs2)%nat.
Proof. induction cs1 as [| c cs1 IH]; simpl; [reflexivity | rewrite IH; lia]. Qed.

Lemma nactive_alter (f : Call -> Call) (rid : nat) (cs : list Call) (c : Call) :
  cs !! rid = Some c ->
  (nactive (alter f rid cs) + (if activeCont (cont c) then 1 else 0)
   = nactive cs + (if activeCont (cont (f c)) then 1 else 0))%nat.
Proof.
  revert rid. induction cs as [| c0 cs IH]; intros [| rid] H; simpl in *; try discriminate.
  - injection H as ->. destruct (activeCont (cont c)), (activeCont (cont (f c))); lia.
  - specialize (IH rid H). change (list_alter f rid cs) with (alter f rid cs).
    destruct (activeCont (cont c0)), (activeCont (cont c)), (activeCont (cont (f c))); lia.
Qed.

Lemma executing_le_nactive (cs : list Call) : (executing cs <= nactive cs)%nat.
Proof.
  induction cs as [| c cs IH]; simpl; [lia |].
  destruct (cont c); simpl; lia.
Qed.

(** ** What [task.run()] does *)

Ltac simpl_state :=
  cbn [inFlight queue inFlightByKey calls reactions signals now trace
       emit withInFlight withQueue withByKey withCalls withReactions withSignals withNow
       updCall fst snd].

Section RunTask.

Variable config : ClientConfig.t.

Lemma runTask_cases (b : bool) (rid : nat) (s : Client) (c : Call) :
  calls s !! rid = Some c ->
  let s' := runTask config b rid s in
  inFlight s' = inFlight s + 1 /\ queue s' = queue s /\ now s' = now s /\
  ((exists k rec,
       keyOf (options c) = Some k /\ inFlightByKey s !! k = Some rec /\
       RequestOptions.dedupe (options c) = true /\
       calls s' = alter (setCont (AwaitLeader (resultPromise rec))) rid (calls s) /\
       reactions s' = reactions s ++ [(rid, resultPromise rec)] /\
       inFlightByKey s' = inFlightByKey s /\
       trace s' = trace s ++ [(rid, taskRun b); (rid, served (resultPromise rec))])
   \/
   (exists k' evs,
       calls s' = alter (setCont k') rid (calls s) /\
       reactions s' = reactions s /\
       trace s' = trace s ++ (rid, taskRun b) :: evs /\
       ((exists ec, k' = AwaitFetch 0 (now s) ec /\
                    evs = [(rid, onStart (RequestOptions.key (options c)) (url c));
                           (rid, fetchCalled ec)])
        \/ (k' = AwaitMicrotask (Rejected JsUndefined) /\ evs = [])) /\
       match keyOf (options c) with
       | Some k =>
           exists rec m0, inFlightByKey s' = <[k := rec]> m0 /\ resultPromise rec = rid /\
                          (forall k1, k1 <> k -> m0 !! k1 = inFlightByKey s !! k1)
       | None => inFlightByKey s' = inFlightByKey s
       end)).
Proof.
  intros Hc. unfold runTask. rewrite Hc.
  unfold supersede, dedupeLeader, effectiveController, loopHead, doFetchStart, newAbortController.
  destruct (keyOf (options c)) as [k |] eqn:Hk.
  - simpl_state.
    destruct (RequestOptions.lastOneWins (options c)) eqn:Hl;
      destruct (RequestOptions.dedupe (options c)) eqn:Hd.
    all: destruct (inFlightByKey s !! k) as [prev |] eqn:Hprev.
    all: repeat first [ rewrite Hprev | rewrite lookup_delete_eq | progress simpl_state
                      | progress cbn [fmap option_fmap option_map] ].
    all: try (destruct (combineSignals _ _) as [sigs3 ec] eqn:Hcomb).
    all: try (destruct (Z.of_nat 0 <? loopBound (policyOf config (options c))); simpl_state).
    all: rewrite <- ?app_assoc; cbn [app].
    all: try (split; [reflexivity |]; split; [reflexivity |]; split; [reflexivity |]).
    all: first
      [ left; exists k, prev; repeat split; first [reflexivity | assumption]
      | right; eexists _, _; split; [reflexivity |]; split; [reflexivity |];
        split; [reflexivity |]; split;
        [ first [ left; eexists; split; reflexivity | right; split; reflexivity ]
        | eexists _, _; split; [reflexivity |]; split; [reflexivity |];
          intros k1 Hk1; rewrite ?lookup_delete_ne by congruence; reflexivity ]
      ].
  - simpl_state. destruct (Z.of_nat 0 <? loopBound (policyOf config (options c))); simpl_state.
    all: rewrite <- ?app_assoc; cbn [app].
    all: split; [reflexivity |]; split; [reflexivity |]; split; [reflexivity |].
    all: right; eexists _, _; split; [reflexivity |]; split; [reflexivity |];
        split; [reflexivity |]; split;
        [ first [ left; eexists; split; reflexivity | right; split; reflexivity ]
        | reflexivity ].
Qed.

End RunTask.

(** ** The invariant is kept *)

Ltac count_simpl :=
  rewrite ?eventsOf_app, ?eventsOf_cons_same, ?eventsOf_nil, ?cnt_app, ?cnt_cons, ?cnt_nil;
  cbn [isRun isFetch isSlept isServed isReleased isDequeueCalled isFinish Nat.add].

Lemma promiseOf_alter_setCont (s s' : Client) (k : Cont) (rid A : nat) :
  calls s' = alter (setCont k) rid (calls s) -> promiseOf s' A = promiseOf s A.
Proof.
  intros H. unfold promiseOf. rewrite H. destruct (decide (rid = A)) as [-> | Hne].
  - rewrite list_lookup_alter_eq. destruct (calls s !! A); reflexivity.
  - rewrite list_lookup_alter_ne by exact Hne. reflexivity.
Qed.

Lemma eventsOf_others (r rid : nat) (evs : list (nat * Event)) :
  Forall (fun re => re.1 = rid) evs -> r <> rid -> eventsOf r evs = [].
Proof.
  intros Hall Hne. induction Hall as [| [r' e] evs Hr _ IH]; [reflexivity |].
  simpl in Hr. rewrite eventsOf_cons_other by congruence. exact IH.
Qed.

Lemma eventsOf_app_others (r rid : nat) (tr evs : list (nat * Event)) :
  Forall (fun re => re.1 = rid) evs -> r <> rid -> eventsOf r (tr ++ evs) = eventsOf r tr.
Proof.
  intros Hall Hne. rewrite eventsOf_app, (eventsOf_others r rid evs Hall Hne). apply app_nil_r.
Qed.

(** A call that an operation did not touch keeps what the trace holds
    about it. *)
Lemma callOk_frame (L L' : nat) (fs fs' : list nat) (s s' : Client) (r : nat) (c : Call) :
  callOk L fs s r c ->
  eventsOf r (trace s') = eventsOf r (trace s) ->
  (forall l, cont c = AwaitLeader l ->
             (r, l) ∈ reactions s \/ (r ∈ fs /\ l = L) ->
             (r, l) ∈ reactions s' \/ (r ∈ fs' /\ l = L')) ->
  (forall A o, promiseOf s A = Some o -> promiseOf s' A = Some o) ->
  callOk L' fs' s' r c.
Proof.
  intros [Hle Hc] Hev Hre Hpr. unfold callOk, contOk in *. rewrite Hev.
  split; [exact Hle |].
  destruct (cont c) as [| | | | l |]; try exact Hc.
  - destruct Hc as (H1 & H2 & H3 & H4 & H5 & H6 & H7 & H8).
    repeat split; try assumption. apply (Hre l eq_refl H8).
  - destruct Hc as (H1 & H2 & H3 & H4 & H5 & H6).
    repeat split; try assumption.
    intros A HA. destruct (H6 A HA) as [o' [Ho1 Ho2]]. exists o'. split; [apply Hpr |]; assumption.
Qed.

Section Preservation.

Variable config : ClientConfig.t.

Lemma Inv_runTask (L : nat) (o : Outcome) (fs : list nat) (b : bool) (rid : nat)
    (s : Client) (c : Call) :
  Inv config L o fs s ->
  calls s !! rid = Some c -> cont c = NotStarted -> promise c = None ->
  rid ∉ queue s ->
  (maxInFlight config = 0 \/ inFlight s < maxInFlight config) ->
  Inv config L o fs (runTask config b rid s).
Proof.
  intros [Hq Hnd Hcnt Hcap Hre Hfnd Hrec Horph Hlead Hcalls Htr] Hc Hns Hpn Hnq Hroom.
  destruct (Hcalls rid c Hc) as [Hfin Hzero]. unfold contOk in Hzero. rewrite Hns in Hzero.
  destruct Hzero as (Hz1 & Hz2 & Hz3 & Hz4 & Hz5 & Hz6).
  destruct (runTask_cases config b rid s c Hc) as (HiF & Hqueue & Hnow & Hcases).
  assert (Hlen : (rid < length (calls s))%nat) by (eapply lookup_lt_Some; eauto).
  assert (Hother : forall r c0, calls s !! r = Some c0 -> cont c0 <> NotStarted -> r <> rid).
  { intros r c0 H0 Hne ->. rewrite Hc in H0. injection H0 as <-. contradiction. }
  destruct Hcases as
    [(k & rec & Hk & Hprev & Hdd & Hcs & Hrs & Hbk & Htrace)
    | (k' & evs & Hcs & Hrs & Htrace & Hk' & Hbk)].
  - (* served by the record in flight *)
    destruct (Hrec k rec Hprev) as (cl & Hcl & Hactive & Hkl).
    assert (Hlrid : resultPromise rec <> rid).
    { apply (Hother _ cl Hcl). intros E. rewrite E in Hactive. discriminate. }
    set (l := resultPromise rec) in *.
    assert (Hsame : forall r, r <> rid -> calls (runTask config b rid s) !! r = calls s !! r).
    { intros r Hr. rewrite Hcs. apply list_lookup_alter_ne. congruence. }
    assert (Hself : calls (runTask config b rid s) !! rid = Some (setCont (AwaitLeader l) c)).
    { rewrite Hcs, list_lookup_alter_eq, Hc. reflexivity. }
    split.
    + intros r Hr. rewrite Hqueue in Hr. rewrite Hsame by (intros ->; contradiction).
      apply Hq, Hr.
    + rewrite Hqueue. exact Hnd.
    + rewrite HiF, Hcnt, Hcs, Hrs, length_app. simpl.
      pose proof (nactive_alter (setCont (AwaitLeader l)) rid (calls s) c Hc) as Hn.
      rewrite Hns in Hn. simpl in Hn. lia.
    + rewrite HiF. lia.
    + intros f l0 Hin. rewrite Hrs in Hin. apply elem_of_app in Hin as [Hin | Hin].
      * destruct (Hre f l0 Hin) as [[cf [Hcf Hkf]] [cl0 [Hcl0 Hal0]]].
        rewrite !Hsame.
        -- split; eauto.
        -- apply (Hother _ cl0 Hcl0). intros E. rewrite E in Hal0. discriminate.
        -- apply (Hother _ cf Hcf). congruence.
      * apply list_elem_of_singleton in Hin. injection Hin as -> ->.
        rewrite Hself, Hsame by exact Hlrid. split; eauto.
    + rewrite Hrs, fmap_app. simpl. rewrite <- app_assoc. simpl.
      apply NoDup_app in Hfnd as (Hn1 & Hn2 & Hn3).
      apply NoDup_app. split; [exact Hn1 |]. split.
      * intros x Hx Hx'. apply elem_of_cons in Hx' as [-> | Hx']; [| exact (Hn2 x Hx Hx')].
        apply list_elem_of_fmap in Hx as [[f l0] [Hf Hin]]. simpl in Hf. subst f.
        destruct (Hre rid l0 Hin) as [[cf [Hcf Hkf]] _].
        rewrite Hc in Hcf. injection Hcf as <-. congruence.
      * apply NoDup_cons. split; [| exact Hn3].
        intros Hin. destruct (Horph rid Hin) as [cf [Hcf Hkf]].
        rewrite Hc in Hcf. injection Hcf as <-. congruence.
    + intros k1 rec1 Hk1. rewrite Hbk in Hk1.
      destruct (Hrec k1 rec1 Hk1) as (c1 & Hc1 & Ha1 & Hkey1).
      rewrite Hsame; [eauto |].
      apply (Hother _ c1 Hc1). intros E. rewrite E in Ha1. discriminate.
    + intros f Hf. destruct (Horph f Hf) as [cf [Hcf Hkf]].
      rewrite Hsame; [eauto |]. apply (Hother _ cf Hcf). congruence.
    + intros Hne. rewrite (promiseOf_alter_setCont s _ _ rid L Hcs). apply Hlead, Hne.
    + intros r c' Hr. destruct (decide (r = rid)) as [-> | Hne].
      * rewrite Hself in Hr. injection Hr as <-.
        unfold callOk, contOk. rewrite Htrace. simpl cont. cbn [promise setCont].
        count_simpl. repeat split; try lia; try assumption.
        -- intros A HA. apply elem_of_app in HA as [HA | HA].
           ++ exfalso. exact (not_served A _ Hz4 HA).
           ++ apply elem_of_cons in HA as [HA | HA]; [discriminate |].
              apply list_elem_of_singleton in HA. congruence.
        -- left. rewrite Hrs. apply elem_of_app. right. apply list_elem_of_singleton. reflexivity.
      * rewrite Hsame in Hr by exact Hne.
        apply (callOk_frame L L fs fs s); [apply Hcalls, Hr | | |].
        -- rewrite Htrace. apply (eventsOf_app_others r rid); [| exact Hne].
           repeat constructor.
        -- intros l0 _ [H | H]; [left | right; exact H].
           rewrite Hrs. apply elem_of_app. left. exact H.
        -- intros A o' HA. rewrite (promiseOf_alter_setCont s _ _ rid A Hcs). exact HA.
    + intros r e Hin. rewrite Hcs, length_alter. rewrite Htrace in Hin.
      apply elem_of_app in Hin as [Hin | Hin]; [eapply Htr; eauto |].
      apply elem_of_cons in Hin as [Hin | Hin]; [injection Hin as -> _; exact Hlen |].
      apply list_elem_of_singleton in Hin. injection Hin as -> _. exact Hlen.
  - (* its own attempts *)
    assert (Hact : activeCont k' = true).
    { destruct Hk' as [[ec [-> _]] | [-> _]]; reflexivity. }
    assert (Hevs : Forall (fun re : nat * Event => re.1 = rid) evs).
    { destruct Hk' as [[ec [_ ->]] | [_ ->]]; repeat constructor. }
    assert (Hsame : forall r, r <> rid -> calls (runTask config b rid s) !! r = calls s !! r).
    { intros r Hr. rewrite Hcs. apply list_lookup_alter_ne. congruence. }
    assert (Hself : calls (runTask config b rid s) !! rid = Some (setCont k' c)).
    { rewrite Hcs, list_lookup_alter_eq, Hc. reflexivity. }
    split.
    + intros r Hr. rewrite Hqueue in Hr. rewrite Hsame by (intros ->; contradiction).
      apply Hq, Hr.
    + rewrite Hqueue. exact Hnd.
    + rewrite HiF, Hcnt, Hcs, Hrs.
      pose proof (nactive_alter (setCont k') rid (calls s) c Hc) as Hn.
      rewrite Hns in Hn. simpl in Hn. rewrite Hact in Hn. lia.
    + rewrite HiF. lia.
    + intros f l0 Hin. rewrite Hrs in Hin.
      destruct (Hre f l0 Hin) as [[cf [Hcf Hkf]] [cl0 [Hcl0 Hal0]]].
      rewrite !Hsame.
      * split; eauto.
      * apply (Hother _ cl0 Hcl0). intros E. rewrite E in Hal0. discriminate.
      * apply (Hother _ cf Hcf). congruence.
    + rewrite Hrs. exact Hfnd.
    + intros k1 rec1 Hk1.
      assert (Hold : forall rec0, inFlightByKey s !! k1 = Some rec0 ->
                exists c0, calls (runTask config b rid s) !! resultPromise rec0 = Some c0 /\
                           activeCont (cont c0) = true /\ keyOf (options c0) = Some k1).
      { intros rec0 H0. destruct (Hrec k1 rec0 H0) as (c1 & Hc1 & Ha1 & Hkey1).
        rewrite Hsame; [eauto |].
        apply (Hother _ c1 Hc1). intros E. rewrite E in Ha1. discriminate. }
      destruct (keyOf (options c)) as [k |] eqn:Hk.
      * destruct Hbk as (rec & m0 & Hm & Hown & Hm0). rewrite Hm in Hk1.
        destruct (decide (k = k1)) as [-> | Hkne].
        -- rewrite lookup_insert_eq in Hk1. injection Hk1 as <-. rewrite Hown, Hself.
           eexists. split; [reflexivity |]. split; [exact Hact | exact Hk].
        -- rewrite lookup_insert_ne in Hk1 by exact Hkne.
           rewrite Hm0 in Hk1 by congruence. apply Hold, Hk1.
      * rewrite Hbk in Hk1. apply Hold, Hk1.
    + intros f Hf. destruct (Horph f Hf) as [cf [Hcf Hkf]].
      rewrite Hsame; [eauto |]. apply (Hother _ cf Hcf). congruence.
    + intros Hne. rewrite (promiseOf_alter_setCont s _ _ rid L Hcs). apply Hlead, Hne.
    + intros r c' Hr. destruct (decide (r = rid)) as [-> | Hne].
      * rewrite Hself in Hr. injection Hr as <-.
        unfold callOk, contOk. rewrite Htrace.
        destruct Hk' as [[ec [-> ->]] | [-> ->]]; simpl cont; cbn [promise setCont];
          count_simpl; repeat split; try lia; assumption.
      * rewrite Hsame in Hr by exact Hne.
        apply (callOk_frame L L fs fs s); [apply Hcalls, Hr | | |].
        -- rewrite Htrace. apply (eventsOf_app_others r rid); [| exact Hne].
           constructor; [reflexivity | exact Hevs].
        -- intros l0 _ H. rewrite Hrs. exact H.
        -- intros A o' HA. rewrite (promiseOf_alter_setCont s _ _ rid A Hcs). exact HA.
    + intros r e Hin. rewrite Hcs, length_alter. rewrite Htrace in Hin.
      apply elem_of_app in Hin as [Hin | Hin]; [eapply Htr; eauto |].
      apply elem_of_cons in Hin as [Hin | Hin]; [injection Hin as -> _; exact Hlen |].
      rewrite Forall_forall in Hevs. specialize (Hevs _ Hin). simpl in Hevs. subst r. exact Hlen.
Qed.


(** The invariant reads the counter, the queue, the key records, the
    calls, the reactions and the trace, and nothing else. *)
Lemma Inv_ext (L : nat) (o : Outcome) (fs : list nat) (s s' : Client) :
  inFlight s' = inFlight s -> queue s' = queue s ->
  inFlightByKey s' = inFlightByKey s -> calls s' = calls s ->
  reactions s' = reactions s -> trace s' = trace s ->
  Inv config L o fs s -> Inv config L o fs s'.
Proof.
  destruct s, s'. simpl. intros -> -> -> -> -> -> H.
  destruct H as [H1 H2 H3 H4 H5 H6 H7 H8 H9 H10 H11].
  split; assumption.
Qed.

Lemma Inv_nil (L L' : nat) (o o' : Outcome) (s : Client) :
  Inv config L o [] s -> Inv config L' o' [] s.
Proof.
  intros [H1 H2 H3 H4 H5 H6 H7 H8 H9 H10 H11].
  split; try assumption.
  - intros f Hf. inversion Hf.
  - intros Hne. contradiction.
  - intros r c Hr. apply (callOk_frame L L' [] [] s s r c (H10 r c Hr) eq_refl).
    + intros l _ [H | [H _]]; [left; exact H | inversion H].
    + auto.
Qed.

Lemma Inv_withQueue (L : nat) (o : Outcome) (fs : list nat) (q : list nat) (s : Client) :
  Inv config L o fs s -> (forall r, r ∈ q -> r ∈ queue s) -> NoDup q ->
  Inv config L o fs (withQueue q s).
Proof.
  intros [H1 H2 H3 H4 H5 H6 H7 H8 H9 H10 H11] Hsub Hnd.
  split; try assumption.
  intros r Hr. apply H1, Hsub, Hr.
Qed.

Lemma shift_Some (q rest : list nat) (task : nat) :
  shift q = Some (task, rest) -> q = task :: rest.
Proof. destruct q; simpl; congruence. Qed.

Lemma pop_Some (q rest : list nat) (task : nat) :
  pop q = Some (task, rest) -> q = rest ++ [task].
Proof.
  unfold pop. destruct (reverse q) as [| t r] eqn:Hrev; [discriminate |].
  intros H. injection H as -> <-.
  rewrite <- (reverse_involutive q), Hrev, reverse_cons. reflexivity.
Qed.

(** What [dequeue()] does: nothing, or it takes one task off the queue,
    the head or the tail by the strategy, and runs it. *)
Lemma dequeue_cases (s : Client) :
  dequeue config s = s \/
  exists task rest,
    (maxInFlight config = 0 \/ inFlight s < maxInFlight config) /\
    (if decide (strategy config = lifo)
     then queue s = rest ++ [task] else queue s = task :: rest) /\
    dequeue config s = runTask config true task (withQueue rest s).
Proof.
  unfold dequeue.
  destruct (negb (maxInFlight config =? 0) && (maxInFlight config <=? inFlight s)) eqn:Hfull;
    [left; reflexivity |].
  assert (Hroom : maxInFlight config = 0 \/ inFlight s < maxInFlight config).
  { apply andb_false_iff in Hfull as [H | H].
    - left. apply negb_false_iff, Z.eqb_eq in H. exact H.
    - right. apply Z.leb_gt in H. exact H. }
  destruct (decide (strategy config = lifo)) as [Hl | Hl].
  - destruct (pop (queue s)) as [[task rest] |] eqn:Hp; [| left; reflexivity].
    right. exists task, rest. split; [exact Hroom |]. split; [| reflexivity].
    apply pop_Some, Hp.
  - destruct (shift (queue s)) as [[task rest] |] eqn:Hp; [| left; reflexivity].
    right. exists task, rest. split; [exact Hroom |]. split; [| reflexivity].
    apply shift_Some, Hp.
Qed.

Lemma Inv_dequeue (L : nat) (o : Outcome) (fs : list nat) (s : Client) :
  Inv config L o fs s -> Inv config L o fs (dequeue config s).
Proof.
  intros HI. destruct (dequeue_cases s) as [-> | (task & rest & Hroom & Hq & ->)]; [exact HI |].
  assert (Hin : task ∈ queue s /\ (task ∉ rest) /\ NoDup rest /\
                forall r, r ∈ rest -> r ∈ queue s).
  { pose proof (inv_queue_nodup _ _ _ _ _ HI) as Hnd.
    destruct (decide (strategy config = lifo)); rewrite Hq in *.
    - apply NoDup_app in Hnd as (Hn1 & Hn2 & _).
      split; [apply elem_of_app; right; left |].
      split; [intros H; apply (Hn2 _ H); left |].
      split; [exact Hn1 |]. intros r Hr. apply elem_of_app. left. exact Hr.
    - apply NoDup_cons in Hnd as [Hn1 Hn2].
      split; [left |]. split; [exact Hn1 |]. split; [exact Hn2 |].
      intros r Hr. right. exact Hr. }
  destruct Hin as (Hin & Hnotin & Hnd & Hsub).
  destruct (inv_queue _ _ _ _ _ HI task Hin) as (c & Hc & Hns & Hpn).
  apply (Inv_runTask L o fs true task (withQueue rest s) c); try assumption.
  apply Inv_withQueue; assumption.
Qed.


(** One call changes, in a way that keeps it on the same side of the
    counter: it stays where it is suspended, or it runs its own attempts
    before and after. *)
Lemma Inv_call_step (L : nat) (o : Outcome) (fs : list nat) (s s' : Client)
    (rid : nat) (c : Call) (F : Call -> Call) (evs : list (nat * Event)) :
  Inv config L o fs s ->
  calls s !! rid = Some c ->
  options (F c) = options c ->
  (cont (F c) = cont c \/ (activeCont (cont c) = true /\ activeCont (cont (F c)) = true)) ->
  (promise (F c) = promise c \/
   (promise c = None /\ cont c = NotStarted /\ rid ∉ queue s)) ->
  calls s' = alter F rid (calls s) ->
  inFlight s' = inFlight s -> queue s' = queue s ->
  inFlightByKey s' = inFlightByKey s -> reactions s' = reactions s ->
  trace s' = trace s ++ evs -> Forall (fun re => re.1 = rid) evs ->
  callOk L fs s' rid (F c) ->
  Inv config L o fs s'.
Proof.
  intros [Hq Hnd Hcnt Hcap Hre Hfnd Hrec Horph Hlead Hcalls Htr]
         Hc Hopt Hkind Hprom Hcs HiF Hqueue Hbk Hrs Htrace Hevs Hok.
  assert (Hlen : (rid < length (calls s))%nat) by (eapply lookup_lt_Some; eauto).
  assert (Hlook : forall r c0, calls s !! r = Some c0 ->
            exists c1, calls s' !! r = Some c1 /\ options c1 = options c0 /\
                       (activeCont (cont c0) = true -> activeCont (cont c1) = true) /\
                       (activeCont (cont c0) = false -> cont c1 = cont c0) /\
                       (r ∈ queue s -> promise c1 = promise c0) /\
                       (forall o', promise c0 = Some o' -> promise c1 = Some o')).
  { intros r c0 H0. rewrite Hcs. destruct (decide (r = rid)) as [-> | Hne].
    - rewrite list_lookup_alter_eq, H0. rewrite Hc in H0. injection H0 as <-.
      eexists. split; [reflexivity |]. split; [exact Hopt |].
      split; [| split; [| split]].
      + intros Ha. destruct Hkind as [-> | [_ H]]; assumption.
      + intros Ha. destruct Hkind as [H | [H _]]; congruence.
      + intros Hin. destruct Hprom as [H | (_ & _ & H)]; [exact H | contradiction].
      + intros o' Ho'. destruct Hprom as [H | (H & _)]; congruence.
    - rewrite list_lookup_alter_ne by congruence. exists c0. auto 10. }
  assert (Hpromise : forall A o', promiseOf s A = Some o' -> promiseOf s' A = Some o').
  { intros A o' HA. unfold promiseOf in *.
    destruct (calls s !! A) as [c0 |] eqn:H0; [| discriminate].
    destruct (Hlook A c0 H0) as (c1 & H1 & _ & _ & _ & _ & Hp). rewrite H1. simpl in *. auto. }
  split.
  - intros r Hr. rewrite Hqueue in Hr. destruct (Hq r Hr) as (c0 & H0 & Hns & Hpn).
    destruct (Hlook r c0 H0) as (c1 & H1 & _ & _ & Hk & Hp & _).
    exists c1. split; [exact H1 |]. split.
    + rewrite Hk; [exact Hns | rewrite Hns; reflexivity].
    + rewrite Hp; [exact Hpn | exact Hr].
  - rewrite Hqueue. exact Hnd.
  - rewrite HiF, Hcnt, Hcs, Hrs.
    pose proof (nactive_alter F rid (calls s) c Hc) as Hn.
    destruct Hkind as [H | [H1 H2]]; [rewrite H in Hn | rewrite H1, H2 in Hn];
      destruct (activeCont (cont c)); lia.
  - rewrite HiF. exact Hcap.
  - intros f l Hin. rewrite Hrs in Hin.
    destruct (Hre f l Hin) as [[cf [Hcf Hkf]] [cl [Hcl Hal]]].
    destruct (Hlook f cf Hcf) as (c1 & H1 & _ & _ & Hk1 & _).
    destruct (Hlook l cl Hcl) as (c2 & H2 & _ & Ha2 & _).
    split; [exists c1 | eauto]. split; [exact H1 |].
    rewrite Hk1; [exact Hkf | rewrite Hkf; reflexivity].
  - rewrite Hrs. exact Hfnd.
  - intros k rec Hk. rewrite Hbk in Hk. destruct (Hrec k rec Hk) as (c0 & H0 & Ha0 & Hk0).
    destruct (Hlook _ c0 H0) as (c1 & H1 & Hopt1 & Ha1 & _).
    exists c1. rewrite Hopt1. auto.
  - intros f Hf. destruct (Horph f Hf) as [cf [Hcf Hkf]].
    destruct (Hlook f cf Hcf) as (c1 & H1 & _ & _ & Hk1 & _).
    exists c1. split; [exact H1 |]. rewrite Hk1; [exact Hkf | rewrite Hkf; reflexivity].
  - intros Hne. apply Hpromise, Hlead, Hne.
  - intros r c' Hr. destruct (decide (r = rid)) as [-> | Hne].
    + rewrite Hcs, list_lookup_alter_eq, Hc in Hr. injection Hr as <-. exact Hok.
    + rewrite Hcs, list_lookup_alter_ne in Hr by congruence.
      apply (callOk_frame L L fs fs s); [apply Hcalls, Hr | | | exact Hpromise].
      * rewrite Htrace. apply (eventsOf_app_others r rid); assumption.
      * intros l0 _ H. rewrite Hrs. exact H.
  - intros r e Hin. rewrite Hcs, length_alter. rewrite Htrace in Hin.
    apply elem_of_app in Hin as [Hin | Hin]; [eapply Htr; eauto |].
    rewrite Forall_forall in Hevs. specialize (Hevs _ Hin). simpl in Hevs. subst r. exact Hlen.
Qed.

Lemma callOk_active (L : nat) (fs : list nat) (s : Client) (r : nat) (c : Call) :
  callOk L fs s r c -> activeCont (cont c) = true ->
  promise c = None /\ cnt isRun (eventsOf r (trace s)) = 1%nat /\
  cnt isServed (eventsOf r (trace s)) = 0%nat /\
  cnt isReleased (eventsOf r (trace s)) = 0%nat /\
  cnt isDequeueCalled (eventsOf r (trace s)) = 0%nat /\
  (cnt isFinish (eventsOf r (trace s)) <= cnt isFetch (eventsOf r (trace s)))%nat.
Proof.
  intros [Hle Hc] Hact. unfold contOk in Hc.
  destruct (cont c); try discriminate; repeat split; try apply Hc; exact Hle.
Qed.

Lemma promise_settled (o : Outcome) (c : Call) :
  promise c = None -> promise (settlePromise o c) = Some o.
Proof. intros H. unfold settlePromise. rewrite H. reflexivity. Qed.

Lemma options_settled (o : Outcome) (c : Call) : options (settlePromise o c) = options c.
Proof. unfold settlePromise. destruct (promise c); reflexivity. Qed.

Lemma cont_settled (o : Outcome) (c : Call) : cont (settlePromise o c) = cont c.
Proof. unfold settlePromise. destruct (promise c); reflexivity. Qed.

(** The reactions of one follower, up to the call of dequeue. *)
Lemma Inv_followerBody (L : nat) (o : Outcome) (f : nat) (fs : list nat) (s : Client) :
  Inv config L o (f :: fs) s -> Inv config L o fs (followerBody o s f).
Proof.
  intros [Hq Hnd Hcnt Hcap Hre Hfnd Hrec Horph Hlead Hcalls Htr].
  destruct (Horph f ltac:(left)) as (cf & Hcf & Hkf).
  pose proof (Hcalls f cf Hcf) as [Hfin Hok]. unfold contOk in Hok. rewrite Hkf in Hok.
  destruct Hok as (Hpn & Hrun & Hfe & Hsl & Hrel & Hdq & Hsv & _).
  pose proof (Hlead ltac:(discriminate)) as HL.
  apply NoDup_app in Hfnd as (Hn1 & Hn2 & Hn3). apply NoDup_cons in Hn3 as [Hn3 Hn4].
  assert (Hlen : (f < length (calls s))%nat) by (eapply lookup_lt_Some; eauto).
  set (F := fun c : Call => setCont Finished (settlePromise o c)).
  assert (Hsame : forall r, r <> f -> alter F f (calls s) !! r = calls s !! r).
  { intros r Hr. apply list_lookup_alter_ne. congruence. }
  assert (Hself : alter F f (calls s) !! f = Some (F cf)).
  { rewrite list_lookup_alter_eq, Hcf. reflexivity. }
  assert (Hother : forall r c0, calls s !! r = Some c0 -> cont c0 <> AwaitLeader L -> r <> f).
  { intros r c0 H0 Hne ->. rewrite Hcf in H0. injection H0 as <-. contradiction. }
  assert (Hpromise : forall A o', promiseOf s A = Some o' ->
                                  promiseOf (followerBody o s f) A = Some o').
  { intros A o' HA. unfold promiseOf, followerBody in *. simpl_state.
    destruct (decide (A = f)) as [-> | Hne].
    - rewrite Hcf in HA. simpl in HA. congruence.
    - rewrite Hsame by exact Hne. exact HA. }
  unfold followerBody. split; simpl_state; fold F.
  - intros r Hr. destruct (Hq r Hr) as (c0 & H0 & Hns & Hp0).
    rewrite Hsame; [eauto |]. apply (Hother _ c0 H0). congruence.
  - exact Hnd.
  - rewrite Hcnt. pose proof (nactive_alter F f (calls s) cf Hcf) as Hn.
    rewrite Hkf in Hn. simpl in Hn. simpl length. lia.
  - lia.
  - intros f' l Hin. destruct (Hre f' l Hin) as [[c1 [Hc1 Hk1]] [c2 [Hc2 Ha2]]].
    rewrite !Hsame.
    + split; eauto.
    + apply (Hother _ c2 Hc2). intros E. rewrite E in Ha2. discriminate.
    + intros ->. apply (Hn2 f); [| left].
      apply list_elem_of_fmap. exists (f, l). split; [reflexivity | exact Hin].
  - apply NoDup_app. split; [exact Hn1 |]. split; [| exact Hn4].
    intros x Hx Hx'. apply (Hn2 x Hx). right. exact Hx'.
  - intros k rec Hk. destruct (Hrec k rec Hk) as (c0 & H0 & Ha0 & Hk0).
    rewrite Hsame; [eauto |]. apply (Hother _ c0 H0). intros E. rewrite E in Ha0. discriminate.
  - intros f' Hf'. destruct (Horph f' ltac:(right; exact Hf')) as (c0 & H0 & Hk0).
    rewrite Hsame; [eauto |]. intros ->. contradiction.
  - intros _. apply (Hpromise L o HL).
  - intros r c' Hr. destruct (decide (r = f)) as [-> | Hne].
    + rewrite Hself in Hr. injection Hr as <-.
      unfold callOk, contOk. simpl_state. subst F. cbn [cont setCont promise].
      rewrite (promise_settled o cf Hpn).
      count_simpl. repeat split; try lia; eauto.
      intros A HA. rewrite <- app_assoc in HA. apply elem_of_app in HA as [HA | HA].
      * rewrite (Hsv A HA). exists o. split; [| reflexivity].
        apply (Hpromise L o HL).
      * apply elem_of_cons in HA as [HA | HA]; [discriminate |].
        apply list_elem_of_singleton in HA. discriminate.
    + rewrite Hsame in Hr by exact Hne.
      apply (callOk_frame L L (f :: fs) fs s); [apply Hcalls, Hr | | | exact Hpromise].
      * simpl_state. rewrite <- app_assoc.
        apply (eventsOf_app_others r f); [repeat constructor | exact Hne].
      * intros l _ [H | [H ->]]; [left; exact H | right].
        apply elem_of_cons in H as [-> | H]; [contradiction | auto].
  - intros r e Hin. rewrite length_alter.
    rewrite <- app_assoc in Hin. apply elem_of_app in Hin as [Hin | Hin]; [eapply Htr; eauto |].
    apply elem_of_cons in Hin as [Hin | Hin]; [injection Hin as -> _; exact Hlen |].
    apply list_elem_of_singleton in Hin. injection Hin as -> _. exact Hlen.
Qed.

Lemma Inv_followers (L : nat) (o : Outcome) (fs : list nat) (s : Client) :
  Inv config L o fs s -> Inv config L o [] (foldl (followerSettle config o) s fs).
Proof.
  revert s. induction fs as [| f fs IH]; intros s HI; simpl; [exact HI |].
  apply IH. unfold followerSettle. apply Inv_dequeue, Inv_followerBody, HI.
Qed.


Lemma length_partition (rid : nat) (rs : list (nat * nat)) :
  (length (filter (fun fl => fl.2 <> rid) rs) + length (filter (fun fl => fl.2 = rid) rs)
   = length rs)%nat.
Proof.
  induction rs as [| fl rs IH]; [reflexivity |].
  destruct (decide (fl.2 = rid)) as [He | Hne].
  - rewrite (filter_cons_True (fun fl => fl.2 = rid)) by exact He.
    rewrite (filter_cons_False (fun fl => fl.2 <> rid)) by (intros H; exact (H He)).
    simpl. lia.
  - rewrite (filter_cons_False (fun fl => fl.2 = rid)) by exact Hne.
    rewrite (filter_cons_True (fun fl => fl.2 <> rid)) by exact Hne.
    simpl. lia.
Qed.

Lemma NoDup_partition (rid : nat) (rs : list (nat * nat)) :
  NoDup rs.*1 ->
  NoDup ((filter (fun fl => fl.2 <> rid) rs).*1 ++ (filter (fun fl => fl.2 = rid) rs).*1).
Proof.
  induction rs as [| [f l] rs IH]; [intros _; constructor |].
  rewrite fmap_cons. intros Hnd. apply NoDup_cons in Hnd as [Hnotin Hnd].
  specialize (IH Hnd).
  assert (Hout : forall P `{!forall x, Decision (P x)}, f ∉ (filter P rs).*1).
  { intros P ? Hin. apply Hnotin. apply list_elem_of_fmap in Hin as [[f' l'] [-> Hin]].
    apply list_elem_of_filter in Hin as [_ Hin].
    apply list_elem_of_fmap. exists (f', l'). split; [reflexivity | exact Hin]. }
  destruct (decide (l = rid)) as [He | Hne].
  - rewrite (filter_cons_True (fun fl => fl.2 = rid)) by exact He.
    rewrite (filter_cons_False (fun fl => fl.2 <> rid)) by (intros H; exact (H He)).
    rewrite fmap_cons. simpl.
    apply NoDup_app in IH as (H1 & H2 & H3). apply NoDup_app. split; [exact H1 |]. split.
    + intros x Hx Hx'. apply elem_of_cons in Hx' as [-> | Hx']; [| exact (H2 x Hx Hx')].
      exact (Hout _ _ Hx).
    + apply NoDup_cons. split; [apply Hout | exact H3].
  - rewrite (filter_cons_False (fun fl => fl.2 = rid)) by exact Hne.
    rewrite (filter_cons_True (fun fl => fl.2 <> rid)) by exact Hne.
    rewrite fmap_cons. simpl. apply NoDup_cons. split; [| exact IH].
    intros Hin. apply elem_of_app in Hin as [Hin | Hin]; exact (Hout _ _ Hin).
Qed.

(** The reactions of a leader on the promise of its [runWithRetry], up to
    the call of dequeue: its followers are left with their reactions
    pending. *)
Lemma Inv_leaderSettles (L0 : nat) (o0 o : Outcome) (rid : nat) (c c' : Call) (s : Client) :
  Inv config L0 o0 [] s ->
  calls s !! rid = Some c' -> options c = options c' -> activeCont (cont c') = true ->
  Inv config rid o (followersOf rid s)
      (finallyBody rid c (detach rid (settleOuter rid c o s))).
Proof.
  intros HI Hc Hopt Hact.
  pose proof HI as [Hq Hnd Hcnt Hcap Hre Hfnd Hrec Horph Hlead Hcalls Htr].
  destruct (callOk_active _ _ _ _ _ (Hcalls rid c' Hc) Hact)
    as (Hpn & Hrun & Hsv & Hrel & Hdq & Hfin).
  assert (Hlen : (rid < length (calls s))%nat) by (eapply lookup_lt_Some; eauto).
  set (F := fun c : Call => setCont Finished (settlePromise o c)).
  set (pre := match o with
              | Fulfilled _ => []
              | Rejected err => [(rid, onError err (RequestOptions.key (options c)))]
              end).
  set (s' := finallyBody rid c (detach rid (settleOuter rid c o s))).
  assert (HiF : inFlight s' = inFlight s - 1).
  { unfold s', finallyBody, detach, settleOuter.
    destruct (keyOf (options c)), o; reflexivity. }
  assert (Hqueue : queue s' = queue s).
  { unfold s', finallyBody, detach, settleOuter.
    destruct (keyOf (options c)), o; reflexivity. }
  assert (Hcs : calls s' = alter (setTimer false) rid (alter F rid (calls s))).
  { unfold s', finallyBody, detach, settleOuter.
    destruct (keyOf (options c)), o; reflexivity. }
  assert (Hrs : reactions s' = filter (fun fl => fl.2 <> rid) (reactions s)).
  { unfold s', finallyBody, detach, settleOuter.
    destruct (keyOf (options c)), o; reflexivity. }
  assert (Htrace : trace s' = trace s ++ pre ++ [(rid, released); (rid, dequeueCalled)]).
  { unfold s', finallyBody, detach, settleOuter, pre.
    destruct (keyOf (options c)), o; simpl_state; rewrite <- ?app_assoc; reflexivity. }
  assert (Hbk : inFlightByKey s' = match keyOf (options c) with
                                   | Some k => delete k (inFlightByKey s)
                                   | None => inFlightByKey s
                                   end).
  { unfold s', finallyBody, detach, settleOuter.
    destruct (keyOf (options c)), o; reflexivity. }
  assert (Hevs : Forall (fun re : nat * Event => re.1 = rid)
                        (pre ++ [(rid, released); (rid, dequeueCalled)])).
  { unfold pre. destruct o; repeat constructor. }
  clearbody s'.
  assert (Hsame : forall r, r <> rid -> calls s' !! r = calls s !! r).
  { intros r Hr. rewrite Hcs, !list_lookup_alter_ne by congruence. reflexivity. }
  assert (Hself : calls s' !! rid = Some (setTimer false (F c'))).
  { rewrite Hcs, !list_lookup_alter_eq, Hc. reflexivity. }
  assert (Hother : forall r c0, calls s !! r = Some c0 -> activeCont (cont c0) = false -> r <> rid).
  { intros r c0 H0 Hne ->. rewrite Hc in H0. injection H0 as <-. congruence. }
  assert (Hpromise : forall A o', promiseOf s A = Some o' -> promiseOf s' A = Some o').
  { intros A o' HA. unfold promiseOf in *. destruct (decide (A = rid)) as [-> | Hne].
    - rewrite Hc in HA. simpl in HA. congruence.
    - rewrite Hsame by exact Hne. exact HA. }
  assert (Hfoll : forall f, f ∈ followersOf rid s <-> (f, rid) ∈ reactions s).
  { intros f. unfold followersOf. rewrite list_elem_of_fmap. split.
    - intros [[f' l] [-> Hin]]. apply list_elem_of_filter in Hin as [Hl Hin].
      simpl in Hl. subst l. exact Hin.
    - intros Hin. exists (f, rid). split; [reflexivity |].
      apply list_elem_of_filter. split; [reflexivity | exact Hin]. }
  split.
  - intros r Hr. rewrite Hqueue in Hr. destruct (Hq r Hr) as (c0 & H0 & Hns & Hp0).
    rewrite Hsame; [eauto |]. apply (Hother _ c0 H0). rewrite Hns. reflexivity.
  - rewrite Hqueue. exact Hnd.
  - rewrite HiF, Hcnt, Hcs, Hrs. unfold followersOf. rewrite length_fmap.
    pose proof (length_partition rid (reactions s)) as Hpart.
    pose proof (nactive_alter F rid (calls s) c' Hc) as Hn.
    rewrite Hact in Hn. simpl in Hn.
    assert (Hc2 : alter F rid (calls s) !! rid = Some (F c'))
      by (rewrite list_lookup_alter_eq, Hc; reflexivity).
    pose proof (nactive_alter (setTimer false) rid _ _ Hc2) as Hn2. simpl in Hn2.
    simpl length in *. lia.
  - rewrite HiF. lia.
  - intros f l Hin. rewrite Hrs in Hin. apply list_elem_of_filter in Hin as [Hl Hin].
    simpl in Hl. destruct (Hre f l Hin) as [[c1 [Hc1 Hk1]] [c2 [Hc2 Ha2]]].
    rewrite !Hsame; [split; eauto | exact Hl |].
    apply (Hother _ c1 Hc1). rewrite Hk1. reflexivity.
  - rewrite Hrs. unfold followersOf. apply NoDup_partition.
    rewrite app_nil_r in Hfnd. exact Hfnd.
  - intros k rec Hk. rewrite Hbk in Hk.
    assert (Hold : inFlightByKey s !! k = Some rec /\ keyOf (options c) <> Some k).
    { destruct (keyOf (options c)) as [k0 |]; [| split; [exact Hk | discriminate]].
      destruct (decide (k0 = k)) as [-> | Hne].
      - rewrite lookup_delete_eq in Hk. discriminate.
      - rewrite lookup_delete_ne in Hk by exact Hne. split; [exact Hk | congruence]. }
    destruct Hold as [Hk' Hkey]. destruct (Hrec k rec Hk') as (c0 & H0 & Ha0 & Hk0).
    rewrite Hsame; [eauto |].
    intros E. rewrite E, Hc in H0. injection H0 as <-. rewrite Hopt in Hkey. contradiction.
  - intros f Hf. apply Hfoll in Hf. destruct (Hre f rid Hf) as [[c1 [Hc1 Hk1]] _].
    rewrite Hsame; [eauto |]. apply (Hother _ c1 Hc1). rewrite Hk1. reflexivity.
  - intros _. unfold promiseOf. rewrite Hself. simpl. subst F. simpl.
    apply promise_settled, Hpn.
  - intros r c1 Hr. destruct (decide (r = rid)) as [-> | Hne].
    + rewrite Hself in Hr. injection Hr as <-.
      assert (Hcount : forall p, p released = false -> p dequeueCalled = false ->
                (forall e k, p (onError e k) = false) ->
                cnt p (eventsOf rid (trace s')) = cnt p (eventsOf rid (trace s))).
      { intros p H1 H2 H3. rewrite Htrace. unfold pre.
        destruct o; count_simpl; rewrite ?H1, ?H2, ?H3; lia. }
      unfold callOk, contOk. subst F. cbn [cont setCont setTimer promise].
      rewrite (promise_settled o c' Hpn).
      rewrite !(Hcount isFinish), !(Hcount isFetch), !(Hcount isRun), !(Hcount isServed),
        !(Hcount isSlept) by reflexivity.
      assert (Hr1 : cnt isReleased (eventsOf rid (trace s')) = 1%nat).
      { rewrite Htrace. unfold pre. destruct o; count_simpl; lia. }
      assert (Hd1 : cnt isDequeueCalled (eventsOf rid (trace s')) = 1%nat).
      { rewrite Htrace. unfold pre. destruct o; count_simpl; lia. }
      repeat split; eauto.
      intros A HA. exfalso. apply (not_served A (eventsOf rid (trace s'))); [| exact HA].
      rewrite (Hcount isServed) by reflexivity. exact Hsv.
    + rewrite Hsame in Hr by exact Hne.
      apply (callOk_frame L0 rid [] (followersOf rid s) s); [apply Hcalls, Hr | | | exact Hpromise].
      * rewrite Htrace. apply (eventsOf_app_others r rid); assumption.
      * intros l _ [H | [H _]]; [| inversion H].
        destruct (decide (l = rid)) as [-> | Hl].
        -- right. split; [apply Hfoll, H | reflexivity].
        -- left. rewrite Hrs. apply list_elem_of_filter. split; [exact Hl | exact H].
  - intros r e Hin. rewrite Hcs, !length_alter. rewrite Htrace in Hin.
    apply elem_of_app in Hin as [Hin | Hin]; [eapply Htr; eauto |].
    rewrite Forall_forall in Hevs. specialize (Hevs _ Hin). simpl in Hevs. subst r. exact Hlen.
Qed.


Lemma Inv_settle (L0 : nat) (o0 o : Outcome) (rid : nat) (c c' : Call) (s : Client) :
  Inv config L0 o0 [] s ->
  calls s !! rid = Some c' -> options c = options c' -> activeCont (cont c') = true ->
  Inv config L0 o0 [] (settle config rid c o s).
Proof.
  intros HI Hc Hopt Hact. unfold settle.
  apply (Inv_nil rid L0 o o0), Inv_followers, Inv_dequeue.
  apply (Inv_leaderSettles L0 o0 o rid c c'); assumption.
Qed.

(** Settling does not look at where the call was suspended. *)
Lemma settle_setCont (rid : nat) (c : Call) (o : Outcome) (K : Cont) (s : Client) :
  settle config rid c o (updCall rid (setCont K) s) = settle config rid c o s.
Proof.
  assert (H : settleOuter rid c o (updCall rid (setCont K) s) = settleOuter rid c o s).
  { unfold settleOuter, updCall, withCalls, emit. destruct o; simpl_state; f_equal.
    all: rewrite list_alter_alter_eq; apply list_alter_ext; [| reflexivity].
    all: intros x _; unfold settlePromise; simpl; destruct (promise x); reflexivity. }
  unfold settle. rewrite H. reflexivity.
Qed.

Lemma Inv_fetchSettled (L : nat) (o : Outcome) (rid : nat) (r : FetchResult) (math : Math)
    (s : Client) :
  Inv config L o [] s -> Inv config L o [] (fetchSettled config rid r math s).
Proof.
  intros HI. unfold fetchSettled.
  destruct (calls s !! rid) as [c |] eqn:Hc; [| exact HI].
  destruct (cont c) as [| i start ctl | | | |] eqn:Hk; try exact HI.
  set (actual := fetchOutcome s ctl r).
  set (attempt := doFetchResult config c actual).
  set (s1 := doFetchFinish rid c start actual s).
  pose proof (inv_calls _ _ _ _ _ HI rid c Hc) as [Hfin Hok].
  unfold contOk in Hok. rewrite Hk in Hok.
  destruct Hok as (Hpn & Hrun & Hsv & Hrel & Hdq & Hlt).
  assert (Hact : activeCont (cont c) = true) by (rewrite Hk; reflexivity).
  assert (Hs1 : exists evs, trace s1 = trace s ++ evs /\
                Forall (fun re : nat * Event => re.1 = rid) evs /\
                cnt isFetch (eventsOf rid evs) = 0%nat /\
                cnt isRun (eventsOf rid evs) = 0%nat /\
                cnt isServed (eventsOf rid evs) = 0%nat /\
                cnt isReleased (eventsOf rid evs) = 0%nat /\
                cnt isDequeueCalled (eventsOf rid evs) = 0%nat /\
                (cnt isFinish (eventsOf rid evs) <= 1)%nat).
  { unfold s1, doFetchFinish. destruct actual as [res | e].
    - eexists. split; [reflexivity |]. split; [repeat constructor |].
      count_simpl. repeat split; lia.
    - exists []. rewrite app_nil_r. split; [reflexivity |]. split; [constructor |].
      rewrite eventsOf_nil, !cnt_nil. repeat split; lia. }
  destruct Hs1 as (evs & Htr1 & Hevs & He1 & He2 & He3 & He4 & He5 & He6).
  assert (Hbridge : forall K evs', activeCont K = true ->
            Forall (fun re : nat * Event => re.1 = rid) evs' ->
            cnt isFinish (eventsOf rid evs') = 0%nat ->
            cnt isFetch (eventsOf rid evs') = 0%nat ->
            cnt isRun (eventsOf rid evs') = 0%nat ->
            cnt isServed (eventsOf rid evs') = 0%nat ->
            cnt isReleased (eventsOf rid evs') = 0%nat ->
            cnt isDequeueCalled (eventsOf rid evs') = 0%nat ->
            (forall i0 st0 ctl0, K <> AwaitFetch i0 st0 ctl0) ->
            forall s2, calls s2 = alter (setCont K) rid (calls s) ->
              inFlight s2 = inFlight s -> queue s2 = queue s ->
              inFlightByKey s2 = inFlightByKey s -> reactions s2 = reactions s ->
              trace s2 = trace s1 ++ evs' ->
              Inv config L o [] s2).
  { intros K evs' HK Hevs' Hz1 Hz2 Hz3 Hz4 Hz5 Hz6 HnF s2 Hcs HiF Hqu Hbk Hrs Htr2.
    apply (Inv_call_step L o [] s s2 rid c (setCont K) (evs ++ evs')); try assumption.
    - reflexivity.
    - right. split; assumption.
    - left. reflexivity.
    - rewrite Htr2, Htr1, app_assoc. reflexivity.
    - apply Forall_app. split; assumption.
    - unfold callOk, contOk. rewrite Htr2, Htr1, <- app_assoc, eventsOf_app, eventsOf_app.
      rewrite !cnt_app, Hz1, Hz2, Hz3, Hz4, Hz5, Hz6, He1, He2, He3, He4, He5.
      cbn [cont setCont promise].
      destruct K; try discriminate; try (exfalso; eapply HnF; reflexivity);
        repeat split; try assumption; lia. }
  assert (Hs1same : calls s1 = calls s /\ inFlight s1 = inFlight s /\ queue s1 = queue s /\
                    inFlightByKey s1 = inFlightByKey s /\ reactions s1 = reactions s).
  { unfold s1, doFetchFinish. destruct actual; repeat split; reflexivity. }
  destruct Hs1same as (Hs1c & Hs1i & Hs1q & Hs1b & Hs1r).
  clearbody s1.
  assert (Huse : forall K evs', activeCont K = true ->
            (forall i0 st0 ctl0, K <> AwaitFetch i0 st0 ctl0) ->
            evs' = [] \/ (exists ms, evs' = [(rid, slept ms)]) ->
            Inv config L o [] (updCall rid (setCont K)
                                 {| inFlight := inFlight s1; queue := queue s1;
                                    inFlightByKey := inFlightByKey s1; calls := calls s1;
                                    reactions := reactions s1; signals := signals s1;
                                    now := now s1; trace := trace s1 ++ evs' |})).
  { intros K evs' HK HnF Hev'.
    apply (Hbridge K evs' HK); simpl_state; try assumption.
    - destruct Hev' as [-> | [ms ->]]; repeat constructor.
    - destruct Hev' as [-> | [ms ->]]; count_simpl; reflexivity.
    - destruct Hev' as [-> | [ms ->]]; count_simpl; reflexivity.
    - destruct Hev' as [-> | [ms ->]]; count_simpl; reflexivity.
    - destruct Hev' as [-> | [ms ->]]; count_simpl; reflexivity.
    - destruct Hev' as [-> | [ms ->]]; count_simpl; reflexivity.
    - destruct Hev' as [-> | [ms ->]]; count_simpl; reflexivity.
    - rewrite Hs1c. reflexivity.
    - reflexivity. }
  assert (Hnil : forall K,
            updCall rid (setCont K)
              {| inFlight := inFlight s1; queue := queue s1;
                 inFlightByKey := inFlightByKey s1; calls := calls s1;
                 reactions := reactions s1; signals := signals s1;
                 now := now s1; trace := trace s1 ++ [] |}
            = updCall rid (setCont K) s1).
  { intros K. rewrite app_nil_r. destruct s1; reflexivity. }
  destruct (iteration (policyOf config (options c)) i attempt math) as [v | e | ms].
  - rewrite <- (settle_setCont rid c (Fulfilled v) (AwaitMicrotask (Fulfilled v)) s1).
    apply (Inv_settle L o (Fulfilled v) rid c (setCont (AwaitMicrotask (Fulfilled v)) c)).
    + rewrite <- Hnil. apply Huse; [reflexivity | discriminate | left; reflexivity].
    + simpl_state. rewrite list_lookup_alter_eq, Hs1c, Hc. reflexivity.
    + reflexivity.
    + reflexivity.
  - rewrite <- (settle_setCont rid c (Rejected e) (AwaitMicrotask (Rejected e)) s1).
    apply (Inv_settle L o (Rejected e) rid c (setCont (AwaitMicrotask (Rejected e)) c)).
    + rewrite <- Hnil. apply Huse; [reflexivity | discriminate | left; reflexivity].
    + simpl_state. rewrite list_lookup_alter_eq, Hs1c, Hc. reflexivity.
    + reflexivity.
    + reflexivity.
  - apply (Huse _ [(rid, slept ms)]); [reflexivity | discriminate | right; eauto].
Qed.


Lemma alter_None (F : Call -> Call) (rid : nat) (cs : list Call) :
  cs !! rid = None -> alter F rid cs = cs.
Proof.
  revert rid. induction cs as [| c cs IH]; intros [| rid] H; simpl in *;
    try reflexivity; try discriminate.
  f_equal. apply IH, H.
Qed.

Lemma Inv_sleepDone (L : nat) (o : Outcome) (rid : nat) (s : Client) :
  Inv config L o [] s -> Inv config L o [] (sleepDone config rid s).
Proof.
  intros HI. unfold sleepDone.
  destruct (calls s !! rid) as [c |] eqn:Hc; [| exact HI].
  destruct (cont c) as [| | i ctl errLast | | |] eqn:Hk; try exact HI.
  pose proof (inv_calls _ _ _ _ _ HI rid c Hc) as [Hfin Hok].
  unfold contOk in Hok. rewrite Hk in Hok.
  destruct Hok as (Hpn & Hrun & Hsv & Hrel & Hdq).
  unfold loopHead, doFetchStart.
  destruct (Z.of_nat (S i) <? loopBound (policyOf config (options c))).
  - eapply Inv_call_step with (s := s) (rid := rid) (c := c)
      (F := setCont (AwaitFetch (S i) (now s) ctl))
      (evs := [(rid, onStart (RequestOptions.key (options c)) (url c)); (rid, fetchCalled ctl)]);
      try eassumption; try reflexivity.
    + right. rewrite Hk. split; reflexivity.
    + left. reflexivity.
    + simpl_state. rewrite <- app_assoc. reflexivity.
    + repeat constructor.
    + unfold callOk, contOk. simpl_state. rewrite <- app_assoc. cbn [cont setCont promise app].
      count_simpl. repeat split; try assumption; lia.
  - eapply Inv_call_step with (s := s) (rid := rid) (c := c)
      (F := setCont (AwaitMicrotask (Rejected errLast))) (evs := []);
      try eassumption; try reflexivity.
    + right. rewrite Hk. split; reflexivity.
    + left. reflexivity.
    + simpl_state. rewrite app_nil_r. reflexivity.
    + constructor.
    + unfold callOk, contOk. simpl_state. cbn [cont setCont promise].
      repeat split; assumption.
Qed.

Lemma Inv_microtask (L : nat) (o : Outcome) (rid : nat) (s : Client) :
  Inv config L o [] s -> Inv config L o [] (microtask config rid s).
Proof.
  intros HI. unfold microtask.
  destruct (calls s !! rid) as [c |] eqn:Hc; [| exact HI].
  destruct (cont c) as [| | | o' | |] eqn:Hk; try exact HI.
  apply (Inv_settle L o o' rid c c); [exact HI | exact Hc | reflexivity |].
  rewrite Hk. reflexivity.
Qed.

(** Disarming the timer of a call changes nothing the invariant reads. *)
Lemma Inv_setTimer (L : nat) (o : Outcome) (rid : nat) (b : bool) (s : Client) :
  Inv config L o [] s -> Inv config L o [] (updCall rid (setTimer b) s).
Proof.
  intros HI. destruct (calls s !! rid) as [c |] eqn:Hc.
  - eapply Inv_call_step with (s := s) (rid := rid) (c := c) (F := setTimer b) (evs := []);
      try eassumption; try reflexivity.
    + left. reflexivity.
    + left. reflexivity.
    + simpl_state. rewrite app_nil_r. reflexivity.
    + constructor.
    + pose proof (inv_calls _ _ _ _ _ HI rid c Hc) as Hok.
      apply (callOk_frame L L [] [] s (updCall rid (setTimer b) s) rid c) in Hok;
        [exact Hok | reflexivity | auto |].
      intros A o' HA. unfold promiseOf in *. simpl_state.
      destruct (decide (rid = A)) as [-> | Hne].
      * rewrite list_lookup_alter_eq. destruct (calls s !! A); [exact HA | discriminate].
      * rewrite list_lookup_alter_ne by exact Hne. exact HA.
  - apply (Inv_ext L o [] s); try reflexivity; [| exact HI].
    simpl_state. apply alter_None, Hc.
Qed.


Lemma eventsOf_fresh (n rid : nat) (tr : list (nat * Event)) :
  (forall r e, (r, e) ∈ tr -> (r < n)%nat) -> (n <= rid)%nat -> eventsOf rid tr = [].
Proof.
  intros H Hn. induction tr as [| [r e] tr IH]; [reflexivity |].
  rewrite eventsOf_cons_other.
  - apply IH. intros r' e' Hin. apply (H r' e'). right. exact Hin.
  - specialize (H r e ltac:(left)). lia.
Qed.

(** [request] creates the variables of a new call. *)
Lemma Inv_newCall (L : nat) (o : Outcome) (c : Call) (s : Client) :
  Inv config L o [] s -> cont c = NotStarted ->
  Inv config L o [] (withCalls (calls s ++ [c]) s).
Proof.
  intros [Hq Hnd Hcnt Hcap Hre Hfnd Hrec Horph Hlead Hcalls Htr] Hns.
  assert (Hold : forall r c0, calls s !! r = Some c0 -> (calls s ++ [c]) !! r = Some c0).
  { intros r c0 H0. rewrite lookup_app_l; [exact H0 | eapply lookup_lt_Some; eauto]. }
  assert (Hpromise : forall A o', promiseOf s A = Some o' ->
                                  promiseOf (withCalls (calls s ++ [c]) s) A = Some o').
  { intros A o' HA. unfold promiseOf in *. simpl_state.
    destruct (calls s !! A) as [c0 |] eqn:H0; [| discriminate].
    rewrite (Hold A c0 H0). exact HA. }
  split; simpl_state.
  - intros r Hr. destruct (Hq r Hr) as (c0 & H0 & H1). eauto.
  - exact Hnd.
  - rewrite Hcnt, nactive_app. simpl. rewrite Hns. simpl. lia.
  - exact Hcap.
  - intros f l Hin. destruct (Hre f l Hin) as [[c1 [Hc1 Hk1]] [c2 [Hc2 Ha2]]]. split; eauto.
  - exact Hfnd.
  - intros k rec Hk. destruct (Hrec k rec Hk) as (c0 & H0 & H1). eauto.
  - intros f Hf. inversion Hf.
  - intros Hne. contradiction.
  - intros r c' Hr. destruct (decide (r < length (calls s))%nat) as [Hlt | Hge].
    + rewrite lookup_app_l in Hr by exact Hlt.
      apply (callOk_frame L L [] [] s); [apply Hcalls, Hr | reflexivity | auto | exact Hpromise].
    + assert (r = length (calls s)) as ->.
      { apply lookup_lt_Some in Hr. rewrite length_app in Hr. simpl in Hr. lia. }
      rewrite lookup_app_r, Nat.sub_diag in Hr by lia. injection Hr as <-.
      unfold callOk, contOk. simpl_state.
      rewrite (eventsOf_fresh _ _ _ Htr (le_n _)), Hns, !cnt_nil.
      repeat split; lia.
  - intros r e Hin. rewrite length_app. specialize (Htr r e Hin). lia.
Qed.

Lemma Inv_push (L : nat) (o : Outcome) (rid : nat) (c : Call) (s : Client) :
  Inv config L o [] s ->
  calls s !! rid = Some c -> cont c = NotStarted -> promise c = None -> rid ∉ queue s ->
  Inv config L o [] (withQueue (queue s ++ [rid]) s).
Proof.
  intros [Hq Hnd Hcnt Hcap Hre Hfnd Hrec Horph Hlead Hcalls Htr] Hc Hns Hpn Hnq.
  split; try assumption; simpl_state.
  - intros r Hr. apply elem_of_app in Hr as [Hr | Hr]; [apply Hq, Hr |].
    apply list_elem_of_singleton in Hr. subst r. eauto.
  - apply NoDup_app. split; [exact Hnd |]. split.
    + intros x Hx Hx'. apply list_elem_of_singleton in Hx'. subst x. contradiction.
    + apply NoDup_singleton.
Qed.

Lemma Inv_enqueue (L : nat) (o : Outcome) (rid : nat) (c : Call) (s : Client) :
  Inv config L o [] s ->
  calls s !! rid = Some c -> cont c = NotStarted -> promise c = None -> rid ∉ queue s ->
  Inv config L o [] (enqueue config rid c s).
Proof.
  intros HI Hc Hns Hpn Hnq. unfold enqueue.
  pose proof (inv_calls _ _ _ _ _ HI rid c Hc) as [Hfin Hok].
  unfold contOk in Hok. rewrite Hns in Hok. destruct Hok as (H1 & H2 & H3 & H4 & H5 & H6).
  destruct ((maxInFlight config =? 0) || (inFlight s <? maxInFlight config)) eqn:Hroom.
  - apply (Inv_runTask L o [] false rid s c); try assumption.
    apply orb_true_iff in Hroom as [H | H]; [left; apply Z.eqb_eq, H | right; apply Z.ltb_lt, H].
  - destruct (decide (strategy config = drop)) as [Hd | Hd].
    + eapply Inv_call_step with (s := s) (rid := rid) (c := c)
        (F := settlePromise (Rejected DropError))
        (evs := [(rid, onDrop (RequestOptions.key (options c)))]);
        try eassumption; try reflexivity.
      * apply options_settled.
      * left. apply cont_settled.
      * right. auto.
      * repeat constructor.
      * unfold callOk, contOk. simpl_state. rewrite cont_settled, Hns.
        count_simpl. repeat split; lia.
    + apply (Inv_push L o rid c); simpl_state; try assumption.
      eapply Inv_call_step with (s := s) (rid := rid) (c := c) (F := fun c => c)
        (evs := [(rid, onEnqueue (RequestOptions.key (options c)))]);
        try eassumption; try reflexivity.
      * left. reflexivity.
      * left. reflexivity.
      * simpl_state. symmetry. apply list_alter_id. reflexivity.
      * repeat constructor.
      * unfold callOk, contOk. simpl_state. rewrite Hns.
        count_simpl. repeat split; lia.
Qed.

Lemma Inv_request (L : nat) (o : Outcome) (input : string) (opts : RequestOptions.t)
    (s : Client) :
  Inv config L o [] s -> Inv config L o [] (request config input opts s).
Proof.
  intros HI. unfold request, newAbortController.
  destruct (combineSignals _ _) as [sigs2 oc].
  match goal with
  | |- Inv _ _ _ _ (enqueue _ _ ?c (withSignals _ (withCalls _ _))) => set (c0 := c)
  end.
  assert (Hnew : Inv config L o [] (withSignals sigs2 (withCalls (calls s ++ [c0]) s))).
  { apply (Inv_ext L o [] (withCalls (calls s ++ [c0]) s)); try reflexivity.
    apply Inv_newCall; [exact HI | reflexivity]. }
  apply Inv_enqueue; try assumption; try reflexivity.
  - simpl_state. rewrite lookup_app_r, Nat.sub_diag by lia. reflexivity.
  - simpl_state. intros Hin.
    destruct (inv_queue _ _ _ _ _ HI _ Hin) as (c1 & H1 & _).
    apply lookup_lt_Some in H1. lia.
Qed.

Lemma Inv_step (L : nat) (o : Outcome) (s : Client) (e : Input) :
  Inv config L o [] s -> Inv config L o [] (step config s e).
Proof.
  intros HI. destruct e as [input opts | rid r math | rid | rid | rid | rid | | ctl r | ms]; simpl.
  - apply Inv_request, HI.
  - apply Inv_fetchSettled, HI.
  - apply Inv_sleepDone, HI.
  - apply Inv_microtask, HI.
  - unfold timeoutFires. destruct (calls s !! rid) as [c |]; [| exact HI].
    destruct (timer c); [| exact HI].
    apply Inv_setTimer. apply (Inv_ext L o [] s); try reflexivity. exact HI.
  - unfold cancel. destruct (calls s !! rid) as [c |]; [| exact HI].
    apply (Inv_ext L o [] s); try reflexivity. exact HI.
  - apply (Inv_ext L o [] s); try reflexivity. exact HI.
  - apply (Inv_ext L o [] s); try reflexivity. exact HI.
  - apply (Inv_ext L o [] s); try reflexivity. exact HI.
Qed.

Lemma Inv_init (L : nat) (o : Outcome) : Inv config L o [] init.
Proof.
  split; simpl.
  - intros r Hr. inversion Hr.
  - constructor.
  - reflexivity.
  - right. unfold maxInFlight. lia.
  - intros f l Hin. inversion Hin.
  - constructor.
  - intros k rec H. rewrite lookup_empty in H. discriminate.
  - intros f Hf. inversion Hf.
  - intros Hne. contradiction.
  - intros r c H. rewrite lookup_nil in H. discriminate.
  - intros r e Hin. inversion Hin.
Qed.

Lemma Inv_reachable (s : Client) :
  reachable config s -> Inv config 0%nat (Rejected JsUndefined) [] s.
Proof. induction 1 as [| s e _ IH]; [apply Inv_init | apply Inv_step, IH]. Qed.

Lemma reachable_run (es : list Input) (s : Client) :
  reachable config s -> reachable config (run config s es).
Proof.
  revert s. induction es as [| e es IH]; intros s Hs; simpl; [exact Hs |].
  apply IH. constructor. exact Hs.
Qed.

End Preservation.

(** ** Where the finish hook is called *)

Lemma nf_refl (s s' : Client) : trace s' = trace s -> noFinishSince s s'.
Proof. intros H. exists []. rewrite app_nil_r. split; [exact H | constructor]. Qed.

Lemma nf_trans (s1 s2 s3 : Client) :
  noFinishSince s1 s2 -> noFinishSince s2 s3 -> noFinishSince s1 s3.
Proof.
  intros (e1 & H1 & F1) (e2 & H2 & F2). exists (e1 ++ e2).
  split; [rewrite H2, H1, app_assoc; reflexivity | apply Forall_app; split; assumption].
Qed.

Lemma nf_events (s s' : Client) (evs : list (nat * Event)) :
  trace s' = trace s ++ evs -> Forall (fun re => isFinish re.2 = false) evs ->
  noFinishSince s s'.
Proof. intros H F. exists evs. split; assumption. Qed.

Section Quiet.

Variable config : ClientConfig.t.

Lemma nf_runTask (b : bool) (rid : nat) (s : Client) :
  noFinishSince s (runTask config b rid s).
Proof.
  destruct (calls s !! rid) as [c |] eqn:Hc.
  - destruct (runTask_cases config b rid s c Hc) as (_ & _ & _ & Hcases).
    destruct Hcases as
      [(k & rec & _ & _ & _ & _ & _ & _ & Htr) | (k' & evs & _ & _ & Htr & Hk' & _)].
    + apply (nf_events _ _ _ Htr). repeat constructor.
    + apply (nf_events _ _ _ Htr).
      destruct Hk' as [[ec [_ ->]] | [_ ->]]; repeat constructor.
  - apply nf_refl. unfold runTask. rewrite Hc. reflexivity.
Qed.

Lemma nf_dequeue (s : Client) : noFinishSince s (dequeue config s).
Proof.
  destruct (dequeue_cases config s) as [-> | (task & rest & _ & _ & ->)].
  - apply nf_refl. reflexivity.
  - apply (nf_trans _ (withQueue rest s)); [apply nf_refl; reflexivity | apply nf_runTask].
Qed.

Lemma nf_followerSettle (o : Outcome) (s : Client) (f : nat) :
  noFinishSince s (followerSettle config o s f).
Proof.
  unfold followerSettle. apply (nf_trans _ (followerBody o s f)); [| apply nf_dequeue].
  apply (nf_events _ _ [(f, released); (f, dequeueCalled)]).
  - unfold followerBody. simpl_state. rewrite <- app_assoc. reflexivity.
  - repeat constructor.
Qed.

Lemma nf_followers (o : Outcome) (fs : list nat) (s : Client) :
  noFinishSince s (foldl (followerSettle config o) s fs).
Proof.
  revert s. induction fs as [| f fs IH]; intros s; simpl; [apply nf_refl; reflexivity |].
  apply (nf_trans _ (followerSettle config o s f)); [apply nf_followerSettle | apply IH].
Qed.

Lemma nf_settle (rid : nat) (c : Call) (o : Outcome) (s : Client) :
  noFinishSince s (settle config rid c o s).
Proof.
  unfold settle.
  apply (nf_trans _ (dequeue config (finallyBody rid c (detach rid (settleOuter rid c o s)))));
    [| apply nf_followers].
  apply (nf_trans _ (finallyBody rid c (detach rid (settleOuter rid c o s)))); [| apply nf_dequeue].
  unfold finallyBody, detach, settleOuter.
  destruct o as [v | e], (keyOf (options c)); simpl_state.
  all: eapply nf_events; [simpl_state; rewrite <- ?app_assoc; reflexivity | repeat constructor].
Qed.

Lemma nf_enqueue (rid : nat) (c : Call) (s : Client) :
  noFinishSince s (enqueue config rid c s).
Proof.
  unfold enqueue.
  destruct ((maxInFlight config =? 0) || (inFlight s <? maxInFlight config));
    [apply nf_runTask |].
  destruct (decide (strategy config = drop)).
  - eapply nf_events; [simpl_state; reflexivity | repeat constructor].
  - eapply nf_events; [simpl_state; reflexivity | repeat constructor].
Qed.

Lemma nf_request (input : string) (o : RequestOptions.t) (s : Client) :
  noFinishSince s (request config input o s).
Proof.
  unfold request, newAbortController. destruct (combineSignals _ _) as [sigs2 oc].
  eapply nf_trans; [| apply nf_enqueue]. apply nf_refl. reflexivity.
Qed.

Lemma nf_sleepDone (rid : nat) (s : Client) : noFinishSince s (sleepDone config rid s).
Proof.
  unfold sleepDone. destruct (calls s !! rid) as [c |]; [| apply nf_refl; reflexivity].
  destruct (cont c); try (apply nf_refl; reflexivity).
  unfold loopHead, doFetchStart. destruct (_ <? _).
  - eapply nf_events; [simpl_state; rewrite <- app_assoc; reflexivity | repeat constructor].
  - apply nf_refl. reflexivity.
Qed.

Lemma nf_microtask (rid : nat) (s : Client) : noFinishSince s (microtask config rid s).
Proof.
  unfold microtask. destruct (calls s !! rid) as [c |]; [| apply nf_refl; reflexivity].
  destruct (cont c); try (apply nf_refl; reflexivity). apply nf_settle.
Qed.

(** After the finish hook, the rest of a fetch settlement is quiet. *)
Lemma nf_afterFetch (rid : nat) (c : Call) (i : nat) (ctl : nat) (attempt : Outcome)
    (math : Math) (s1 : Client) :
  noFinishSince s1
    match iteration (policyOf config (options c)) i attempt math with
    | Return v => settle config rid c (Fulfilled v) s1
    | Throw e => settle config rid c (Rejected e) s1
    | Backoff ms =>
        let errLast := match attempt with Rejected e => e | Fulfilled _ => JsUndefined end in
        updCall rid (setCont (AwaitSleep i ctl errLast)) (emit rid (slept ms) s1)
    end.
Proof.
  destruct (iteration _ _ _ _); try apply nf_settle.
  eapply nf_events; [simpl_state; reflexivity | repeat constructor].
Qed.

Lemma nf_step (s : Client) (e : Input) :
  (forall rid r math, e <> FetchSettles rid r math) -> noFinishSince s (step config s e).
Proof.
  intros Hne. destruct e; simpl.
  - apply nf_request.
  - exfalso. eapply Hne. reflexivity.
  - apply nf_sleepDone.
  - apply nf_microtask.
  - unfold timeoutFires. destruct (calls s !! rid) as [c |]; [| apply nf_refl; reflexivity].
    destruct (timer c); apply nf_refl; reflexivity.
  - unfold cancel. destruct (calls s !! rid) as [c |]; apply nf_refl; reflexivity.
  - apply nf_refl. reflexivity.
  - apply nf_refl. reflexivity.
  - apply nf_refl. reflexivity.
Qed.

End Quiet.

(** ** The order of the queue *)

Lemma qmove_trans (lp : bool) (x y z : list nat * nat * list (nat * Event)) :
  qmove lp x y -> qmove lp y z -> qmove lp x z.
Proof.
  intros Hxy Hyz. induction Hxy.
  - exact Hyz.
  - eapply qm_emit; eauto.
  - eapply qm_grow; eauto.
  - eapply qm_push; eauto.
  - eapply qm_shift; eauto.
  - eapply qm_pop; eauto.
Qed.

Lemma qmove_emits (lp : bool) (q : list nat) (n : nat) (tr evs : list (nat * Event)) :
  Forall (fun re => isRunFromQueue re = false /\ isEnqueue re = false) evs ->
  qmove lp (q, n, tr) (q, n, tr ++ evs).
Proof.
  revert tr. induction evs as [| [r e] evs IH]; intros tr Hall.
  - rewrite app_nil_r. apply qm_refl.
  - apply Forall_cons in Hall as [[H1 H2] Hall].
    eapply qm_emit; [exact H1 | exact H2 |].
    replace (tr ++ (r, e) :: evs) with ((tr ++ [(r, e)]) ++ evs)
      by (rewrite <- app_assoc; reflexivity).
    apply IH, Hall.
Qed.

Lemma qmove_queueOk (lp : bool) (x y : list nat * nat * list (nat * Event)) :
  qmove lp x y -> queueOk x -> queueOk y.
Proof.
  unfold queueOk. induction 1 as [| | | q n tr r k y Hr _ IH | | ]; intros Hq; auto.
  - apply IHqmove. simpl in *. intros r0 Hr0. specialize (Hq r0 Hr0). lia.
  - apply IH. simpl in *. intros r0 Hr0. apply elem_of_app in Hr0 as [Hr0 | Hr0]; [auto |].
    apply list_elem_of_singleton in Hr0. subst. exact Hr.
  - apply IHqmove. simpl in *. intros r0 Hr0. apply Hq. right. exact Hr0.
  - apply IHqmove. simpl in *. intros r0 Hr0. apply Hq. apply elem_of_app. left. exact Hr0.
Qed.

Lemma dequeuedOrder_snoc (tr : list (nat * Event)) (r : nat) (e : Event) :
  dequeuedOrder (tr ++ [(r, e)])
  = dequeuedOrder tr ++ (if isRunFromQueue (r, e) then [r] else []).
Proof.
  unfold dequeuedOrder. rewrite filter_app, fmap_app. f_equal.
  destruct (isRunFromQueue (r, e)) eqn:H.
  - rewrite filter_cons_True by exact H. reflexivity.
  - rewrite filter_cons_False by congruence. reflexivity.
Qed.

Lemma enqueuedOrder_snoc (tr : list (nat * Event)) (r : nat) (e : Event) :
  enqueuedOrder (tr ++ [(r, e)])
  = enqueuedOrder tr ++ (if isEnqueue (r, e) then [r] else []).
Proof.
  unfold enqueuedOrder. rewrite filter_app, fmap_app. f_equal.
  destruct (isEnqueue (r, e)) eqn:H.
  - rewrite filter_cons_True by exact H. reflexivity.
  - rewrite filter_cons_False by congruence. reflexivity.
Qed.

(** Under the ordered strategy the moves keep the order. *)
Lemma qmove_ordered (x y : list nat * nat * list (nat * Event)) :
  qmove false x y -> ordered x -> ordered y.
Proof.
  unfold ordered. induction 1 as [| q n tr r e y H1 H2 _ IH | | q n tr r k y _ _ IH
                                 | task rest n tr y _ _ IH | task rest n tr y Hlp _ _];
    intros Ho; simpl in *; auto.
  - apply IH. rewrite dequeuedOrder_snoc, enqueuedOrder_snoc, H1, H2, !app_nil_r. exact Ho.
  - apply IH. rewrite dequeuedOrder_snoc, enqueuedOrder_snoc. simpl.
    rewrite app_nil_r, app_assoc, Ho. reflexivity.
  - apply IH. rewrite dequeuedOrder_snoc, enqueuedOrder_snoc. simpl.
    rewrite app_nil_r, <- app_assoc. exact Ho.
  - discriminate.
Qed.

Section QueueMoves.

Variable config : ClientConfig.t.

Lemma qm_runTask (b : bool) (rid : nat) (s : Client) (c : Call) :
  calls s !! rid = Some c ->
  exists evs, abstract (runTask config b rid s)
              = (queue s, length (calls s), trace s ++ (rid, taskRun b) :: evs) /\
              Forall (fun re => isRunFromQueue re = false /\ isEnqueue re = false) evs.
Proof.
  intros Hc. destruct (runTask_cases config b rid s c Hc) as (_ & Hq & _ & Hcases).
  unfold abstract. rewrite Hq.
  destruct Hcases as
    [(k & rec & _ & _ & _ & Hcs & _ & _ & Htr) | (k' & evs & Hcs & _ & Htr & Hk' & _)];
    rewrite Hcs, Htr, length_alter.
  - eexists. split; [reflexivity | repeat constructor].
  - exists evs. split; [reflexivity |].
    destruct Hk' as [[ec [_ ->]] | [_ ->]]; repeat constructor.
Qed.

Lemma qmove_runTask_false (rid : nat) (s : Client) :
  qmove (lifoPop config) (abstract s) (abstract (runTask config false rid s)).
Proof.
  destruct (calls s !! rid) as [c |] eqn:Hc.
  - destruct (qm_runTask false rid s c Hc) as (evs & -> & Hevs).
    apply (qmove_emits (lifoPop config) _ _ _ ((rid, taskRun false) :: evs)).
    constructor; [split; reflexivity | exact Hevs].
  - unfold runTask. rewrite Hc. apply qm_refl.
Qed.

Lemma qmove_dequeue (s : Client) :
  queueOk (abstract s) -> qmove (lifoPop config) (abstract s) (abstract (dequeue config s)).
Proof.
  intros Hq. destruct (dequeue_cases config s) as [-> | (task & rest & _ & Hqs & ->)];
    [apply qm_refl |].
  assert (Hin : task ∈ queue s).
  { destruct (decide (strategy config = lifo)); rewrite Hqs.
    - apply elem_of_app. right. left.
    - left. }
  specialize (Hq task Hin). simpl in Hq.
  destruct (lookup_lt_is_Some_2 _ _ Hq) as [c Hc].
  destruct (qm_runTask true task (withQueue rest s) c Hc) as (evs & -> & Hevs).
  simpl_state. unfold abstract.
  replace (trace s ++ (task, taskRun true) :: evs)
    with ((trace s ++ [(task, taskRun true)]) ++ evs) by (rewrite <- app_assoc; reflexivity).
  unfold lifoPop. destruct (decide (strategy config = lifo)) as [Hl | Hl]; rewrite Hqs.
  - apply qm_pop; [apply bool_decide_eq_true, Hl | apply qmove_emits, Hevs].
  - apply qm_shift; [apply bool_decide_eq_false, Hl | apply qmove_emits, Hevs].
Qed.

(** An operation that leaves the queue and the number of calls alone and
    records events that are neither enqueue hooks nor runs. *)
Lemma qmove_quiet (s s' : Client) (evs : list (nat * Event)) :
  queue s' = queue s -> length (calls s') = length (calls s) ->
  trace s' = trace s ++ evs ->
  Forall (fun re => isRunFromQueue re = false /\ isEnqueue re = false) evs ->
  qmove (lifoPop config) (abstract s) (abstract s').
Proof.
  intros Hq Hl Ht Hevs. unfold abstract. rewrite Hq, Hl, Ht. apply qmove_emits, Hevs.
Qed.

Lemma qmove_followerSettle (o : Outcome) (s : Client) (f : nat) :
  queueOk (abstract s) ->
  qmove (lifoPop config) (abstract s) (abstract (followerSettle config o s f)).
Proof.
  intros Hq.
  assert (H1 : qmove (lifoPop config) (abstract s) (abstract (followerBody o s f))).
  { apply (qmove_quiet _ _ [(f, released); (f, dequeueCalled)]).
    - reflexivity.
    - unfold followerBody. simpl_state. apply length_alter.
    - unfold followerBody. simpl_state. rewrite <- app_assoc. reflexivity.
    - repeat constructor. }
  unfold followerSettle. eapply qmove_trans; [exact H1 |].
  apply qmove_dequeue. exact (qmove_queueOk _ _ _ H1 Hq).
Qed.

Lemma qmove_followers (o : Outcome) (fs : list nat) (s : Client) :
  queueOk (abstract s) ->
  qmove (lifoPop config) (abstract s) (abstract (foldl (followerSettle config o) s fs)).
Proof.
  revert s. induction fs as [| f fs IH]; intros s Hq; simpl; [apply qm_refl |].
  pose proof (qmove_followerSettle o s f Hq) as H1.
  eapply qmove_trans; [exact H1 |]. apply IH. exact (qmove_queueOk _ _ _ H1 Hq).
Qed.

Lemma qmove_settle (rid : nat) (c : Call) (o : Outcome) (s : Client) :
  queueOk (abstract s) -> qmove (lifoPop config) (abstract s) (abstract (settle config rid c o s)).
Proof.
  intros Hq. unfold settle.
  assert (H1 : qmove (lifoPop config) (abstract s)
                 (abstract (finallyBody rid c (detach rid (settleOuter rid c o s))))).
  { unfold finallyBody, detach, settleOuter.
    destruct o as [v | e], (keyOf (options c)).
    all: eapply qmove_quiet;
      [ reflexivity
      | simpl_state; rewrite !length_alter; reflexivity
      | simpl_state; rewrite <- ?app_assoc; reflexivity
      | repeat constructor ]. }
  pose proof (qmove_queueOk _ _ _ H1 Hq) as Hq1.
  pose proof (qmove_dequeue _ Hq1) as H2.
  pose proof (qmove_queueOk _ _ _ H2 Hq1) as Hq2.
  eapply qmove_trans; [exact H1 |]. eapply qmove_trans; [exact H2 |].
  apply qmove_followers, Hq2.
Qed.

Lemma qmove_request (input : string) (o : RequestOptions.t) (s : Client) :
  qmove (lifoPop config) (abstract s) (abstract (request config input o s)).
Proof.
  unfold request, newAbortController. destruct (combineSignals _ _) as [sigs2 oc].
  match goal with |- context [enqueue _ _ ?c _] => set (c0 := c) end.
  match goal with |- context [enqueue _ _ _ ?s0] => set (s1 := s0) end.
  assert (Hl : length (calls s1) = S (length (calls s))).
  { unfold s1. simpl_state. rewrite length_app. simpl. lia. }
  assert (H1 : qmove (lifoPop config) (abstract s) (abstract s1)).
  { unfold abstract. rewrite Hl. apply qm_grow, qm_refl. }
  clearbody s1. eapply qmove_trans; [exact H1 |]. unfold enqueue.
  destruct ((maxInFlight config =? 0) || (inFlight s1 <? maxInFlight config));
    [apply qmove_runTask_false |].
  destruct (decide (strategy config = drop)).
  - eapply qmove_quiet;
      [reflexivity | simpl_state; apply length_alter | simpl_state; reflexivity
      | repeat constructor].
  - unfold abstract. simpl_state. eapply qm_push; [| apply qm_refl]. lia.
Qed.

Lemma qmove_step (s : Client) (e : Input) :
  queueOk (abstract s) -> qmove (lifoPop config) (abstract s) (abstract (step config s e)).
Proof.
  intros Hq. destruct e as [input o | rid r math | rid | rid | rid | rid | | ctl r | ms]; simpl.
  - apply qmove_request.
  - unfold fetchSettled. destruct (calls s !! rid) as [c |]; [| apply qm_refl].
    destruct (cont c) as [| i start ctl | | | |]; try apply qm_refl.
    set (actual := fetchOutcome s ctl r).
    assert (H1 : qmove (lifoPop config) (abstract s)
                   (abstract (doFetchFinish rid c start actual s))).
    { unfold doFetchFinish. destruct actual; [| apply qm_refl].
      eapply qmove_quiet; [reflexivity | reflexivity | reflexivity | repeat constructor]. }
    eapply qmove_trans; [exact H1 |].
    pose proof (qmove_queueOk _ _ _ H1 Hq) as Hq1.
    destruct (iteration _ _ _ _); try (apply qmove_settle, Hq1).
    eapply qmove_quiet;
      [reflexivity | simpl_state; apply length_alter | simpl_state; reflexivity
      | repeat constructor].
  - unfold sleepDone. destruct (calls s !! rid) as [c |]; [| apply qm_refl].
    destruct (cont c); try apply qm_refl.
    unfold loopHead, doFetchStart. destruct (_ <? _).
    + eapply qmove_quiet;
        [reflexivity | simpl_state; apply length_alter
        | simpl_state; rewrite <- app_assoc; reflexivity | repeat constructor].
    + eapply qmove_quiet with (evs := []);
        [reflexivity | simpl_state; apply length_alter
        | simpl_state; rewrite app_nil_r; reflexivity | constructor].
  - unfold microtask. destruct (calls s !! rid) as [c |]; [| apply qm_refl].
    destruct (cont c); try apply qm_refl. apply qmove_settle, Hq.
  - unfold timeoutFires. destruct (calls s !! rid) as [c |]; [| apply qm_refl].
    destruct (timer c); [| apply qm_refl].
    eapply qmove_quiet with (evs := []);
      [reflexivity | simpl_state; apply length_alter
      | simpl_state; rewrite app_nil_r; reflexivity | constructor].
  - unfold cancel. destruct (calls s !! rid) as [c |]; apply qm_refl.
  - apply qm_refl.
  - apply qm_refl.
  - apply qm_refl.
Qed.

Lemma reachable_queue (s : Client) :
  reachable config s ->
  queueOk (abstract s) /\ (strategy config <> lifo -> ordered (abstract s)).
Proof.
  induction 1 as [| s e _ [IH1 IH2]].
  - split; [intros r Hr; inversion Hr | reflexivity].
  - pose proof (qmove_step s e IH1) as Hm. split.
    + exact (qmove_queueOk _ _ _ Hm IH1).
    + intros Hl. apply (qmove_ordered (abstract s)); [| apply IH2, Hl].
      unfold lifoPop in Hm. rewrite (bool_decide_eq_false_2 _ Hl) in Hm. exact Hm.
Qed.

End QueueMoves.

(** ** Admission *)

Lemma total_app (p : Event -> bool) (tr1 tr2 : list (nat * Event)) :
  total p (tr1 ++ tr2) = (total p tr1 + total p tr2)%nat.
Proof. unfold total. rewrite filter_app, length_app. reflexivity. Qed.

Lemma total_cons (p : Event -> bool) (r : nat) (e : Event) (tr : list (nat * Event)) :
  total p ((r, e) :: tr) = ((if p e then 1 else 0) + total p tr)%nat.
Proof.
  unfold total. destruct (p e) eqn:He.
  - rewrite filter_cons_True by exact He. reflexivity.
  - rewrite filter_cons_False by (simpl; congruence). reflexivity.
Qed.

Lemma runTask_runs_once (config : ClientConfig.t) (b : bool) (rid : nat) (s : Client) :
  (total isRun (trace (runTask config b rid s)) <= total isRun (trace s) + 1)%nat /\
  queue (runTask config b rid s) = queue s.
Proof.
  destruct (calls s !! rid) as [c |] eqn:Hc.
  - destruct (runTask_cases config b rid s c Hc) as (_ & Hq & _ & Hcases).
    split; [| exact Hq].
    destruct Hcases as
      [(k & rec & _ & _ & _ & _ & _ & _ & Htr) | (k' & evs & _ & _ & Htr & Hk' & _)];
      rewrite Htr, total_app.
    + rewrite !total_cons. simpl. unfold total. simpl. lia.
    + destruct Hk' as [[ec [_ ->]] | [_ ->]]; rewrite !total_cons; simpl; unfold total; simpl; lia.
  - unfold runTask. rewrite Hc. split; [lia | reflexivity].
Qed.

(** What [dequeue()] does at most: one task leaves the queue and is run. *)
Lemma dequeue_at_most_one (config : ClientConfig.t) (s : Client) :
  (total isRun (trace (dequeue config s)) <= total isRun (trace s) + 1)%nat /\
  (length (queue s) <= length (queue (dequeue config s)) + 1)%nat.
Proof.
  destruct (dequeue_cases config s) as [-> | (task & rest & _ & Hq & ->)]; [lia |].
  destruct (runTask_runs_once config true task (withQueue rest s)) as [H1 H2].
  split; [exact H1 |]. rewrite H2. simpl_state.
  destruct (decide (strategy config = lifo)); rewrite Hq; rewrite ?length_app; simpl; lia.
Qed.

(** What [request] does when the counter has reached the capacity. *)
Lemma request_at_capacity (config : ClientConfig.t) (input : string)
    (o : RequestOptions.t) (s : Client) :
  0 < maxInFlight config -> maxInFlight config <= inFlight s ->
  let s' := request config input o s in
  let rid := length (calls s) in
  inFlight s' = inFlight s /\ contOf s' rid = Some NotStarted /\
  total isRun (trace s') = total isRun (trace s) /\
  ((strategy config <> drop /\ queue s' = queue s ++ [rid] /\ promiseOf s' rid = None) \/
   (strategy config = drop /\ queue s' = queue s /\
    promiseOf s' rid = Some (Rejected DropError))).
Proof.
  intros Hpos Hfull. unfold request, newAbortController.
  destruct (combineSignals _ _) as [sigs2 oc]. unfold enqueue. simpl_state.
  assert (Hno : (maxInFlight config =? 0) || (inFlight s <? maxInFlight config) = false).
  { apply orb_false_iff. split; [apply Z.eqb_neq; lia | apply Z.ltb_ge; lia]. }
  rewrite Hno. unfold contOf, promiseOf.
  destruct (decide (strategy config = drop)) as [Hd | Hd]; simpl_state.
  - rewrite list_lookup_alter_eq, lookup_app_r, Nat.sub_diag by lia. simpl.
    rewrite total_app, total_cons. unfold total at 2. simpl.
    repeat split; try lia. right. auto.
  - rewrite lookup_app_r, Nat.sub_diag by lia. simpl.
    rewrite total_app, total_cons. unfold total at 2. simpl.
    repeat split; try lia. left. auto.
Qed.

(** C5.  With a capacity [C > 0], in every reachable state the counter is
    between 0 and [C] and no more than [C] transport calls are
    outstanding; a request made while the counter equals [C] is put on
    the queue or dropped and not run; and a call of dequeue takes at most
    one task off the queue and runs at most one. *)
Theorem capacity_respected (config : ClientConfig.t) (s : Client) :
  0 < maxInFlight config ->
  reachable config s ->
  0 <= inFlight s <= maxInFlight config /\
  Z.of_nat (executing (calls s)) <= inFlight s /\
  (forall input o,
     inFlight s = maxInFlight config ->
     let s' := request config input o s in
     let rid := length (calls s) in
     inFlight s' = inFlight s /\ contOf s' rid = Some NotStarted /\
     total isRun (trace s') = total isRun (trace s) /\
     ((strategy config <> drop /\ queue s' = queue s ++ [rid] /\ promiseOf s' rid = None) \/
      (strategy config = drop /\ queue s' = queue s /\
       promiseOf s' rid = Some (Rejected DropError)))) /\
  (forall s0,
     (total isRun (trace (dequeue config s0)) <= total isRun (trace s0) + 1)%nat /\
     (length (queue s0) <= length (queue (dequeue config s0)) + 1)%nat).
Proof.
  intros Hpos Hr. pose proof (Inv_reachable config s Hr) as HI.
  pose proof (inv_counter _ _ _ _ _ HI) as Hcnt.
  pose proof (inv_capacity _ _ _ _ _ HI) as Hcap.
  pose proof (executing_le_nactive (calls s)) as Hex.
  split; [| split; [| split]].
  - split; [lia |]. destruct Hcap; lia.
  - lia.
  - intros input o Hfull. apply request_at_capacity; lia.
  - intros s0. apply dequeue_at_most_one.
Qed.

(** ** The finish hook *)

(** The finish hook is not fired once per call: a call that is retried
    twice after 503 responses and then succeeds fires it three times. *)
Lemma finish_hook_fires_per_response :
  let s := run plainConfig init
             [CallRequest "/a" (retrying policy150);
              FetchSettles 0 (Responds (response 503)) host; SleepDone 0;
              FetchSettles 0 (Responds (response 503)) host; SleepDone 0;
              FetchSettles 0 (Responds (response 200)) host] in
  promiseOf s 0 = Some (Fulfilled (Json "{}")) /\
  count isServed 0 (trace s) = 0%nat /\
  count isFinish 0 (trace s) = 3%nat.
Proof. vm_compute. repeat split. Qed.

Lemma cnt_finish_quiet (rid : nat) (evs : list (nat * Event)) :
  Forall (fun re => isFinish re.2 = false) evs -> cnt isFinish (eventsOf rid evs) = 0%nat.
Proof.
  induction 1 as [| [r e] evs He _ IH]; [reflexivity |].
  destruct (decide (r = rid)) as [-> | Hne].
  - rewrite eventsOf_cons_same, cnt_cons. simpl in He. rewrite He. exact IH.
  - rewrite eventsOf_cons_other by exact Hne. exact IH.
Qed.

(** C6, as amended.  The finish hook fires exactly once for each response
    that a transport call of the call returns, once per response and not
    once per call, with that response's ok flag and status and the time
    elapsed since the attempt started, whichever way the call goes on from
    there: fulfilled, rejected, or retried and later aborted.  It fires at
    no point other than the settlement of a fetch; so it never fires more
    often than the transport was called, and never for a call served by
    dedupe. *)
Theorem finish_hook_per_response (config : ClientConfig.t) :
  (forall s rid c i start ctl r res math,
     calls s !! rid = Some c -> cont c = AwaitFetch i start ctl ->
     fetchOutcome s ctl r = Responds res ->
     (exists rest,
        trace (fetchSettled config rid r math s)
        = trace s ++ (rid, onFinish (RequestOptions.key (options c)) (url c)
                                    (ok res) (status res) (now s - start)) :: rest /\
        Forall (fun re => isFinish re.2 = false) rest) /\
     count isFinish rid (trace (fetchSettled config rid r math s))
     = S (count isFinish rid (trace s))) /\
  (forall s e, (forall rid r math, e <> FetchSettles rid r math) ->
               noFinishSince s (step config s e)) /\
  (forall s rid, reachable config s ->
     (count isFinish rid (trace s) <= count isFetch rid (trace s))%nat /\
     (forall A, (rid, served A) ∈ trace s -> count isFinish rid (trace s) = 0%nat)).
Proof.
  split; [| split].
  - intros s rid c i start ctl r res math Hc Hk Hres.
    unfold fetchSettled. rewrite Hc, Hk, Hres. cbn [doFetchFinish].
    match goal with
    | |- context [iteration ?p i ?a math] =>
        destruct (nf_afterFetch config rid c i ctl a math
                    (emit rid (onFinish (RequestOptions.key (options c)) (url c)
                                        (ok res) (status res) (now s - start)) s))
          as (rest & Htr & Hrest)
    end.
    cbn zeta in Htr. split.
    + exists rest. split; [| exact Hrest].
      rewrite Htr. simpl_state. rewrite <- app_assoc. reflexivity.
    + unfold count. rewrite Htr. simpl_state.
      rewrite !eventsOf_app, !cnt_app, (cnt_finish_quiet rid rest Hrest).
      rewrite eventsOf_cons_same, cnt_cons, eventsOf_nil, cnt_nil. simpl. lia.
  - intros s e He. apply nf_step, He.
  - intros s rid Hr. pose proof (Inv_reachable config s Hr) as HI. unfold count.
    destruct (calls s !! rid) as [c |] eqn:Hc.
    + destruct (inv_calls _ _ _ _ _ HI rid c Hc) as [Hle Hok]. split; [exact Hle |].
      intros A HA. apply elem_of_eventsOf in HA.
      pose proof (cnt_pos isServed _ _ HA eq_refl) as Hpos.
      unfold contOk in Hok. destruct (cont c).
      * destruct Hok as (_ & _ & _ & H & _). lia.
      * destruct Hok as (_ & _ & H & _). lia.
      * destruct Hok as (_ & _ & H & _). lia.
      * destruct Hok as (_ & _ & H & _). lia.
      * destruct Hok as (_ & _ & H & _). lia.
      * destruct Hok as (_ & _ & _ & _ & [H | [H _]] & _); lia.
    + assert (Hnil : eventsOf rid (trace s) = []).
      { apply (eventsOf_fresh (length (calls s))); [apply (inv_trace _ _ _ _ _ HI) |].
        apply lookup_ge_None, Hc. }
      rewrite Hnil. split; [reflexivity |].
      intros A HA. apply elem_of_eventsOf in HA. rewrite Hnil in HA. inversion HA.
Qed.

Lemma finish_hook_per_response_witness :
  let s := run plainConfig init [CallRequest "/a" (retrying twoAttempts); Tick 7] in
  let c := {| url := "/a"; options := retrying twoAttempts; promise := None;
              timeoutController := 0; timer := false; outerController := 1;
              cont := AwaitFetch 0 0 1 |} in
  let s' := fetchSettled plainConfig 0 (Responds (response 503)) host s in
  calls s !! 0%nat = Some c /\
  fetchOutcome s 1 (Responds (response 503)) = Responds (response 503) /\
  ((exists rest,
      trace s' = trace s ++ (0%nat, onFinish (RequestOptions.key (options c)) (url c)
                                      (ok (response 503)) (status (response 503))
                                      (now s - 0)) :: rest /\
      Forall (fun re => isFinish re.2 = false) rest) /\
   count isFinish 0 (trace s') = S (count isFinish 0 (trace s))) /\
  now s - 0 = 7.
Proof.
  intros s c s'.
  assert (Hc : calls s !! 0%nat = Some c) by (vm_compute; reflexivity).
  assert (Hres : fetchOutcome s 1 (Responds (response 503)) = Responds (response 503))
    by (vm_compute; reflexivity).
  split; [exact Hc |]. split; [exact Hres |]. split; [| vm_compute; reflexivity].
  destruct (finish_hook_per_response plainConfig) as (H & _ & _).
  exact (H s 0%nat c 0%nat 0 1%nat (Responds (response 503)) (response 503) host
           Hc eq_refl Hres).
Defined.

(** ** Dedupe *)

Lemma reachable_call (config : ClientConfig.t) (s : Client) (B A : nat) :
  reachable config s -> (B, served A) ∈ trace s ->
  exists c, calls s !! B = Some c /\ callOk 0 [] s B c /\
            (0 < cnt isServed (eventsOf B (trace s)))%nat /\
            served A ∈ eventsOf B (trace s).
Proof.
  intros Hr HA. pose proof (Inv_reachable config s Hr) as HI.
  pose proof (inv_trace _ _ _ _ _ HI B _ HA) as Hlt.
  destruct (lookup_lt_is_Some_2 _ _ Hlt) as [c Hc]. exists c.
  apply elem_of_eventsOf in HA.
  split; [exact Hc |]. split; [apply (inv_calls _ _ _ _ _ HI), Hc |].
  split; [apply (cnt_pos isServed _ _ HA eq_refl) | exact HA].
Qed.

(** A call with both flags finds the record of a call in flight, aborts
    it, and runs its own attempt: its outcome is its own. *)
Lemma dedupe_with_lastOneWins_runs_its_own_attempt :
  let s1 := run plainConfig init [CallRequest "/a" (keyed "k" false false)] in
  let s2 := step plainConfig s1 (CallRequest "/b" (keyed "k" true true)) in
  let s3 := run plainConfig s2
              [FetchSettles 0 (Responds (response 200)) host;
               FetchSettles 1 (Responds (response 200)) host] in
  resultPromise <$> inFlightByKey s1 !! "k" = Some 0%nat /\
  promiseOf s1 0 = None /\
  count isRun 1 (trace s2) = 1%nat /\
  count isFetch 1 (trace s2) = 1%nat /\
  promiseOf s3 0 = Some (Rejected (DOMException "Replaced by newer request" "AbortError")) /\
  promiseOf s3 1 = Some (Fulfilled (Json "{}")).
Proof. vm_compute. repeat split. Qed.

(** C7, as amended.  A call with the dedupe flag and without the
    lastOneWins flag that starts running under a key for which a record
    exists is served by the promise of that record; and a call served by
    the promise of call [A] makes no transport call, sleeps on no backoff,
    stays pending as long as [A] does and settles with exactly the outcome
    of [A]. *)
Theorem dedupe_follower_shares_outcome (config : ClientConfig.t) :
  (forall b B s c k rec,
     calls s !! B = Some c -> keyOf (options c) = Some k ->
     RequestOptions.dedupe (options c) = true ->
     RequestOptions.lastOneWins (options c) = false ->
     inFlightByKey s !! k = Some rec ->
     trace (runTask config b B s)
     = trace s ++ [(B, taskRun b); (B, served (resultPromise rec))]) /\
  (forall s B A,
     reachable config s -> (B, served A) ∈ trace s ->
     count isFetch B (trace s) = 0%nat /\ count isSlept B (trace s) = 0%nat /\
     (promiseOf s A = None -> promiseOf s B = None) /\
     (forall o, promiseOf s A = Some o -> promiseOf s B = Some o)).
Proof.
  split.
  - intros b B s c k rec Hc Hk Hd Hl Hrec.
    unfold runTask. rewrite Hc. unfold supersede, dedupeLeader. rewrite Hk, Hl, Hd.
    simpl_state. rewrite Hrec. simpl. rewrite <- app_assoc. reflexivity.
  - intros s B A Hr HA. pose proof (Inv_reachable config s Hr) as HI.
    destruct (reachable_call config s B A Hr HA) as (c & Hc & [_ Hok] & Hpos & Hin).
    unfold count, contOk in *. unfold promiseOf at 2 4. rewrite Hc. simpl.
    destruct (cont c) as [| | | | l |].
    + destruct Hok as (_ & _ & _ & H & _). lia.
    + destruct Hok as (_ & _ & H & _). lia.
    + destruct Hok as (_ & _ & H & _). lia.
    + destruct Hok as (_ & _ & H & _). lia.
    + destruct Hok as (Hpn & _ & Hf & Hs & _ & _ & Hsv & Hre).
      rewrite (Hsv A Hin) in *.
      split; [exact Hf |]. split; [exact Hs |]. split; [intros _; exact Hpn |].
      intros o Ho. destruct Hre as [Hre | [Hre _]]; [| inversion Hre].
      destruct (inv_reactions _ _ _ _ _ HI B l Hre) as [_ (cl & Hcl & Hal)].
      destruct (callOk_active _ _ _ _ _ (inv_calls _ _ _ _ _ HI l cl Hcl) Hal) as (Hn & _).
      unfold promiseOf in Ho. rewrite Hcl in Ho. simpl in Ho. congruence.
    + destruct Hok as (_ & _ & _ & _ & Hz & Hsv).
      destruct (Hsv A Hin) as (o' & Ho1 & Ho2).
      destruct Hz as [Hz | [Hz1 Hz2]]; [lia |].
      split; [exact Hz1 |]. split; [exact Hz2 |]. split.
      * intros Hnone. congruence.
      * intros o Ho. congruence.
Qed.

Lemma dedupe_follower_shares_outcome_witness :
  let s := run plainConfig init
             [CallRequest "/a" (keyed "k" false false);
              CallRequest "/b" (keyed "k" false true);
              FetchSettles 0 (Responds (response 200)) host] in
  (1%nat, served 0%nat) ∈ trace s /\
  (count isFetch 1 (trace s) = 0%nat /\ count isSlept 1 (trace s) = 0%nat /\
   (promiseOf s 0 = None -> promiseOf s 1 = None) /\
   (forall o, promiseOf s 0 = Some o -> promiseOf s 1 = Some o)) /\
  promiseOf s 0 = Some (Fulfilled (Json "{}")).
Proof.
  intros s.
  assert (Hin : (1%nat, served 0%nat) ∈ trace s).
  { vm_compute. do 4 right. left. }
  split; [exact Hin |]. split; [| vm_compute; reflexivity].
  destruct (dedupe_follower_shares_outcome plainConfig) as [_ H].
  apply (H s 1%nat 0%nat); [| exact Hin].
  apply (reachable_run plainConfig). constructor.
Defined.

(** ** Queue strategies *)


Lemma capacity_respected_witness :
  let s := run (capacityOne fifo) init
             [CallRequest "/a" noOptions; CallRequest "/b" noOptions] in
  0 < maxInFlight (capacityOne fifo) /\
  (0 <= inFlight s <= maxInFlight (capacityOne fifo)) /\
  inFlight s = 1 /\ queue s = [1%nat].
Proof.
  intros s. split; [reflexivity |]. split; [| split; vm_compute; reflexivity].
  destruct (capacity_respected (capacityOne fifo) s) as (H & _).
  - reflexivity.
  - apply (reachable_run (capacityOne fifo)). constructor.
  - exact H.
Defined.

(* ===================================================================== *)
(** * Further properties *)
(* ===================================================================== *)

(** ** The retry loop as a whole *)

Lemma iteration_Backoff (p : option RetryPolicy) (i : nat) (o : Outcome) (math : Math)
    (ms : number) :
  iteration p i o math = Backoff ms ->
  exists pol e, p = Some pol /\ o = Rejected e /\ isAbort e = false /\
                Z.of_nat i < attempts pol - 1 /\ shouldRetry p None e = true /\
                ms = calcBackoffDelay (Z.of_nat i) pol math.
Proof.
  unfold iteration. destruct o as [v | e]; [discriminate |].
  destruct (isAbort e) eqn:Ha; [discriminate |]. destruct p as [pol |]; [| discriminate].
  destruct (Z.ltb_spec (Z.of_nat i) (attempts pol - 1)); simpl; [| discriminate].
  destruct (shouldRetry (Some pol) None e) eqn:Hs; [| discriminate].
  intros [= <-]. exists pol, e.
  split; [reflexivity |]. split; [reflexivity |]. split; [exact Ha |].
  split; [assumption |]. split; [assumption | reflexivity].
Qed.

Lemma retryLoop_budget (p : option RetryPolicy) (doOnce : nat -> Outcome) (math : nat -> Math)
    (fuel i : nat) (errLast : JsError) (slept : list number) (r : RetryRun) :
  retryLoop fuel p doOnce math i errLast slept = Some r ->
  (i <= attemptsMade r)%nat /\
  (Z.of_nat (attemptsMade r) <= Z.max (Z.of_nat i) (loopBound p)) /\
  ((i < attemptsMade r)%nat -> (length (sleeps r) + S i = length slept + attemptsMade r)%nat) /\
  (attemptsMade r = i -> length (sleeps r) = length slept /\ loopBound p <= Z.of_nat i).
Proof.
  revert i errLast slept. induction fuel as [| fuel IH]; intros i errLast slept; simpl.
  - destruct (Z.ltb_spec (Z.of_nat i) (loopBound p)); [discriminate |].
    intros [= <-]. simpl. lia.
  - destruct (Z.ltb_spec (Z.of_nat i) (loopBound p)) as [Hlt | Hge].
    + destruct (iteration p i (doOnce i) (math i)) eqn:Hit.
      * intros [= <-]. simpl. lia.
      * intros [= <-]. simpl. lia.
      * intros H. destruct (IH _ _ _ H) as (H1 & H2 & H3 & H4).
        rewrite length_app in H3, H4. simpl in H3, H4.
        apply iteration_Backoff in Hit as (pol & e & -> & _ & _ & Hi & _).
        unfold loopBound in *. simpl in *.
        destruct (decide (attemptsMade r = S i)) as [Heq | Hne]; [specialize (H4 Heq) |]; lia.
    + intros [= <-]. simpl. lia.
Qed.

(** X1.  The retry budget: [runWithRetry] calls [doOnce] at most
    [attempts] times, the number its policy allows (once without a policy,
    never when [attempts] is zero or less), and sleeps exactly once between
    two consecutive attempts, never after the last one. *)
Theorem retry_budget (configRetry policy : option RetryPolicy)
    (doOnce : nat -> Outcome) (math : nat -> Math) :
  exists r, runWithRetry configRetry doOnce policy math = Some r /\
    Z.of_nat (attemptsMade r) <= Z.max 0 (loopBound (effectivePolicy configRetry policy)) /\
    length (sleeps r) = (attemptsMade r - 1)%nat.
Proof.
  destruct (runWithRetry_total configRetry policy doOnce math) as [r Hr].
  exists r. split; [exact Hr |].
  unfold runWithRetry in Hr. apply retryLoop_budget in Hr as (H1 & H2 & H3 & H4).
  unfold effectivePolicy. simpl in *. split; [exact H2 |].
  destruct (decide (attemptsMade r = 0%nat)) as [H0 | H0]; [destruct (H4 H0); lia | lia].
Qed.

Lemma retryLoop_final (pol : RetryPolicy) (doOnce : nat -> Outcome) (math : nat -> Math)
    (fuel k : nat) (errLast : JsError) (slept : list number) :
  Z.of_nat k < attempts pol -> final pol k (doOnce k) ->
  retryLoop (S fuel) (Some pol) doOnce math k errLast slept
  = Some {| result := doOnce k; attemptsMade := S k; sleeps := slept |}.
Proof.
  intros Hk Hf. simpl. unfold loopBound. simpl.
  destruct (Z.ltb_spec (Z.of_nat k) (attempts pol)); [| lia].
  unfold iteration. unfold final in Hf. destruct (doOnce k) as [v | e]; [reflexivity |].
  destruct (isAbort e) eqn:Ha; [reflexivity |].
  destruct Hf as [Hf | [Hf | Hf]]; [discriminate | |].
  - rewrite Hf, andb_false_r. reflexivity.
  - destruct (Z.ltb_spec (Z.of_nat k) (attempts pol - 1)); [lia |]. reflexivity.
Qed.

Lemma retryLoop_retried (pol : RetryPolicy) (doOnce : nat -> Outcome) (math : nat -> Math)
    (fuel i : nat) (errLast : JsError) (slept : list number) :
  Z.of_nat i < attempts pol - 1 -> retried pol (doOnce i) ->
  exists e,
    retryLoop (S fuel) (Some pol) doOnce math i errLast slept
    = retryLoop fuel (Some pol) doOnce math (S i) e
        (slept ++ [calcBackoffDelay (Z.of_nat i) pol (math i)]).
Proof.
  intros Hi (e & He & Ha & Hs). exists e. simpl. unfold loopBound. simpl.
  destruct (Z.ltb_spec (Z.of_nat i) (attempts pol)); [| lia].
  rewrite He. unfold iteration. rewrite Ha, Hs.
  destruct (Z.ltb_spec (Z.of_nat i) (attempts pol - 1)); [| lia]. reflexivity.
Qed.

Lemma backoffs_S (pol : RetryPolicy) (math : nat -> Math) (k : nat) :
  backoffs pol math (S k) = backoffs pol math k ++ [calcBackoffDelay (Z.of_nat k) pol (math k)].
Proof. unfold backoffs. rewrite seq_S, map_app. reflexivity. Qed.

Lemma retryLoop_prefix (pol : RetryPolicy) (doOnce : nat -> Outcome) (math : nat -> Math)
    (k fuel : nat) :
  Z.of_nat k < attempts pol ->
  (forall j, (j < k)%nat -> retried pol (doOnce j)) ->
  exists e,
    retryLoop (k + fuel) (Some pol) doOnce math 0 JsUndefined []
    = retryLoop fuel (Some pol) doOnce math k e (backoffs pol math k).
Proof.
  revert fuel. induction k as [| k IH]; intros fuel Hk Hre.
  - exists JsUndefined. reflexivity.
  - destruct (IH (S fuel)) as [e0 IH0]; [lia | intros j Hj; apply Hre; lia |].
    destruct (retryLoop_retried pol doOnce math fuel k e0 (backoffs pol math k)) as [e He];
      [lia | apply Hre; lia |].
    exists e. rewrite backoffs_S, <- He, <- IH0. f_equal. lia.
Qed.

(** X2.  With a policy, the loop stops at the first attempt that succeeds,
    is aborted, fails in a way the predicate does not retry, or is the
    last one allowed; the promise settles as that attempt did, and the
    delays slept before it are the backoff delays of the attempts that
    failed, in order. *)
Theorem retry_stops_at_first_final_attempt
    (configRetry : option RetryPolicy) (pol : RetryPolicy)
    (doOnce : nat -> Outcome) (math : nat -> Math) (k : nat) :
  Z.of_nat k < attempts pol ->
  (forall j, (j < k)%nat -> retried pol (doOnce j)) ->
  final pol k (doOnce k) ->
  runWithRetry configRetry doOnce (Some pol) math
  = Some {| result := doOnce k; attemptsMade := S k; sleeps := backoffs pol math k |}.
Proof.
  intros Hk Hre Hf. unfold runWithRetry, loopBound. simpl.
  destruct (retryLoop_prefix pol doOnce math k (Z.to_nat (attempts pol) - k) Hk Hre) as [e He].
  replace (k + (Z.to_nat (attempts pol) - k))%nat with (Z.to_nat (attempts pol)) in He by lia.
  rewrite He.
  replace (Z.to_nat (attempts pol) - k)%nat with (S (Z.to_nat (attempts pol) - k - 1)) by lia.
  apply retryLoop_final; assumption.
Qed.

Lemma retry_stops_at_first_final_attempt_witness :
  runWithRetry None failsTwice (Some policy150) (fun _ => host)
  = Some {| result := Fulfilled (Json "{}"); attemptsMade := 3; sleeps := [num 150; num 300] |}.
Proof.
  apply (retry_stops_at_first_final_attempt None policy150 failsTwice (fun _ => host) 2).
  - reflexivity.
  - intros [| [| j]] Hj; [| | lia]; exists (HttpError (response 503)); repeat split.
  - exact I.
Defined.

(** X3.  A policy whose [attempts] is zero or negative makes no attempt at
    all: the loop is not entered and the promise rejects with [undefined],
    the initial value of [errLast]. *)
Theorem no_attempts_rejects_with_undefined
    (configRetry : option RetryPolicy) (pol : RetryPolicy)
    (doOnce : nat -> Outcome) (math : nat -> Math) :
  attempts pol <= 0 ->
  runWithRetry configRetry doOnce (Some pol) math
  = Some {| result := Rejected JsUndefined; attemptsMade := 0; sleeps := [] |}.
Proof.
  intros H. unfold runWithRetry, loopBound. simpl.
  replace (Z.to_nat (attempts pol)) with 0%nat by lia. simpl. unfold loopBound. simpl.
  destruct (Z.ltb_spec (Z.of_nat 0) (attempts pol)); [lia | reflexivity].
Qed.

Lemma no_attempts_rejects_with_undefined_witness :
  let pol := {| attempts := 0; backoffBaseMs := None; backoffFactor := None;
                jitterRatio := None; retryOn := None |} in
  runWithRetry (Some policy150) (fun _ => Fulfilled (Json "{}")) (Some pol) (fun _ => host)
  = Some {| result := Rejected JsUndefined; attemptsMade := 0; sleeps := [] |}.
Proof.
  intros pol.
  apply (no_attempts_rejects_with_undefined (Some policy150) pol
           (fun _ => Fulfilled (Json "{}")) (fun _ => host)).
  simpl. lia.
Defined.

(** ** The default parser *)

Lemma prefix_spec (p s : string) :
  String.prefix p s = true <-> exists rest, s = p +:+ rest.
Proof.
  revert s. induction p as [| a p IH]; intros s.
  - split; [intros _; exists s; reflexivity | intros _; destruct s; reflexivity].
  - destruct s as [| b s]; simpl.
    + split; [discriminate | intros [rest H]; discriminate].
    + destruct (Ascii.ascii_dec a b) as [-> | Hne].
      * rewrite IH. split; intros [rest H]; exists rest.
        -- rewrite H. reflexivity.
        -- change (String b p +:+ rest) with (String b (p +:+ rest)) in H. congruence.
      * split; [discriminate |]. intros [rest H].
        change (String a p +:+ rest) with (String a (p +:+ rest)) in H. congruence.
Qed.

(** [hay.includes(needle)]: the needle occurs somewhere in the hay. *)
Lemma includes_spec (needle hay : string) :
  includes needle hay = true <-> exists before after, hay = before +:+ needle +:+ after.
Proof.
  induction hay as [| a hay IH]; cbn [includes].
  - rewrite orb_false_r, prefix_spec. split.
    + intros [rest H]. exists "", rest. exact H.
    + intros (before & after & H). destruct before as [| b before]; [| discriminate].
      exists after. exact H.
  - rewrite orb_true_iff, prefix_spec, IH. split.
    + intros [[rest H] | (before & after & H)].
      * exists "", rest. exact H.
      * exists (String a before), after. rewrite H. reflexivity.
    + intros (before & after & H). destruct before as [| b before].
      * left. exists after. exact H.
      * right. exists before, after.
        change (String b before +:+ needle +:+ after)
          with (String b (before +:+ needle +:+ after)) in H. congruence.
Qed.

(** X4.  The default parser chooses the read of the body by content type
    alone and settles as that read settles: [res.json()] when the type
    mentions application/json anywhere, otherwise [res.text()] when the
    type starts with text/, otherwise [res.blob()] (also for an empty or
    missing content type); the test is case-sensitive and JSON takes
    precedence over text.  So it rejects when the read it chose rejects,
    as [res.json()] does on a body that is not JSON. *)
Theorem defaultParser_by_content_type (res : Response) :
  let isJson := exists before after, contentType res = before +:+ "application/json" +:+ after in
  let isText := exists rest, contentType res = "text/" +:+ rest in
  (isJson -> defaultParser res = settled (json res)) /\
  (~ isJson -> isText -> defaultParser res = settled (text res)) /\
  (~ isJson -> ~ isText -> defaultParser res = settled (blob res)) /\
  (forall name message,
     isJson -> json res = ReadFails name message ->
     defaultParser res = Rejected (OtherError name message)) /\
  (forall v, isJson -> json res = ReadOk v -> defaultParser res = Fulfilled v).
Proof.
  intros isJson isText.
  assert (H3 : (isJson -> defaultParser res = settled (json res)) /\
               (~ isJson -> isText -> defaultParser res = settled (text res)) /\
               (~ isJson -> ~ isText -> defaultParser res = settled (blob res))).
  { unfold defaultParser.
    pose proof (includes_spec "application/json" (contentType res)) as Hj.
    pose proof (prefix_spec "text/" (contentType res)) as Ht.
    destruct (includes "application/json" (contentType res)).
    - split; [reflexivity |]. split; intros Hn; exfalso; apply Hn, Hj; reflexivity.
    - destruct (String.prefix "text/" (contentType res)).
      + split; [intros H; apply Hj in H; discriminate |].
        split; [reflexivity |]. intros _ Hn. exfalso. apply Hn, Ht. reflexivity.
      + split; [intros H; apply Hj in H; discriminate |].
        split; [intros _ H; apply Ht in H; discriminate | reflexivity]. }
  destruct H3 as (Hjs & Htx & Hbl).
  split; [exact Hjs |]. split; [exact Htx |]. split; [exact Hbl |]. split.
  - intros name message Hj Hr. rewrite (Hjs Hj), Hr. reflexivity.
  - intros v Hj Hr. rewrite (Hjs Hj), Hr. reflexivity.
Qed.

Lemma defaultParser_by_content_type_witness :
  defaultParser {| status := 200; statusText := "OK";
                   contentType := "text/x; application/json";
                   json := ReadFails "SyntaxError" "Unexpected token";
                   text := ReadOk (Text "<html>"); blob := ReadOk (Blob "<html>") |}
  = Rejected (OtherError "SyntaxError" "Unexpected token") /\
  defaultParser {| status := 200; statusText := "OK"; contentType := "";
                   json := ReadOk (Json "1"); text := ReadOk (Text "1");
                   blob := ReadOk (Blob "1") |}
  = settled (ReadOk (Blob "1")).
Proof.
  split.
  - destruct (defaultParser_by_content_type
                {| status := 200; statusText := "OK";
                   contentType := "text/x; application/json";
                   json := ReadFails "SyntaxError" "Unexpected token";
                   text := ReadOk (Text "<html>"); blob := ReadOk (Blob "<html>") |})
      as (_ & _ & _ & H & _).
    apply H; [| reflexivity]. exists "text/x; ", "". reflexivity.
  - destruct (defaultParser_by_content_type
                {| status := 200; statusText := "OK"; contentType := "";
                   json := ReadOk (Json "1"); text := ReadOk (Text "1");
                   blob := ReadOk (Blob "1") |})
      as (_ & _ & H & _).
    apply H.
    + intros (before & after & H1). destruct before; discriminate.
    + intros [rest H1]. discriminate.
Defined.

(** ** Cascades of aborts *)

Lemma fires_refl (root : nat -> JsError -> Prop) (sigs : list AbortSignal) :
  fires root sigs sigs.
Proof.
  split; try done. intros a s s' H1 H2 H3 H4. congruence.
Qed.

Lemma fires_weaken (R R' : nat -> JsError -> Prop) (sigs sigs' : list AbortSignal) :
  (forall a e, R a e -> R' a e \/ e = defaultAbortReason \/ forwardTarget sigs a) ->
  fires R sigs sigs' -> fires R' sigs sigs'.
Proof.
  intros HR [H1 H2 H3 H4]. split; try assumption.
  intros a s s' Ha Hf Ha' Hf'. destruct (H4 a s s' Ha Hf Ha' Hf') as (HL & HC & HRe).
  split; [exact HL |]. split; [exact HC |].
  destruct HRe as [HRe | [HRe | HRe]]; [apply HR, HRe | right; left; exact HRe | right; right; exact HRe].
Qed.

Lemma fires_isAborted (R : nat -> JsError -> Prop) (sigs sigs' : list AbortSignal) (a : nat) :
  fires R sigs sigs' -> isAborted sigs a = true -> isAborted sigs' a = true.
Proof.
  intros HF. unfold isAborted. destruct (sigs !! a) as [s |] eqn:Ha; [| discriminate].
  intros Hs. rewrite (fires_fired _ _ _ HF a s Ha Hs). exact Hs.
Qed.

Lemma fires_lookup (R : nat -> JsError -> Prop) (sigs sigs' : list AbortSignal) (a : nat)
    (s' : AbortSignal) :
  fires R sigs sigs' -> sigs' !! a = Some s' -> exists s, sigs !! a = Some s.
Proof.
  intros HF Ha'. apply lookup_lt_is_Some. rewrite <- (fires_length _ _ _ HF).
  eapply lookup_lt_Some, Ha'.
Qed.

(** Listeners are only ever removed by a cascade. *)
Lemma fires_listeners (R : nat -> JsError -> Prop) (sigs sigs' : list AbortSignal)
    (a : nat) (l : Listener) :
  fires R sigs sigs' -> l ∈ listenersOf sigs' a -> l ∈ listenersOf sigs a.
Proof.
  intros HF. unfold listenersOf. destruct (sigs' !! a) as [s' |] eqn:Ha'; [| intros H; inversion H].
  destruct (fires_lookup _ _ _ _ _ HF Ha') as [s Ha]. rewrite Ha.
  destruct (aborted s') eqn:Hf'.
  - destruct (aborted s) eqn:Hf.
    + rewrite (fires_fired _ _ _ HF a s Ha Hf) in Ha'. injection Ha' as <-. done.
    + destruct (fires_new _ _ _ HF a s s' Ha Hf Ha' Hf') as (HL & _). rewrite HL.
      intros H. inversion H.
  - rewrite (fires_unfired _ _ _ HF a s' Ha' Hf') in Ha. injection Ha as <-. done.
Qed.

Lemma fires_forwardTarget (R : nat -> JsError -> Prop) (sigs sigs' : list AbortSignal) (t : nat) :
  fires R sigs sigs' -> forwardTarget sigs' t -> forwardTarget sigs t.
Proof.
  intros HF (b & src & H). exists b, src. eapply fires_listeners; eauto.
Qed.

Lemma fires_trans (R : nat -> JsError -> Prop) (s1 s2 s3 : list AbortSignal) :
  fires R s1 s2 -> fires R s2 s3 -> fires R s1 s3.
Proof.
  intros H12 H23. split.
  - rewrite (fires_length _ _ _ H23). apply (fires_length _ _ _ H12).
  - intros a s Ha Hf. apply (fires_fired _ _ _ H23); [| exact Hf].
    apply (fires_fired _ _ _ H12); assumption.
  - intros a s' Ha Hf. apply (fires_unfired _ _ _ H12); [| exact Hf].
    apply (fires_unfired _ _ _ H23); assumption.
  - intros a s s' Ha Hf Ha' Hf'.
    destruct (fires_lookup _ _ _ _ _ H23 Ha') as [s2' Ha2].
    destruct (aborted s2') eqn:Hf2.
    + pose proof (fires_fired _ _ _ H23 a s2' Ha2 Hf2) as Heq.
      rewrite Heq in Ha'. injection Ha' as <-.
      destruct (fires_new _ _ _ H12 a s s2' Ha Hf Ha2 Hf2) as (HL & HC & HRe).
      split; [exact HL |]. split; [| exact HRe].
      intros l Hl Ht. eapply fires_isAborted; [exact H23 |]. apply HC; assumption.
    + pose proof (fires_unfired _ _ _ H12 a s2' Ha2 Hf2) as Heq.
      rewrite Heq in Ha. injection Ha as <-.
      destruct (fires_new _ _ _ H23 a s2' s' Ha2 Hf2 Ha' Hf') as (HL & HC & HRe).
      split; [exact HL |]. split.
      * intros l Hl Ht. apply HC; [exact Hl |]. rewrite (fires_length _ _ _ H12). exact Ht.
      * destruct HRe as [HRe | [HRe | HRe]]; [left; exact HRe | right; left; exact HRe |].
        right. right. eapply fires_forwardTarget; eauto.
Qed.

Lemma unfired_zero (sigs : list AbortSignal) (a : nat) (s : AbortSignal) :
  unfired sigs = 0%nat -> sigs !! a = Some s -> aborted s = true.
Proof.
  intros H0 Ha. destruct (aborted s) eqn:Hf; [reflexivity |].
  pose proof (unfired_pos sigs a s Ha Hf). lia.
Qed.

Lemma dispatch_abort (fuel : nat) (acc : list AbortSignal) (l : Listener) :
  dispatch fuel acc l = abort fuel acc (rootOf acc l).1 (rootOf acc l).2.
Proof.
  destruct l as [t | t src]; simpl; [reflexivity |].
  destruct (reasonOf acc src); reflexivity.
Qed.

Lemma abortArg_idem (r : JsError) : abortArg (abortArg r) = abortArg r.
Proof. destruct r; reflexivity. Qed.

(** What [controller.abort(r)] does to the store. *)
Lemma abort_fires (fuel : nat) (sigs : list AbortSignal) (id : nat) (r : JsError) :
  (unfired sigs <= fuel)%nat ->
  fires (fun a e => a = id /\ e = abortArg r) sigs (abort fuel sigs id r) /\
  ((id < length sigs)%nat -> isAborted (abort fuel sigs id r) id = true).
Proof.
  revert sigs id r. induction fuel as [| fuel IH]; intros sigs id r Hfuel.
  - simpl. split; [apply fires_refl |]. intros Hid.
    destruct (lookup_lt_is_Some_2 _ _ Hid) as [s Hs]. unfold isAborted. rewrite Hs.
    apply (unfired_zero sigs id s); [lia | exact Hs].
  - rewrite abort_S. destruct (sigs !! id) as [s |] eqn:Hs.
    2: { split; [apply fires_refl |]. intros Hid. apply lookup_ge_None in Hs. lia. }
    destruct (aborted s) eqn:Hf.
    { split; [apply fires_refl |]. intros _. unfold isAborted. rewrite Hs. exact Hf. }
    pose proof (unfired_fire sigs id s (abortArg r) Hs Hf) as Hfire.
    pose proof (lookup_lt_Some _ _ _ Hs) as Hid.
    set (fired := {| aborted := true; reason := abortArg r; listeners := [] |}) in *.
    set (st0 := <[id := fired]> sigs) in *.
    assert (Hfold : forall ls acc, (unfired acc <= fuel)%nat ->
              fires (fun a e => exists src, ForwardReason a src ∈ ls)
                    acc (foldl (dispatch fuel) acc ls) /\
              forall l, l ∈ ls -> (target l < length acc)%nat ->
                        isAborted (foldl (dispatch fuel) acc ls) (target l) = true).
    { induction ls as [| l ls IHl]; intros acc Hacc; simpl.
      - split; [apply fires_refl |]. intros l Hl. inversion Hl.
      - destruct (IH acc (rootOf acc l).1 (rootOf acc l).2 Hacc) as [HF1 HA1].
        rewrite <- dispatch_abort in HF1, HA1.
        assert (Hacc1 : (unfired (dispatch fuel acc l) <= fuel)%nat).
        { rewrite dispatch_abort. etransitivity; [apply abort_unfired | exact Hacc]. }
        destruct (IHl (dispatch fuel acc l) Hacc1) as [HF2 HA2].
        split.
        + apply (fires_trans _ acc (dispatch fuel acc l)).
          * eapply fires_weaken; [| exact HF1]. intros a e [-> ->].
            destruct l as [t | t src]; simpl.
            -- right. left. reflexivity.
            -- left. exists src. left.
          * eapply fires_weaken; [| exact HF2]. intros a e [src Hsrc].
            left. exists src. right. exact Hsrc.
        + intros l' Hl' Ht. apply elem_of_cons in Hl' as [-> | Hl'].
          * eapply fires_isAborted; [exact HF2 |].
            replace (target l) with (rootOf acc l).1 by (destruct l; reflexivity).
            apply HA1. destruct l; exact Ht.
          * apply HA2; [exact Hl' |]. rewrite (fires_length _ _ _ HF1). exact Ht. }
    assert (Hst0 : (unfired st0 <= fuel)%nat) by lia.
    destruct (Hfold (listeners s) st0 Hst0) as [HF HA].
    set (final := foldl (dispatch fuel) st0 (listeners s)) in *.
    assert (Hlen0 : length st0 = length sigs) by apply length_insert.
    assert (Hid0 : st0 !! id = Some fired) by (apply list_lookup_insert_eq; exact Hid).
    assert (Hidf : final !! id = Some fired)
      by (apply (fires_fired _ _ _ HF); [exact Hid0 | reflexivity]).
    split.
    2: { intros _. unfold isAborted. rewrite Hidf. reflexivity. }
    split.
    + rewrite (fires_length _ _ _ HF). exact Hlen0.
    + intros a sa Ha Hfa. apply (fires_fired _ _ _ HF); [| exact Hfa].
      unfold st0. rewrite list_lookup_insert_ne by congruence. exact Ha.
    + intros a sa' Ha' Hfa'. pose proof (fires_unfired _ _ _ HF a sa' Ha' Hfa') as H0.
      destruct (decide (id = a)) as [<- | Hne].
      * rewrite Hid0 in H0. injection H0 as <-. discriminate.
      * unfold st0 in H0. rewrite list_lookup_insert_ne in H0 by exact Hne. exact H0.
    + intros a sa sa' Ha Hfa Ha' Hfa'. destruct (decide (id = a)) as [<- | Hne].
      * rewrite Hidf in Ha'. injection Ha' as <-. rewrite Hs in Ha. injection Ha as <-.
        split; [reflexivity |]. split.
        -- intros l Hl Ht. apply HA; [exact Hl |]. rewrite Hlen0. exact Ht.
        -- left. split; reflexivity.
      * assert (Ha0 : st0 !! a = Some sa)
          by (unfold st0; rewrite list_lookup_insert_ne by exact Hne; exact Ha).
        destruct (fires_new _ _ _ HF a sa sa' Ha0 Hfa Ha' Hfa') as (HL & HC & HRe).
        split; [exact HL |]. split.
        -- intros l Hl Ht. apply HC; [exact Hl |]. rewrite Hlen0. exact Ht.
        -- right. destruct HRe as [[src Hsrc] | [HRe | (b & src & Hb)]].
           ++ right. exists id, src. unfold listenersOf. rewrite Hs. exact Hsrc.
           ++ left. exact HRe.
           ++ right. exists b, src. unfold listenersOf in *. unfold st0 in Hb.
              destruct (decide (id = b)) as [<- | Hnb].
              ** rewrite list_lookup_insert_eq in Hb by exact Hid. inversion Hb.
              ** rewrite list_lookup_insert_ne in Hb by exact Hnb. exact Hb.
Qed.

Lemma abortSignal_fires (sigs : list AbortSignal) (id : nat) (r : JsError) :
  fires (fun a e => a = id /\ e = abortArg r) sigs (abortSignal sigs id r) /\
  ((id < length sigs)%nat -> isAborted (abortSignal sigs id r) id = true).
Proof.
  unfold abortSignal. apply abort_fires. pose proof (unfired_le_length sigs). lia.
Qed.

(** ** The life of a call *)

Lemma eventsOf_tagged (r rid : nat) (evs : list Event) :
  eventsOf r (pair rid <$> evs) = if decide (r = rid) then evs else [].
Proof.
  destruct (decide (r = rid)) as [-> | Hne].
  - induction evs as [| e evs IH]; [reflexivity |].
    rewrite fmap_cons, eventsOf_cons_same, IH. reflexivity.
  - induction evs as [| e evs IH]; [reflexivity |].
    rewrite fmap_cons, eventsOf_cons_other by congruence. exact IH.
Qed.

Section Life.

Variable config : ClientConfig.t.

(** One call changes by one step of its life. *)
Lemma lives_touch (s s' : Client) (rid : nat) (c c' : Call) (evs : list Event) :
  lives config s ->
  calls s !! rid = Some c ->
  calls s' !! rid = Some c' ->
  (forall r, r <> rid -> calls s' !! r = calls s !! r) ->
  trace s' = trace s ++ (pair rid <$> evs) ->
  callStep config c (eventsOf rid (trace s)) c' (eventsOf rid (trace s) ++ evs) ->
  lives config s'.
Proof.
  intros HL Hc Hc' Hsame Htr Hstep r c0 H0. rewrite Htr, eventsOf_app, eventsOf_tagged.
  destruct (decide (r = rid)) as [-> | Hne].
  - rewrite Hc' in H0. injection H0 as <-.
    eapply life_step; [apply HL, Hc | exact Hstep].
  - rewrite app_nil_r. apply HL. rewrite <- Hsame by exact Hne. exact H0.
Qed.

(** Nothing that the calls or the trace hold changes. *)
Lemma lives_ext (s s' : Client) :
  calls s' = calls s -> trace s' = trace s -> lives config s -> lives config s'.
Proof. intros Hc Ht HL r c. rewrite Hc, Ht. apply HL. Qed.

Lemma runTask_life (b : bool) (rid : nat) (s : Client) (c : Call) :
  calls s !! rid = Some c ->
  let s' := runTask config b rid s in
  exists k',
    calls s' = alter (setCont k') rid (calls s) /\
    ((exists leader,
         k' = AwaitLeader leader /\
         trace s' = trace s ++ [(rid, taskRun b); (rid, served leader)]) \/
     (exists ec,
         k' = AwaitFetch 0 (now s) ec /\
         trace s' = trace s ++ [(rid, taskRun b);
                                (rid, onStart (RequestOptions.key (options c)) (url c));
                                (rid, fetchCalled ec)] /\
         0 < loopBound (policyOf config (options c))) \/
     (k' = AwaitMicrotask (Rejected JsUndefined) /\
      trace s' = trace s ++ [(rid, taskRun b)] /\
      loopBound (policyOf config (options c)) <= 0)).
Proof.
  intros Hc. unfold runTask. rewrite Hc.
  unfold supersede, dedupeLeader, effectiveController, loopHead, doFetchStart, newAbortController.
  destruct (keyOf (options c)) as [k |] eqn:Hk.
  - simpl_state.
    destruct (RequestOptions.lastOneWins (options c)) eqn:Hl;
      destruct (RequestOptions.dedupe (options c)) eqn:Hd.
    all: destruct (inFlightByKey s !! k) as [prev |] eqn:Hprev.
    all: repeat first [ rewrite Hprev | rewrite lookup_delete_eq | progress simpl_state
                      | progress cbn [fmap option_fmap option_map] ].
    all: try (destruct (combineSignals _ _) as [sigs3 ec] eqn:Hcomb).
    all: try (destruct (Z.ltb_spec (Z.of_nat 0) (loopBound (policyOf config (options c))));
              simpl_state).
    all: rewrite <- ?app_assoc; cbn [app].
    all: eexists; split; [reflexivity |].
    all: first
      [ left; eexists; split; reflexivity
      | right; left; eexists; split; [reflexivity |]; split; [reflexivity | assumption]
      | right; right; split; [reflexivity |]; split; [reflexivity | assumption] ].
  - simpl_state.
    destruct (Z.ltb_spec (Z.of_nat 0) (loopBound (policyOf config (options c)))); simpl_state.
    all: rewrite <- ?app_assoc; cbn [app].
    all: eexists; split; [reflexivity |].
    all: first
      [ right; left; eexists; split; [reflexivity |]; split; [reflexivity | assumption]
      | right; right; split; [reflexivity |]; split; [reflexivity | assumption] ].
Qed.

Lemma lives_runTask (b : bool) (rid : nat) (s : Client) (c : Call) :
  lives config s ->
  calls s !! rid = Some c -> cont c = NotStarted -> promise c = None ->
  lives config (runTask config b rid s).
Proof.
  intros HL Hc Hns Hpn.
  destruct (runTask_life b rid s c Hc) as (k' & Hcs & Hcases).
  assert (Hself : calls (runTask config b rid s) !! rid = Some (setCont k' c))
    by (rewrite Hcs, list_lookup_alter_eq, Hc; reflexivity).
  assert (Hsame : forall r, r <> rid -> calls (runTask config b rid s) !! r = calls s !! r)
    by (intros r Hr; rewrite Hcs; apply list_lookup_alter_ne; congruence).
  destruct Hcases as [(leader & -> & Htr) | [(ec & -> & Htr & Hb) | (-> & Htr & Hb)]].
  - eapply lives_touch with (s := s) (rid := rid) (evs := [taskRun b; served leader]);
      [exact HL | exact Hc | exact Hself | exact Hsame | exact Htr |].
    apply cs_served; assumption.
  - eapply lives_touch with (s := s) (rid := rid)
      (evs := [taskRun b; onStart (RequestOptions.key (options c)) (url c); fetchCalled ec]);
      [exact HL | exact Hc | exact Hself | exact Hsame | exact Htr |].
    apply cs_attempt; assumption.
  - eapply lives_touch with (s := s) (rid := rid) (evs := [taskRun b]);
      [exact HL | exact Hc | exact Hself | exact Hsame | exact Htr |].
    apply cs_noAttempt; assumption.
Qed.

Lemma lives_dequeue (L : nat) (o : Outcome) (fs : list nat) (s : Client) :
  Inv config L o fs s -> lives config s -> lives config (dequeue config s).
Proof.
  intros HI HL. destruct (dequeue_cases config s) as [-> | (task & rest & _ & Hq & ->)];
    [exact HL |].
  assert (Hin : task ∈ queue s).
  { destruct (decide (strategy config = lifo)); rewrite Hq.
    - apply elem_of_app. right. left.
    - left. }
  destruct (inv_queue _ _ _ _ _ HI task Hin) as (c & Hc & Hns & Hpn).
  apply (lives_runTask true task (withQueue rest s) c); assumption.
Qed.

Lemma lives_followerBody (L : nat) (o : Outcome) (f : nat) (fs : list nat) (s : Client) :
  Inv config L o (f :: fs) s -> lives config s -> lives config (followerBody o s f).
Proof.
  intros HI HL. destruct (inv_orphans _ _ _ _ _ HI f ltac:(left)) as (c & Hc & Hk).
  apply (lives_touch s _ f c (setCont Finished (settlePromise o c)) [released; dequeueCalled]);
    try assumption.
  - unfold followerBody. simpl_state. rewrite list_lookup_alter_eq, Hc. reflexivity.
  - intros r Hr. unfold followerBody. simpl_state. apply list_lookup_alter_ne. congruence.
  - unfold followerBody. simpl_state. rewrite <- app_assoc. reflexivity.
  - eapply cs_followed. exact Hk.
Qed.

Lemma lives_followers (L : nat) (o : Outcome) (fs : list nat) (s : Client) :
  Inv config L o fs s -> lives config s ->
  lives config (foldl (followerSettle config o) s fs).
Proof.
  revert s. induction fs as [| f fs IH]; intros s HI HL; simpl; [exact HL |].
  pose proof (Inv_followerBody config L o f fs s HI) as HI1.
  apply IH; unfold followerSettle.
  - apply Inv_dequeue, HI1.
  - apply (lives_dequeue L o fs); [exact HI1 |]. apply (lives_followerBody L o f fs); assumption.
Qed.

(** The reactions of the leader's own promise, up to the call of dequeue. *)
Lemma leader_touch (rid : nat) (c : Call) (o : Outcome) (s : Client) :
  let s' := finallyBody rid c (detach rid (settleOuter rid c o s)) in
  calls s' = alter (setTimer false)
               rid (alter (fun c0 => setCont Finished (settlePromise o c0)) rid (calls s)) /\
  trace s' = trace s ++ (pair rid <$> (errorEvents c o ++ [released; dequeueCalled])).
Proof.
  unfold finallyBody, detach, settleOuter, errorEvents.
  destruct (keyOf (options c)), o; simpl_state; rewrite <- ?app_assoc; split; reflexivity.
Qed.

Lemma settled_call (o : Outcome) (K : Cont) (c : Call) :
  setCont Finished (settlePromise o (setCont K c)) = setCont Finished (settlePromise o c).
Proof. unfold settlePromise. simpl. destruct (promise c); reflexivity. Qed.

(** A state in which the invariant holds and from which settling call
    [rid] goes on as it does after the rest of [doFetch]. *)
Lemma Inv_afterFetch (L : nat) (o : Outcome) (rid : nat) (c : Call) (i : nat) (start : Z)
    (ctl : nat) (actual : FetchResult) (o' : Outcome) (s : Client) :
  Inv config L o [] s ->
  calls s !! rid = Some c -> cont c = AwaitFetch i start ctl ->
  Inv config L o []
      (updCall rid (setCont (AwaitMicrotask o')) (doFetchFinish rid c start actual s)).
Proof.
  intros HI Hc Hk.
  pose proof (inv_calls _ _ _ _ _ HI rid c Hc) as [Hfin Hok].
  unfold contOk in Hok. rewrite Hk in Hok.
  destruct Hok as (Hpn & Hrun & Hsv & Hrel & Hdq & Hlt).
  eapply Inv_call_step with (s := s) (rid := rid) (c := c) (F := setCont (AwaitMicrotask o'))
    (evs := pair rid <$> finishEvents c start (now s) actual); try eassumption.
  - reflexivity.
  - right. rewrite Hk. split; reflexivity.
  - left. reflexivity.
  - unfold doFetchFinish. destruct actual; reflexivity.
  - unfold doFetchFinish. destruct actual; reflexivity.
  - unfold doFetchFinish. destruct actual; reflexivity.
  - unfold doFetchFinish. destruct actual; reflexivity.
  - unfold doFetchFinish. destruct actual; reflexivity.
  - unfold doFetchFinish, finishEvents. destruct actual; simpl_state;
      [reflexivity | rewrite app_nil_r; reflexivity].
  - unfold finishEvents. destruct actual; repeat constructor.
  - unfold callOk, contOk. cbn [cont setCont promise].
    assert (Htr : trace (updCall rid (setCont (AwaitMicrotask o'))
                           (doFetchFinish rid c start actual s))
                  = trace s ++ (pair rid <$> finishEvents c start (now s) actual)).
    { unfold doFetchFinish, finishEvents. destruct actual; simpl_state;
        [reflexivity | rewrite app_nil_r; reflexivity]. }
    rewrite Htr, eventsOf_app, eventsOf_tagged, decide_True by reflexivity.
    unfold finishEvents. destruct actual; count_simpl; repeat split; try assumption; lia.
Qed.

Lemma settle_afterFetch (rid : nat) (c : Call) (o : Outcome) (K : Cont) (s : Client) :
  finallyBody rid c (detach rid (settleOuter rid c o (updCall rid (setCont K) s)))
  = finallyBody rid c (detach rid (settleOuter rid c o s)).
Proof.
  assert (H : settleOuter rid c o (updCall rid (setCont K) s) = settleOuter rid c o s).
  { unfold settleOuter, updCall, withCalls, emit. destruct o; simpl_state; f_equal.
    all: rewrite list_alter_alter_eq; apply list_alter_ext; [| reflexivity].
    all: intros x _; unfold settlePromise; simpl; destruct (promise x); reflexivity. }
  rewrite H. reflexivity.
Qed.

Lemma lives_fetchSettled (L : nat) (o : Outcome) (rid : nat) (r : FetchResult) (math : Math)
    (s : Client) :
  Inv config L o [] s -> lives config s -> lives config (fetchSettled config rid r math s).
Proof.
  intros HI HL. unfold fetchSettled.
  destruct (calls s !! rid) as [c |] eqn:Hc; [| exact HL].
  destruct (cont c) as [| i start ctl | | | |] eqn:Hk; try exact HL.
  set (actual := fetchOutcome s ctl r).
  set (attempt := doFetchResult config c actual).
  set (s1 := doFetchFinish rid c start actual s).
  assert (Hs1 : calls s1 = calls s /\
                trace s1 = trace s ++ (pair rid <$> finishEvents c start (now s) actual)).
  { unfold s1, doFetchFinish, finishEvents. destruct actual; simpl_state;
      [split; reflexivity | rewrite app_nil_r; split; reflexivity]. }
  destruct Hs1 as [Hs1c Hs1t].
  assert (Hsettle : forall o',
            loopOutcome (iteration (policyOf config (options c)) i attempt math) = Some o' ->
            lives config (settle config rid c o' s1)).
  { intros o' Ho'. unfold settle.
    pose proof (Inv_afterFetch L o rid c i start ctl actual o' s HI Hc Hk) as HI1.
    fold s1 in HI1.
    assert (Hc1' : calls (updCall rid (setCont (AwaitMicrotask o')) s1) !! rid
                   = Some (setCont (AwaitMicrotask o') c)).
    { simpl_state. rewrite list_lookup_alter_eq, Hs1c, Hc. reflexivity. }
    pose proof (Inv_leaderSettles config L o o' rid c _ _ HI1 Hc1' eq_refl eq_refl) as HI2.
    rewrite settle_afterFetch in HI2.
    change (followersOf rid (updCall rid (setCont (AwaitMicrotask o')) s1))
      with (followersOf rid s1) in HI2.
    destruct (leader_touch rid c o' s1) as [Hcs2 Htr2].
    set (s2 := finallyBody rid c (detach rid (settleOuter rid c o' s1))) in *.
    assert (HL2 : lives config s2).
    { apply (lives_touch s s2 rid c (setTimer false (setCont Finished (settlePromise o' c)))
               (finishEvents c start (now s) actual ++ errorEvents c o'
                  ++ [released; dequeueCalled])); try assumption.
      - rewrite Hcs2, !list_lookup_alter_eq, Hs1c, Hc. reflexivity.
      - intros r0 Hr0. rewrite Hcs2, !list_lookup_alter_ne, Hs1c by congruence. reflexivity.
      - rewrite Htr2, Hs1t, !fmap_app, <- !app_assoc. reflexivity.
      - eapply cs_settled; [exact Hk | exact Ho']. }
    apply (lives_followers rid o'); [apply Inv_dequeue, HI2 |].
    apply (lives_dequeue rid o' (followersOf rid s1)); assumption. }
  destruct (iteration (policyOf config (options c)) i attempt math) as [v | e | ms] eqn:Hit.
  - apply Hsettle. reflexivity.
  - apply Hsettle. reflexivity.
  - apply (lives_touch s _ rid c (setCont (AwaitSleep i ctl (lastError attempt)) c)
             (finishEvents c start (now s) actual ++ [slept ms])); try assumption.
    + simpl_state. rewrite list_lookup_alter_eq, Hs1c, Hc. unfold lastError.
      destruct attempt; reflexivity.
    + intros r0 Hr0. simpl_state. rewrite list_lookup_alter_ne, Hs1c by congruence. reflexivity.
    + simpl_state. rewrite Hs1t, !fmap_app, <- !app_assoc. reflexivity.
    + eapply cs_backoff; [exact Hk | exact Hit].
Qed.

Lemma lives_sleepDone (rid : nat) (s : Client) :
  lives config s -> lives config (sleepDone config rid s).
Proof.
  intros HL. unfold sleepDone.
  destruct (calls s !! rid) as [c |] eqn:Hc; [| exact HL].
  destruct (cont c) as [| | i ctl errLast | | |] eqn:Hk; try exact HL.
  unfold loopHead, doFetchStart.
  destruct (Z.ltb_spec (Z.of_nat (S i)) (loopBound (policyOf config (options c)))).
  - apply (lives_touch s _ rid c (setCont (AwaitFetch (S i) (now s) ctl) c)
             [onStart (RequestOptions.key (options c)) (url c); fetchCalled ctl]);
      try assumption.
    + simpl_state. rewrite list_lookup_alter_eq, Hc. reflexivity.
    + intros r0 Hr0. simpl_state. apply list_lookup_alter_ne. congruence.
    + simpl_state. rewrite <- app_assoc. reflexivity.
    + eapply cs_retry; [exact Hk | assumption].
  - apply (lives_touch s _ rid c (setCont (AwaitMicrotask (Rejected errLast)) c) []);
      try assumption.
    + simpl_state. rewrite list_lookup_alter_eq, Hc. reflexivity.
    + intros r0 Hr0. simpl_state. apply list_lookup_alter_ne. congruence.
    + simpl_state. rewrite app_nil_r. reflexivity.
    + rewrite app_nil_r. eapply cs_exhausted; [exact Hk | assumption].
Qed.

Lemma lives_microtask (L : nat) (o : Outcome) (rid : nat) (s : Client) :
  Inv config L o [] s -> lives config s -> lives config (microtask config rid s).
Proof.
  intros HI HL. unfold microtask.
  destruct (calls s !! rid) as [c |] eqn:Hc; [| exact HL].
  destruct (cont c) as [| | | o' | |] eqn:Hk; try exact HL.
  unfold settle.
  assert (Hact : activeCont (cont c) = true) by (rewrite Hk; reflexivity).
  pose proof (Inv_leaderSettles config L o o' rid c c s HI Hc eq_refl Hact) as HI2.
  destruct (leader_touch rid c o' s) as [Hcs2 Htr2].
  set (s2 := finallyBody rid c (detach rid (settleOuter rid c o' s))) in *.
  assert (HL2 : lives config s2).
  { apply (lives_touch s s2 rid c (setTimer false (setCont Finished (settlePromise o' c)))
             (errorEvents c o' ++ [released; dequeueCalled])); try assumption.
    - rewrite Hcs2, !list_lookup_alter_eq, Hc. reflexivity.
    - intros r0 Hr0. rewrite Hcs2, !list_lookup_alter_ne by congruence. reflexivity.
    - eapply cs_thrown. exact Hk. }
  apply (lives_followers rid o'); [apply Inv_dequeue, HI2 |].
  apply (lives_dequeue rid o' (followersOf rid s)); assumption.
Qed.

Lemma lives_timeoutFires (rid : nat) (s : Client) :
  lives config s -> lives config (timeoutFires rid s).
Proof.
  intros HL. unfold timeoutFires.
  destruct (calls s !! rid) as [c |] eqn:Hc; [| exact HL].
  destruct (timer c) eqn:Ht; [| exact HL].
  apply (lives_touch s _ rid c (setTimer false c) []); try assumption.
  - simpl_state. rewrite list_lookup_alter_eq, Hc. reflexivity.
  - intros r0 Hr0. simpl_state. apply list_lookup_alter_ne. congruence.
  - simpl_state. rewrite app_nil_r. reflexivity.
  - rewrite app_nil_r. apply cs_timeout, Ht.
Qed.

Lemma lives_enqueue (rid : nat) (c : Call) (s : Client) :
  lives config s ->
  calls s !! rid = Some c -> cont c = NotStarted -> promise c = None ->
  lives config (enqueue config rid c s).
Proof.
  intros HL Hc Hns Hpn. unfold enqueue.
  destruct ((maxInFlight config =? 0) || (inFlight s <? maxInFlight config)).
  - apply (lives_runTask false rid s c); assumption.
  - destruct (decide (strategy config = drop)).
    + apply (lives_touch s _ rid c (settlePromise (Rejected DropError) c)
               [onDrop (RequestOptions.key (options c))]); try assumption.
      * simpl_state. rewrite list_lookup_alter_eq, Hc. reflexivity.
      * intros r0 Hr0. simpl_state. apply list_lookup_alter_ne. congruence.
      * reflexivity.
      * apply cs_dropped; assumption.
    + apply (lives_touch s _ rid c c [onEnqueue (RequestOptions.key (options c))]);
        try assumption.
      * reflexivity.
      * reflexivity.
      * apply cs_enqueued; assumption.
Qed.

Lemma lives_request (L : nat) (o : Outcome) (input : string) (opts : RequestOptions.t)
    (s : Client) :
  Inv config L o [] s -> lives config s -> lives config (request config input opts s).
Proof.
  intros HI HL. unfold request, newAbortController.
  destruct (combineSignals _ _) as [sigs2 oc].
  match goal with
  | |- lives _ (enqueue _ _ ?c (withSignals _ (withCalls _ _))) => set (c0 := c)
  end.
  apply lives_enqueue; try reflexivity.
  - intros r c Hr. simpl_state. cbn [calls withSignals withCalls] in Hr.
    destruct (decide (r < length (calls s))%nat) as [Hlt | Hge].
    + rewrite lookup_app_l in Hr by exact Hlt. apply HL, Hr.
    + assert (r = length (calls s)).
      { apply lookup_lt_Some in Hr. rewrite length_app in Hr. simpl in Hr. lia. }
      subst r. rewrite lookup_app_r, Nat.sub_diag in Hr by lia. injection Hr as <-.
      rewrite (eventsOf_fresh (length (calls s))); [| apply (inv_trace _ _ _ _ _ HI) | lia].
      apply life_born; reflexivity.
  - simpl_state. rewrite lookup_app_r, Nat.sub_diag by lia. reflexivity.
Qed.

Lemma lives_step (L : nat) (o : Outcome) (s : Client) (e : Input) :
  Inv config L o [] s -> lives config s -> lives config (step config s e).
Proof.
  intros HI HL. destruct e as [input opts | rid r math | rid | rid | rid | rid | | ctl r | ms]; simpl.
  - apply (lives_request L o); assumption.
  - apply (lives_fetchSettled L o); assumption.
  - apply lives_sleepDone, HL.
  - apply (lives_microtask L o); assumption.
  - apply lives_timeoutFires, HL.
  - unfold cancel. destruct (calls s !! rid) as [c |]; [| exact HL].
    apply (lives_ext s); [reflexivity | reflexivity | exact HL].
  - apply (lives_ext s); [reflexivity | reflexivity | exact HL].
  - apply (lives_ext s); [reflexivity | reflexivity | exact HL].
  - apply (lives_ext s); [reflexivity | reflexivity | exact HL].
Qed.

(** In every reachable state, what the trace and the table of calls hold
    about a call is a life of that call. *)
Lemma reachable_lives (s : Client) : reachable config s -> lives config s.
Proof.
  induction 1 as [| s e Hr IH].
  - intros r c H. simpl in H. rewrite lookup_nil in H. discriminate.
  - apply (lives_step 0%nat (Rejected JsUndefined)); [apply Inv_reachable, Hr | exact IH].
Qed.

End Life.

(** ** Attempts and hooks of a call *)

Lemma callStep_options (config : ClientConfig.t) (c c' : Call) (evs evs' : list Event) :
  callStep config c evs c' evs' -> options c' = options c /\ url c' = url c.
Proof.
  destruct 1; cbn [options url setCont setTimer]; rewrite ?options_settled;
    try (split; reflexivity).
  all: unfold settlePromise; destruct (promise c); split; reflexivity.
Qed.

Ltac count_hooks :=
  rewrite ?cnt_app, ?cnt_cons, ?cnt_nil;
  cbn [isRun isFetch isSlept isServed isReleased isDequeueCalled isFinish
       isStart isError isDrop isEnqueued Nat.add].

Lemma cnt_finishEvents (p : Event -> bool) (c : Call) (start now : Z) (actual : FetchResult) :
  (forall k u b st d, p (onFinish k u b st d) = false) ->
  cnt p (finishEvents c start now actual) = 0%nat.
Proof.
  intros H. unfold finishEvents. destruct actual; [| reflexivity].
  rewrite cnt_cons, H. reflexivity.
Qed.

Lemma cnt_errorEvents (p : Event -> bool) (c : Call) (o : Outcome) :
  (forall e k, p (onError e k) = false) -> cnt p (errorEvents c o) = 0%nat.
Proof.
  intros H. unfold errorEvents. destruct o; [reflexivity |].
  rewrite cnt_cons, H. reflexivity.
Qed.

Lemma attemptsOk_step (config : ClientConfig.t) (c c' : Call) (evs evs' : list Event) :
  callStep config c evs c' evs' ->
  attemptsOk (loopBound (policyOf config (options c))) c evs ->
  attemptsOk (loopBound (policyOf config (options c'))) c' evs'.
Proof.
  intros Hstep. destruct (callStep_options _ _ _ _ _ Hstep) as [-> _].
  set (bound := loopBound (policyOf config (options c))).
  unfold attemptsOk.
  destruct Hstep as [c evs Hk Hp | c evs Hk Hp | c evs b start ec Hk Hp Hb | c evs b Hk Hp Hb
                     | c evs b leader Hk Hp | c evs i start ctl actual math now ms Hk Hit
                     | c evs i start ctl actual math now o Hk Hit
                     | c evs i ctl errLast start Hk Hb | c evs i ctl errLast Hk Hb
                     | c evs o Hk | c evs leader o Hk | c evs Ht];
    cbn [cont setCont setTimer]; rewrite ?cont_settled; rewrite ?Hk;
    intros [Hst Hok]; count_hooks;
    rewrite ?(cnt_finishEvents isStart), ?(cnt_finishEvents isFetch),
      ?(cnt_finishEvents isSlept), ?(cnt_errorEvents isStart), ?(cnt_errorEvents isFetch),
      ?(cnt_errorEvents isSlept) by reflexivity.
  - split; [lia |]. destruct Hok; split; lia.
  - split; [lia |]. destruct Hok; split; lia.
  - split; [lia |]. destruct Hok. repeat split; lia.
  - split; [lia |]. destruct Hok. repeat split; lia.
  - split; [lia |]. destruct Hok; split; lia.
  - split; [lia |]. destruct Hok as (H1 & H2 & H3).
    apply iteration_Backoff in Hit as (pol & e & Hpol & _ & _ & Hi & _).
    subst bound. rewrite Hpol in *. unfold loopBound in *. simpl in *. repeat split; lia.
  - split; [lia |]. destruct Hok as (H1 & H2 & H3). right. split; lia.
  - split; [lia |]. destruct Hok as (H1 & H2 & H3). repeat split; lia.
  - destruct Hok as (H1 & H2 & H3). lia.
  - split; [lia |]. destruct Hok as (H1 & H2 & H3). left. split; lia.
  - split; [lia |]. destruct Hok as (H1 & H2). left. split; lia.
  - split; [exact Hst |]. exact Hok.
Qed.

Lemma lifeOf_attemptsOk (config : ClientConfig.t) (c : Call) (evs : list Event) :
  lifeOf config c evs -> attemptsOk (loopBound (policyOf config (options c))) c evs.
Proof.
  induction 1 as [c Hk Hp | c evs c' evs' _ IH Hstep].
  - unfold attemptsOk. rewrite Hk. repeat split.
  - eapply attemptsOk_step; eauto.
Qed.

(** X5.  The retry budget of a call: in every reachable state the
    transport has been called for it at most as often as the loop bound
    of its policy allows (the policy's attempts; once without a policy;
    never when attempts is zero or less), the start hook has fired once
    per transport call, and the backoff sleeps taken are one fewer than
    the transport calls, or as many while the call sleeps. *)
Theorem transport_calls_within_budget (config : ClientConfig.t) (s : Client)
    (rid : nat) (opts : RequestOptions.t) :
  reachable config s -> optionsOf s rid = Some opts ->
  Z.of_nat (count isFetch rid (trace s)) <= Z.max 0 (loopBound (policyOf config opts)) /\
  count isStart rid (trace s) = count isFetch rid (trace s) /\
  (count isSlept rid (trace s) <= count isFetch rid (trace s)
   <= S (count isSlept rid (trace s)))%nat.
Proof.
  intros Hr Ho. unfold optionsOf in Ho.
  destruct (calls s !! rid) as [c |] eqn:Hc; [| discriminate]. injection Ho as <-.
  pose proof (lifeOf_attemptsOk config c _ (reachable_lives config s Hr rid c Hc))
    as [Hst Hok].
  unfold count. split; [| split; [exact Hst |]].
  - destruct (cont c); lia.
  - destruct (cont c); lia.
Qed.

Lemma transport_calls_within_budget_witness :
  let s := run plainConfig init
             [CallRequest "/a" (retrying twoAttempts);
              FetchSettles 0 (Responds (response 503)) host;
              SleepDone 0;
              FetchSettles 0 (Responds (response 503)) host] in
  count isFetch 0 (trace s) = 2%nat /\
  Z.of_nat (count isFetch 0 (trace s)) <= Z.max 0 2 /\
  count isStart 0 (trace s) = count isFetch 0 (trace s).
Proof.
  intros s.
  destruct (transport_calls_within_budget plainConfig s 0 (retrying twoAttempts)
              (reachable_run plainConfig _ init (reachable_init plainConfig)) eq_refl)
    as (H1 & H2 & _).
  split; [vm_compute; reflexivity |]. split; [exact H1 | exact H2].
Defined.

Lemma elem_of_finishEvents (ev : Event) (c : Call) (start now : Z) (actual : FetchResult) :
  ev ∈ finishEvents c start now actual -> isFinish ev = true.
Proof.
  unfold finishEvents. destruct actual; intros H; [| inversion H].
  apply list_elem_of_singleton in H. subst ev. reflexivity.
Qed.

Lemma elem_of_errorEvents (ev : Event) (c : Call) (o : Outcome) :
  ev ∈ errorEvents c o <->
  exists e, o = Rejected e /\ ev = onError e (RequestOptions.key (options c)).
Proof.
  unfold errorEvents. destruct o as [v | e].
  - split; [intros H; inversion H | intros (e & H & _); discriminate].
  - rewrite list_elem_of_singleton. split.
    + intros ->. exists e. split; reflexivity.
    + intros (e' & [= <-] & ->). reflexivity.
Qed.

Lemma no_error_events (evs : list Event) (e : JsError) (k : option string) :
  cnt isError evs = 0%nat -> onError e k ∉ evs.
Proof. intros H0 Hin. pose proof (cnt_pos isError _ _ Hin eq_refl). lia. Qed.

Lemma cnt_errorEvents_rejected (c : Call) (e : JsError) :
  cnt isError (errorEvents c (Rejected e)) = 1%nat.
Proof. reflexivity. Qed.

Ltac in_new Hin :=
  repeat (apply elem_of_app in Hin as [Hin | Hin]);
  try (apply elem_of_finishEvents in Hin; discriminate);
  repeat (apply elem_of_cons in Hin as [Hin | Hin]; [try discriminate |]);
  try (inversion Hin; fail).

Lemma endOk_step (config : ClientConfig.t) (c c' : Call) (evs evs' : list Event) :
  callStep config c evs c' evs' -> endOk c evs -> endOk c' evs'.
Proof.
  intros Hstep. destruct (callStep_options _ _ _ _ _ Hstep) as [Hopt _].
  unfold endOk. rewrite Hopt. clear Hopt.
  set (key := RequestOptions.key (options c)).
  intros (Hok & Herr & Hdrop).
  destruct Hstep as [c evs Hk Hp | c evs Hk Hp | c evs b start ec Hk Hp Hb | c evs b Hk Hp Hb
                     | c evs b leader Hk Hp | c evs i start ctl actual math now ms Hk Hit
                     | c evs i start ctl actual math now o Hk Hit
                     | c evs i ctl errLast start Hk Hb | c evs i ctl errLast Hk Hb
                     | c evs o Hk | c evs leader o Hk | c evs Ht];
    cbn [cont setCont setTimer promise timer] in *; rewrite ?cont_settled in *;
    rewrite ?Hk in *.
  - (* enqueued *)
    destruct Hok as (H1 & H2 & H3 & H4 & [[H5 H6] | [H5 _]]); [| congruence].
    split; [| split].
    + count_hooks. repeat split; try lia. left. split; [assumption | lia].
    + intros e k Hin. apply elem_of_app in Hin as [Hin | Hin]; [apply Herr, Hin |]. in_new Hin.
    + intros k Hin. apply elem_of_app in Hin as [Hin | Hin]; [apply Hdrop, Hin |]. in_new Hin.
  - (* dropped *)
    destruct Hok as (H1 & H2 & H3 & H4 & [[H5 H6] | [H5 _]]); [| congruence].
    rewrite (promise_settled _ _ Hp).
    split; [| split].
    + count_hooks. repeat split; try lia. right. split; [reflexivity | lia].
    + intros e k Hin. apply elem_of_app in Hin as [Hin | Hin];
        [destruct (no_error_events _ _ _ H1 Hin) |]. in_new Hin.
    + intros k Hin. apply elem_of_app in Hin as [Hin | Hin]; [apply Hdrop, Hin |].
      apply list_elem_of_singleton in Hin. injection Hin as ->. reflexivity.
  - (* attempt *)
    destruct Hok as (H1 & H2 & H3 & H4 & [[H5 H6] | [H5 _]]); [| congruence].
    split; [| split].
    + count_hooks. repeat split; try lia. assumption.
    + intros e k Hin. apply elem_of_app in Hin as [Hin | Hin]; [apply Herr, Hin |]. in_new Hin.
    + intros k Hin. apply elem_of_app in Hin as [Hin | Hin]; [apply Hdrop, Hin |]. in_new Hin.
  - (* no attempt *)
    destruct Hok as (H1 & H2 & H3 & H4 & [[H5 H6] | [H5 _]]); [| congruence].
    split; [| split].
    + count_hooks. repeat split; try lia. assumption.
    + intros e k Hin. apply elem_of_app in Hin as [Hin | Hin]; [apply Herr, Hin |]. in_new Hin.
    + intros k Hin. apply elem_of_app in Hin as [Hin | Hin]; [apply Hdrop, Hin |]. in_new Hin.
  - (* served *)
    destruct Hok as (H1 & H2 & H3 & H4 & [[H5 H6] | [H5 _]]); [| congruence].
    split; [| split].
    + count_hooks. repeat split; try lia. assumption.
    + intros e k Hin. apply elem_of_app in Hin as [Hin | Hin]; [apply Herr, Hin |]. in_new Hin.
    + intros k Hin. apply elem_of_app in Hin as [Hin | Hin]; [apply Hdrop, Hin |]. in_new Hin.
  - (* backoff *)
    destruct Hok as (H1 & H2 & H3 & H4 & H5).
    split; [| split].
    + count_hooks.
      rewrite ?(cnt_finishEvents isError), ?(cnt_finishEvents isServed),
        ?(cnt_finishEvents isDrop), ?(cnt_finishEvents isRun) by reflexivity.
      repeat split; try lia. assumption.
    + intros e k Hin. apply elem_of_app in Hin as [Hin | Hin]; [apply Herr, Hin |]. in_new Hin.
    + intros k Hin. apply elem_of_app in Hin as [Hin | Hin]; [apply Hdrop, Hin |]. in_new Hin.
  - (* settled *)
    destruct Hok as (H1 & H2 & H3 & H4 & H5).
    rewrite (promise_settled _ _ H5).
    split; [| split].
    + count_hooks.
      rewrite ?(cnt_finishEvents isError), ?(cnt_finishEvents isServed),
        ?(cnt_finishEvents isDrop), ?(cnt_finishEvents isRun),
        ?(cnt_errorEvents isServed), ?(cnt_errorEvents isDrop), ?(cnt_errorEvents isRun)
        by reflexivity.
      split; [lia |]. split; [lia |]. right. split; [lia |]. split; [reflexivity |].
      destruct o as [v | e].
      * unfold errorEvents. rewrite cnt_nil. lia.
      * rewrite cnt_errorEvents_rejected. split; [lia |].
        apply elem_of_app. right. apply elem_of_app. right. apply elem_of_app. left. left.
    + intros e k Hin. apply elem_of_app in Hin as [Hin | Hin];
        [destruct (no_error_events _ _ _ H1 Hin) |].
      apply elem_of_app in Hin as [Hin | Hin];
        [apply elem_of_finishEvents in Hin; discriminate |].
      apply elem_of_app in Hin as [Hin | Hin]; [| in_new Hin].
      apply elem_of_errorEvents in Hin as (e' & -> & [= -> ->]). split; reflexivity.
    + intros k Hin. apply elem_of_app in Hin as [Hin | Hin]; [apply Hdrop, Hin |].
      apply elem_of_app in Hin as [Hin | Hin];
        [apply elem_of_finishEvents in Hin; discriminate |].
      apply elem_of_app in Hin as [Hin | Hin]; [| in_new Hin].
      apply elem_of_errorEvents in Hin as (e' & _ & [=]).
  - (* retry *)
    destruct Hok as (H1 & H2 & H3 & H4 & H5).
    split; [| split].
    + count_hooks. repeat split; try lia. assumption.
    + intros e k Hin. apply elem_of_app in Hin as [Hin | Hin]; [apply Herr, Hin |]. in_new Hin.
    + intros k Hin. apply elem_of_app in Hin as [Hin | Hin]; [apply Hdrop, Hin |]. in_new Hin.
  - (* exhausted *)
    split; [exact Hok | split; assumption].
  - (* thrown *)
    destruct Hok as (H1 & H2 & H3 & H4 & H5).
    rewrite (promise_settled _ _ H5).
    split; [| split].
    + count_hooks.
      rewrite ?(cnt_errorEvents isServed), ?(cnt_errorEvents isDrop), ?(cnt_errorEvents isRun)
        by reflexivity.
      split; [lia |]. split; [lia |]. right. split; [lia |]. split; [reflexivity |].
      destruct o as [v | e].
      * unfold errorEvents. rewrite cnt_nil. lia.
      * rewrite cnt_errorEvents_rejected. split; [lia |].
        apply elem_of_app. right. apply elem_of_app. left. left.
    + intros e k Hin. apply elem_of_app in Hin as [Hin | Hin];
        [destruct (no_error_events _ _ _ H1 Hin) |].
      apply elem_of_app in Hin as [Hin | Hin]; [| in_new Hin].
      apply elem_of_errorEvents in Hin as (e' & -> & [= -> ->]). split; reflexivity.
    + intros k Hin. apply elem_of_app in Hin as [Hin | Hin]; [apply Hdrop, Hin |].
      apply elem_of_app in Hin as [Hin | Hin]; [| in_new Hin].
      apply elem_of_errorEvents in Hin as (e' & _ & [=]).
  - (* followed *)
    destruct Hok as (H1 & H2 & H3 & H4 & H5).
    rewrite (promise_settled _ _ H5).
    split; [| split].
    + count_hooks. split; [lia |]. split; [lia |]. left. repeat split; try lia. eauto.
    + intros e k Hin. apply elem_of_app in Hin as [Hin | Hin];
        [destruct (no_error_events _ _ _ H1 Hin) |]. in_new Hin.
    + intros k Hin. apply elem_of_app in Hin as [Hin | Hin]; [apply Hdrop, Hin |]. in_new Hin.
  - (* timeout *)
    split; [| split; assumption].
    destruct (cont c); try exact Hok.
    destruct Hok as (H1 & H2 & [H3 | (H3 & H4 & H5)]); repeat split; try assumption.
    + left. exact H3.
    + right. repeat split; assumption.
Qed.

Lemma lifeOf_endOk (config : ClientConfig.t) (c : Call) (evs : list Event) :
  lifeOf config c evs -> endOk c evs.
Proof.
  induction 1 as [c Hk Hp | c evs c' evs' _ IH Hstep].
  - unfold endOk. rewrite Hk. split; [| split].
    + repeat split. left. split; [exact Hp | reflexivity].
    + intros e k Hin. inversion Hin.
    + intros k Hin. inversion Hin.
  - eapply endOk_step; eauto.
Qed.

Lemma reachable_endOk (config : ClientConfig.t) (s : Client) (rid : nat) (c : Call) :
  reachable config s -> calls s !! rid = Some c -> endOk c (eventsOf rid (trace s)).
Proof. intros Hr Hc. apply (lifeOf_endOk config), (reachable_lives config s Hr rid c Hc). Qed.

(** X6.  The error hook: for a call that ran its own attempts and whose
    promise rejected, the hook has been called exactly once, with the
    error of the rejection and the call's key; it is not called for a
    call that fulfilled, nor for a dedupe follower or a dropped call,
    although their promises reject too. *)
Theorem error_hook_once_per_own_rejection (config : ClientConfig.t) (s : Client)
    (rid : nat) (opts : RequestOptions.t) :
  reachable config s -> optionsOf s rid = Some opts ->
  (count isError rid (trace s) <= 1)%nat /\
  (forall e k, (rid, onError e k) ∈ trace s ->
     promiseOf s rid = Some (Rejected e) /\ k = RequestOptions.key opts /\
     count isServed rid (trace s) = 0%nat /\ count isDrop rid (trace s) = 0%nat) /\
  (forall e, promiseOf s rid = Some (Rejected e) ->
     count isServed rid (trace s) = 0%nat -> count isDrop rid (trace s) = 0%nat ->
     (rid, onError e (RequestOptions.key opts)) ∈ trace s) /\
  (forall v, promiseOf s rid = Some (Fulfilled v) -> count isError rid (trace s) = 0%nat) /\
  ((0 < count isServed rid (trace s) + count isDrop rid (trace s))%nat ->
     count isError rid (trace s) = 0%nat).
Proof.
  intros Hr Ho. unfold optionsOf, promiseOf, count in *.
  destruct (calls s !! rid) as [c |] eqn:Hc; [| discriminate]. injection Ho as <-.
  destruct (reachable_endOk config s rid c Hr Hc) as (Hok & Herr & Hdrop).
  simpl. split; [| split; [| split; [| split]]].
  - destruct (cont c); try lia. destruct Hok as (_ & _ & [H | (_ & _ & H)]); [lia |].
    destruct (promise c) as [[v | e] |]; lia.
  - intros e k Hin. apply elem_of_eventsOf in Hin.
    destruct (Herr e k Hin) as [Hp ->]. split; [exact Hp |]. split; [reflexivity |].
    pose proof (cnt_pos isError _ _ Hin eq_refl) as Hpos.
    destruct (cont c); lia.
  - intros e Hp Hsv Hdr. apply elem_of_eventsOf.
    destruct (cont c).
    + destruct Hok as (_ & _ & _ & _ & [[H _] | [_ H]]); [congruence | lia].
    + destruct Hok as (_ & _ & _ & _ & H). congruence.
    + destruct Hok as (_ & _ & _ & _ & H). congruence.
    + destruct Hok as (_ & _ & _ & _ & H). congruence.
    + destruct Hok as (_ & H & _). lia.
    + destruct Hok as (_ & _ & [H | (_ & _ & H)]); [lia |]. rewrite Hp in H. apply H.
  - intros v Hp. destruct (cont c).
    + destruct Hok as (_ & _ & _ & _ & [[H _] | [H _]]); congruence.
    + destruct Hok as (_ & _ & _ & _ & H). congruence.
    + destruct Hok as (_ & _ & _ & _ & H). congruence.
    + destruct Hok as (_ & _ & _ & _ & H). congruence.
    + destruct Hok as (_ & _ & _ & _ & H). congruence.
    + destruct Hok as (_ & _ & [H | (_ & _ & H)]); [lia |]. rewrite Hp in H. exact H.
  - intros Hpos. destruct (cont c); lia.
Qed.

Lemma error_hook_once_per_own_rejection_witness :
  let s := run plainConfig init
             [CallRequest "/a" (keyed "k" false false);
              CallRequest "/b" (keyed "k" false true);
              FetchSettles 0 (Responds (response 500)) host] in
  promiseOf s 0 = promiseOf s 1 /\ is_Some (promiseOf s 1) /\
  count isError 0 (trace s) = 1%nat /\ count isError 1 (trace s) = 0%nat.
Proof.
  intros s. split; [vm_compute; reflexivity |]. split; [vm_compute; eauto |].
  split; [vm_compute; reflexivity |].
  destruct (error_hook_once_per_own_rejection plainConfig s 1 (keyed "k" false true)
              (reachable_run plainConfig _ init (reachable_init plainConfig)) eq_refl)
    as (_ & _ & _ & _ & H).
  apply H. vm_compute. lia.
Defined.

(** X7.  A dropped call stays dropped: once the drop hook has been called
    for a call, in every later state its promise is rejected with the
    drop error, its task has not been run and is not on the queue, no
    transport call has been made for it, and the error hook has not been
    called for it. *)
Theorem dropped_call_never_runs (config : ClientConfig.t) (s : Client)
    (rid : nat) (k : option string) :
  reachable config s -> (rid, onDrop k) ∈ trace s ->
  promiseOf s rid = Some (Rejected DropError) /\ contOf s rid = Some NotStarted /\
  (rid ∉ queue s) /\
  count isRun rid (trace s) = 0%nat /\ count isFetch rid (trace s) = 0%nat /\
  count isError rid (trace s) = 0%nat /\ count isDrop rid (trace s) = 1%nat /\
  (RequestOptions.key <$> optionsOf s rid) = Some k.
Proof.
  intros Hr Hin. pose proof (Inv_reachable config s Hr) as HI.
  pose proof (inv_trace _ _ _ _ _ HI rid _ Hin) as Hlt.
  destruct (lookup_lt_is_Some_2 _ _ Hlt) as [c Hc].
  destruct (reachable_endOk config s rid c Hr Hc) as (Hok & Herr & Hdrop).
  apply elem_of_eventsOf in Hin.
  pose proof (cnt_pos isDrop _ _ Hin eq_refl) as Hpos.
  unfold promiseOf, contOf, optionsOf, count. rewrite Hc. simpl.
  rewrite (Hdrop k Hin).
  destruct (cont c) eqn:Hk; try lia.
  destruct Hok as (H1 & H2 & H3 & H4 & [[H5 H6] | [H5 H6]]); [lia |].
  repeat split; try assumption.
  intros Hq. destruct (inv_queue _ _ _ _ _ HI rid Hq) as (c1 & Hc1 & _ & Hp1). congruence.
Qed.

Lemma dropped_call_never_runs_witness :
  let s := run (capacityOne drop) init
             [CallRequest "/a" noOptions; CallRequest "/b" noOptions;
              FetchSettles 0 (Responds (response 200)) host] in
  promiseOf s 1 = Some (Rejected DropError) /\ count isRun 1 (trace s) = 0%nat /\
  inFlight s = 0.
Proof.
  intros s.
  destruct (dropped_call_never_runs (capacityOne drop) s 1 None) as (H1 & _ & _ & H2 & _).
  - apply (reachable_run (capacityOne drop)). constructor.
  - vm_compute. do 3 right. left.
  - split; [exact H1 |]. split; [exact H2 | vm_compute; reflexivity].
Defined.

(** X8.  The timeout timer of a call that ran its own attempts is cleared
    when the call settles: a timer callback that comes afterwards finds
    no timer and changes nothing. *)
Theorem timeout_after_settlement_is_void (config : ClientConfig.t) (s : Client) (rid : nat) :
  reachable config s -> is_Some (promiseOf s rid) ->
  count isServed rid (trace s) = 0%nat -> count isDrop rid (trace s) = 0%nat ->
  step config s (TimeoutFires rid) = s.
Proof.
  intros Hr [o Ho] Hsv Hdr. unfold promiseOf, count in *. simpl. unfold timeoutFires.
  destruct (calls s !! rid) as [c |] eqn:Hc; [| reflexivity]. simpl in Ho.
  destruct (reachable_endOk config s rid c Hr Hc) as (Hok & _).
  destruct (cont c).
  - destruct Hok as (_ & _ & _ & _ & [[H _] | [_ H]]); [congruence | lia].
  - destruct Hok as (_ & _ & _ & _ & H). congruence.
  - destruct Hok as (_ & _ & _ & _ & H). congruence.
  - destruct Hok as (_ & _ & _ & _ & H). congruence.
  - destruct Hok as (_ & H & _). lia.
  - destruct Hok as (_ & _ & [H | (_ & H & _)]); [lia |]. rewrite H. reflexivity.
Qed.

Lemma timeout_after_settlement_is_void_witness :
  let opts := {| RequestOptions.signal := None; RequestOptions.timeoutMs := Some 5000;
                 RequestOptions.key := None; RequestOptions.lastOneWins := false;
                 RequestOptions.dedupe := false; RequestOptions.retry := None;
                 RequestOptions.parser := None |} in
  let s1 := run plainConfig init [CallRequest "/a" opts] in
  let s2 := step plainConfig s1 (FetchSettles 0 (Responds (response 200)) host) in
  (timer <$> calls s1 !! 0%nat) = Some true /\
  step plainConfig s2 (TimeoutFires 0) = s2.
Proof.
  intros opts s1 s2. split; [vm_compute; reflexivity |].
  apply (timeout_after_settlement_is_void plainConfig s2 0).
  - apply (reachable_step plainConfig). apply (reachable_run plainConfig). constructor.
  - vm_compute. eauto.
  - vm_compute. reflexivity.
  - vm_compute. reflexivity.
Defined.

(** ** Who waits in the queue *)

Section Waits.

Variable config : ClientConfig.t.

(** One call changes. *)
Lemma waits_touch (d' : Z) (s s' : Client) (rid : nat) (c' : Call) :
  (forall r c0, calls s !! r = Some c0 -> cont c0 = NotStarted -> promise c0 = None ->
                r <> rid -> r ∈ queue s') ->
  (forall r c0, calls s !! r = Some c0 -> cont c0 = NotStarted -> promise c0 <> None ->
                r <> rid -> 0 < maxInFlight config /\ strategy config = drop) ->
  calls s' !! rid = Some c' ->
  (forall r, r <> rid -> calls s' !! r = calls s !! r) ->
  (cont c' = NotStarted -> promise c' = None -> rid ∈ queue s') ->
  (cont c' = NotStarted -> promise c' <> None ->
   0 < maxInFlight config /\ strategy config = drop) ->
  (queue s' <> [] -> 0 < maxInFlight config /\ maxInFlight config <= inFlight s' + d') ->
  waits config d' s'.
Proof.
  intros Hq Hd Hc' Hsame Hq' Hd' Hf. split; [| | exact Hf].
  - intros r c0 H0 Hns Hpn. destruct (decide (r = rid)) as [-> | Hne].
    + rewrite Hc' in H0. injection H0 as <-. auto.
    + rewrite Hsame in H0 by exact Hne. eauto.
  - intros r c0 H0 Hns Hpn. destruct (decide (r = rid)) as [-> | Hne].
    + rewrite Hc' in H0. injection H0 as <-. auto.
    + rewrite Hsame in H0 by exact Hne. eauto.
Qed.

(** A call that has started changes, and the queue stays. *)
Lemma waits_started (d d' : Z) (s s' : Client) (rid : nat) (c' : Call) :
  waits config d s ->
  calls s' !! rid = Some c' -> cont c' <> NotStarted ->
  (forall r, r <> rid -> calls s' !! r = calls s !! r) ->
  queue s' = queue s -> inFlight s + d <= inFlight s' + d' ->
  waits config d' s'.
Proof.
  intros [Hq Hd Hf] Hc' Hk Hsame Hqueue HiF.
  apply (waits_touch d' s s' rid c'); try assumption; try contradiction.
  - intros r c0 H0 Hns Hpn _. rewrite Hqueue. eauto.
  - intros r c0 H0 Hns Hpn _. eauto.
  - rewrite Hqueue. intros Hne. destruct (Hf Hne). split; lia.
Qed.

Lemma waits_ext (d : Z) (s s' : Client) :
  calls s' = calls s -> queue s' = queue s -> inFlight s' = inFlight s ->
  waits config d s -> waits config d s'.
Proof. intros Hc Hq Hi [H1 H2 H3]. split; rewrite ?Hc, ?Hq, ?Hi; assumption. Qed.

Lemma runTask_started (b : bool) (rid : nat) (s : Client) (c : Call) :
  calls s !! rid = Some c ->
  let s' := runTask config b rid s in
  inFlight s' = inFlight s + 1 /\ queue s' = queue s /\
  (exists c', calls s' !! rid = Some c' /\ cont c' <> NotStarted) /\
  (forall r, r <> rid -> calls s' !! r = calls s !! r).
Proof.
  intros Hc. destruct (runTask_cases config b rid s c Hc) as (HiF & Hq & _ & Hcases).
  split; [exact HiF |]. split; [exact Hq |].
  destruct Hcases as
    [(k & rec & _ & _ & _ & Hcs & _) | (k' & evs & Hcs & _ & _ & Hk' & _)]; rewrite Hcs.
  - split; [| intros r Hr; apply list_lookup_alter_ne; congruence].
    eexists. rewrite list_lookup_alter_eq, Hc. split; [reflexivity | discriminate].
  - split; [| intros r Hr; apply list_lookup_alter_ne; congruence].
    eexists. rewrite list_lookup_alter_eq, Hc. split; [reflexivity |].
    destruct Hk' as [[ec [-> _]] | [-> _]]; discriminate.
Qed.

Lemma waits_runTask (d : Z) (b : bool) (rid : nat) (s : Client) (c : Call) :
  calls s !! rid = Some c ->
  (forall r c0, calls s !! r = Some c0 -> cont c0 = NotStarted -> promise c0 = None ->
                r <> rid -> r ∈ queue s) ->
  (forall r c0, calls s !! r = Some c0 -> cont c0 = NotStarted -> promise c0 <> None ->
                r <> rid -> 0 < maxInFlight config /\ strategy config = drop) ->
  (queue s <> [] -> 0 < maxInFlight config /\ maxInFlight config <= inFlight s + 1 + d) ->
  waits config d (runTask config b rid s).
Proof.
  intros Hc Hq Hd Hf.
  destruct (runTask_started b rid s c Hc) as (HiF & Hqueue & (c' & Hc' & Hk') & Hsame).
  apply (waits_touch d s _ rid c'); try assumption; try contradiction.
  - rewrite Hqueue. exact Hq.
  - rewrite Hqueue, HiF. intros Hne. destruct (Hf Hne). split; lia.
Qed.

Lemma pop_None (q : list nat) : pop q = None -> q = [].
Proof.
  unfold pop. destruct (reverse q) as [| t r] eqn:Hrev; [| discriminate].
  intros _. rewrite <- (reverse_involutive q), Hrev. reflexivity.
Qed.

Lemma maxInFlight_nonneg : 0 <= maxInFlight config.
Proof. unfold maxInFlight. lia. Qed.

Lemma waits_dequeue (L : nat) (o : Outcome) (fs : list nat) (s : Client) :
  Inv config L o fs s -> waits config 1 s -> waits config 0 (dequeue config s).
Proof.
  intros HI HW. pose proof maxInFlight_nonneg as Hnn. unfold dequeue.
  destruct (negb (maxInFlight config =? 0) && (maxInFlight config <=? inFlight s)) eqn:Hfull.
  { apply andb_true_iff in Hfull as [H1 H2].
    apply negb_true_iff, Z.eqb_neq in H1. apply Z.leb_le in H2.
    destruct HW as [Hq Hd Hf]. split; try assumption. intros _. split; lia. }
  assert (Hrun : forall task rest,
            task ∈ queue s -> (forall r, r ∈ queue s -> r <> task -> r ∈ rest) ->
            waits config 0 (runTask config true task (withQueue rest s))).
  { intros task rest Hin Hrest.
    destruct (inv_queue _ _ _ _ _ HI task Hin) as (c & Hc & Hns & Hpn).
    destruct HW as [Hq Hd Hf].
    apply (waits_runTask 0 true task (withQueue rest s) c); simpl_state.
    - exact Hc.
    - intros r c0 H0 Hk0 Hp0 Hne. apply Hrest; [eapply Hq; eauto | exact Hne].
    - intros r c0 H0 Hk0 Hp0 _. eauto.
    - intros _. destruct Hf as [H1 H2]; [intros E; rewrite E in Hin; inversion Hin |].
      split; lia. }
  destruct (decide (strategy config = lifo)).
  - destruct (pop (queue s)) as [[task rest] |] eqn:Hp.
    + apply pop_Some in Hp. apply Hrun.
      * rewrite Hp. apply elem_of_app. right. left.
      * intros r Hr Hne. rewrite Hp in Hr. apply elem_of_app in Hr as [Hr | Hr]; [exact Hr |].
        apply list_elem_of_singleton in Hr. contradiction.
    + apply pop_None in Hp. destruct HW as [Hq Hd Hf]. split; try assumption.
      intros Hne. contradiction.
  - destruct (shift (queue s)) as [[task rest] |] eqn:Hp.
    + apply shift_Some in Hp. apply Hrun.
      * rewrite Hp. left.
      * intros r Hr Hne. rewrite Hp in Hr. apply elem_of_cons in Hr as [Hr | Hr];
          [contradiction | exact Hr].
    + assert (Hnil : queue s = []) by (destruct (queue s); [reflexivity | discriminate]).
      destruct HW as [Hq Hd Hf]. split; try assumption. intros Hne. contradiction.
Qed.

Lemma waits_followerBody (L : nat) (o : Outcome) (f : nat) (fs : list nat) (s : Client) :
  Inv config L o (f :: fs) s -> waits config 0 s -> waits config 1 (followerBody o s f).
Proof.
  intros HI HW. destruct (inv_orphans _ _ _ _ _ HI f ltac:(left)) as (c & Hc & Hk).
  apply (waits_started 0 1 s _ f (setCont Finished (settlePromise o c))); try assumption.
  - unfold followerBody. simpl_state. rewrite list_lookup_alter_eq, Hc. reflexivity.
  - discriminate.
  - intros r Hr. unfold followerBody. simpl_state. apply list_lookup_alter_ne. congruence.
  - reflexivity.
  - unfold followerBody. simpl_state. lia.
Qed.

Lemma waits_followers (L : nat) (o : Outcome) (fs : list nat) (s : Client) :
  Inv config L o fs s -> waits config 0 s ->
  waits config 0 (foldl (followerSettle config o) s fs).
Proof.
  revert s. induction fs as [| f fs IH]; intros s HI HW; simpl; [exact HW |].
  pose proof (Inv_followerBody config L o f fs s HI) as HI1.
  apply IH; unfold followerSettle.
  - apply Inv_dequeue, HI1.
  - apply (waits_dequeue L o fs); [exact HI1 |]. apply (waits_followerBody L o f fs); assumption.
Qed.

Lemma leader_counter (rid : nat) (c : Call) (o : Outcome) (s : Client) :
  let s' := finallyBody rid c (detach rid (settleOuter rid c o s)) in
  inFlight s' = inFlight s - 1 /\ queue s' = queue s.
Proof.
  unfold finallyBody, detach, settleOuter.
  destruct (keyOf (options c)), o; split; reflexivity.
Qed.

(** Settling a call that runs its own attempts, from a state [s1] that
    has the calls, the queue and the counter of [s]. *)
Lemma waits_settle (L : nat) (o o' : Outcome) (rid : nat) (c c1 : Call) (s s1 : Client) :
  waits config 0 s ->
  calls s !! rid = Some c1 -> cont c1 <> NotStarted ->
  calls s1 = calls s -> queue s1 = queue s -> inFlight s1 = inFlight s ->
  Inv config rid o' (followersOf rid s1)
      (finallyBody rid c (detach rid (settleOuter rid c o' s1))) ->
  waits config 0 (settle config rid c o' s1).
Proof.
  intros HW Hc Hk Hs1c Hs1q Hs1i HI2. unfold settle.
  destruct (leader_touch rid c o' s1) as [Hcs2 _].
  destruct (leader_counter rid c o' s1) as [HiF2 Hq2].
  set (s2 := finallyBody rid c (detach rid (settleOuter rid c o' s1))) in *.
  apply (waits_followers rid o'); [apply Inv_dequeue, HI2 |].
  apply (waits_dequeue rid o' (followersOf rid s1)); [exact HI2 |].
  apply (waits_started 0 1 s s2 rid (setTimer false (setCont Finished (settlePromise o' c1))));
    try assumption.
  - rewrite Hcs2, !list_lookup_alter_eq, Hs1c, Hc. reflexivity.
  - discriminate.
  - intros r Hr. rewrite Hcs2, !list_lookup_alter_ne, Hs1c by congruence. reflexivity.
  - rewrite Hq2. exact Hs1q.
  - rewrite HiF2, Hs1i. lia.
Qed.

Lemma waits_fetchSettled (L : nat) (o : Outcome) (rid : nat) (r : FetchResult) (math : Math)
    (s : Client) :
  Inv config L o [] s -> waits config 0 s -> waits config 0 (fetchSettled config rid r math s).
Proof.
  intros HI HW. unfold fetchSettled.
  destruct (calls s !! rid) as [c |] eqn:Hc; [| exact HW].
  destruct (cont c) as [| i start ctl | | | |] eqn:Hk; try exact HW.
  set (actual := fetchOutcome s ctl r).
  set (attempt := doFetchResult config c actual).
  set (s1 := doFetchFinish rid c start actual s).
  assert (Hs1 : calls s1 = calls s /\ queue s1 = queue s /\ inFlight s1 = inFlight s).
  { unfold s1, doFetchFinish. destruct actual; repeat split; reflexivity. }
  destruct Hs1 as (Hs1c & Hs1q & Hs1i).
  assert (Hsettle : forall o', waits config 0 (settle config rid c o' s1)).
  { intros o'.
    pose proof (Inv_afterFetch config L o rid c i start ctl actual o' s HI Hc Hk) as HI1.
    fold s1 in HI1.
    assert (Hc1' : calls (updCall rid (setCont (AwaitMicrotask o')) s1) !! rid
                   = Some (setCont (AwaitMicrotask o') c)).
    { simpl_state. rewrite list_lookup_alter_eq, Hs1c, Hc. reflexivity. }
    pose proof (Inv_leaderSettles config L o o' rid c _ _ HI1 Hc1' eq_refl eq_refl) as HI2.
    rewrite settle_afterFetch in HI2.
    change (followersOf rid (updCall rid (setCont (AwaitMicrotask o')) s1))
      with (followersOf rid s1) in HI2.
    apply (waits_settle L o o' rid c c s s1); try assumption.
    rewrite Hk. discriminate. }
  destruct (iteration (policyOf config (options c)) i attempt math) as [v | e | ms].
  - apply Hsettle.
  - apply Hsettle.
  - apply (waits_started 0 0 s _ rid
             (setCont (AwaitSleep i ctl
                         match attempt with Rejected e => e | Fulfilled _ => JsUndefined end) c));
      try assumption.
    + simpl_state. rewrite list_lookup_alter_eq, Hs1c, Hc. reflexivity.
    + discriminate.
    + intros r0 Hr0. simpl_state. rewrite list_lookup_alter_ne, Hs1c by congruence. reflexivity.
    + simpl_state. rewrite Hs1i. lia.
Qed.

Lemma waits_sleepDone (rid : nat) (s : Client) :
  waits config 0 s -> waits config 0 (sleepDone config rid s).
Proof.
  intros HW. unfold sleepDone.
  destruct (calls s !! rid) as [c |] eqn:Hc; [| exact HW].
  destruct (cont c) as [| | i ctl errLast | | |] eqn:Hk; try exact HW.
  unfold loopHead, doFetchStart.
  destruct (Z.of_nat (S i) <? loopBound (policyOf config (options c))).
  - apply (waits_started 0 0 s _ rid (setCont (AwaitFetch (S i) (now s) ctl) c)).
    + exact HW.
    + simpl_state. rewrite list_lookup_alter_eq, Hc. reflexivity.
    + discriminate.
    + intros r0 Hr0. simpl_state. apply list_lookup_alter_ne. congruence.
    + reflexivity.
    + simpl_state. lia.
  - apply (waits_started 0 0 s _ rid (setCont (AwaitMicrotask (Rejected errLast)) c)).
    + exact HW.
    + simpl_state. rewrite list_lookup_alter_eq, Hc. reflexivity.
    + discriminate.
    + intros r0 Hr0. simpl_state. apply list_lookup_alter_ne. congruence.
    + reflexivity.
    + simpl_state. lia.
Qed.

Lemma waits_microtask (L : nat) (o : Outcome) (rid : nat) (s : Client) :
  Inv config L o [] s -> waits config 0 s -> waits config 0 (microtask config rid s).
Proof.
  intros HI HW. unfold microtask.
  destruct (calls s !! rid) as [c |] eqn:Hc; [| exact HW].
  destruct (cont c) as [| | | o' | |] eqn:Hk; try exact HW.
  assert (Hact : activeCont (cont c) = true) by (rewrite Hk; reflexivity).
  pose proof (Inv_leaderSettles config L o o' rid c c s HI Hc eq_refl Hact) as HI2.
  apply (waits_settle L o o' rid c c s s); try assumption; try reflexivity.
  rewrite Hk. discriminate.
Qed.

Lemma waits_timeoutFires (rid : nat) (s : Client) :
  waits config 0 s -> waits config 0 (timeoutFires rid s).
Proof.
  intros HW. unfold timeoutFires.
  destruct (calls s !! rid) as [c |] eqn:Hc; [| exact HW].
  destruct (timer c) eqn:Ht; [| exact HW].
  destruct HW as [Hq Hd Hf].
  apply (waits_touch 0 s _ rid (setTimer false c)); simpl_state.
  - intros r c0 H0 Hk0 Hp0 _. eauto.
  - intros r c0 H0 Hk0 Hp0 _. eauto.
  - rewrite list_lookup_alter_eq, Hc. reflexivity.
  - intros r0 Hr0. apply list_lookup_alter_ne. congruence.
  - intros Hk0 Hp0. apply (Hq rid c Hc Hk0 Hp0).
  - intros Hk0 Hp0. apply (Hd rid c Hc Hk0 Hp0).
  - exact Hf.
Qed.

Lemma waits_request (L : nat) (o : Outcome) (input : string) (opts : RequestOptions.t)
    (s : Client) :
  Inv config L o [] s -> waits config 0 s -> waits config 0 (request config input opts s).
Proof.
  intros HI [Hq Hd Hf]. pose proof maxInFlight_nonneg as Hnn.
  unfold request, newAbortController.
  destruct (combineSignals _ _) as [sigs2 oc].
  match goal with
  | |- waits _ _ (enqueue _ _ ?c (withSignals _ (withCalls _ _))) => set (c0 := c)
  end.
  set (rid := length (calls s)).
  set (s0 := withSignals sigs2 (withCalls (calls s ++ [c0]) s)).
  assert (Hc0 : calls s0 !! rid = Some c0).
  { unfold s0, rid. simpl_state. rewrite lookup_app_r, Nat.sub_diag by lia. reflexivity. }
  assert (Hold : forall r c1, calls s0 !! r = Some c1 -> r <> rid -> calls s !! r = Some c1).
  { intros r c1 H1 Hne. unfold s0 in H1. cbn [calls withSignals withCalls] in H1.
    assert (Hlt : (r < length (calls s))%nat).
    { apply lookup_lt_Some in H1. rewrite length_app in H1. simpl in H1. unfold rid in Hne. lia. }
    rewrite lookup_app_l in H1 by exact Hlt. exact H1. }
  unfold enqueue.
  destruct ((maxInFlight config =? 0) || (inFlight s0 <? maxInFlight config)) eqn:Hroom.
  - apply (waits_runTask 0 false rid s0 c0 Hc0).
    + intros r c1 H1 Hk1 Hp1 Hne. apply (Hq r c1); auto.
    + intros r c1 H1 Hk1 Hp1 Hne. apply (Hd r c1); auto.
    + intros Hne. destruct (Hf Hne). unfold s0. simpl_state. split; lia.
  - apply orb_false_iff in Hroom as [H1 H2]. apply Z.eqb_neq in H1. apply Z.ltb_ge in H2.
    destruct (decide (strategy config = drop)) as [Hdrop | Hdrop].
    + apply (waits_touch 0 s0 _ rid (settlePromise (Rejected DropError) c0)); simpl_state.
      * intros r c1 Hr1 Hk1 Hp1 Hne. apply (Hq r c1); auto.
      * intros r c1 Hr1 Hk1 Hp1 Hne. apply (Hd r c1); auto.
      * rewrite list_lookup_alter_eq. fold (calls s0). rewrite Hc0. reflexivity.
      * intros r0 Hr0. apply list_lookup_alter_ne. congruence.
      * intros _ Hp. discriminate.
      * intros _ _. split; [lia | exact Hdrop].
      * exact Hf.
    + apply (waits_touch 0 s0 _ rid c0); simpl_state.
      * intros r c1 Hr1 Hk1 Hp1 Hne. apply elem_of_app. left. apply (Hq r c1); auto.
      * intros r c1 Hr1 Hk1 Hp1 Hne. apply (Hd r c1); auto.
      * exact Hc0.
      * reflexivity.
      * intros _ _. apply elem_of_app. right. left.
      * intros _ Hp. exfalso. apply Hp. reflexivity.
      * intros _. unfold s0 in *. cbn [inFlight withSignals withCalls] in *. split; lia.
Qed.

Lemma waits_step (L : nat) (o : Outcome) (s : Client) (e : Input) :
  Inv config L o [] s -> waits config 0 s -> waits config 0 (step config s e).
Proof.
  intros HI HW. destruct e as [input opts | rid r math | rid | rid | rid | rid | | ctl r | ms]; simpl.
  - apply (waits_request L o); assumption.
  - apply (waits_fetchSettled L o); assumption.
  - apply waits_sleepDone, HW.
  - apply (waits_microtask L o); assumption.
  - apply waits_timeoutFires, HW.
  - unfold cancel. destruct (calls s !! rid) as [c |]; [| exact HW].
    apply (waits_ext 0 s); try reflexivity. exact HW.
  - apply (waits_ext 0 s); try reflexivity. exact HW.
  - apply (waits_ext 0 s); try reflexivity. exact HW.
  - apply (waits_ext 0 s); try reflexivity. exact HW.
Qed.

Lemma reachable_waits (s : Client) : reachable config s -> waits config 0 s.
Proof.
  induction 1 as [| s e Hr IH].
  - split; simpl.
    + intros r c H. rewrite lookup_nil in H. discriminate.
    + intros r c H. rewrite lookup_nil in H. discriminate.
    + intros H. contradiction.
  - apply (waits_step 0%nat (Rejected JsUndefined)); [apply Inv_reachable, Hr | exact IH].
Qed.

End Waits.

(** ** Stores of signals that grow *)

Lemma extends_refl (sigs : list AbortSignal) : extends sigs sigs.
Proof. split; [lia | eauto | auto]. Qed.

Lemma extends_trans (s1 s2 s3 : list AbortSignal) :
  extends s1 s2 -> extends s2 s3 -> extends s1 s3.
Proof.
  intros [L12 O12 N12] [L23 O23 N23]. split.
  - lia.
  - intros a s Ha. destruct (O12 a s Ha) as (s' & Ha' & Hf & Hr & Hl).
    destruct (O23 a s' Ha') as (s'' & Ha'' & Hf' & Hr' & Hl').
    exists s''. repeat split; try congruence. auto.
  - intros a l Hl. destruct (N23 a l Hl) as [Hl' | Hfresh]; [| right; lia].
    destruct (N12 a l Hl') as [Hl'' | Hfresh]; [left; exact Hl'' | right; lia].
Qed.

Lemma extends_isAborted (sigs sigs' : list AbortSignal) (a : nat) :
  extends sigs sigs' -> (a < length sigs)%nat -> isAborted sigs' a = isAborted sigs a.
Proof.
  intros HE Ha. destruct (lookup_lt_is_Some_2 _ _ Ha) as [s Hs].
  destruct (ext_old _ _ HE a s Hs) as (s' & Hs' & Hf & _).
  unfold isAborted. rewrite Hs, Hs'. exact Hf.
Qed.

Lemma extends_listeners (sigs sigs' : list AbortSignal) (a : nat) (l : Listener) :
  extends sigs sigs' -> l ∈ listenersOf sigs a -> l ∈ listenersOf sigs' a.
Proof.
  intros HE. unfold listenersOf. destruct (sigs !! a) as [s |] eqn:Hs; [| intros H; inversion H].
  destruct (ext_old _ _ HE a s Hs) as (s' & Hs' & _ & _ & Hl). rewrite Hs'. apply Hl.
Qed.

Lemma extends_linked (sigs sigs' : list AbortSignal) (a t : nat) :
  extends sigs sigs' -> (a < length sigs)%nat -> (t < length sigs)%nat ->
  linked sigs a t -> linked sigs' a t.
Proof.
  intros HE Ha Ht [H | [H (l & Hl & Htl)]].
  - left. rewrite (extends_isAborted _ _ _ HE Ht). exact H.
  - right. rewrite (extends_isAborted _ _ _ HE Ha). split; [exact H |].
    exists l. split; [eapply extends_listeners; eauto | exact Htl].
Qed.

Lemma extends_forwardTarget (sigs sigs' : list AbortSignal) (t : nat) :
  extends sigs sigs' -> (t < length sigs)%nat -> forwardTarget sigs' t -> forwardTarget sigs t.
Proof.
  intros HE Ht (b & src & H). destruct (ext_new _ _ HE b _ H) as [H' | Hfresh].
  - exists b, src. exact H'.
  - simpl in Hfresh. lia.
Qed.

Lemma extends_wired (sigs sigs' : list AbortSignal) :
  extends sigs sigs' -> wired sigs -> wired sigs'.
Proof.
  intros HE HW a l Hl. destruct (ext_new _ _ HE a l Hl) as [H | H]; [| lia].
  pose proof (HW a l H). pose proof (ext_length _ _ HE). lia.
Qed.

Lemma fires_wired (R : nat -> JsError -> Prop) (sigs sigs' : list AbortSignal) :
  fires R sigs sigs' -> wired sigs -> wired sigs'.
Proof.
  intros HF HW a l Hl. rewrite (fires_length _ _ _ HF).
  apply (HW a). eapply fires_listeners; eauto.
Qed.

Lemma fires_linked (R : nat -> JsError -> Prop) (sigs sigs' : list AbortSignal) (a t : nat) :
  fires R sigs sigs' -> (t < length sigs)%nat -> linked sigs a t -> linked sigs' a t.
Proof.
  intros HF Ht [H | [H (l & Hl & Htl)]].
  - left. eapply fires_isAborted; eauto.
  - unfold listenersOf in Hl. unfold isAborted in H.
    destruct (sigs !! a) as [s |] eqn:Hs; [| inversion Hl].
    assert (Ha : (a < length sigs')%nat)
      by (rewrite (fires_length _ _ _ HF); eapply lookup_lt_Some; eauto).
    destruct (lookup_lt_is_Some_2 _ _ Ha) as [s' Hs'].
    destruct (aborted s') eqn:Hf'.
    + left. destruct (fires_new _ _ _ HF a s s' Hs H Hs' Hf') as (_ & HC & _).
      rewrite <- Htl. apply HC; [exact Hl | rewrite Htl; exact Ht].
    + right. pose proof (fires_unfired _ _ _ HF a s' Hs' Hf') as Heq.
      rewrite Hs in Heq. injection Heq as ->.
      unfold isAborted, listenersOf. rewrite Hs'. split; [exact Hf' |].
      exists l. split; assumption.
Qed.

(** When [a] fires, a controller linked to it has fired. *)
Lemma linked_fired (sigs : list AbortSignal) (a t : nat) :
  linked sigs a t -> isAborted sigs a = true -> isAborted sigs t = true.
Proof. intros [H | [H _]] Ha; [exact H | congruence]. Qed.

Lemma lookup_snoc_fresh (sigs : list AbortSignal) :
  (sigs ++ [freshSignal]) !! length sigs = Some freshSignal.
Proof. rewrite lookup_app_r, Nat.sub_diag by lia. reflexivity. Qed.

Lemma listenersOf_snoc (sigs : list AbortSignal) (a : nat) :
  listenersOf (sigs ++ [freshSignal]) a = listenersOf sigs a.
Proof.
  unfold listenersOf. destruct (decide (a < length sigs)%nat) as [Hlt | Hge].
  - rewrite lookup_app_l by exact Hlt. reflexivity.
  - rewrite (lookup_ge_None_2 sigs a) by lia.
    destruct (decide (a = length sigs)) as [-> | Hne].
    + rewrite lookup_snoc_fresh. reflexivity.
    + rewrite lookup_ge_None_2; [reflexivity |]. rewrite length_app. simpl. lia.
Qed.

Lemma extends_snoc (sigs : list AbortSignal) : extends sigs (sigs ++ [freshSignal]).
Proof.
  split.
  - rewrite length_app. lia.
  - intros a s Hs. exists s. rewrite lookup_app_l by (eapply lookup_lt_Some; eauto). auto.
  - intros a l Hl. left. rewrite listenersOf_snoc in Hl. exact Hl.
Qed.

Lemma length_addEventListener (st : list AbortSignal) (x : nat) (l : Listener) :
  length (addEventListener st x l) = length st.
Proof.
  unfold addEventListener. destruct (st !! x); [| reflexivity].
  case_bool_decide; [reflexivity | apply length_insert].
Qed.

Lemma listenersOf_addEventListener (st : list AbortSignal) (x a : nat) (l l' : Listener) :
  l' ∈ listenersOf (addEventListener st x l) a <->
  l' ∈ listenersOf st a \/ (a = x /\ l' = l /\ (x < length st)%nat).
Proof.
  unfold addEventListener, listenersOf.
  destruct (st !! x) as [sx |] eqn:Hx.
  - pose proof (lookup_lt_Some _ _ _ Hx) as Hlt. case_bool_decide as Hin.
    + split; [auto |]. intros [H | (-> & -> & _)]; [exact H |]. rewrite Hx. exact Hin.
    + destruct (decide (x = a)) as [-> | Hne].
      * rewrite list_lookup_insert_eq by exact Hlt. rewrite Hx. simpl.
        rewrite elem_of_app, list_elem_of_singleton. split.
        -- intros [H | ->]; auto.
        -- intros [H | (_ & -> & _)]; auto.
      * rewrite list_lookup_insert_ne by exact Hne. split; [auto |].
        intros [H | (-> & _)]; [exact H | contradiction].
  - apply lookup_ge_None in Hx. split; [auto |]. intros [H | (_ & _ & H)]; [exact H | lia].
Qed.

Lemma lookup_addEventListener (st : list AbortSignal) (x a : nat) (l : Listener)
    (s : AbortSignal) :
  st !! a = Some s ->
  exists s', addEventListener st x l !! a = Some s' /\ aborted s' = aborted s /\
             reason s' = reason s /\ forall l0, l0 ∈ listeners s -> l0 ∈ listeners s'.
Proof.
  intros Ha. unfold addEventListener. destruct (st !! x) as [sx |] eqn:Hx; [| eauto 10].
  case_bool_decide; [eauto 10 |].
  destruct (decide (x = a)) as [-> | Hne].
  - rewrite list_lookup_insert_eq by (eapply lookup_lt_Some; eauto).
    rewrite Hx in Ha. injection Ha as ->. eexists. split; [reflexivity |]. simpl.
    repeat split. intros l0 Hl0. apply elem_of_app. left. exact Hl0.
  - rewrite list_lookup_insert_ne by exact Hne. eauto 10.
Qed.

(** Registering a listener that aborts a new controller. *)
Lemma extends_addEventListener (sigs st : list AbortSignal) (x : nat) (l : Listener) :
  extends sigs st -> (length sigs <= target l < length st)%nat ->
  extends sigs (addEventListener st x l).
Proof.
  intros [HL HO HN] Hl. split.
  - rewrite length_addEventListener. exact HL.
  - intros a s Hs. destruct (HO a s Hs) as (s1 & Hs1 & Hf & Hr & Hls).
    destruct (lookup_addEventListener st x a l s1 Hs1) as (s2 & Hs2 & Hf2 & Hr2 & Hls2).
    exists s2. repeat split; try congruence. auto.
  - intros a l' Hl'. rewrite length_addEventListener.
    apply listenersOf_addEventListener in Hl' as [Hl' | (_ & -> & _)]; [apply HN, Hl' |].
    right. exact Hl.
Qed.

(** Aborting a controller whose only listeners abort itself. *)
Lemma abortSignal_alone (st : list AbortSignal) (c : nat) (s : AbortSignal) (r : JsError) :
  st !! c = Some s -> aborted s = false ->
  (forall l, l ∈ listeners s -> l = OnAbort c) ->
  abortSignal st c r = <[c := {| aborted := true; reason := abortArg r; listeners := [] |}]> st.
Proof.
  intros Hc Hf Hself. unfold abortSignal. rewrite abort_S, Hc, Hf.
  set (st0 := <[c := _]> st).
  assert (Hfired : isAborted st0 c = true).
  { unfold isAborted, st0. rewrite list_lookup_insert_eq by (eapply lookup_lt_Some; eauto).
    reflexivity. }
  clearbody st0. revert Hself. generalize (listeners s). intros ls.
  induction ls as [| l ls IH]; intros Hself; [reflexivity |]. simpl.
  rewrite (Hself l ltac:(left)). simpl. rewrite abort_fired by exact Hfired.
  apply IH. intros l' Hl'. apply Hself. right. exact Hl'.
Qed.

(** The loop of [combineSignals], from a store [st] in which the new
    controller [c] has not fired and is aborted by no one but the
    listeners the loop registers. *)
Lemma combineLoop_wiring (inputs : list (option nat)) (sigs st : list AbortSignal) (c : nat) :
  extends sigs st -> (length sigs <= c < length st)%nat ->
  isAborted st c = false ->
  (forall l, l ∈ listenersOf st c -> l = OnAbort c) ->
  let st' := combineLoop st c inputs in
  extends sigs st' /\ length st' = length st /\
  (forall a l, l ∈ listenersOf st' a -> l ∈ listenersOf st a \/ l = OnAbort c) /\
  (forall x, linked st x c -> x <> c -> linked st' x c) /\
  (forall x, Some x ∈ inputs -> (x < length st)%nat -> x <> c -> linked st' x c) /\
  (isAborted st' c = true -> reasonOf st' c = defaultAbortReason).
Proof.
  revert st. induction inputs as [| [x |] rest IH]; intros st HE Hc Hfc Hself; simpl.
  - split; [exact HE |]. split; [reflexivity |]. split; [auto |]. split; [auto |].
    split; [intros x Hx; inversion Hx | congruence].
  - destruct (isAborted st x) eqn:Hx.
    + (* controller.abort(); break *)
      destruct (lookup_lt_is_Some_2 st c ltac:(lia)) as [sc Hsc].
      assert (Hfsc : aborted sc = false) by (unfold isAborted in Hfc; rewrite Hsc in Hfc; exact Hfc).
      assert (Hselfsc : forall l, l ∈ listeners sc -> l = OnAbort c).
      { intros l Hl. apply Hself. unfold listenersOf. rewrite Hsc. exact Hl. }
      rewrite (abortSignal_alone st c sc JsUndefined Hsc Hfsc Hselfsc).
      set (fired := {| aborted := true; reason := abortArg JsUndefined; listeners := [] |}).
      assert (Hlook : forall a, a <> c -> <[c := fired]> st !! a = st !! a)
        by (intros a Ha; apply list_lookup_insert_ne; congruence).
      assert (Hcf : <[c := fired]> st !! c = Some fired)
        by (apply list_lookup_insert_eq; lia).
      assert (Hab : isAborted (<[c := fired]> st) c = true)
        by (unfold isAborted; rewrite Hcf; reflexivity).
      split; [| split; [apply length_insert | split; [| split; [| split]]]].
      * destruct HE as [HL HO HN]. split.
        -- rewrite length_insert. exact HL.
        -- intros a s Hs. pose proof (lookup_lt_Some _ _ _ Hs).
           rewrite Hlook by lia. apply HO, Hs.
        -- intros a l Hl. rewrite length_insert. apply HN.
           unfold listenersOf in *. destruct (decide (a = c)) as [-> | Hne].
           ++ rewrite Hcf in Hl. inversion Hl.
           ++ rewrite Hlook in Hl by exact Hne. exact Hl.
      * intros a l Hl. left. unfold listenersOf in *. destruct (decide (a = c)) as [-> | Hne].
        -- rewrite Hcf in Hl. inversion Hl.
        -- rewrite Hlook in Hl by exact Hne. exact Hl.
      * intros y _ _. left. exact Hab.
      * intros y _ _ _. left. exact Hab.
      * intros _. unfold reasonOf. rewrite Hcf. reflexivity.
    + (* s.addEventListener("abort", onAbort, { once: true }) *)
      set (st1 := addEventListener st x (OnAbort c)).
      assert (HE1 : extends sigs st1) by (apply extends_addEventListener; [exact HE | exact Hc]).
      assert (Hlen1 : length st1 = length st) by apply length_addEventListener.
      assert (Hfc1 : isAborted st1 c = false)
        by (unfold st1; rewrite isAborted_addEventListener; exact Hfc).
      assert (Hself1 : forall l, l ∈ listenersOf st1 c -> l = OnAbort c).
      { intros l Hl. apply listenersOf_addEventListener in Hl as [Hl | (_ & -> & _)];
          [apply Hself, Hl | reflexivity]. }
      assert (Hkeep : forall y, linked st y c -> linked st1 y c).
      { intros y [H | [H (l & Hl & Htl)]].
        - left. unfold st1. rewrite isAborted_addEventListener. exact H.
        - right. unfold st1. rewrite isAborted_addEventListener. split; [exact H |].
          exists l. split; [| exact Htl]. apply listenersOf_addEventListener. left. exact Hl. }
      destruct (IH st1 HE1 ltac:(lia) Hfc1 Hself1) as (H1 & H2 & H3 & H4 & H5 & H6).
      split; [exact H1 |]. split; [lia |]. split; [| split; [| split; [| exact H6]]].
      * intros a l Hl. destruct (H3 a l Hl) as [Hl1 | ->]; [| right; reflexivity].
        apply listenersOf_addEventListener in Hl1 as [Hl1 | (_ & -> & _)];
          [left; exact Hl1 | right; reflexivity].
      * intros y Hy Hne. apply H4; [apply Hkeep, Hy | exact Hne].
      * intros y Hy Hlt Hne. apply elem_of_cons in Hy as [[= <-] | Hy].
        -- apply H4; [| exact Hne]. right. unfold st1.
           rewrite isAborted_addEventListener. split; [exact Hx |].
           exists (OnAbort c). split; [| reflexivity].
           apply listenersOf_addEventListener. right. auto.
        -- apply H5; [exact Hy | lia | exact Hne].
  - (* if (!s) continue *)
    destruct (IH st HE Hc Hfc Hself) as (H1 & H2 & H3 & H4 & H5 & H6).
    split; [exact H1 |]. split; [exact H2 |]. split; [exact H3 |]. split; [exact H4 |].
    split; [| exact H6].
    intros y Hy Hlt Hne. apply elem_of_cons in Hy as [Hy | Hy]; [discriminate |].
    apply H5; assumption.
Qed.

(** What [combineSignals] does to the store. *)
Lemma combineSignals_wiring (sigs : list AbortSignal) (inputs : list (option nat)) :
  let st := (combineSignals sigs inputs).1 in
  let c := length sigs in
  (combineSignals sigs inputs).2 = c /\
  extends sigs st /\ length st = S (length sigs) /\
  (forall a l, l ∈ listenersOf st a -> l ∈ listenersOf sigs a \/ l = OnAbort c) /\
  (forall x, Some x ∈ inputs -> (x < length sigs)%nat -> linked st x c) /\
  (isAborted st c = true -> reasonOf st c = defaultAbortReason).
Proof.
  unfold combineSignals. simpl.
  assert (Hlen : length (sigs ++ [freshSignal]) = S (length sigs))
    by (rewrite length_app; simpl; lia).
  destruct (combineLoop_wiring inputs sigs (sigs ++ [freshSignal]) (length sigs))
    as (H1 & H2 & H3 & H4 & H5 & H6).
  - apply extends_snoc.
  - lia.
  - unfold isAborted. rewrite lookup_snoc_fresh. reflexivity.
  - intros l Hl. rewrite listenersOf_snoc in Hl. unfold listenersOf in Hl.
    rewrite lookup_ge_None_2 in Hl by lia. inversion Hl.
  - split; [reflexivity |]. split; [exact H1 |]. split; [lia |].
    split; [| split; [| exact H6]].
    + intros a l Hl. destruct (H3 a l Hl) as [Hl' | ->]; [| right; reflexivity].
      left. rewrite listenersOf_snoc in Hl'. exact Hl'.
    + intros x Hx Hlt. apply H5; [exact Hx | lia | lia].
Qed.

(** X9.  A controller made by [combineSignals] follows its inputs: when
    any input given to it fires afterwards, with whatever reason, the
    controller has fired, its reason is that of an abort without
    argument, and no later abort of any controller changes that. *)
Theorem combined_signal_follows_inputs (sigs : list AbortSignal) (inputs : list (option nat))
    (x : nat) (r : JsError) :
  wired sigs -> Some x ∈ inputs -> (x < length sigs)%nat ->
  let c := (combineSignals sigs inputs).2 in
  let fired := abortSignal (combineSignals sigs inputs).1 x r in
  isAborted fired c = true /\ reasonOf fired c = defaultAbortReason /\
  forall y r', isAborted (abortSignal fired y r') c = true /\
               reasonOf (abortSignal fired y r') c = defaultAbortReason.
Proof.
  intros HW Hx Hlt c fired.
  destruct (combineSignals_wiring sigs inputs) as (Hc & HE & Hlen & Hls & Hlk & Hre).
  fold c in Hc. set (st := (combineSignals sigs inputs).1) in *.
  rewrite <- Hc in Hre, Hlk.
  destruct (abortSignal_fires st x r) as [HF Hxa]. fold fired in HF, Hxa.
  assert (Hcl : (c < length st)%nat) by lia.
  assert (Hfc : isAborted fired c = true).
  { apply (linked_fired fired x c); [| apply Hxa; lia].
    apply (fires_linked _ st fired x c HF Hcl). apply Hlk; assumption. }
  assert (Hrc : reasonOf fired c = defaultAbortReason).
  { unfold isAborted, reasonOf in *.
    destruct (fired !! c) as [s' |] eqn:Hs'; [| discriminate].
    destruct (lookup_lt_is_Some_2 st c Hcl) as [s Hs].
    destruct (aborted s) eqn:Hf.
    - rewrite (fires_fired _ _ _ HF c s Hs Hf) in Hs'. injection Hs' as <-.
      rewrite Hs in Hre. apply Hre, Hf.
    - destruct (fires_new _ _ _ HF c s s' Hs Hf Hs' Hfc) as (_ & _ & [[Heq _] | [H | H]]).
      + lia.
      + exact H.
      + destruct H as (b & src & H). destruct (Hls b _ H) as [H' | H']; [| discriminate].
        pose proof (HW b _ H'). simpl in *. lia. }
  split; [exact Hfc |]. split; [exact Hrc |]. intros y r'.
  destruct (abortSignal_fires fired y r') as [HF' _].
  unfold isAborted, reasonOf in *. destruct (fired !! c) as [s' |] eqn:Hs'; [| discriminate].
  rewrite (fires_fired _ _ _ HF' c s' Hs' Hfc). split; assumption.
Qed.

Lemma combined_signal_follows_inputs_witness :
  let composed := combineSignals [freshSignal; freshSignal] [Some 0%nat; None; Some 1%nat] in
  let fired := abortSignal composed.1 1 (DOMException "Timeout" "AbortError") in
  isAborted composed.1 composed.2 = false /\
  isAborted fired composed.2 = true /\
  reasonOf fired composed.2 = DOMException "signal is aborted without reason" "AbortError".
Proof.
  intros composed fired. split; [reflexivity |].
  destruct (combined_signal_follows_inputs [freshSignal; freshSignal]
              [Some 0%nat; None; Some 1%nat] 1 (DOMException "Timeout" "AbortError"))
    as (H1 & H2 & _).
  - intros a l Hl. destruct a as [| [| a]]; inversion Hl.
  - right. right. left.
  - simpl. lia.
  - split; [exact H1 | exact H2].
Defined.

(** ** The wiring of the controllers of a call *)

(** The signals change by aborts and by new controllers; calls stay, or
    stop waiting for the transport; records stay or go. *)
Lemma Wiring_frame (s s' : Client) :
  Wiring s ->
  wired (signals s') ->
  (length (signals s) <= length (signals s'))%nat ->
  (forall a t, (a < length (signals s))%nat -> (t < length (signals s))%nat ->
               linked (signals s) a t -> linked (signals s') a t) ->
  (forall t, (t < length (signals s))%nat ->
             forwardTarget (signals s') t -> forwardTarget (signals s) t) ->
  (forall rid c', calls s' !! rid = Some c' ->
     exists c, calls s !! rid = Some c /\
               timeoutController c' = timeoutController c /\
               outerController c' = outerController c /\ options c' = options c /\
               forall ctl, ctlOf (cont c') = Some ctl -> ctlOf (cont c) = Some ctl) ->
  (forall k rec, inFlightByKey s' !! k = Some rec -> inFlightByKey s !! k = Some rec) ->
  Wiring s'.
Proof.
  intros [HW HC HR] HW' Hlen Hlk Hft Hcalls Hrec. split; [exact HW' | |].
  - intros rid c' Hc'. destruct (Hcalls rid c' Hc') as (c & Hc & Htc & Hoc & Hopt & Hctl).
    destruct (HC rid c Hc) as [H1 H2 H3 H4 H5 H6].
    split; rewrite ?Htc, ?Hoc, ?Hopt.
    + exact H1.
    + lia.
    + apply Hlk; [lia | lia | exact H3].
    + intros u Hu Hlt. apply Hlk; [lia | lia |]. apply H4; assumption.
    + intros H. apply H5, Hft; [lia | exact H].
    + intros ctl Hk. destruct (H6 ctl (Hctl ctl Hk)) as (Ha & Hb & Hle & Hc0).
      split; [lia |]. split; [intros H; apply Hb, Hft; [lia | exact H] |].
      split; [exact Hle |].
      destruct Hc0 as [-> | Hc0]; [left; reflexivity | right].
      apply Hlk; [lia | lia | exact Hc0].
  - intros k rec c' ctl Hk Hc' Hctl.
    destruct (Hcalls _ c' Hc') as (c & Hc & _ & _ & _ & Hctl').
    apply (HR k rec c ctl); [apply Hrec, Hk | exact Hc | apply Hctl', Hctl].
Qed.

Lemma Wiring_ext (s s' : Client) :
  signals s' = signals s -> calls s' = calls s -> inFlightByKey s' = inFlightByKey s ->
  Wiring s -> Wiring s'.
Proof.
  intros Hs Hc Hb HW. apply (Wiring_frame s s' HW); rewrite ?Hs, ?Hc, ?Hb; auto.
  - apply (w_wired _ HW).
  - intros rid c' Hc'. exists c'. auto 10.
Qed.

(** Aborts. *)
Lemma Wiring_fires (R : nat -> JsError -> Prop) (s s' : Client) :
  Wiring s -> fires R (signals s) (signals s') ->
  calls s' = calls s ->
  (forall k rec, inFlightByKey s' !! k = Some rec -> inFlightByKey s !! k = Some rec) ->
  Wiring s'.
Proof.
  intros HW HF Hc Hb. apply (Wiring_frame s s' HW).
  - eapply fires_wired; [exact HF | apply (w_wired _ HW)].
  - rewrite (fires_length _ _ _ HF). lia.
  - intros a t _ Ht. apply (fires_linked _ _ _ _ _ HF Ht).
  - intros t _. apply (fires_forwardTarget _ _ _ _ HF).
  - intros rid c' Hc'. rewrite Hc in Hc'. exists c'. auto 10.
  - exact Hb.
Qed.

(** New controllers and their listeners. *)
Lemma Wiring_extends (s s' : Client) :
  Wiring s -> extends (signals s) (signals s') ->
  calls s' = calls s -> inFlightByKey s' = inFlightByKey s ->
  Wiring s'.
Proof.
  intros HW HE Hc Hb. apply (Wiring_frame s s' HW).
  - eapply extends_wired; [exact HE | apply (w_wired _ HW)].
  - apply (ext_length _ _ HE).
  - intros a t. apply (extends_linked _ _ _ _ HE).
  - intros t. apply (extends_forwardTarget _ _ _ HE).
  - intros rid c' Hc'. rewrite Hc in Hc'. exists c'. auto 10.
  - rewrite Hb. auto.
Qed.

(** One call changes and keeps, or forgets, the controller of its
    transport. *)
Lemma Wiring_alter (F : Call -> Call) (rid : nat) (s s' : Client) :
  Wiring s ->
  (forall c, timeoutController (F c) = timeoutController c /\
             outerController (F c) = outerController c /\ options (F c) = options c) ->
  (forall c ctl, calls s !! rid = Some c -> ctlOf (cont (F c)) = Some ctl ->
                 ctlOf (cont c) = Some ctl) ->
  signals s' = signals s -> calls s' = alter F rid (calls s) ->
  (forall k rec, inFlightByKey s' !! k = Some rec -> inFlightByKey s !! k = Some rec) ->
  Wiring s'.
Proof.
  intros HW HF Hctl Hs Hc Hb. apply (Wiring_frame s s' HW); rewrite ?Hs; auto.
  - apply (w_wired _ HW).
  - intros r c' Hc'. rewrite Hc in Hc'. destruct (decide (rid = r)) as [-> | Hne].
    + rewrite list_lookup_alter_eq in Hc'. destruct (calls s !! r) as [c |] eqn:Hcr;
        [| discriminate]. injection Hc' as <-. exists c. destruct (HF c) as (H1 & H2 & H3).
      repeat split; try assumption. intros ctl. apply Hctl. reflexivity.
    + rewrite list_lookup_alter_ne in Hc' by exact Hne. exists c'. auto 10.
Qed.

Section Wired.

Variable config : ClientConfig.t.

Lemma abortSignal_fires_some (sigs : list AbortSignal) (id : nat) (r : JsError) :
  fires (fun a e => a = id /\ e = abortArg r) sigs (abortSignal sigs id r).
Proof. apply abortSignal_fires. Qed.

Lemma Wiring_supersede (c : Call) (s : Client) :
  Wiring s -> Wiring (supersede c s).
Proof.
  intros HW. unfold supersede.
  destruct (keyOf (options c)) as [k |]; [| exact HW].
  destruct (RequestOptions.lastOneWins (options c)); [| exact HW].
  destruct (inFlightByKey s !! k) as [prev |] eqn:Hprev; [| exact HW].
  eapply Wiring_fires; [exact HW | apply abortSignal_fires_some | reflexivity |].
  simpl_state. intros k' rec Hk'. destruct (decide (k = k')) as [-> | Hne].
  - rewrite lookup_delete_eq in Hk'. discriminate.
  - rewrite lookup_delete_ne in Hk' by exact Hne. exact Hk'.
Qed.

Lemma supersede_frame (c : Call) (s : Client) :
  calls (supersede c s) = calls s /\
  length (signals (supersede c s)) = length (signals s) /\
  (forall k rec, inFlightByKey (supersede c s) !! k = Some rec ->
                 inFlightByKey s !! k = Some rec).
Proof.
  unfold supersede.
  destruct (keyOf (options c)) as [k |]; [| auto].
  destruct (RequestOptions.lastOneWins (options c)); [| auto].
  destruct (inFlightByKey s !! k) as [prev |] eqn:Hprev; [| auto].
  simpl_state. split; [reflexivity |]. split.
  - apply (fires_length _ _ _ (abortSignal_fires_some _ _ _)).
  - intros k' rec Hk'. destruct (decide (k = k')) as [-> | Hne].
    + rewrite lookup_delete_eq in Hk'. discriminate.
    + rewrite lookup_delete_ne in Hk' by exact Hne. exact Hk'.
Qed.

(** The controller that [effectiveController] hands to the transport. *)
Lemma effectiveController_wiring (c : Call) (s : Client) :
  Wiring s -> callWired s c ->
  let s' := (effectiveController c s).1 in
  let ec := (effectiveController c s).2 in
  Wiring s' /\ calls s' = calls s /\ inFlightByKey s' = inFlightByKey s /\
  trace s' = trace s /\ now s' = now s /\
  (ec < length (signals s'))%nat /\ ~ forwardTarget (signals s') ec /\
  (outerController c <= ec)%nat /\
  (ec = outerController c \/ linked (signals s') (outerController c) ec) /\
  (forall r0 c0, calls s !! r0 = Some c0 -> callWired s c0 -> callWired s' c0).
Proof.
  intros HW HC. unfold effectiveController.
  destruct (keyOf (options c)) as [k |].
  - unfold newAbortController.
    set (sigs := signals s). set (kc := length sigs). set (oc := outerController c).
    set (sigs1 := sigs ++ [freshSignal]).
    set (sigs2 := addEventListener sigs1 oc (ForwardReason kc oc)).
    destruct (combineSignals_wiring sigs2 [Some oc; Some kc]) as (Hec & HE3 & Hlen3 & Hls3 & Hlk3 & _).
    destruct (combineSignals sigs2 [Some oc; Some kc]) as [sigs3 ec] eqn:Hcomb.
    cbn [fst snd] in *. simpl_state.
    assert (Hlen1 : length sigs1 = S (length sigs)) by (unfold sigs1; rewrite length_app; simpl; lia).
    assert (Hlen2 : length sigs2 = S (length sigs))
      by (unfold sigs2; rewrite length_addEventListener; exact Hlen1).
    assert (HE2 : extends sigs sigs2).
    { unfold sigs2. apply extends_addEventListener; [apply extends_snoc |]. simpl. fold sigs1. lia. }
    assert (HE : extends sigs sigs3) by (eapply extends_trans; eauto).
    assert (Hoc : (oc < length sigs)%nat) by apply (cw_outer _ _ HC).
    assert (HW' : Wiring (withSignals sigs3 s)).
    { apply (Wiring_extends s); [exact HW | exact HE | reflexivity | reflexivity]. }
    split; [exact HW' |]. do 4 (split; [reflexivity |]).
    split; [lia |]. split; [| split; [lia | split]].
    + intros (b & src & H). destruct (Hls3 b _ H) as [H2 | H2]; [| discriminate].
      unfold sigs2 in H2. apply listenersOf_addEventListener in H2 as [H1 | (_ & [= Heq _] & _)].
      * unfold sigs1 in H1. rewrite listenersOf_snoc in H1.
        pose proof (w_wired _ HW b _ H1) as Hlt. simpl in Hlt. fold sigs in Hlt. lia.
      * lia.
    + right. rewrite Hec. apply Hlk3; [left | lia].
    + intros r0 c0 Hc0 HC0. apply (w_calls _ HW' r0 c0). exact Hc0.
  - cbn [fst snd]. split; [exact HW |]. do 4 (split; [reflexivity |]).
    split; [apply (cw_outer _ _ HC) |]. split; [apply (cw_plain _ _ HC) |].
    split; [lia |]. split; [left; reflexivity | auto].
Qed.

Lemma callWired_signals (s s' : Client) (c : Call) :
  signals s' = signals s -> callWired s c -> callWired s' c.
Proof. intros Hs [H1 H2 H3 H4 H5 H6]. split; rewrite ?Hs; assumption. Qed.

Lemma callWired_setCont (s : Client) (K : Cont) (c : Call) :
  callWired s c ->
  (forall ctl, ctlOf K = Some ctl ->
     (ctl < length (signals s))%nat /\ ~ forwardTarget (signals s) ctl /\
     (outerController c <= ctl)%nat /\
     (ctl = outerController c \/ linked (signals s) (outerController c) ctl)) ->
  callWired s (setCont K c).
Proof. intros [H1 H2 H3 H4 H5 H6] HK. split; assumption. Qed.

(** [task.run()] for a call that no key record names. *)
Lemma Wiring_runTask (b : bool) (rid : nat) (s : Client) (c : Call) :
  Wiring s ->
  calls s !! rid = Some c ->
  (forall k rec, inFlightByKey s !! k = Some rec -> resultPromise rec <> rid) ->
  Wiring (runTask config b rid s).
Proof.
  intros HW Hc Hnorec. unfold runTask. rewrite Hc.
  set (sa := emit rid (taskRun b) (withInFlight (inFlight s + 1) s)).
  assert (HWa : Wiring sa) by (apply (Wiring_ext s); [reflexivity .. | exact HW]).
  pose proof (Wiring_supersede c sa HWa) as HWb.
  destruct (supersede_frame c sa) as (Hcb & _ & Hrb).
  set (sb := supersede c sa) in *.
  assert (Hcb' : calls sb !! rid = Some c) by (rewrite Hcb; exact Hc).
  destruct (dedupeLeader c sb) as [leader |].
  - eapply (Wiring_alter (setCont (AwaitLeader leader)) rid sb); [exact HWb | | | | |].
    + intros c0. auto.
    + intros c0 ctl _ H. discriminate.
    + reflexivity.
    + reflexivity.
    + auto.
  - pose proof (w_calls _ HWb rid c Hcb') as HCb.
    destruct (effectiveController_wiring c sb HWb HCb)
      as (HWc & Hcc & Hrc & Htc & Hnc & Hec1 & Hec2 & Hec4 & Hec3 & _).
    destruct (effectiveController c sb) as [sc ec] eqn:Heff. cbn [fst snd] in *.
    set (K := if Z.of_nat 0 <? loopBound (policyOf config (options c))
              then AwaitFetch 0 (now sc) ec else AwaitMicrotask (Rejected JsUndefined)).
    set (sd := loopHead config rid c ec 0 JsUndefined sc).
    assert (Hsd : signals sd = signals sc /\ calls sd = alter (setCont K) rid (calls sc) /\
                  inFlightByKey sd = inFlightByKey sc).
    { unfold sd, loopHead, doFetchStart, K.
      destruct (Z.of_nat 0 <? loopBound (policyOf config (options c))); repeat split. }
    destruct Hsd as (Hsd1 & Hsd2 & Hsd3). clearbody sd.
    assert (HK : forall ctl, ctlOf K = Some ctl -> ctl = ec).
    { unfold K. destruct (Z.of_nat 0 <? loopBound (policyOf config (options c)));
        simpl; congruence. }
    assert (Hself : alter (setCont K) rid (calls sc) !! rid = Some (setCont K c))
      by (rewrite list_lookup_alter_eq, Hcc, Hcb'; reflexivity).
    assert (Hcalls : forall r c0, alter (setCont K) rid (calls sc) !! r = Some c0 ->
              callWired sc c0).
    { intros r c0 H0. destruct (decide (r = rid)) as [-> | Hne].
      - rewrite Hself in H0. injection H0 as <-.
        apply callWired_setCont; [apply (w_calls _ HWc rid), (eq_trans (f_equal (.!! rid) Hcc) Hcb') |].
        intros ctl Hctl. rewrite (HK ctl Hctl). auto.
      - rewrite list_lookup_alter_ne in H0 by congruence. apply (w_calls _ HWc r c0 H0). }
    assert (Hold : forall k rec c0 ctl,
              inFlightByKey sc !! k = Some rec ->
              alter (setCont K) rid (calls sc) !! resultPromise rec = Some c0 ->
              ctlOf (cont c0) = Some ctl -> controller rec = ctl).
    { intros k rec c0 ctl Hk H0 Hctl.
      assert (Hne : resultPromise rec <> rid).
      { apply (Hnorec k). apply Hrb. rewrite <- Hrc. exact Hk. }
      rewrite list_lookup_alter_ne in H0 by congruence.
      apply (w_records _ HWc k rec c0 ctl); assumption. }
    destruct (keyOf (options c)) as [k |].
    + split; simpl_state.
      * rewrite Hsd1. apply (w_wired _ HWc).
      * intros r c0 H0. rewrite Hsd2 in H0.
        apply (callWired_signals sc); [exact Hsd1 | eapply Hcalls; eauto].
      * intros k' rec c0 ctl Hk' H0 Hctl. rewrite Hsd2 in H0.
        destruct (decide (k = k')) as [<- | Hne].
        -- rewrite lookup_insert_eq in Hk'. injection Hk' as <-. simpl in *.
           rewrite Hself in H0. injection H0 as <-. symmetry. apply HK, Hctl.
        -- rewrite lookup_insert_ne in Hk' by exact Hne. rewrite Hsd3 in Hk'.
           eapply Hold; eauto.
    + split.
      * rewrite Hsd1. apply (w_wired _ HWc).
      * intros r c0 H0. rewrite Hsd2 in H0.
        apply (callWired_signals sc); [exact Hsd1 | eapply Hcalls; eauto].
      * intros k' rec c0 ctl Hk' H0 Hctl. rewrite Hsd2 in H0. rewrite Hsd3 in Hk'.
        eapply Hold; eauto.
Qed.

Lemma no_record_of_unstarted (L : nat) (o : Outcome) (fs : list nat) (s : Client)
    (rid : nat) (c : Call) :
  Inv config L o fs s -> calls s !! rid = Some c -> cont c = NotStarted ->
  forall k rec, inFlightByKey s !! k = Some rec -> resultPromise rec <> rid.
Proof.
  intros HI Hc Hns k rec Hk E.
  destruct (inv_records _ _ _ _ _ HI k rec Hk) as (c1 & Hc1 & Hact & _).
  rewrite E, Hc in Hc1. injection Hc1 as <-. rewrite Hns in Hact. discriminate.
Qed.

Lemma Wiring_dequeue (L : nat) (o : Outcome) (fs : list nat) (s : Client) :
  Inv config L o fs s -> Wiring s -> Wiring (dequeue config s).
Proof.
  intros HI HW. destruct (dequeue_cases config s) as [-> | (task & rest & _ & Hq & ->)];
    [exact HW |].
  assert (Hin : task ∈ queue s).
  { destruct (decide (strategy config = lifo)); rewrite Hq.
    - apply elem_of_app. right. left.
    - left. }
  destruct (inv_queue _ _ _ _ _ HI task Hin) as (c & Hc & Hns & Hpn).
  apply (Wiring_runTask true task (withQueue rest s) c).
  - apply (Wiring_ext s); [reflexivity .. | exact HW].
  - exact Hc.
  - apply (no_record_of_unstarted L o fs s task c); assumption.
Qed.

Lemma Wiring_followerBody (o : Outcome) (f : nat) (s : Client) :
  Wiring s -> Wiring (followerBody o s f).
Proof.
  intros HW. unfold followerBody.
  eapply (Wiring_alter (fun c => setCont Finished (settlePromise o c)) f s); [exact HW | | | | |].
  - intros c. simpl. rewrite options_settled. unfold settlePromise.
    destruct (promise c); auto.
  - intros c ctl _ H. discriminate.
  - reflexivity.
  - reflexivity.
  - auto.
Qed.

Lemma Wiring_followers (L : nat) (o : Outcome) (fs : list nat) (s : Client) :
  Inv config L o fs s -> Wiring s -> Wiring (foldl (followerSettle config o) s fs).
Proof.
  revert s. induction fs as [| f fs IH]; intros s HI HW; simpl; [exact HW |].
  pose proof (Inv_followerBody config L o f fs s HI) as HI1.
  apply IH; unfold followerSettle.
  - apply Inv_dequeue, HI1.
  - apply (Wiring_dequeue L o fs); [exact HI1 |]. apply Wiring_followerBody, HW.
Qed.

Lemma Wiring_leader (rid : nat) (c : Call) (o : Outcome) (s : Client) :
  Wiring s -> Wiring (finallyBody rid c (detach rid (settleOuter rid c o s))).
Proof.
  intros HW. destruct (leader_touch rid c o s) as [Hcs _].
  eapply (Wiring_alter (fun c0 => setTimer false (setCont Finished (settlePromise o c0))) rid s);
    [exact HW | | | | |].
  - intros c0. simpl. rewrite options_settled. unfold settlePromise.
    destruct (promise c0); auto.
  - intros c0 ctl _ H. discriminate.
  - unfold finallyBody, detach, settleOuter. destruct (keyOf (options c)), o; reflexivity.
  - rewrite Hcs, list_alter_alter_eq. reflexivity.
  - unfold finallyBody, detach, settleOuter. destruct (keyOf (options c)) as [k |], o;
      simpl_state; auto.
    all: intros k' rec Hk'; destruct (decide (k = k')) as [-> | Hne];
      [rewrite lookup_delete_eq in Hk'; discriminate
      | rewrite lookup_delete_ne in Hk' by exact Hne; exact Hk'].
Qed.

Lemma Wiring_settle (o' : Outcome) (rid : nat) (c : Call) (s1 : Client) :
  Wiring s1 ->
  Inv config rid o' (followersOf rid s1)
      (finallyBody rid c (detach rid (settleOuter rid c o' s1))) ->
  Wiring (settle config rid c o' s1).
Proof.
  intros HW HI2. unfold settle.
  apply (Wiring_followers rid o'); [apply Inv_dequeue, HI2 |].
  apply (Wiring_dequeue rid o' (followersOf rid s1)); [exact HI2 |].
  apply Wiring_leader, HW.
Qed.

Lemma Wiring_fetchSettled (L : nat) (o : Outcome) (rid : nat) (r : FetchResult) (math : Math)
    (s : Client) :
  Inv config L o [] s -> Wiring s -> Wiring (fetchSettled config rid r math s).
Proof.
  intros HI HW. unfold fetchSettled.
  destruct (calls s !! rid) as [c |] eqn:Hc; [| exact HW].
  destruct (cont c) as [| i start ctl | | | |] eqn:Hk; try exact HW.
  set (actual := fetchOutcome s ctl r).
  set (attempt := doFetchResult config c actual).
  set (s1 := doFetchFinish rid c start actual s).
  assert (Hs1 : calls s1 = calls s /\ signals s1 = signals s /\
                inFlightByKey s1 = inFlightByKey s).
  { unfold s1, doFetchFinish. destruct actual; repeat split; reflexivity. }
  destruct Hs1 as (Hs1c & Hs1s & Hs1b).
  assert (HW1 : Wiring s1) by (apply (Wiring_ext s); assumption).
  assert (Hsettle : forall o', Wiring (settle config rid c o' s1)).
  { intros o'.
    pose proof (Inv_afterFetch config L o rid c i start ctl actual o' s HI Hc Hk) as HI1.
    fold s1 in HI1.
    assert (Hc1' : calls (updCall rid (setCont (AwaitMicrotask o')) s1) !! rid
                   = Some (setCont (AwaitMicrotask o') c)).
    { simpl_state. rewrite list_lookup_alter_eq, Hs1c, Hc. reflexivity. }
    pose proof (Inv_leaderSettles config L o o' rid c _ _ HI1 Hc1' eq_refl eq_refl) as HI2.
    rewrite settle_afterFetch in HI2.
    change (followersOf rid (updCall rid (setCont (AwaitMicrotask o')) s1))
      with (followersOf rid s1) in HI2.
    apply Wiring_settle; assumption. }
  destruct (iteration (policyOf config (options c)) i attempt math) as [v | e | ms].
  - apply Hsettle.
  - apply Hsettle.
  - eapply (Wiring_alter _ rid s1); [exact HW1 | | | reflexivity | reflexivity | auto].
    + intros c0. auto.
    + intros c0 ctl0 H0 H. rewrite Hs1c, Hc in H0. injection H0 as <-. rewrite Hk.
      exact H.
Qed.

Lemma Wiring_sleepDone (rid : nat) (s : Client) :
  Wiring s -> Wiring (sleepDone config rid s).
Proof.
  intros HW. unfold sleepDone.
  destruct (calls s !! rid) as [c |] eqn:Hc; [| exact HW].
  destruct (cont c) as [| | i ctl errLast | | |] eqn:Hk; try exact HW.
  unfold loopHead, doFetchStart.
  destruct (Z.of_nat (S i) <? loopBound (policyOf config (options c))).
  - eapply (Wiring_alter _ rid s); [exact HW | | | reflexivity | reflexivity | auto].
    + intros c0. auto.
    + intros c0 ctl0 H0 H. rewrite Hc in H0. injection H0 as <-. rewrite Hk. exact H.
  - eapply (Wiring_alter _ rid s); [exact HW | | | reflexivity | reflexivity | auto].
    + intros c0. auto.
    + intros c0 ctl0 H0 H. discriminate.
Qed.

Lemma Wiring_microtask (L : nat) (o : Outcome) (rid : nat) (s : Client) :
  Inv config L o [] s -> Wiring s -> Wiring (microtask config rid s).
Proof.
  intros HI HW. unfold microtask.
  destruct (calls s !! rid) as [c |] eqn:Hc; [| exact HW].
  destruct (cont c) as [| | | o' | |] eqn:Hk; try exact HW.
  assert (Hact : activeCont (cont c) = true) by (rewrite Hk; reflexivity).
  pose proof (Inv_leaderSettles config L o o' rid c c s HI Hc eq_refl Hact) as HI2.
  apply Wiring_settle; assumption.
Qed.

Lemma Wiring_abort (s : Client) (id : nat) (r : JsError) :
  Wiring s -> Wiring (withSignals (abortSignal (signals s) id r) s).
Proof.
  intros HW. eapply Wiring_fires; [exact HW | apply abortSignal_fires_some | reflexivity | auto].
Qed.

Lemma Wiring_timeoutFires (rid : nat) (s : Client) :
  Wiring s -> Wiring (timeoutFires rid s).
Proof.
  intros HW. unfold timeoutFires.
  destruct (calls s !! rid) as [c |] eqn:Hc; [| exact HW].
  destruct (timer c); [| exact HW].
  eapply (Wiring_alter (setTimer false) rid _); [apply (Wiring_abort s), HW | | | | |].
  - intros c0. auto.
  - intros c0 ctl _ H. exact H.
  - reflexivity.
  - reflexivity.
  - auto.
Qed.

Lemma Wiring_request (L : nat) (o : Outcome) (input : string) (opts : RequestOptions.t)
    (s : Client) :
  Inv config L o [] s -> Wiring s -> Wiring (request config input opts s).
Proof.
  intros HI HW. unfold request, newAbortController.
  set (sigs := signals s). set (tc := length sigs). set (sigs1 := sigs ++ [freshSignal]).
  destruct (combineSignals_wiring sigs1 [RequestOptions.signal opts; Some tc])
    as (Hoc & HE2 & Hlen2 & Hls2 & Hlk2 & _).
  destruct (combineSignals sigs1 [RequestOptions.signal opts; Some tc]) as [sigs2 oc] eqn:Hcomb.
  cbn [fst snd] in *.
  assert (Hlen1 : length sigs1 = S tc) by (unfold sigs1; rewrite length_app; simpl; lia).
  assert (HE : extends sigs sigs2) by (eapply extends_trans; [apply extends_snoc | exact HE2]).
  match goal with
  | |- Wiring (enqueue _ _ ?c (withSignals _ (withCalls _ _))) => set (c0 := c)
  end.
  set (rid := length (calls s)).
  set (s0 := withSignals sigs2 (withCalls (calls s ++ [c0]) s)).
  assert (Hc0 : calls s0 !! rid = Some c0).
  { unfold s0, rid. simpl_state. rewrite lookup_app_r, Nat.sub_diag by lia. reflexivity. }
  assert (HWx : Wiring (withSignals sigs2 s)).
  { apply (Wiring_extends s); [exact HW | exact HE | reflexivity | reflexivity]. }
  assert (HC0 : callWired s0 c0).
  { split; unfold s0, c0; simpl_state; cbn [timeoutController outerController options cont].
    - lia.
    - lia.
    - rewrite Hoc. apply Hlk2; [right; left | lia].
    - intros u Hu Hlt. rewrite Hoc. apply Hlk2; [rewrite <- Hu; left | lia].
    - intros (b & src & H). destruct (Hls2 b _ H) as [H1 | H1]; [| discriminate].
      unfold sigs1 in H1. rewrite listenersOf_snoc in H1.
      pose proof (w_wired _ HW b _ H1) as Hlt. simpl in Hlt. fold sigs tc in Hlt. lia.
    - intros ctl H. discriminate. }
  assert (HW0 : Wiring s0).
  { split.
    - apply (w_wired _ HWx).
    - intros r c Hr. destruct (decide (r = rid)) as [-> | Hne].
      + rewrite Hc0 in Hr. injection Hr as <-. exact HC0.
      + unfold s0 in Hr. cbn [calls withSignals withCalls] in Hr.
        assert (Hlt : (r < length (calls s))%nat).
        { apply lookup_lt_Some in Hr. rewrite length_app in Hr. simpl in Hr.
          unfold rid in Hne. lia. }
        rewrite lookup_app_l in Hr by exact Hlt.
        apply (callWired_signals (withSignals sigs2 s)); [reflexivity |].
        apply (w_calls _ HWx r c Hr).
    - intros k rec c ctl Hk Hr Hctl.
      destruct (inv_records _ _ _ _ _ HI k rec Hk) as (c1 & Hc1 & _).
      unfold s0 in Hr. cbn [calls withSignals withCalls] in Hr.
      rewrite lookup_app_l in Hr by (eapply lookup_lt_Some; eauto).
      apply (w_records _ HW k rec c ctl); assumption. }
  unfold enqueue.
  destruct ((maxInFlight config =? 0) || (inFlight s0 <? maxInFlight config)).
  - apply (Wiring_runTask false rid s0 c0 HW0 Hc0).
    intros k rec Hk. destruct (inv_records _ _ _ _ _ HI k rec Hk) as (c1 & Hc1 & _).
    apply lookup_lt_Some in Hc1. unfold rid. lia.
  - destruct (decide (strategy config = drop)).
    + eapply (Wiring_alter (settlePromise (Rejected DropError)) rid s0);
        [exact HW0 | | | reflexivity | reflexivity | auto].
      * intros c. rewrite options_settled. unfold settlePromise. destruct (promise c); auto.
      * intros c ctl _ H. rewrite cont_settled in H. exact H.
    + apply (Wiring_ext s0); [reflexivity .. | exact HW0].
Qed.

Lemma Wiring_step (L : nat) (o : Outcome) (s : Client) (e : Input) :
  Inv config L o [] s -> Wiring s -> Wiring (step config s e).
Proof.
  intros HI HW. destruct e as [input opts | rid r math | rid | rid | rid | rid | | ctl r | ms]; simpl.
  - apply (Wiring_request L o); assumption.
  - apply (Wiring_fetchSettled L o); assumption.
  - apply Wiring_sleepDone, HW.
  - apply (Wiring_microtask L o); assumption.
  - apply Wiring_timeoutFires, HW.
  - unfold cancel. destruct (calls s !! rid) as [c |]; [| exact HW].
    apply Wiring_abort, HW.
  - apply (Wiring_extends s); [exact HW | apply extends_snoc | reflexivity | reflexivity].
  - apply Wiring_abort, HW.
  - apply (Wiring_ext s); [reflexivity .. | exact HW].
Qed.

Lemma reachable_Wiring (s : Client) : reachable config s -> Wiring s.
Proof.
  induction 1 as [| s e Hr IH].
  - split; simpl.
    + intros a l Hl. destruct a; inversion Hl.
    + intros r c H. rewrite lookup_nil in H. discriminate.
    + intros k rec c ctl H. rewrite lookup_empty in H. discriminate.
  - apply (Wiring_step 0%nat (Rejected JsUndefined)); [apply Inv_reachable, Hr | exact IH].
Qed.

End Wired.

(** ** The settlement of a fetch *)

Section Settled.

Variable config : ClientConfig.t.

Lemma kept_refl (s : Client) (r : nat) : kept s s r.
Proof. split; reflexivity. Qed.

Lemma kept_trans (s1 s2 s3 : Client) (r : nat) : kept s1 s2 r -> kept s2 s3 r -> kept s1 s3 r.
Proof. intros [H1 H2] [H3 H4]. split; congruence. Qed.

Lemma runTask_kept (b : bool) (rid : nat) (s : Client) (r : nat) :
  r <> rid -> kept s (runTask config b rid s) r.
Proof.
  intros Hne. destruct (calls s !! rid) as [c |] eqn:Hc.
  - destruct (runTask_life config b rid s c Hc) as (k' & Hcs & Hcases). split.
    + rewrite Hcs. apply list_lookup_alter_ne. congruence.
    + destruct Hcases as [(leader & _ & Ht) | [(ec & _ & Ht & _) | (_ & Ht & _)]];
        rewrite Ht; (apply (eventsOf_app_others r rid); [repeat constructor | exact Hne]).
  - unfold runTask. rewrite Hc. apply kept_refl.
Qed.

Lemma dequeue_kept (L : nat) (o : Outcome) (fs : list nat) (s : Client) (r : nat) (c : Call) :
  Inv config L o fs s -> calls s !! r = Some c -> cont c <> NotStarted ->
  kept s (dequeue config s) r.
Proof.
  intros HI Hc Hk. destruct (dequeue_cases config s) as [-> | (task & rest & _ & Hq & ->)];
    [apply kept_refl |].
  assert (Hin : task ∈ queue s).
  { destruct (decide (strategy config = lifo)); rewrite Hq.
    - apply elem_of_app. right. left.
    - left. }
  destruct (inv_queue _ _ _ _ _ HI task Hin) as (c1 & Hc1 & Hns & _).
  apply (runTask_kept true task (withQueue rest s) r).
  intros ->. rewrite Hc in Hc1. injection Hc1 as <-. contradiction.
Qed.

Lemma followerBody_kept (o : Outcome) (f : nat) (s : Client) (r : nat) :
  r <> f -> kept s (followerBody o s f) r.
Proof.
  intros Hne. unfold followerBody. split; simpl_state.
  - apply list_lookup_alter_ne. congruence.
  - rewrite <- app_assoc. apply (eventsOf_app_others r f); [repeat constructor | exact Hne].
Qed.

Lemma followers_kept (L : nat) (o : Outcome) (fs : list nat) (s : Client) (r : nat) (c : Call) :
  Inv config L o fs s -> calls s !! r = Some c -> cont c = Finished ->
  kept s (foldl (followerSettle config o) s fs) r.
Proof.
  revert s. induction fs as [| f fs IH]; intros s HI Hc Hk; simpl; [apply kept_refl |].
  change (followerSettle config o s f) with (dequeue config (followerBody o s f)).
  pose proof (Inv_followerBody config L o f fs s HI) as HI1.
  assert (Hne : r <> f).
  { intros ->. destruct (inv_orphans _ _ _ _ _ HI f ltac:(left)) as (c1 & Hc1 & Hk1). congruence. }
  pose proof (followerBody_kept o f s r Hne) as [K1 K2].
  assert (Hc1 : calls (followerBody o s f) !! r = Some c) by (rewrite K1; exact Hc).
  assert (Hnot : cont c <> NotStarted) by (rewrite Hk; discriminate).
  pose proof (dequeue_kept L o fs _ r c HI1 Hc1 Hnot) as [K3 K4].
  eapply kept_trans; [split; [exact (eq_trans K3 K1) | exact (eq_trans K4 K2)] |].
  apply IH; [apply Inv_dequeue, HI1 | rewrite K3; exact Hc1 | exact Hk].
Qed.

(** What settling does to the call that settles. *)
Lemma settle_call (o' : Outcome) (rid : nat) (c c1 : Call) (s1 : Client) :
  calls s1 !! rid = Some c1 ->
  Inv config rid o' (followersOf rid s1)
      (finallyBody rid c (detach rid (settleOuter rid c o' s1))) ->
  let s' := settle config rid c o' s1 in
  calls s' !! rid = Some (setTimer false (setCont Finished (settlePromise o' c1))) /\
  eventsOf rid (trace s')
  = eventsOf rid (trace s1) ++ errorEvents c o' ++ [released; dequeueCalled].
Proof.
  intros Hc1 HI2. unfold settle.
  destruct (leader_touch rid c o' s1) as [Hcs2 Htr2].
  set (s2 := finallyBody rid c (detach rid (settleOuter rid c o' s1))) in *.
  set (c2 := setTimer false (setCont Finished (settlePromise o' c1))).
  assert (Hc2 : calls s2 !! rid = Some c2)
    by (rewrite Hcs2, !list_lookup_alter_eq, Hc1; reflexivity).
  assert (Hnot : cont c2 <> NotStarted) by discriminate.
  pose proof (dequeue_kept rid o' _ s2 rid c2 HI2 Hc2 Hnot) as [K1 K2].
  assert (Hc3 : calls (dequeue config s2) !! rid = Some c2) by (rewrite K1; exact Hc2).
  pose proof (followers_kept rid o' _ _ rid c2 (Inv_dequeue config _ _ _ _ HI2) Hc3 eq_refl)
    as [K3 K4].
  split; [rewrite K3; exact Hc3 |].
  rewrite K4, K2, Htr2, eventsOf_app, eventsOf_tagged, decide_True by reflexivity.
  reflexivity.
Qed.

(** What the settlement of its fetch does to a call, when that ends the
    retry loop. *)
Lemma fetchSettled_ends (s : Client) (rid : nat) (c : Call) (i : nat) (start : Z) (ctl : nat)
    (r : FetchResult) (math : Math) (o' : Outcome) :
  reachable config s ->
  calls s !! rid = Some c -> cont c = AwaitFetch i start ctl ->
  loopOutcome (iteration (policyOf config (options c)) i
                 (doFetchResult config c (fetchOutcome s ctl r)) math) = Some o' ->
  let s' := fetchSettled config rid r math s in
  promiseOf s' rid = Some o' /\ contOf s' rid = Some Finished /\
  eventsOf rid (trace s')
  = eventsOf rid (trace s) ++ finishEvents c start (now s) (fetchOutcome s ctl r)
      ++ errorEvents c o' ++ [released; dequeueCalled].
Proof.
  intros Hr Hc Hk Ho'. pose proof (Inv_reachable config s Hr) as HI.
  pose proof (inv_calls _ _ _ _ _ HI rid c Hc) as [_ Hok].
  unfold contOk in Hok. rewrite Hk in Hok. destruct Hok as (Hpn & _).
  unfold fetchSettled. rewrite Hc, Hk.
  set (actual := fetchOutcome s ctl r) in *.
  set (s1 := doFetchFinish rid c start actual s).
  assert (Hs1 : calls s1 = calls s /\
                trace s1 = trace s ++ (pair rid <$> finishEvents c start (now s) actual)).
  { unfold s1, doFetchFinish, finishEvents. destruct actual; simpl_state;
      [split; reflexivity | rewrite app_nil_r; split; reflexivity]. }
  destruct Hs1 as [Hs1c Hs1t].
  assert (Hgoal : promiseOf (settle config rid c o' s1) rid = Some o' /\
                  contOf (settle config rid c o' s1) rid = Some Finished /\
                  eventsOf rid (trace (settle config rid c o' s1))
                  = eventsOf rid (trace s) ++ finishEvents c start (now s) actual
                      ++ errorEvents c o' ++ [released; dequeueCalled]).
  { pose proof (Inv_afterFetch config 0%nat (Rejected JsUndefined) rid c i start ctl actual o'
                  s HI Hc Hk) as HI1.
    fold s1 in HI1.
    assert (Hc1' : calls (updCall rid (setCont (AwaitMicrotask o')) s1) !! rid
                   = Some (setCont (AwaitMicrotask o') c)).
    { simpl_state. rewrite list_lookup_alter_eq, Hs1c, Hc. reflexivity. }
    pose proof (Inv_leaderSettles config _ _ o' rid c _ _ HI1 Hc1' eq_refl eq_refl) as HI2.
    rewrite settle_afterFetch in HI2.
    change (followersOf rid (updCall rid (setCont (AwaitMicrotask o')) s1))
      with (followersOf rid s1) in HI2.
    assert (Hc1 : calls s1 !! rid = Some c) by (rewrite Hs1c; exact Hc).
    destruct (settle_call o' rid c c s1 Hc1 HI2) as [Hcall Hev].
    unfold promiseOf, contOf. rewrite Hcall. simpl.
    split; [apply promise_settled, Hpn |]. split; [reflexivity |].
    rewrite Hev, Hs1t, eventsOf_app, eventsOf_tagged, decide_True by reflexivity.
    rewrite <- app_assoc. reflexivity. }
  destruct (iteration (policyOf config (options c)) i (doFetchResult config c actual) math)
    as [v | e | ms]; simpl in Ho'; try discriminate; injection Ho' as <-; exact Hgoal.
Qed.

End Settled.

(** X10.  Once the signal given to the transport of a call has fired with
    an abort error, the call is over at the next settlement of its fetch:
    whatever the transport delivers, a response with status 200 included,
    and whatever the retry policy, the promise rejects with the signal's
    reason, no further transport call and no sleep follow, and the finish
    hook is not called. *)
Theorem aborted_transport_rejects_without_retry (config : ClientConfig.t) (s : Client)
    (rid i : nat) (start : Z) (ctl : nat) (r : FetchResult) (math : Math) :
  reachable config s ->
  contOf s rid = Some (AwaitFetch i start ctl) ->
  isAborted (signals s) ctl = true ->
  isAbort (reasonOf (signals s) ctl) = true ->
  let s' := step config s (FetchSettles rid r math) in
  promiseOf s' rid = Some (Rejected (reasonOf (signals s) ctl)) /\
  contOf s' rid = Some Finished /\
  count isFetch rid (trace s') = count isFetch rid (trace s) /\
  count isSlept rid (trace s') = count isSlept rid (trace s) /\
  count isFinish rid (trace s') = count isFinish rid (trace s).
Proof.
  intros Hr Hk Hab Hre. unfold contOf in Hk.
  destruct (calls s !! rid) as [c |] eqn:Hc; [| discriminate]. injection Hk as Hk.
  assert (Hout : fetchOutcome s ctl r = FetchThrows (reasonOf (signals s) ctl))
    by (unfold fetchOutcome; rewrite Hab; reflexivity).
  destruct (fetchSettled_ends config s rid c i start ctl r math
              (Rejected (reasonOf (signals s) ctl)) Hr Hc Hk) as (H1 & H2 & H3).
  { rewrite Hout. simpl. unfold iteration. rewrite Hre. reflexivity. }
  simpl. split; [exact H1 |]. split; [exact H2 |].
  unfold count. rewrite H3, Hout. simpl. rewrite !cnt_app, !cnt_cons, !cnt_nil. simpl.
  repeat split; lia.
Qed.

Lemma aborted_transport_rejects_without_retry_witness :
  let s := run plainConfig init
             [CallRequest "/a" (retrying policy150); CancelCalled 0] in
  let s' := step plainConfig s (FetchSettles 0 (Responds (response 200)) host) in
  promiseOf s' 0
  = Some (Rejected (DOMException "signal is aborted without reason" "AbortError")) /\
  count isFetch 0 (trace s') = 1%nat.
Proof.
  intros s s'.
  destruct (aborted_transport_rejects_without_retry plainConfig s 0 0 0 1
              (Responds (response 200)) host) as (H1 & _ & H2 & _).
  - apply (reachable_run plainConfig). constructor.
  - vm_compute. reflexivity.
  - vm_compute. reflexivity.
  - vm_compute. reflexivity.
  - split; [exact H1 |]. fold s' in H2. rewrite H2. vm_compute. reflexivity.
Defined.

(** ** Aborting a call *)

Lemma foldl_dispatch_kept (fuel : nat) (ls : list Listener) (acc : list AbortSignal)
    (a : nat) (sg : AbortSignal) :
  (unfired acc <= fuel)%nat -> acc !! a = Some sg -> aborted sg = true ->
  foldl (dispatch fuel) acc ls !! a = Some sg.
Proof.
  revert acc. induction ls as [| l ls IH]; intros acc Hfuel Ha Hf; simpl; [exact Ha |].
  apply IH.
  - rewrite dispatch_abort. etransitivity; [apply abort_unfired | exact Hfuel].
  - rewrite dispatch_abort.
    destruct (abort_fires fuel acc (rootOf acc l).1 (rootOf acc l).2 Hfuel) as [HF _].
    apply (fires_fired _ _ _ HF); assumption.
  - exact Hf.
Qed.

(** The reason of the signal that [abort] is called on. *)
Lemma abortSignal_root_reason (sigs : list AbortSignal) (id : nat) (r : JsError)
    (sg : AbortSignal) :
  sigs !! id = Some sg -> aborted sg = false ->
  reasonOf (abortSignal sigs id r) id = abortArg r.
Proof.
  intros Hs Hf. unfold abortSignal. rewrite abort_S, Hs, Hf.
  pose proof (unfired_fire sigs id sg (abortArg r) Hs Hf) as Hfire.
  pose proof (unfired_le_length sigs) as Hle.
  unfold reasonOf.
  rewrite (foldl_dispatch_kept (length sigs) (listeners sg) _ id
             {| aborted := true; reason := abortArg r; listeners := [] |});
    [reflexivity | lia | | reflexivity].
  apply list_lookup_insert_eq. eapply lookup_lt_Some, Hs.
Qed.

Lemma extends_reasonOf (sigs sigs' : list AbortSignal) (a : nat) :
  extends sigs sigs' -> (a < length sigs)%nat -> reasonOf sigs' a = reasonOf sigs a.
Proof.
  intros HE Ha. destruct (lookup_lt_is_Some_2 _ _ Ha) as [s Hs].
  destruct (ext_old _ _ HE a s Hs) as (s' & Hs' & _ & Hr & _).
  unfold reasonOf. rewrite Hs, Hs'. exact Hr.
Qed.

(** An abort of a signal linked to the outer controller of a call reaches
    the controller of its transport. *)
Lemma abort_reaches_transport (s : Client) (rid : nat) (c : Call) (ctl src : nat)
    (r : JsError) :
  Wiring s -> calls s !! rid = Some c -> ctlOf (cont c) = Some ctl ->
  (src < outerController c)%nat -> linked (signals s) src (outerController c) ->
  let sigs' := abortSignal (signals s) src r in
  isAborted sigs' ctl = true /\
  (isAborted (signals s) ctl = false -> reasonOf sigs' ctl = defaultAbortReason).
Proof.
  intros HW Hc Hctl Hsrc Hlk sigs'.
  pose proof (w_calls _ HW rid c Hc) as HC.
  destruct (cw_fetch _ _ HC ctl Hctl) as (Hlt & Hnf & Hle & Hor).
  pose proof (cw_outer _ _ HC) as Hout.
  destruct (abortSignal_fires (signals s) src r) as [HF HA]. fold sigs' in HF, HA.
  assert (Hsrc' : isAborted sigs' src = true) by (apply HA; lia).
  assert (Hoc : isAborted sigs' (outerController c) = true).
  { eapply linked_fired; [| exact Hsrc']. eapply fires_linked; eauto. }
  assert (Hab : isAborted sigs' ctl = true).
  { destruct Hor as [-> | Hor]; [exact Hoc |].
    eapply linked_fired; [| exact Hoc]. eapply fires_linked; eauto. }
  split; [exact Hab |]. intros Hun. unfold isAborted, reasonOf in *.
  destruct (signals s !! ctl) as [sg |] eqn:Hsg; [| apply lookup_ge_None in Hsg; lia].
  destruct (sigs' !! ctl) as [sg' |] eqn:Hsg'; [| discriminate].
  destruct (fires_new _ _ _ HF ctl sg sg' Hsg Hun Hsg' Hab) as (_ & _ & [[Heq _] | [Hd | Hft]]).
  - lia.
  - exact Hd.
  - contradiction.
Qed.

(** What an abort from outside does to the client, apart from the
    signals. *)
Lemma abortsCall_frame (config : ClientConfig.t) (s : Client) (rid : nat) (c : Call)
    (e : Input) :
  calls s !! rid = Some c -> abortsCall rid c e ->
  let s1 := step config s e in
  exists c1, calls s1 !! rid = Some c1 /\ cont c1 = cont c /\ options c1 = options c /\
             url c1 = url c /\ promise c1 = promise c /\
             trace s1 = trace s /\ now s1 = now s /\ queue s1 = queue s /\
             inFlight s1 = inFlight s.
Proof.
  intros Hc [-> | [[-> Ht] | (u & r & -> & _)]]; simpl.
  - unfold cancel. rewrite Hc. simpl_state. exists c. auto 10.
  - unfold timeoutFires. rewrite Hc, Ht. simpl_state.
    exists (setTimer false c). rewrite list_lookup_alter_eq, Hc. auto 10.
  - simpl_state. exists c. auto 10.
Qed.

Lemma abortsCall_reaches (config : ClientConfig.t) (s : Client) (rid : nat) (c : Call)
    (ctl : nat) (e : Input) :
  reachable config s -> calls s !! rid = Some c -> ctlOf (cont c) = Some ctl ->
  isAborted (signals s) ctl = false -> abortsCall rid c e ->
  isAborted (signals (step config s e)) ctl = true /\
  reasonOf (signals (step config s e)) ctl = defaultAbortReason.
Proof.
  intros Hr Hc Hctl Hun He.
  pose proof (reachable_Wiring config s Hr) as HW.
  pose proof (w_calls _ HW rid c Hc) as HC.
  pose proof (cw_timeout _ _ HC) as Htc.
  assert (Hgen : forall src x, (src < outerController c)%nat ->
            linked (signals s) src (outerController c) ->
            isAborted (abortSignal (signals s) src x) ctl = true /\
            reasonOf (abortSignal (signals s) src x) ctl = defaultAbortReason).
  { intros src x Hlt Hlk.
    destruct (abort_reaches_transport s rid c ctl src x HW Hc Hctl Hlt Hlk) as [H1 H2].
    split; [exact H1 | exact (H2 Hun)]. }
  destruct He as [-> | [[-> Ht] | (u & x & -> & Hu & Hlt)]]; simpl.
  - unfold cancel. rewrite Hc. simpl_state. apply Hgen; [lia | apply (cw_cancel _ _ HC)].
  - unfold timeoutFires. rewrite Hc, Ht. simpl_state.
    apply Hgen; [lia | apply (cw_cancel _ _ HC)].
  - simpl_state. apply Hgen; [lia | apply (cw_signal _ _ HC); assumption].
Qed.

(** X12.  However a call is aborted from outside, by [cancel()] of its
    handle, by its timeout timer, or by the signal the caller passed in
    the options, the signal that its transport was given has fired
    afterwards; and when that signal fires on this occasion, its reason is
    the error of an abort without argument, not the "Cancelled" or
    "Timeout" error and not the reason the caller gave. *)
Theorem aborts_reach_transport_without_reason (config : ClientConfig.t) (s : Client)
    (rid : nat) (c : Call) (ctl : nat) (e : Input) :
  reachable config s ->
  calls s !! rid = Some c -> ctlOf (cont c) = Some ctl ->
  abortsCall rid c e ->
  let s' := step config s e in
  isAborted (signals s') ctl = true /\
  (isAborted (signals s) ctl = false ->
   reasonOf (signals s') ctl
   = DOMException "signal is aborted without reason" "AbortError").
Proof.
  intros Hr Hc Hctl He. pose proof (reachable_Wiring config s Hr) as HW.
  pose proof (w_calls _ HW rid c Hc) as HC.
  pose proof (cw_timeout _ _ HC) as Htc.
  destruct He as [-> | [[-> Ht] | (u & r & -> & Hu & Hlt)]]; simpl.
  - unfold cancel. rewrite Hc. simpl_state.
    apply (abort_reaches_transport s rid c ctl); auto. apply (cw_cancel _ _ HC).
  - unfold timeoutFires. rewrite Hc, Ht. simpl_state.
    apply (abort_reaches_transport s rid c ctl); auto. apply (cw_cancel _ _ HC).
  - simpl_state. apply (abort_reaches_transport s rid c ctl); auto; [lia |].
    apply (cw_signal _ _ HC); assumption.
Qed.

Lemma aborts_reach_transport_without_reason_witness :
  let s := run plainConfig init [NewController; CallRequest "/a" (guarded 0 5000 "k")] in
  contOf s 0 = Some (AwaitFetch 0 0 4) /\
  (forall e, e ∈ [CancelCalled 0; TimeoutFires 0; AbortCalled 0 (OtherError "Error" "stop")] ->
     isAborted (signals (step plainConfig s e)) 4 = true /\
     reasonOf (signals (step plainConfig s e)) 4
     = DOMException "signal is aborted without reason" "AbortError").
Proof.
  intros s. split; [vm_compute; reflexivity |]. intros e He.
  assert (Hr : reachable plainConfig s) by (apply (reachable_run plainConfig); constructor).
  destruct (calls s !! 0%nat) as [c |] eqn:Hc; [| vm_compute in Hc; discriminate].
  assert (Hcv : Some c = calls s !! 0%nat) by (symmetry; exact Hc).
  vm_compute in Hcv. injection Hcv as ->.
  match type of Hc with _ = Some ?c0 => set (c := c0) in * end.
  destruct (aborts_reach_transport_without_reason plainConfig s 0 c 4 e Hr Hc eq_refl)
    as [H1 H2].
  - apply elem_of_cons in He as [-> | He]; [left; reflexivity |].
    apply elem_of_cons in He as [-> | He]; [right; left; split; reflexivity |].
    apply elem_of_cons in He as [-> | He]; [| inversion He].
    right. right. exists 0%nat, (OtherError "Error" "stop"). repeat split. simpl. lia.
  - split; [exact H1 |]. apply H2. vm_compute. reflexivity.
Defined.

Section LastOneWins.

Variable config : ClientConfig.t.

Lemma effectiveController_extends (c : Call) (s : Client) :
  (outerController c < length (signals s))%nat ->
  extends (signals s) (signals (effectiveController c s).1) /\
  inFlightByKey (effectiveController c s).1 = inFlightByKey s /\
  calls (effectiveController c s).1 = calls s /\
  (is_Some (keyOf (options c)) ->
   (length (signals s) <= (effectiveController c s).2)%nat).
Proof.
  intros Hoc. unfold effectiveController.
  destruct (keyOf (options c)) as [k |].
  - unfold newAbortController.
    set (sigs := signals s) in *. set (kc := length sigs). set (oc := outerController c) in *.
    set (sigs1 := sigs ++ [freshSignal]).
    set (sigs2 := addEventListener sigs1 oc (ForwardReason kc oc)).
    destruct (combineSignals_wiring sigs2 [Some oc; Some kc]) as (Hec & HE3 & _).
    destruct (combineSignals sigs2 [Some oc; Some kc]) as [sigs3 ec] eqn:Hcomb.
    cbn [fst snd] in *. simpl_state.
    assert (Hlen1 : length sigs1 = S (length sigs))
      by (unfold sigs1; rewrite length_app; simpl; lia).
    assert (Hlen2 : length sigs2 = S (length sigs))
      by (unfold sigs2; rewrite length_addEventListener; exact Hlen1).
    assert (HE2 : extends sigs sigs2).
    { unfold sigs2. apply extends_addEventListener; [apply extends_snoc |].
      simpl. fold sigs1. lia. }
    split; [eapply extends_trans; eauto |]. do 2 (split; [reflexivity |]).
    intros _. lia.
  - cbn [fst snd]. split; [apply extends_refl |]. do 2 (split; [reflexivity |]).
    intros [k Hk]. discriminate.
Qed.

(** [task.run()] of a lastOneWins call that finds a record under its
    key. *)
Lemma runTask_lastOneWins (b : bool) (rid : nat) (s : Client) (c : Call) (k : string)
    (prev : KeyRecord) :
  calls s !! rid = Some c -> (outerController c < length (signals s))%nat ->
  keyOf (options c) = Some k -> RequestOptions.lastOneWins (options c) = true ->
  inFlightByKey s !! k = Some prev ->
  let s' := runTask config b rid s in
  extends (abortSignal (signals s) (controller prev)
             (DOMException "Replaced by newer request" "AbortError")) (signals s') /\
  exists rec, inFlightByKey s' !! k = Some rec /\ resultPromise rec = rid /\
              (length (signals s) <= controller rec)%nat.
Proof.
  intros Hc Hoc Hk Hl Hprev. unfold runTask. rewrite Hc.
  unfold supersede, dedupeLeader. simpl_state. rewrite Hk, Hl, Hprev. simpl_state.
  rewrite lookup_delete_eq.
  replace (if RequestOptions.dedupe (options c) then resultPromise <$> None else None)
    with (@None nat) by (destruct (RequestOptions.dedupe (options c)); reflexivity).
  match goal with
  | |- context [effectiveController c ?s0] => set (sb := s0)
  end.
  assert (Hlenb : length (signals sb) = length (signals s)).
  { unfold sb. simpl_state. apply (fires_length _ _ _ (abortSignal_fires_some _ _ _)). }
  destruct (effectiveController_extends c sb) as (HE & _ & _ & Hec); [lia |].
  specialize (Hec ltac:(rewrite Hk; eauto)).
  destruct (effectiveController c sb) as [sc ec] eqn:Heff. cbn [fst snd] in *.
  assert (Hsd : signals (loopHead config rid c ec 0 JsUndefined sc) = signals sc).
  { unfold loopHead, doFetchStart.
    destruct (Z.of_nat 0 <? loopBound (policyOf config (options c))); reflexivity. }
  simpl_state. rewrite Hsd. split; [exact HE |].
  eexists. rewrite lookup_insert_eq. split; [reflexivity |]. simpl. split; [reflexivity | lia].
Qed.

End LastOneWins.

(** X13.  A request with lastOneWins that is started at once, under a key
    that has a record, aborts the transport of the call that the record
    names: the signal given to that transport has fired afterwards, with
    the reason "Replaced by newer request" if it fires on this occasion,
    and the record under the key is now that of the new call, with a new
    controller. *)
Theorem last_one_wins_aborts_previous (config : ClientConfig.t) (s : Client) (k : string)
    (prev : KeyRecord) (c : Call) (ctl : nat) (input : string) (opts : RequestOptions.t) :
  reachable config s ->
  inFlightByKey s !! k = Some prev ->
  calls s !! resultPromise prev = Some c -> ctlOf (cont c) = Some ctl ->
  keyOf opts = Some k -> RequestOptions.lastOneWins opts = true ->
  maxInFlight config = 0 \/ inFlight s < maxInFlight config ->
  let s' := step config s (CallRequest input opts) in
  isAborted (signals s') ctl = true /\
  (isAborted (signals s) ctl = false ->
   reasonOf (signals s') ctl = DOMException "Replaced by newer request" "AbortError") /\
  exists rec, inFlightByKey s' !! k = Some rec /\ resultPromise rec = length (calls s) /\
              controller rec <> ctl.
Proof.
  intros Hr Hprev Hc Hctl Hk Hl Hadm. pose proof (reachable_Wiring config s Hr) as HW.
  pose proof (w_records _ HW k prev c ctl Hprev Hc Hctl) as Hrec.
  destruct (cw_fetch _ _ (w_calls _ HW _ c Hc) ctl Hctl) as (Hlt & _).
  simpl. unfold request, newAbortController.
  set (sigs := signals s) in *. set (tc := length sigs). set (sigs1 := sigs ++ [freshSignal]).
  destruct (combineSignals_wiring sigs1 [RequestOptions.signal opts; Some tc])
    as (Hoc & HE2 & Hlen2 & _).
  destruct (combineSignals sigs1 [RequestOptions.signal opts; Some tc]) as [sigs2 oc] eqn:Hcomb.
  cbn [fst snd] in *.
  assert (Hlen1 : length sigs1 = S tc) by (unfold sigs1; rewrite length_app; simpl; lia).
  assert (HE : extends sigs sigs2) by (eapply extends_trans; [apply extends_snoc | exact HE2]).
  match goal with
  | |- context [enqueue _ _ ?c1 _] => set (c0 := c1)
  end.
  set (rid := length (calls s)).
  set (s0 := withSignals sigs2 (withCalls (calls s ++ [c0]) s)).
  assert (Hrun : enqueue config rid c0 s0 = runTask config false rid s0).
  { unfold enqueue. replace (inFlight s0) with (inFlight s) by reflexivity.
    destruct Hadm as [-> | Hadm]; [reflexivity |].
    apply Z.ltb_lt in Hadm. rewrite Hadm, orb_true_r. reflexivity. }
  rewrite Hrun.
  assert (Hc0 : calls s0 !! rid = Some c0).
  { unfold s0. simpl_state. unfold rid. rewrite lookup_app_r by lia.
    rewrite Nat.sub_diag. reflexivity. }
  destruct (runTask_lastOneWins config false rid s0 c0 k prev Hc0) as (HEr & rec & H1 & H2 & H3);
    [unfold s0, c0; simpl_state; simpl; lia | exact Hk | exact Hl | exact Hprev |].
  replace (signals s0) with sigs2 in HEr, H3 by reflexivity. rewrite Hrec in HEr.
  set (s' := runTask config false rid s0) in *.
  set (fired := abortSignal sigs2 ctl (DOMException "Replaced by newer request" "AbortError"))
    in *.
  destruct (abortSignal_fires sigs2 ctl (DOMException "Replaced by newer request" "AbortError"))
    as [HF HA]. fold fired in HF, HA.
  pose proof (ext_length _ _ HE) as HlenE.
  assert (Hltf : (ctl < length fired)%nat) by (rewrite (fires_length _ _ _ HF); lia).
  split; [| split].
  - rewrite (extends_isAborted _ _ _ HEr Hltf). apply HA. lia.
  - intros Hun. rewrite (extends_reasonOf _ _ _ HEr Hltf).
    rewrite <- (extends_isAborted _ _ _ HE Hlt) in Hun. unfold isAborted in Hun.
    destruct (sigs2 !! ctl) as [sg |] eqn:Hsg; [| apply lookup_ge_None in Hsg; lia].
    exact (abortSignal_root_reason sigs2 ctl
             (DOMException "Replaced by newer request" "AbortError") sg Hsg Hun).
  - exists rec. split; [exact H1 |]. split; [exact H2 |]. lia.
Qed.

Lemma last_one_wins_aborts_previous_witness :
  let s := run plainConfig init [CallRequest "/a" (keyed "k" true false)] in
  let s' := step plainConfig s (CallRequest "/b" (keyed "k" true false)) in
  contOf s 0 = Some (AwaitFetch 0 0 3) /\
  isAborted (signals s') 3 = true /\
  reasonOf (signals s') 3 = DOMException "Replaced by newer request" "AbortError" /\
  promiseOf (step plainConfig s' (FetchSettles 0 (Responds (response 200)) host)) 0
  = Some (Rejected (DOMException "Replaced by newer request" "AbortError")).
Proof.
  intros s s'. split; [vm_compute; reflexivity |].
  assert (Hr : reachable plainConfig s) by (apply (reachable_run plainConfig); constructor).
  destruct (inFlightByKey s !! "k") as [prev |] eqn:Hp; [| vm_compute in Hp; discriminate].
  assert (Hpv : Some prev = inFlightByKey s !! "k") by (symmetry; exact Hp).
  vm_compute in Hpv. injection Hpv as ->.
  destruct (calls s !! 0%nat) as [c |] eqn:Hc; [| vm_compute in Hc; discriminate].
  assert (Hcv : Some c = calls s !! 0%nat) by (symmetry; exact Hc).
  vm_compute in Hcv. injection Hcv as ->.
  match type of Hc with _ = Some ?c0 => set (c := c0) in * end.
  destruct (last_one_wins_aborts_previous plainConfig s "k" _ c 3 "/b" (keyed "k" true false)
              Hr Hp Hc eq_refl eq_refl eq_refl) as (H1 & H2 & _).
  - left. reflexivity.
  - split; [exact H1 |]. split; [apply H2; vm_compute; reflexivity |].
    vm_compute. reflexivity.
Defined.

(** ** The queue and the counter *)

(** X14.  Tasks wait only while the client is full: whenever the queue is
    not empty, the client has a capacity and the in-flight counter equals
    it, so no slot is free while a task waits. *)
Theorem tasks_wait_only_at_capacity (config : ClientConfig.t) (s : Client) :
  reachable config s -> queue s <> [] ->
  0 < maxInFlight config /\ inFlight s = maxInFlight config.
Proof.
  intros Hr Hq.
  destruct (waits_full _ _ _ (reachable_waits config s Hr) Hq) as [Hpos Hle].
  destruct (inv_capacity _ _ _ _ _ (Inv_reachable config s Hr)) as [H0 | Hcap]; lia.
Qed.

Lemma tasks_wait_only_at_capacity_witness :
  let s := run (capacityOne lifo) init
             [CallRequest "/a" noOptions; CallRequest "/b" noOptions;
              CallRequest "/c" noOptions] in
  queue s = [1%nat; 2%nat] /\ inFlight s = 1.
Proof.
  intros s.
  destruct (tasks_wait_only_at_capacity (capacityOne lifo) s) as [_ H].
  - apply (reachable_run (capacityOne lifo)). constructor.
  - vm_compute. discriminate.
  - split; [vm_compute; reflexivity | exact H].
Defined.

(** X15.  No call is lost: as long as the promise of a call is pending, the
    call either waits in the queue and its task has not run, or it is not
    in the queue and its task has run exactly once. *)
Theorem pending_call_waits_or_runs (config : ClientConfig.t) (s : Client)
    (r : nat) (c : Call) :
  reachable config s -> calls s !! r = Some c -> promise c = None ->
  (r ∈ queue s /\ cont c = NotStarted /\ count isRun r (trace s) = 0%nat) \/
  ((r ∉ queue s) /\ cont c <> NotStarted /\ cont c <> Finished /\
   count isRun r (trace s) = 1%nat).
Proof.
  intros Hr Hc Hp. pose proof (Inv_reachable config s Hr) as HI.
  pose proof (reachable_waits config s Hr) as HW.
  pose proof (inv_calls _ _ _ _ _ HI r c Hc) as [_ Hok]. unfold contOk in Hok.
  assert (Hnq : cont c <> NotStarted -> r ∉ queue s).
  { intros Hne Hin. destruct (inv_queue _ _ _ _ _ HI r Hin) as (c' & Hc' & Hk & _).
    congruence. }
  unfold count. destruct (cont c) eqn:Hk.
  - left. split; [apply (waits_queued _ _ _ HW r c Hc Hk Hp) |].
    split; [reflexivity |]. apply Hok.
  - right. split; [apply Hnq; discriminate |]. repeat split; try discriminate. apply Hok.
  - right. split; [apply Hnq; discriminate |]. repeat split; try discriminate. apply Hok.
  - right. split; [apply Hnq; discriminate |]. repeat split; try discriminate. apply Hok.
  - right. split; [apply Hnq; discriminate |]. repeat split; try discriminate. apply Hok.
  - destruct Hok as ([o Ho] & _). congruence.
Qed.

Lemma pending_call_waits_or_runs_witness :
  let s := run (capacityOne fifo) init
             [CallRequest "/a" noOptions; CallRequest "/b" noOptions;
              FetchSettles 0 (Responds (response 200)) host] in
  (1%nat ∉ queue s) /\ count isRun 1 (trace s) = 1%nat.
Proof.
  intros s.
  destruct (calls s !! 1%nat) as [c |] eqn:Hc; [| vm_compute in Hc; discriminate].
  assert (Hcv : Some c = calls s !! 1%nat) by (symmetry; exact Hc).
  vm_compute in Hcv. injection Hcv as ->.
  match type of Hc with _ = Some ?c0 => set (c := c0) in * end.
  destruct (pending_call_waits_or_runs (capacityOne fifo) s 1 c) as [(_ & H & _) | (H1 & _ & _ & H2)].
  - apply (reachable_run (capacityOne fifo)). constructor.
  - exact Hc.
  - reflexivity.
  - discriminate H.
  - split; assumption.
Defined.

(** X16.  A client without a capacity, the limit being absent, zero or
    negative, never queues and never drops: in every reachable state the
    queue is empty, and every call made so far has been started, its task
    having run exactly once, and has not been dropped. *)
Theorem unlimited_client_runs_every_call_at_once (config : ClientConfig.t) (s : Client) :
  reachable config s ->
  match ClientConfig.maxInFlight config with Some m => m <= 0 | None => True end ->
  queue s = [] /\
  forall r c, calls s !! r = Some c ->
    cont c <> NotStarted /\ count isRun r (trace s) = 1%nat /\
    count isDrop r (trace s) = 0%nat.
Proof.
  intros Hr Hm.
  assert (H0 : maxInFlight config = 0).
  { unfold maxInFlight. destruct (ClientConfig.maxInFlight config); simpl; lia. }
  pose proof (reachable_waits config s Hr) as HW.
  assert (Hq : queue s = []).
  { destruct (queue s) as [| t q] eqn:Hq0; [reflexivity |].
    destruct (waits_full _ _ _ HW) as [Hpos _]; [rewrite Hq0; discriminate | lia]. }
  split; [exact Hq |].
  intros r c Hc.
  destruct (reachable_endOk config s r c Hr Hc) as (Hok & _).
  assert (Hns : cont c <> NotStarted).
  { intros Hk. destruct (promise c) eqn:Hp.
    - destruct (waits_dropped _ _ _ HW r c Hc Hk) as [Hpos _]; [congruence | lia].
    - pose proof (waits_queued _ _ _ HW r c Hc Hk Hp) as Hin.
      rewrite Hq in Hin. inversion Hin. }
  split; [exact Hns |]. unfold count.
  destruct (cont c); [contradiction | | | | |];
    (split; [apply Hok | apply Hok]).
Qed.

Lemma unlimited_client_runs_every_call_at_once_witness :
  let config := {| ClientConfig.maxInFlight := Some (-3); ClientConfig.queueStrategy := Some drop;
                   ClientConfig.defaultTimeoutMs := None; ClientConfig.retry := None;
                   ClientConfig.parser := None |} in
  let s := run config init
             [CallRequest "/a" noOptions; CallRequest "/b" noOptions;
              CallRequest "/c" noOptions] in
  queue s = [] /\ count isRun 2 (trace s) = 1%nat /\ count isDrop 2 (trace s) = 0%nat.
Proof.
  intros config s.
  destruct (unlimited_client_runs_every_call_at_once config s) as [H1 H2].
  - apply (reachable_run config). constructor.
  - simpl. lia.
  - split; [exact H1 |].
    destruct (calls s !! 2%nat) as [c |] eqn:Hc; [| vm_compute in Hc; discriminate].
    exact (proj2 (H2 2%nat c Hc)).
Defined.




(** ** Fired signals stay fired *)

Lemma grows_refl (sigs : list AbortSignal) : grows sigs sigs.
Proof. intros a sg Ha Hf. eauto. Qed.

Lemma grows_trans (s1 s2 s3 : list AbortSignal) : grows s1 s2 -> grows s2 s3 -> grows s1 s3.
Proof.
  intros H12 H23 a sg Ha Hf. destruct (H12 a sg Ha Hf) as (sg2 & Ha2 & Hf2 & Hr2).
  destruct (H23 a sg2 Ha2 Hf2) as (sg3 & Ha3 & Hf3 & Hr3). exists sg3.
  split; [exact Ha3 |]. split; [exact Hf3 | congruence].
Qed.

Lemma fires_grows (R : nat -> JsError -> Prop) (sigs sigs' : list AbortSignal) :
  fires R sigs sigs' -> grows sigs sigs'.
Proof. intros HF a sg Ha Hf. exists sg. rewrite (fires_fired _ _ _ HF a sg Ha Hf). auto. Qed.

Lemma extends_grows (sigs sigs' : list AbortSignal) : extends sigs sigs' -> grows sigs sigs'.
Proof.
  intros HE a sg Ha Hf. destruct (ext_old _ _ HE a sg Ha) as (sg' & Ha' & Hf' & Hr' & _).
  exists sg'. split; [exact Ha' |]. split; [congruence | exact Hr'].
Qed.

Lemma addEventListener_grows (sigs : list AbortSignal) (x : nat) (l : Listener) :
  grows sigs (addEventListener sigs x l).
Proof.
  intros a sg Ha Hf. destruct (lookup_addEventListener sigs x a l sg Ha) as (sg' & H1 & H2 & H3 & _).
  exists sg'. split; [exact H1 |]. split; [congruence | exact H3].
Qed.

Lemma grows_fired (sigs sigs' : list AbortSignal) (a : nat) :
  grows sigs sigs' -> isAborted sigs a = true ->
  isAborted sigs' a = true /\ reasonOf sigs' a = reasonOf sigs a.
Proof.
  intros HG. unfold isAborted, reasonOf. destruct (sigs !! a) as [sg |] eqn:Ha; [| discriminate].
  intros Hf. destruct (HG a sg Ha Hf) as (sg' & -> & Hf' & Hr'). auto.
Qed.

Section Stable.

Variable config : ClientConfig.t.

Lemma effectiveController_grows (c : Call) (s : Client) :
  grows (signals s) (signals (effectiveController c s).1).
Proof.
  unfold effectiveController. destruct (keyOf (options c)) as [k |]; [| apply grows_refl].
  unfold newAbortController.
  set (sigs2 := addEventListener _ _ _).
  destruct (combineSignals_wiring sigs2 [Some (outerController c); Some (length (signals s))])
    as (_ & HE3 & _).
  destruct (combineSignals sigs2 _) as [sigs3 ec]. cbn [fst snd] in *. simpl_state.
  eapply grows_trans; [apply extends_grows, extends_snoc |].
  eapply grows_trans; [apply addEventListener_grows |]. apply extends_grows, HE3.
Qed.

Lemma supersede_grows (c : Call) (s : Client) : grows (signals s) (signals (supersede c s)).
Proof.
  unfold supersede. destruct (keyOf (options c)) as [k |]; [| apply grows_refl].
  destruct (RequestOptions.lastOneWins (options c)); [| apply grows_refl].
  destruct (inFlightByKey s !! k) as [prev |]; [| apply grows_refl].
  simpl_state. eapply fires_grows, abortSignal_fires_some.
Qed.

Lemma runTask_grows (b : bool) (rid : nat) (s : Client) :
  grows (signals s) (signals (runTask config b rid s)).
Proof.
  unfold runTask. destruct (calls s !! rid) as [c |]; [| apply grows_refl].
  set (sa := emit rid (taskRun b) (withInFlight (inFlight s + 1) s)).
  pose proof (supersede_grows c sa) as Hb. change (signals sa) with (signals s) in Hb.
  set (sb := supersede c sa) in *.
  destruct (dedupeLeader c sb) as [leader |]; [simpl_state; exact Hb |].
  pose proof (effectiveController_grows c sb) as Hc.
  destruct (effectiveController c sb) as [sc ec]. cbn [fst snd] in Hc.
  assert (Hsd : signals (loopHead config rid c ec 0 JsUndefined sc) = signals sc).
  { unfold loopHead, doFetchStart.
    destruct (Z.of_nat 0 <? loopBound (policyOf config (options c))); reflexivity. }
  destruct (keyOf (options c)); simpl_state; rewrite Hsd; eapply grows_trans; eauto.
Qed.

Lemma dequeue_grows (s : Client) : grows (signals s) (signals (dequeue config s)).
Proof.
  destruct (dequeue_cases config s) as [-> | (task & rest & _ & _ & ->)]; [apply grows_refl |].
  apply (runTask_grows true task (withQueue rest s)).
Qed.

Lemma followers_grows (o : Outcome) (fs : list nat) (s : Client) :
  grows (signals s) (signals (foldl (followerSettle config o) s fs)).
Proof.
  revert s. induction fs as [| f fs IH]; intros s; simpl; [apply grows_refl |].
  eapply grows_trans; [| apply IH]. unfold followerSettle.
  apply (dequeue_grows (followerBody o s f)).
Qed.

Lemma settle_grows (rid : nat) (c : Call) (o : Outcome) (s : Client) :
  grows (signals s) (signals (settle config rid c o s)).
Proof.
  unfold settle. eapply grows_trans; [| apply followers_grows].
  set (s2 := finallyBody rid c (detach rid (settleOuter rid c o s))).
  assert (H2 : signals s2 = signals s).
  { unfold s2, finallyBody, detach, settleOuter. destruct (keyOf (options c)), o; reflexivity. }
  rewrite <- H2. apply dequeue_grows.
Qed.

Lemma step_grows (s : Client) (e : Input) : grows (signals s) (signals (step config s e)).
Proof.
  destruct e as [input o | rid r math | rid | rid | rid | rid | | ctl r | ms]; simpl.
  - unfold request, newAbortController.
    destruct (combineSignals_wiring (signals s ++ [freshSignal])
                [RequestOptions.signal o; Some (length (signals s))]) as (_ & HE2 & _).
    destruct (combineSignals (signals s ++ [freshSignal]) _) as [sigs2 oc]. cbn [fst snd] in *.
    match goal with
    | |- grows _ (signals (enqueue _ ?r ?c0 ?s0)) =>
        assert (H0 : grows (signals s) (signals s0))
          by (simpl_state; eapply grows_trans;
              [apply extends_grows, extends_snoc | apply extends_grows, HE2]);
        eapply grows_trans; [exact H0 |]; unfold enqueue;
        destruct ((maxInFlight config =? 0) || (inFlight s0 <? maxInFlight config));
          [apply runTask_grows |];
        destruct (decide (strategy config = drop)); apply grows_refl
    end.
  - unfold fetchSettled. destruct (calls s !! rid) as [c |]; [| apply grows_refl].
    destruct (cont c) as [| i start ctl | | | |]; try apply grows_refl.
    set (actual := fetchOutcome s ctl r).
    assert (H1 : signals (doFetchFinish rid c start actual s) = signals s)
      by (unfold doFetchFinish; destruct actual; reflexivity).
    destruct (iteration _ i _ math); simpl_state; rewrite <- ?H1;
      [apply settle_grows | apply settle_grows | apply grows_refl].
  - unfold sleepDone. destruct (calls s !! rid) as [c |]; [| apply grows_refl].
    destruct (cont c) as [| | i ctl errLast | | |]; try apply grows_refl.
    unfold loopHead, doFetchStart.
    destruct (Z.of_nat (S i) <? loopBound (policyOf config (options c))); apply grows_refl.
  - unfold microtask. destruct (calls s !! rid) as [c |]; [| apply grows_refl].
    destruct (cont c); try apply grows_refl. apply settle_grows.
  - unfold timeoutFires. destruct (calls s !! rid) as [c |]; [| apply grows_refl].
    destruct (timer c); [| apply grows_refl]. simpl_state.
    eapply fires_grows, abortSignal_fires_some.
  - unfold cancel. destruct (calls s !! rid) as [c |]; [| apply grows_refl]. simpl_state.
    eapply fires_grows, abortSignal_fires_some.
  - apply extends_grows, extends_snoc.
  - eapply fires_grows, abortSignal_fires_some.
  - apply grows_refl.
Qed.

Lemma run_grows (es : list Input) (s : Client) :
  grows (signals s) (signals (run config s es)).
Proof.
  revert s. induction es as [| e es IH]; intros s; simpl; [apply grows_refl |].
  eapply grows_trans; [apply step_grows | apply IH].
Qed.

End Stable.

(** X18.  Cancellation end to end.  Let a call wait for its transport with
    a signal that has not fired, and let it be aborted by [cancel()], by
    its timeout or through the caller's signal.  Whatever the client is
    asked to do afterwards, as long as the call still waits for that
    transport, and whatever the transport then delivers, the promise of
    the call rejects with the error of an abort without argument, an
    AbortError, and no further transport call is made for it. *)
Theorem aborted_call_rejects_with_abort_error (config : ClientConfig.t) (s : Client)
    (rid : nat) (c : Call) (i : nat) (start : Z) (ctl : nat) (e : Input) (es : list Input)
    (r : FetchResult) (math : Math) :
  reachable config s ->
  calls s !! rid = Some c -> cont c = AwaitFetch i start ctl ->
  isAborted (signals s) ctl = false ->
  abortsCall rid c e ->
  let s1 := run config (step config s e) es in
  contOf s1 rid = Some (AwaitFetch i start ctl) ->
  let s2 := step config s1 (FetchSettles rid r math) in
  promiseOf s2 rid
  = Some (Rejected (DOMException "signal is aborted without reason" "AbortError")) /\
  isAbort (DOMException "signal is aborted without reason" "AbortError") = true /\
  count isFetch rid (trace s2) = count isFetch rid (trace s1).
Proof.
  intros Hr Hc Hk Hun He s1 Hk1 s2.
  assert (Hctl : ctlOf (cont c) = Some ctl) by (rewrite Hk; reflexivity).
  pose proof (abortsCall_reaches config s rid c ctl e Hr Hc Hctl Hun He) as H0.
  destruct H0 as [Hab0 Hre0].
  destruct (grows_fired _ _ ctl (run_grows config es (step config s e)) Hab0) as [Hab1 Hre1].
  fold s1 in Hab1, Hre1. rewrite Hre0 in Hre1.
  assert (Hr1 : reachable config s1).
  { apply (reachable_run config). constructor. exact Hr. }
  unfold contOf in Hk1. destruct (calls s1 !! rid) as [c1 |] eqn:Hc1; [| discriminate].
  injection Hk1 as Hk1.
  assert (Hout : fetchOutcome s1 ctl r = FetchThrows defaultAbortReason)
    by (unfold fetchOutcome; rewrite Hab1, Hre1; reflexivity).
  destruct (fetchSettled_ends config s1 rid c1 i start ctl r math (Rejected defaultAbortReason)
              Hr1 Hc1 Hk1) as (H1 & _ & H3).
  { rewrite Hout. reflexivity. }
  split; [exact H1 |]. split; [reflexivity |].
  unfold s2, count. simpl. rewrite H3, Hout. simpl.
  rewrite !cnt_app, !cnt_cons, !cnt_nil. simpl. lia.
Qed.

Lemma aborted_call_rejects_with_abort_error_witness :
  let s := run plainConfig init [CallRequest "/search?q=a" (keyed "k" true false)] in
  let s1 := run plainConfig (step plainConfig s (CancelCalled 0))
              [CallRequest "/search?q=ab" (keyed "k" true false)] in
  let s2 := step plainConfig s1 (FetchSettles 0 (Responds (response 200)) host) in
  promiseOf s2 0
  = Some (Rejected (DOMException "signal is aborted without reason" "AbortError")) /\
  promiseOf s2 1 = None.
Proof.
  intros s s1 s2.
  assert (Hr : reachable plainConfig s) by (apply (reachable_run plainConfig); constructor).
  destruct (calls s !! 0%nat) as [c |] eqn:Hc; [| vm_compute in Hc; discriminate].
  assert (Hcv : Some c = calls s !! 0%nat) by (symmetry; exact Hc).
  vm_compute in Hcv. injection Hcv as ->.
  match type of Hc with _ = Some ?c0 => set (c := c0) in * end.
  destruct (aborted_call_rejects_with_abort_error plainConfig s 0 c 0 0 3 (CancelCalled 0)
              [CallRequest "/search?q=ab" (keyed "k" true false)]
              (Responds (response 200)) host Hr Hc eq_refl) as (H1 & _).
  - vm_compute. reflexivity.
  - left. reflexivity.
  - vm_compute. reflexivity.
  - split; [exact H1 | vm_compute; reflexivity].
Defined.

(** ** An abort during a backoff sleep *)

(** X19.  An abort does not cut a backoff sleep short.  When a call that
    sleeps between two attempts is aborted by [cancel()], by its timeout
    or through the caller's signal, its promise stays pending and the
    call goes on sleeping; when the sleep is over it starts one more
    attempt, start hook and transport call included, with the signal that
    has fired; and only the settlement of that transport call rejects the
    promise, with the error of an abort without argument. *)
Theorem abort_during_backoff_costs_one_more_attempt (config : ClientConfig.t) (s : Client)
    (rid : nat) (c : Call) (i ctl : nat) (errLast : JsError) (e : Input)
    (r : FetchResult) (math : Math) :
  reachable config s ->
  calls s !! rid = Some c -> cont c = AwaitSleep i ctl errLast ->
  isAborted (signals s) ctl = false ->
  abortsCall rid c e ->
  let s1 := step config s e in
  let s2 := step config s1 (SleepDone rid) in
  let s3 := step config s2 (FetchSettles rid r math) in
  (contOf s1 rid = Some (AwaitSleep i ctl errLast) /\ promiseOf s1 rid = None) /\
  (contOf s2 rid = Some (AwaitFetch (S i) (now s) ctl) /\ promiseOf s2 rid = None /\
   eventsOf rid (trace s2)
   = eventsOf rid (trace s) ++ [onStart (RequestOptions.key (options c)) (url c);
                                 fetchCalled ctl]) /\
  (promiseOf s3 rid
   = Some (Rejected (DOMException "signal is aborted without reason" "AbortError")) /\
   count isFetch rid (trace s3) = S (count isFetch rid (trace s))).
Proof.
  intros Hr Hc Hk Hun He s1 s2 s3.
  assert (Hctl : ctlOf (cont c) = Some ctl) by (rewrite Hk; reflexivity).
  destruct (abortsCall_reaches config s rid c ctl e Hr Hc Hctl Hun He) as [Hab Hre].
  destruct (abortsCall_frame config s rid c e Hc He)
    as (c1 & Hc1 & Hk1 & Ho1 & Hu1 & Hp1 & Ht1 & Hn1 & _).
  fold s1 in Hab, Hre, Hc1, Ht1, Hn1.
  pose proof (inv_calls _ _ _ _ _ (Inv_reachable config s Hr) rid c Hc) as [_ Hok].
  unfold contOk in Hok. rewrite Hk in Hok. destruct Hok as (Hpn & _).
  pose proof (lifeOf_attemptsOk config c _ (reachable_lives config s Hr rid c Hc)) as [_ Hat].
  rewrite Hk in Hat. destruct Hat as (_ & _ & Hbound).
  assert (Hs2 : s2 = updCall rid (setCont (AwaitFetch (S i) (now s1) ctl))
                       (emit rid (fetchCalled ctl)
                          (emit rid (onStart (RequestOptions.key (options c)) (url c)) s1))).
  { unfold s2. simpl. unfold sleepDone. rewrite Hc1, Hk1, Hk. unfold loopHead, doFetchStart.
    rewrite Ho1, Hu1. apply Z.ltb_lt in Hbound. rewrite Hbound. reflexivity. }
  assert (Hc2 : calls s2 !! rid = Some (setCont (AwaitFetch (S i) (now s) ctl) c1)).
  { rewrite Hs2. simpl_state. rewrite list_lookup_alter_eq, Hc1, Hn1. reflexivity. }
  assert (Ht2 : eventsOf rid (trace s2)
                = eventsOf rid (trace s) ++ [onStart (RequestOptions.key (options c)) (url c);
                                              fetchCalled ctl]).
  { rewrite Hs2. simpl_state. rewrite Ht1, <- app_assoc, eventsOf_app.
    simpl. rewrite !eventsOf_cons_same, eventsOf_nil. reflexivity. }
  assert (Hsig2 : signals s2 = signals s1) by (rewrite Hs2; reflexivity).
  assert (Hr2 : reachable config s2) by (do 2 constructor; exact Hr).
  split; [| split].
  - unfold contOf, promiseOf. rewrite Hc1. simpl. rewrite Hk1, Hk, Hp1, Hpn. auto.
  - unfold contOf, promiseOf. rewrite Hc2. simpl. rewrite Hp1, Hpn. auto.
  - assert (Hout : fetchOutcome s2 ctl r = FetchThrows defaultAbortReason)
      by (unfold fetchOutcome; rewrite Hsig2, Hab, Hre; reflexivity).
    destruct (fetchSettled_ends config s2 rid _ (S i) (now s) ctl r math
                (Rejected defaultAbortReason) Hr2 Hc2 eq_refl) as (H1 & _ & H3).
    { rewrite Hout. reflexivity. }
    split; [exact H1 |]. unfold s3, count. simpl. rewrite H3, Hout, Ht2. simpl.
    rewrite !cnt_app, !cnt_cons, !cnt_nil. simpl. lia.
Qed.

Lemma abort_during_backoff_costs_one_more_attempt_witness :
  let s := run plainConfig init
             [CallRequest "/a" (retrying policy150);
              FetchSettles 0 (Responds (response 503)) host] in
  let s1 := step plainConfig s (CancelCalled 0) in
  let s2 := step plainConfig s1 (SleepDone 0) in
  let s3 := step plainConfig s2 (FetchSettles 0 (Responds (response 200)) host) in
  promiseOf s1 0 = None /\ count isFetch 0 (trace s) = 1%nat /\
  promiseOf s3 0
  = Some (Rejected (DOMException "signal is aborted without reason" "AbortError")) /\
  count isFetch 0 (trace s3) = 2%nat.
Proof.
  intros s s1 s2 s3.
  assert (Hr : reachable plainConfig s) by (apply (reachable_run plainConfig); constructor).
  destruct (calls s !! 0%nat) as [c |] eqn:Hc; [| vm_compute in Hc; discriminate].
  assert (Hcv : Some c = calls s !! 0%nat) by (symmetry; exact Hc).
  vm_compute in Hcv. injection Hcv as ->.
  match type of Hc with _ = Some ?c0 => set (c := c0) in * end.
  destruct (abort_during_backoff_costs_one_more_attempt plainConfig s 0 c 0 1
              (HttpError (response 503)) (CancelCalled 0) (Responds (response 200)) host
              Hr Hc eq_refl) as ((_ & H1) & _ & H3 & H4).
  - vm_compute. reflexivity.
  - left. reflexivity.
  - split; [exact H1 |]. split; [vm_compute; reflexivity |]. split; [exact H3 |].
    fold s1 s2 s3 in H4. rewrite H4. vm_compute. reflexivity.
Defined.

(** ** Releases of the counter *)

Lemma taken_length (lp : bool) (m : nat) (q : list nat) :
  length (taken lp m q) = Nat.min m (length q).
Proof. unfold taken. rewrite length_take. destruct lp; rewrite ?length_reverse; reflexivity. Qed.

Lemma taken_0 (lp : bool) (q : list nat) : taken lp 0 q = [] /\ waiting lp 0 q = q.
Proof.
  unfold taken, waiting. split; [reflexivity |]. destruct lp; [| reflexivity].
  rewrite Nat.sub_0_r. apply firstn_all.
Qed.

Lemma taken_S (lp : bool) (m : nat) (q : list nat) :
  taken lp (S m) q = taken lp 1 q ++ taken lp m (waiting lp 1 q) /\
  waiting lp (S m) q = waiting lp m (waiting lp 1 q).
Proof.
  unfold taken, waiting. destruct lp.
  - split.
    + rewrite <- (drop_reverse q 1). change (S m) with (1 + m)%nat.
      rewrite take_take_drop. reflexivity.
    + rewrite length_take, take_take. f_equal. lia.
  - split.
    + change (S m) with (1 + m)%nat. rewrite take_take_drop. reflexivity.
    + rewrite drop_drop. reflexivity.
Qed.

Lemma dequeuedOrder_quiet (tr evs : list (nat * Event)) :
  Forall (fun re => isRunFromQueue re = false /\ isEnqueue re = false) evs ->
  dequeuedOrder (tr ++ evs) = dequeuedOrder tr.
Proof.
  induction evs as [| [r e] evs IH] using rev_ind; intros H.
  - rewrite app_nil_r. reflexivity.
  - apply Forall_app in H as [H1 H2]. apply Forall_singleton in H2 as [H2 _].
    rewrite app_assoc, dequeuedOrder_snoc, H2, app_nil_r. apply IH, H1.
Qed.

Section Releases.

Variable config : ClientConfig.t.

(** A call of dequeue that finds room takes one task. *)
Lemma dequeue_takes (L : nat) (o : Outcome) (fs : list nat) (s : Client) :
  Inv config L o fs s ->
  maxInFlight config = 0 \/ inFlight s < maxInFlight config ->
  queue (dequeue config s) = waiting (lifoPop config) 1 (queue s) /\
  dequeuedOrder (trace (dequeue config s))
  = dequeuedOrder (trace s) ++ taken (lifoPop config) 1 (queue s).
Proof.
  intros HI Hroom. unfold dequeue.
  assert (Hgo : negb (maxInFlight config =? 0) && (maxInFlight config <=? inFlight s) = false).
  { destruct Hroom as [H | H].
    - rewrite H. reflexivity.
    - apply andb_false_iff. right. apply Z.leb_gt. exact H. }
  rewrite Hgo.
  assert (Hrun : forall task rest,
            task ∈ queue s ->
            queue (runTask config true task (withQueue rest s)) = rest /\
            dequeuedOrder (trace (runTask config true task (withQueue rest s)))
            = dequeuedOrder (trace s) ++ [task]).
  { intros task rest Hin.
    destruct (inv_queue _ _ _ _ _ HI task Hin) as (c & Hc & _).
    destruct (qm_runTask config true task (withQueue rest s) c Hc) as (evs & Habs & Hevs).
    unfold abstract in Habs. injection Habs as Hq _ Htr. simpl_state.
    split; [exact Hq |]. rewrite Htr.
    replace (trace s ++ (task, taskRun true) :: evs)
      with ((trace s ++ [(task, taskRun true)]) ++ evs) by (rewrite <- app_assoc; reflexivity).
    rewrite dequeuedOrder_quiet by exact Hevs. apply dequeuedOrder_snoc. }
  unfold lifoPop, taken, waiting.
  destruct (decide (strategy config = lifo)) as [Hl | Hl].
  - rewrite bool_decide_eq_true_2 by exact Hl.
    destruct (pop (queue s)) as [[task rest] |] eqn:Hp.
    + apply pop_Some in Hp. destruct (Hrun task rest) as [H1 H2].
      { rewrite Hp. apply elem_of_app. right. left. }
      rewrite H1, H2, Hp, reverse_snoc, length_app. simpl.
      split; [| reflexivity].
      rewrite take_app_length'; [reflexivity | lia].
    + apply pop_None in Hp. rewrite Hp. simpl. rewrite app_nil_r. split; reflexivity.
  - rewrite bool_decide_eq_false_2 by exact Hl.
    destruct (shift (queue s)) as [[task rest] |] eqn:Hp.
    + apply shift_Some in Hp. destruct (Hrun task rest) as [H1 H2].
      { rewrite Hp. left. }
      rewrite H1, H2, Hp. split; reflexivity.
    + assert (Hnil : queue s = []) by (destruct (queue s); [reflexivity | discriminate]).
      rewrite Hnil. simpl. rewrite app_nil_r. split; reflexivity.
Qed.

(** The release of each follower takes one more. *)
Lemma followers_take (L : nat) (o : Outcome) (fs : list nat) (s : Client) :
  Inv config L o fs s ->
  let s' := foldl (followerSettle config o) s fs in
  queue s' = waiting (lifoPop config) (length fs) (queue s) /\
  dequeuedOrder (trace s')
  = dequeuedOrder (trace s) ++ taken (lifoPop config) (length fs) (queue s).
Proof.
  revert s. induction fs as [| f fs IH]; intros s HI; simpl.
  - destruct (taken_0 (lifoPop config) (queue s)) as [-> ->]. rewrite app_nil_r.
    split; reflexivity.
  - pose proof (Inv_followerBody config L o f fs s HI) as HI1.
    assert (Hroom : maxInFlight config = 0 \/ inFlight (followerBody o s f) < maxInFlight config).
    { destruct (inv_capacity _ _ _ _ _ HI) as [H | H]; [left; exact H | right].
      unfold followerBody. simpl_state. lia. }
    destruct (dequeue_takes L o fs _ HI1 Hroom) as [Hq Ht].
    assert (Hq0 : queue (followerBody o s f) = queue s) by reflexivity.
    assert (Ht0 : dequeuedOrder (trace (followerBody o s f)) = dequeuedOrder (trace s)).
    { unfold followerBody. simpl_state. rewrite <- app_assoc.
      apply dequeuedOrder_quiet. repeat constructor. }
    rewrite Hq0 in Hq, Ht. rewrite Ht0 in Ht.
    destruct (IH _ (Inv_dequeue config L o fs _ HI1)) as [Hq' Ht'].
    unfold followerSettle at 2 4. 
    destruct (taken_S (lifoPop config) (length fs) (queue s)) as [-> ->].
    split.
    + etransitivity; [exact Hq' |]. rewrite Hq. reflexivity.
    + etransitivity; [exact Ht' |]. rewrite Ht, Hq, <- app_assoc. reflexivity.
Qed.

(** The settlement of a call that ran its own attempts releases once for
    the call and once for each follower served by it. *)
Lemma settle_takes (L0 : nat) (o0 o : Outcome) (rid : nat) (c c' : Call) (s : Client) :
  Inv config L0 o0 [] s ->
  calls s !! rid = Some c' -> options c = options c' -> activeCont (cont c') = true ->
  let m := S (length (followersOf rid s)) in
  queue (settle config rid c o s) = waiting (lifoPop config) m (queue s) /\
  dequeuedOrder (trace (settle config rid c o s))
  = dequeuedOrder (trace s) ++ taken (lifoPop config) m (queue s).
Proof.
  intros HI Hc Hopt Hact m.
  pose proof (Inv_leaderSettles config L0 o0 o rid c c' s HI Hc Hopt Hact) as HI2.
  destruct (leader_counter rid c o s) as [HiF Hq2].
  set (s2 := finallyBody rid c (detach rid (settleOuter rid c o s))) in *.
  assert (Ht2 : dequeuedOrder (trace s2) = dequeuedOrder (trace s)).
  { unfold s2, finallyBody, detach, settleOuter.
    destruct o as [v | e], (keyOf (options c)); simpl_state; rewrite <- ?app_assoc;
      apply dequeuedOrder_quiet; repeat constructor. }
  assert (Hroom : maxInFlight config = 0 \/ inFlight s2 < maxInFlight config).
  { destruct (inv_capacity _ _ _ _ _ HI) as [H | H]; [left; exact H | right]. lia. }
  destruct (dequeue_takes rid o _ s2 HI2 Hroom) as [Hq Ht].
  destruct (followers_take rid o _ _ (Inv_dequeue config rid o _ _ HI2)) as [Hq' Ht'].
  unfold settle. fold s2. unfold m.
  destruct (taken_S (lifoPop config) (length (followersOf rid s)) (queue s)) as [-> ->].
  rewrite Hq2 in Hq, Ht. rewrite Ht2 in Ht. split.
  - etransitivity; [exact Hq' |]. rewrite Hq. reflexivity.
  - etransitivity; [exact Ht' |]. rewrite Ht, Hq, <- app_assoc. reflexivity.
Qed.

(** The step in which a call that ran its own attempts settles. *)
Lemma settlement_releases (s : Client) (rid : nat) (e : Input) :
  reachable config s ->
  (exists r math, e = FetchSettles rid r math) \/ e = Microtask rid ->
  promiseOf s rid = None -> is_Some (promiseOf (step config s e) rid) ->
  let m := S (length (followersOf rid s)) in
  queue (step config s e) = waiting (lifoPop config) m (queue s) /\
  dequeuedOrder (trace (step config s e))
  = dequeuedOrder (trace s) ++ taken (lifoPop config) m (queue s).
Proof.
  intros Hr He Hnone Hsome m. pose proof (Inv_reachable config s Hr) as HI.
  unfold promiseOf in Hnone.
  destruct He as [(r & math & ->) | ->]; simpl in *.
  - unfold fetchSettled in *.
    destruct (calls s !! rid) as [c |] eqn:Hc;
      [| unfold promiseOf in Hsome; rewrite Hc in Hsome; destruct Hsome; discriminate].
    simpl in Hnone.
    destruct (cont c) as [| i start ctl | | | |] eqn:Hk;
      try (unfold promiseOf in Hsome; rewrite Hc in Hsome; simpl in Hsome;
           rewrite Hnone in Hsome; destruct Hsome; discriminate).
    set (actual := fetchOutcome s ctl r) in *.
    set (s1 := doFetchFinish rid c start actual s) in *.
    assert (Hs1 : calls s1 = calls s /\ queue s1 = queue s /\ reactions s1 = reactions s /\
                  dequeuedOrder (trace s1) = dequeuedOrder (trace s)).
    { unfold s1, doFetchFinish. destruct actual; repeat split; try reflexivity.
      simpl_state. apply dequeuedOrder_quiet. repeat constructor. }
    destruct Hs1 as (Hs1c & Hs1q & Hs1r & Hs1t).
    assert (Hsettle : forall o',
              queue (settle config rid c o' s1) = waiting (lifoPop config) m (queue s) /\
              dequeuedOrder (trace (settle config rid c o' s1))
              = dequeuedOrder (trace s) ++ taken (lifoPop config) m (queue s)).
    { intros o'.
      pose proof (Inv_afterFetch config 0 (Rejected JsUndefined) rid c i start ctl actual o' s
                    HI Hc Hk) as HI1.
      fold s1 in HI1.
      assert (Hc1 : calls (updCall rid (setCont (AwaitMicrotask o')) s1) !! rid
                    = Some (setCont (AwaitMicrotask o') c)).
      { simpl_state. rewrite list_lookup_alter_eq, Hs1c, Hc. reflexivity. }
      destruct (settle_takes _ _ o' rid c _ _ HI1 Hc1 eq_refl eq_refl) as [Hq Ht].
      rewrite settle_setCont in Hq, Ht.
      change (followersOf rid (updCall rid (setCont (AwaitMicrotask o')) s1))
        with (followersOf rid s1) in Hq, Ht.
      change (queue (updCall rid (setCont (AwaitMicrotask o')) s1)) with (queue s1) in Hq, Ht.
      change (trace (updCall rid (setCont (AwaitMicrotask o')) s1)) with (trace s1) in Ht.
      unfold followersOf in Hq, Ht. rewrite Hs1r, Hs1q in Hq, Ht. rewrite Hs1t in Ht.
      split; assumption. }
    destruct (iteration (policyOf config (options c)) i (doFetchResult config c actual) math)
      as [v | err | ms].
    + apply Hsettle.
    + apply Hsettle.
    + exfalso. destruct Hsome as [x Hx]. revert Hx. unfold promiseOf. simpl_state.
      rewrite list_lookup_alter_eq, Hs1c, Hc. simpl. rewrite Hnone. discriminate.
  - unfold microtask in *.
    destruct (calls s !! rid) as [c |] eqn:Hc;
      [| unfold promiseOf in Hsome; rewrite Hc in Hsome; destruct Hsome; discriminate].
    simpl in Hnone.
    destruct (cont c) as [| | | o' | |] eqn:Hk;
      try (unfold promiseOf in Hsome; rewrite Hc in Hsome; simpl in Hsome;
           rewrite Hnone in Hsome; destruct Hsome; discriminate).
    assert (Hact : activeCont (cont c) = true) by (rewrite Hk; reflexivity).
    exact (settle_takes _ _ o' rid c c s HI Hc eq_refl Hact).
Qed.

End Releases.



Lemma qmove_trace (lp : bool) (x y : list nat * nat * list (nat * Event)) :
  qmove lp x y -> exists evs, y.2 = x.2 ++ evs.
Proof.
  induction 1 as [x | q n tr r e y _ _ _ [evs IH] | q n tr y _ [evs IH]
                 | q n tr r k y _ _ [evs IH] | task rest n tr y _ _ [evs IH]
                 | task rest n tr y _ _ [evs IH]]; simpl in *.
  - exists []. rewrite app_nil_r. reflexivity.
  - eexists. rewrite IH, <- app_assoc. reflexivity.
  - exists evs. exact IH.
  - eexists. rewrite IH, <- app_assoc. reflexivity.
  - eexists. rewrite IH, <- app_assoc. reflexivity.
  - eexists. rewrite IH, <- app_assoc. reflexivity.
Qed.

(** What the trace says of a call served by dedupe. *)
Lemma follower_accounts (config : ClientConfig.t) (s : Client) (B A : nat) :
  reachable config s -> (B, served A) ∈ trace s ->
  count isRun B (trace s) = 1%nat /\
  (promiseOf s A = None ->
     (B, A) ∈ reactions s /\ count isReleased B (trace s) = 0%nat /\
     count isDequeueCalled B (trace s) = 0%nat) /\
  (is_Some (promiseOf s A) ->
     ((B, A) ∉ reactions s) /\ count isReleased B (trace s) = 1%nat /\
     count isDequeueCalled B (trace s) = 1%nat).
Proof.
  intros Hr HA. pose proof (Inv_reachable config s Hr) as HI.
  destruct (reachable_call config s B A Hr HA) as (c & Hc & [_ Hok] & Hpos & Hin).
  assert (Hpending : forall l, (B, l) ∈ reactions s -> promiseOf s l = None).
  { intros l Hre. destruct (inv_reactions _ _ _ _ _ HI B l Hre) as [_ (cl & Hcl & Hal)].
    destruct (callOk_active _ _ _ _ _ (inv_calls _ _ _ _ _ HI l cl Hcl) Hal) as (Hn & _).
    unfold promiseOf. rewrite Hcl. exact Hn. }
  assert (Hfoll : forall l, (B, l) ∈ reactions s -> cont c = AwaitLeader l).
  { intros l Hre. destruct (inv_reactions _ _ _ _ _ HI B l Hre) as [(cb & Hcb & Hkb) _].
    congruence. }
  unfold count, contOk in *.
  split; [| split].
  - destruct (cont c); try (destruct Hok as (_ & H & _); exact H).
    destruct Hok as (_ & _ & _ & H & _). lia.
  - intros Hnone. destruct (cont c) as [| | | | l |] eqn:Hk.
    + destruct Hok as (_ & _ & _ & H & _). lia.
    + destruct Hok as (_ & _ & H & _). lia.
    + destruct Hok as (_ & _ & H & _). lia.
    + destruct Hok as (_ & _ & H & _). lia.
    + destruct Hok as (_ & _ & _ & _ & Hrel & Hdq & Hsv & Hre).
      rewrite (Hsv A Hin) in *. destruct Hre as [Hre | [Hre _]]; [auto | inversion Hre].
    + destruct Hok as (_ & _ & _ & _ & _ & Hsv).
      destruct (Hsv A Hin) as (o' & Ho1 & _). congruence.
  - intros [o Ho]. destruct (cont c) as [| | | | l |] eqn:Hk.
    + destruct Hok as (_ & _ & _ & H & _). lia.
    + destruct Hok as (_ & _ & H & _). lia.
    + destruct Hok as (_ & _ & H & _). lia.
    + destruct Hok as (_ & _ & H & _). lia.
    + destruct Hok as (_ & _ & _ & _ & _ & _ & Hsv & Hre).
      rewrite (Hsv A Hin) in *. destruct Hre as [Hre | [Hre _]]; [| inversion Hre].
      rewrite (Hpending l Hre) in Ho. discriminate.
    + destruct Hok as (_ & _ & Hrel & Hdq & _). split; [| auto].
      intros Hre. specialize (Hfoll A Hre). discriminate.
Qed.

(** C10.  A call served by dedupe was run once, which incremented the
    counter; as long as the promise of its leader [A] is pending its
    reactions stay registered, each registered follower being one unit of
    the counter, and neither its decrement nor its dequeue has happened;
    once the leader's promise has settled, its decrement and its dequeue
    have happened exactly once.  They happen in the step in which the
    leader settles: there the leader and each of its followers, [B] among
    them, decrement the counter and call dequeue once each, and every one
    of these calls starts a task from the queue as long as one waits. *)
Theorem follower_holds_slot (config : ClientConfig.t) (s : Client) (B A : nat) :
  reachable config s -> (B, served A) ∈ trace s ->
  count isRun B (trace s) = 1%nat /\
  (promiseOf s A = None ->
     (B, A) ∈ reactions s /\ count isReleased B (trace s) = 0%nat /\
     count isDequeueCalled B (trace s) = 0%nat) /\
  (is_Some (promiseOf s A) ->
     ((B, A) ∉ reactions s) /\ count isReleased B (trace s) = 1%nat /\
     count isDequeueCalled B (trace s) = 1%nat) /\
  inFlight s = Z.of_nat (nactive (calls s) + length (reactions s)) /\
  NoDup (reactions s).*1 /\
  (forall b s0 c, calls s0 !! B = Some c -> inFlight (runTask config b B s0) = inFlight s0 + 1) /\
  (forall o s0, followerSettle config o s0 B = dequeue config (followerBody o s0 B)) /\
  (forall e,
     promiseOf s A = None ->
     (exists r math, e = FetchSettles A r math) \/ e = Microtask A ->
     is_Some (promiseOf (step config s e) A) ->
     let s' := step config s e in
     let releases := S (length (followersOf A s)) in
     B ∈ followersOf A s /\
     count isReleased B (trace s') = 1%nat /\
     count isDequeueCalled B (trace s') = 1%nat /\
     length (dequeuedOrder (trace s'))
     = (length (dequeuedOrder (trace s)) + Nat.min releases (length (queue s)))%nat /\
     length (queue s') = (length (queue s) - releases)%nat).
Proof.
  intros Hr HA. pose proof (Inv_reachable config s Hr) as HI.
  destruct (follower_accounts config s B A Hr HA) as (H1 & H2 & H3).
  split; [exact H1 |]. split; [exact H2 |]. split; [exact H3 |].
  split; [| split; [| split; [| split]]].
  - rewrite (inv_counter _ _ _ _ _ HI). simpl. f_equal. lia.
  - pose proof (inv_followers_nodup _ _ _ _ _ HI) as H. rewrite app_nil_r in H. exact H.
  - intros b s0 c0 Hc0. destruct (runTask_cases config b B s0 c0 Hc0) as (H & _). exact H.
  - reflexivity.
  - intros e Hnone He Hsome s' releases.
    destruct (H2 Hnone) as (Hre & _).
    assert (Hin : B ∈ followersOf A s).
    { unfold followersOf. apply list_elem_of_fmap. exists (B, A). split; [reflexivity |].
      apply list_elem_of_filter. split; [reflexivity | exact Hre]. }
    assert (Hr' : reachable config s') by (constructor; exact Hr).
    assert (HA' : (B, served A) ∈ trace s').
    { destruct (reachable_queue config s Hr) as [Hq _].
      destruct (qmove_trace _ _ _ (qmove_step config s e Hq)) as [evs Hevs].
      simpl in Hevs. unfold s'. rewrite Hevs. apply elem_of_app. left. exact HA. }
    destruct (follower_accounts config s' B A Hr' HA') as (_ & _ & H3').
    destruct (H3' Hsome) as (_ & Hrel & Hdq).
    destruct (settlement_releases config s A e Hr He Hnone Hsome) as [Hq Ht].
    fold s' releases in Hq, Ht.
    split; [exact Hin |]. split; [exact Hrel |]. split; [exact Hdq |]. split.
    + rewrite Ht, length_app, taken_length. reflexivity.
    + rewrite Hq. unfold waiting. destruct (lifoPop config).
      * rewrite length_take. lia.
      * apply length_drop.
Qed.

Lemma follower_holds_slot_witness :
  let s := run capacityTwo init
             [CallRequest "/a" (keyed "k" false true);
              CallRequest "/b" (keyed "k" false true);
              CallRequest "/c" noOptions; CallRequest "/d" noOptions] in
  let s' := step capacityTwo s (FetchSettles 0 (Responds (response 200)) host) in
  (1%nat, served 0%nat) ∈ trace s /\
  promiseOf s 0 = None /\
  inFlight s = 2 /\ queue s = [2; 3]%nat /\
  ((1%nat, 0%nat) ∈ reactions s /\ count isReleased 1 (trace s) = 0%nat /\
   count isDequeueCalled 1 (trace s) = 0%nat) /\
  (1%nat ∈ followersOf 0 s /\
   count isReleased 1 (trace s') = 1%nat /\
   count isDequeueCalled 1 (trace s') = 1%nat /\
   length (dequeuedOrder (trace s'))
   = (length (dequeuedOrder (trace s))
      + Nat.min (S (length (followersOf 0 s))) (length (queue s)))%nat /\
   length (queue s') = (length (queue s) - S (length (followersOf 0 s)))%nat) /\
  dequeuedOrder (trace s') = [2; 3]%nat /\ inFlight s' = 2.
Proof.
  intros s s'.
  assert (Hin : (1%nat, served 0%nat) ∈ trace s).
  { vm_compute. repeat first [left | right]. }
  assert (Hp : promiseOf s 0 = None) by (vm_compute; reflexivity).
  split; [exact Hin |]. split; [exact Hp |]. split; [vm_compute; reflexivity |].
  split; [vm_compute; reflexivity |].
  destruct (follower_holds_slot capacityTwo s 1%nat 0%nat) as (_ & H & _ & _ & _ & _ & _ & H').
  - apply (reachable_run capacityTwo). constructor.
  - exact Hin.
  - split; [exact (H Hp) |]. split; [| vm_compute; split; reflexivity].
    apply (H' (FetchSettles 0 (Responds (response 200)) host) Hp).
    + left. eauto.
    + vm_compute. eauto.
Defined.
